(** * Survey-pattern generation of [kml_to_wayp_v8.py]

    A shallow embedding of the geometry core of the converter class
    [KMLToWaypointV8]: inward buffering, longest-side bearing, the
    perpendicular sweep with line clipping, and the ordering of the
    scan lines into one waypoint sequence.

    Python floats are idealised as real numbers: every arithmetic
    operation, comparison and [math] function is the exact one on [R].
    Rounding, signed zeros, infinities and NaN are outside the model.
    A call that can raise returns an [outcome]; the loop whose
    termination depends on the spacing takes fuel. *)

From Stdlib Require Import Reals Machin Lra Lia Psatz List Arith ZArith Bool Sorted Permutation.
Import ListNotations.
Local Open Scope R_scope.

(** ** Outcomes of a call *)

Inductive exn : Type := IndexError | ValueError.

Inductive outcome (A : Type) : Type :=
| Ok (a : A)
| Raise (e : exn)
| OutOfFuel.
Arguments Ok {A} a.
Arguments Raise {A} e.
Arguments OutOfFuel {A}.

Definition bind {A B : Type} (m : outcome A) (k : A -> outcome B) : outcome B :=
  match m with
  | Ok a => k a
  | Raise e => Raise e
  | OutOfFuel => OutOfFuel
  end.

Notation "x <- m ;; k" := (bind m (fun x => k))
  (at level 61, m at next level, right associativity).
Notation "' pat <- m ;; k" := (bind m (fun x => match x with pat => k end))
  (at level 61, pat pattern, m at next level, right associativity).

(** ** The [math] module and float operators *)

Module PyMath.

Definition Rltb (x y : R) : bool := if Rlt_dec x y then true else false.
Definition Rleb (x y : R) : bool := if Rle_dec x y then true else false.
Definition Reqb (x y : R) : bool := if Req_dec_T x y then true else false.

Definition radians (x : R) : R := x * PI / 180.
Definition degrees (x : R) : R := x * 180 / PI.

(** [math.atan2(y, x)], quadrant by quadrant; [atan2(0, 0)] is [0]. *)
Definition atan2 (y x : R) : R :=
  if Rltb 0 x then atan (y / x)
  else if Rltb x 0 then
         if Rleb 0 y then atan (y / x) + PI else atan (y / x) - PI
  else if Rltb 0 y then PI / 2
  else if Rltb y 0 then - (PI / 2)
  else 0.

(** Float [x % m]: the result takes the sign of [m]. *)
Definition fmod (x m : R) : R := x - m * IZR (Int_part (x / m)).

Arguments Rltb : simpl never.
Arguments Rleb : simpl never.
Arguments Reqb : simpl never.

End PyMath.
Import PyMath.

(** ** Points, polygons and the converter's settings *)

Definition point : Type := (R * R)%type.
Definition polygon : Type := list point.

Definition origin : point := (0, 0).

Record converter : Type := {
  spacing : R;
  buffer_distance : R;
  home_position : option point
}.

(** ** GeoMath *)

Definition earth_radius : R := 6371000.

Definition haversine_a (point1 point2 : point) : R :=
  let '(lat1, lon1) := point1 in
  let '(lat2, lon2) := point2 in
  let lat1_rad := radians lat1 in
  let lat2_rad := radians lat2 in
  let dlat := radians (lat2 - lat1) in
  let dlon := radians (lon2 - lon1) in
  (sin (dlat / 2)) ^ 2 + cos lat1_rad * cos lat2_rad * (sin (dlon / 2)) ^ 2.

Definition calculate_distance (point1 point2 : point) : R :=
  let a := haversine_a point1 point2 in
  let c := 2 * atan2 (sqrt a) (sqrt (1 - a)) in
  earth_radius * c.

(** The bearing computed inside the loop of
    [find_longest_side_with_bearing]. *)
Definition side_bearing (p1 p2 : point) : R :=
  let lat1 := radians (fst p1) in
  let lon1 := radians (snd p1) in
  let lat2 := radians (fst p2) in
  let lon2 := radians (snd p2) in
  let dlon := lon2 - lon1 in
  let y := sin dlon * cos lat2 in
  let x := cos lat1 * sin lat2 - sin lat1 * cos lat2 * cos dlon in
  let bearing := atan2 y x in
  let bearing := degrees bearing in
  fmod (bearing + 360) 360.

Definition point_at_bearing_and_distance (lat lon bearing distance : R) : point :=
  let lat1 := radians lat in
  let lon1 := radians lon in
  let bearing_rad := radians bearing in
  let lat2 := asin (sin lat1 * cos (distance / earth_radius) +
                    cos lat1 * sin (distance / earth_radius) * cos bearing_rad) in
  let lon2 := lon1 + atan2 (sin bearing_rad * sin (distance / earth_radius) * cos lat1)
                           (cos (distance / earth_radius) - sin lat1 * sin lat2) in
  (degrees lat2, degrees lon2).

(** ** SegmentIntersector *)

Definition intersection_denom (p1 p2 p3 p4 : point) : R :=
  let '(x1, y1) := p1 in
  let '(x2, y2) := p2 in
  let '(x3, y3) := p3 in
  let '(x4, y4) := p4 in
  (x1 - x2) * (y3 - y4) - (y1 - y2) * (x3 - x4).

Definition intersection_t (p1 p2 p3 p4 : point) : R :=
  let '(x1, y1) := p1 in
  let '(x2, y2) := p2 in
  let '(x3, y3) := p3 in
  let '(x4, y4) := p4 in
  ((x1 - x3) * (y3 - y4) - (y1 - y3) * (x3 - x4)) / intersection_denom p1 p2 p3 p4.

Definition intersection_u (p1 p2 p3 p4 : point) : R :=
  let '(x1, y1) := p1 in
  let '(x2, y2) := p2 in
  let '(x3, y3) := p3 in
  let '(x4, y4) := p4 in
  - ((x1 - x2) * (y1 - y3) - (y1 - y2) * (x1 - x3)) / intersection_denom p1 p2 p3 p4.

Definition line_intersection (p1 p2 p3 p4 : point) : option point :=
  let denom := intersection_denom p1 p2 p3 p4 in
  if Rltb (Rabs denom) 1e-10 then None
  else
    let t := intersection_t p1 p2 p3 p4 in
    let u := intersection_u p1 p2 p3 p4 in
    if Rleb 0 u && Rleb u 1 then
      Some (fst p1 + t * (fst p2 - fst p1), snd p1 + t * (snd p2 - snd p1))
    else None.

(** The side starting at vertex [i]: [polygon[i]] and
    [polygon[(i + 1) % len(polygon)]].  Both indices are in range whenever
    [i] is, so the default of [nth] is never returned. *)
Definition side_at (poly : polygon) (i : nat) : point * point :=
  (nth i poly origin, nth ((i + 1) mod length poly) poly origin).

Definition is_duplicate (pt : point) (unique_intersections : list point) : bool :=
  existsb (fun existing =>
             Rltb (Rabs (fst pt - fst existing)) 1e-8 &&
             Rltb (Rabs (snd pt - snd existing)) 1e-8)
          unique_intersections.

Definition remove_duplicates (intersections : list point) : list point :=
  fold_left (fun unique_intersections pt =>
               if is_duplicate pt unique_intersections
               then unique_intersections
               else unique_intersections ++ [pt])
            intersections [].

Definition edge_hits (line_start line_end : point) (poly : polygon) : list point :=
  fold_left (fun intersections i =>
               let '(edge_start, edge_end) := side_at poly i in
               match line_intersection line_start line_end edge_start edge_end with
               | Some intersection => intersections ++ [intersection]
               | None => intersections
               end)
            (seq 0 (length poly)) [].

Definition line_polygon_intersections (line_start line_end : point) (poly : polygon)
  : list point :=
  remove_duplicates (edge_hits line_start line_end poly).

(** ** PolygonOps *)

Definition py_sum (l : list R) : R := fold_left Rplus l 0.

(** [min(l)] and [max(l)] raise [ValueError] on an empty list. *)
Definition py_min (l : list R) : outcome R :=
  match l with
  | [] => Raise ValueError
  | x :: rest => Ok (fold_left (fun cur y => if Rltb y cur then y else cur) rest x)
  end.

Definition py_max (l : list R) : outcome R :=
  match l with
  | [] => Raise ValueError
  | x :: rest => Ok (fold_left (fun cur y => if Rltb cur y then y else cur) rest x)
  end.

Record bounds : Type := {
  min_lat : R;
  max_lat : R;
  min_lon : R;
  max_lon : R
}.

Definition get_polygon_bounds (poly : polygon) : outcome bounds :=
  let lats := map fst poly in
  let lons := map snd poly in
  a <- py_min lats ;;
  b <- py_max lats ;;
  c <- py_min lons ;;
  d <- py_max lons ;;
  Ok {| min_lat := a; max_lat := b; min_lon := c; max_lon := d |}.

Definition centroid (poly : polygon) : point :=
  (py_sum (map fst poly) / INR (length poly),
   py_sum (map snd poly) / INR (length poly)).

Definition buffer_vertex (self : converter) (center : point) (p : point) : point :=
  let '(lat, lon) := p in
  let to_center_lat := fst center - lat in
  let to_center_lon := snd center - lon in
  let distance := sqrt (to_center_lat ^ 2 + to_center_lon ^ 2) in
  if Rltb 0 distance then
    (lat + (to_center_lat / distance) * buffer_distance self,
     lon + (to_center_lon / distance) * buffer_distance self)
  else (lat, lon).

Definition create_buffer_polygon (self : converter) (poly : polygon) : polygon :=
  if (length poly <? 3)%nat then poly
  else
    let center := centroid poly in
    fold_left (fun buffered_polygon p => buffered_polygon ++ [buffer_vertex self center p])
              poly [].

(** The four running minima of [find_polygon_corners]; a distance of
    [None] stands for the initial [float('inf')]. *)
Record corner_slot : Type := {
  slot_dist : option R;
  slot_point : option point
}.

Definition empty_slot : corner_slot := {| slot_dist := None; slot_point := None |}.

Definition update_slot (s : corner_slot) (d : R) (p : point) : corner_slot :=
  match slot_dist s with
  | None => {| slot_dist := Some d; slot_point := Some p |}
  | Some best => if Rltb d best then {| slot_dist := Some d; slot_point := Some p |} else s
  end.

Record corners : Type := {
  top_right : option point;
  top_left : option point;
  bottom_left : option point;
  bottom_right : option point
}.

Definition no_corners : corners :=
  {| top_right := None; top_left := None; bottom_left := None; bottom_right := None |}.

Definition find_polygon_corners (poly : polygon) : outcome corners :=
  if (length poly <? 3)%nat then Ok no_corners
  else
    b <- get_polygon_bounds poly ;;
    let step (st : corner_slot * corner_slot * corner_slot * corner_slot) (p : point) :=
      let '(tr, tl, bl, br) := st in
      let '(lat, lon) := p in
      let tr_dist := sqrt ((lat - max_lat b) ^ 2 + (lon - max_lon b) ^ 2) in
      let tl_dist := sqrt ((lat - max_lat b) ^ 2 + (lon - min_lon b) ^ 2) in
      let bl_dist := sqrt ((lat - min_lat b) ^ 2 + (lon - min_lon b) ^ 2) in
      let br_dist := sqrt ((lat - min_lat b) ^ 2 + (lon - max_lon b) ^ 2) in
      (update_slot tr tr_dist p, update_slot tl tl_dist p,
       update_slot bl bl_dist p, update_slot br br_dist p) in
    let '(tr, tl, bl, br) :=
      fold_left step poly (empty_slot, empty_slot, empty_slot, empty_slot) in
    Ok {| top_right := slot_point tr; top_left := slot_point tl;
          bottom_left := slot_point bl; bottom_right := slot_point br |}.

(** ** Dominant bearing *)

Record longest_side : Type := {
  longest_side_index : nat;
  max_length : R;
  best_bearing : R;
  best_start : point;
  best_end : point
}.

Definition longest_step (poly : polygon) (st : longest_side) (i : nat) : longest_side :=
  let '(p1, p2) := side_at poly i in
  let length := calculate_distance p1 p2 in
  let bearing := side_bearing p1 p2 in
  if Rltb (max_length st) length then
    {| longest_side_index := i; max_length := length; best_bearing := bearing;
       best_start := p1; best_end := p2 |}
  else st.

Definition find_longest_side_with_bearing (poly : polygon) : outcome longest_side :=
  match poly with
  | [] => Raise IndexError
  | p0 :: rest =>
    let p1 := match rest with [] => p0 | q :: _ => q end in
    if (length poly <? 3)%nat then
      Ok {| longest_side_index := 0; max_length := 0; best_bearing := 0;
            best_start := p0; best_end := p1 |}
    else
      Ok (fold_left (longest_step poly) (seq 0 (length poly))
                    {| longest_side_index := 0; max_length := 0; best_bearing := 0;
                       best_start := p0; best_end := p1 |})
  end.

(** ** Sorting and selection with a key *)

(** [list.sort(key=...)] is stable: an element goes after every element
    whose key is not larger. *)
Fixpoint insert_by {A : Type} (key : A -> R) (x : A) (l : list A) : list A :=
  match l with
  | [] => [x]
  | y :: rest => if Rltb (key x) (key y) then x :: l else y :: insert_by key x rest
  end.

Definition py_sort {A : Type} (key : A -> R) (l : list A) : list A :=
  fold_left (fun sorted x => insert_by key x sorted) l [].

(** [min(x :: rest, key=...)]: the first element of smallest key. *)
Definition py_min_by {A : Type} (key : A -> R) (x : A) (rest : list A) : A :=
  fold_left (fun cur y => if Rltb (key y) (key cur) then y else cur) rest x.

(** ** ScanLineGenerator *)

Record scan_line : Type := {
  offset : R;
  intersections : list point;
  start_point : point;
  end_point : point
}.

Definition max_extension : R := 2000.

Definition probe_ends (point_lat point_lon bearing : R) : point * point :=
  (point_at_bearing_and_distance point_lat point_lon bearing max_extension,
   point_at_bearing_and_distance point_lat point_lon (fmod (bearing + 180) 360)
                                 max_extension).

Definition get_line_intersections_only
           (point_lat point_lon bearing : R) (poly : polygon) : list point :=
  let '(end1, end2) := probe_ends point_lat point_lon bearing in
  let intersections := line_polygon_intersections end1 end2 poly in
  if (2 <=? length intersections)%nat
  then py_sort (fun p => calculate_distance end1 p) intersections
  else [].

Section Sweep.

(** The locals of [generate_parallel_lines_to_longest_side] that the
    two nested loops read. *)
Variables (center_lat center_lon perp_bearing bearing : R).
Variable buffered_polygon : polygon.
Variables (spacing_meters max_extend : R).

(** One execution of the body of the [while] loop. *)
Definition sweep_body (direction : R) (st : R * list scan_line)
  : R * list scan_line :=
  let '(offset_distance, all_lines) := st in
  if Reqb offset_distance 0 && Reqb direction (-1) then
    (offset_distance + spacing_meters, all_lines)
  else
    let '(offset_lat, offset_lon) :=
      point_at_bearing_and_distance center_lat center_lon perp_bearing
                                    (offset_distance * direction) in
    let line_intersections :=
      get_line_intersections_only offset_lat offset_lon bearing buffered_polygon in
    let all_lines :=
      if (2 <=? length line_intersections)%nat then
        let bearing_start_point := (offset_lat, offset_lon) in
        let line_intersections :=
          py_sort (fun p => calculate_distance bearing_start_point p)
                  line_intersections in
        all_lines ++ [{| offset := offset_distance * direction;
                         intersections := line_intersections;
                         start_point := nth 0 line_intersections origin;
                         end_point := last line_intersections origin |}]
      else all_lines in
    (offset_distance + spacing_meters, all_lines).

Definition sweep_guard (st : R * list scan_line) : bool :=
  Rleb (fst st) max_extend.

(** The [while] loop; one unit of fuel per test of the guard. *)
Fixpoint sweep_while (fuel : nat) (direction : R) (st : R * list scan_line)
  : outcome (R * list scan_line) :=
  match fuel with
  | O => OutOfFuel
  | S fuel' =>
    if sweep_guard st then sweep_while fuel' direction (sweep_body direction st)
    else Ok st
  end.

(** [for direction in [-1, 1]]: [offset_distance] restarts at [0]. *)
Definition sweep (fuel : nat) : outcome (list scan_line) :=
  fold_left (fun acc direction =>
               all_lines <- acc ;;
               st <- sweep_while fuel direction (0, all_lines) ;;
               Ok (snd st))
            [-1; 1] (Ok []).

End Sweep.

(** ** PathOrderer *)

Inductive pattern_end : Type := first_start | first_end | last_start | last_end.

Definition startswith_first (e : pattern_end) : bool :=
  match e with
  | first_start | first_end => true
  | last_start | last_end => false
  end.

Definition blank_line : scan_line :=
  {| offset := 0; intersections := []; start_point := origin; end_point := origin |}.

(** The traversal plan: [line_order] and [start_from_end]. *)
Definition choose_order (self : converter) (all_lines : list scan_line) (crn : corners)
  : list nat * bool :=
  let first_line := nth 0 all_lines blank_line in
  let last_line := last all_lines blank_line in
  match home_position self, top_right crn, top_left crn with
  | Some _, Some tr_corner, Some _ =>
    let closest_to_tr :=
      py_min_by (fun x : point * pattern_end => calculate_distance (fst x) tr_corner)
                (start_point first_line, first_start)
                [(end_point first_line, first_end);
                 (start_point last_line, last_start);
                 (end_point last_line, last_end)] in
    if startswith_first (snd closest_to_tr) then
      (seq 0 (length all_lines),
       match snd closest_to_tr with first_end => true | _ => false end)
    else
      (rev (seq 0 (length all_lines)),
       match snd closest_to_tr with last_end => true | _ => false end)
  | _, _, _ => (seq 0 (length all_lines), false)
  end.

(** The body of [for i, line_idx in enumerate(line_order)]. *)
Definition emit_line (all_lines : list scan_line) (start_from_end : bool)
           (waypoints : list point) (it : nat * nat) : list point :=
  let '(i, line_idx) := it in
  let line := nth line_idx all_lines blank_line in
  let start_pt := start_point line in
  let end_pt := end_point line in
  if (i =? 0)%nat then
    if start_from_end then waypoints ++ [end_pt; start_pt]
    else waypoints ++ [start_pt; end_pt]
  else
    let prev_end := last waypoints origin in
    let start_dist := calculate_distance prev_end start_pt in
    let end_dist := calculate_distance prev_end end_pt in
    if Rltb start_dist end_dist then waypoints ++ [start_pt; end_pt]
    else waypoints ++ [end_pt; start_pt].

Definition build_waypoints (all_lines : list scan_line) (line_order : list nat)
           (start_from_end : bool) : list point :=
  fold_left (emit_line all_lines start_from_end)
            (combine (seq 0 (length line_order)) line_order) [].

(** The final check of [optimize_line_ordering_for_corners]. *)
Definition reverse_for_home (self : converter) (waypoints : list point) : list point :=
  match home_position self with
  | Some home =>
    if (0 <? length waypoints)%nat then
      let first_to_home := calculate_distance (nth 0 waypoints origin) home in
      let last_to_home := calculate_distance (last waypoints origin) home in
      if Rltb last_to_home (first_to_home * 0.8) then rev waypoints else waypoints
    else waypoints
  | None => waypoints
  end.

Definition optimize_line_ordering_for_corners
           (self : converter) (all_lines : list scan_line) (crn : corners) (bearing : R)
  : list point :=
  match all_lines with
  | [] => []
  | _ :: _ =>
    let '(line_order, start_from_end) := choose_order self all_lines crn in
    reverse_for_home self (build_waypoints all_lines line_order start_from_end)
  end.

(** ** The pipeline *)

(** The locals of [generate_parallel_lines_to_longest_side] that are
    computed from the buffered polygon before the sweep starts. *)
Record survey_locals : Type := {
  loc_bearing : R;
  loc_corners : corners;
  loc_perp_bearing : R;
  loc_bounds : bounds;
  loc_center_lat : R;
  loc_center_lon : R;
  loc_spacing_meters : R;
  loc_max_extend : R
}.

Definition prepare_sweep (self : converter) (buffered_polygon : polygon)
  : outcome survey_locals :=
  side <- find_longest_side_with_bearing buffered_polygon ;;
  crn <- find_polygon_corners buffered_polygon ;;
  let bearing := best_bearing side in
  let perp_bearing := fmod (bearing + 90) 360 in
  b <- get_polygon_bounds buffered_polygon ;;
  let center_lat := (min_lat b + max_lat b) / 2 in
  let center_lon := (min_lon b + max_lon b) / 2 in
  let spacing_meters := spacing self * 111000 in
  let diagonal_distance :=
    calculate_distance (min_lat b, min_lon b) (max_lat b, max_lon b) in
  let max_extend := diagonal_distance / 2 in
  Ok {| loc_bearing := bearing; loc_corners := crn; loc_perp_bearing := perp_bearing;
        loc_bounds := b; loc_center_lat := center_lat; loc_center_lon := center_lon;
        loc_spacing_meters := spacing_meters; loc_max_extend := max_extend |}.

(** The scan lines collected by the two sweeps, sorted by offset. *)
Definition collect_lines (loc : survey_locals) (fuel : nat) (buffered_polygon : polygon)
  : outcome (list scan_line) :=
  all_lines <- sweep (loc_center_lat loc) (loc_center_lon loc) (loc_perp_bearing loc)
                     (loc_bearing loc) buffered_polygon
                     (loc_spacing_meters loc) (loc_max_extend loc) fuel ;;
  Ok (py_sort offset all_lines).

Definition generate_parallel_lines_to_longest_side
           (self : converter) (fuel : nat) (poly : polygon) : outcome (list point) :=
  if (length poly <? 3)%nat then Ok []
  else
    let buffered_polygon := create_buffer_polygon self poly in
    loc <- prepare_sweep self buffered_polygon ;;
    all_lines <- collect_lines loc fuel buffered_polygon ;;
    Ok (optimize_line_ordering_for_corners self all_lines (loc_corners loc)
                                           (loc_bearing loc)).

Section Probe.

(** What one iteration of the sweep does at a signed offset, taken out
    of the loop body so that statements can refer to it. *)
Variables (center_lat center_lon perp_bearing bearing : R).
Variable buffered_polygon : polygon.

(** The deduplicated intersections of the probe line at that offset. *)
Definition probe_hits (signed_offset : R) : list point :=
  let '(offset_lat, offset_lon) :=
    point_at_bearing_and_distance center_lat center_lon perp_bearing signed_offset in
  let '(end1, end2) := probe_ends offset_lat offset_lon bearing in
  line_polygon_intersections end1 end2 buffered_polygon.

(** The line appended to [all_lines] at that offset, if any. *)
Definition scan_line_at (signed_offset : R) : list scan_line :=
  let '(offset_lat, offset_lon) :=
    point_at_bearing_and_distance center_lat center_lon perp_bearing signed_offset in
  let line_intersections :=
    get_line_intersections_only offset_lat offset_lon bearing buffered_polygon in
  if (2 <=? length line_intersections)%nat then
    let line_intersections :=
      py_sort (fun p => calculate_distance (offset_lat, offset_lon) p)
              line_intersections in
    [{| offset := signed_offset;
        intersections := line_intersections;
        start_point := nth 0 line_intersections origin;
        end_point := last line_intersections origin |}]
  else [].

(** The lines appended by iterations [0 .. n-1] of the [while] loop for
    one direction, with spacing [s]. *)
Definition swept_lines (s direction : R) (n : nat) : list scan_line :=
  flat_map (fun k => if Reqb (INR k * s) 0 && Reqb direction (-1) then []
                     else scan_line_at (INR k * s * direction))
           (seq 0 n).

End Probe.

(** ** Auxiliary constructions used in the statements *)

(** A side that crosses the line through [p1] and [p2] at right angles,
    centred on the point of parameter [t0]. *)
Definition crossing_side (p1 p2 : point) (t0 : R) : point * point :=
  let dx := fst p2 - fst p1 in
  let dy := snd p2 - snd p1 in
  let c := / (dx * dx + dy * dy) in
  let qx := fst p1 + t0 * dx in
  let qy := snd p1 + t0 * dy in
  ((qx + c * dy, qy - c * dx), (qx - c * dy, qy + c * dx)).

(** A point strictly outside the bounding box. *)
Definition outside_bounds (b : bounds) (p : point) : Prop :=
  fst p < min_lat b \/ max_lat b < fst p \/ snd p < min_lon b \/ max_lon b < snd p.

(** The point of parameter [t] on the line through two points. *)
Definition line_point (p1 p2 : point) (t : R) : point :=
  (fst p1 + t * (fst p2 - fst p1), snd p1 + t * (snd p2 - snd p1)).

Definition unit_square : polygon := [(0, 0); (0, 1); (1, 1); (1, 0)].

Definition unit_bounds : bounds :=
  {| min_lat := 0; max_lat := 1; min_lon := 0; max_lon := 1 |}.

(** The contribution of side [i] to the intersections of a line. *)
Definition side_hit (ls le : point) (poly : polygon) (i : nat) : list point :=
  match line_intersection ls le (fst (side_at poly i)) (snd (side_at poly i)) with
  | Some p => [p]
  | None => []
  end.

(** Euclidean distance in the (lat, lon) plane, as computed by
    [create_buffer_polygon] between a vertex and the centre. *)
Definition planar_distance (p q : point) : R :=
  sqrt ((fst q - fst p) ^ 2 + (snd q - snd p) ^ 2).

Definition buffer_by (d : R) : converter :=
  {| spacing := 0.00005; buffer_distance := d; home_position := None |}.

Definition meridian_triple : polygon := [(0, 0); (0, 3); (0, 6)].

(** The two endpoints of a line, in one of the two orientations. *)
Definition oriented (l : scan_line) (from_end : bool) : list point :=
  if from_end then [end_point l; start_point l] else [start_point l; end_point l].

(** The waypoints before the final check against the home position. *)
Definition built_waypoints (self : converter) (all_lines : list scan_line) (crn : corners)
  : list point :=
  build_waypoints all_lines (fst (choose_order self all_lines crn))
                  (snd (choose_order self all_lines crn)).

(** A converter that differs from the default only in its home position. *)
Definition with_home (home : option point) : converter :=
  {| spacing := 0.00005; buffer_distance := 0.00002; home_position := home |}.

Definition line_between (o : R) (a b : point) : scan_line :=
  {| offset := o; intersections := [a; b]; start_point := a; end_point := b |}.

(** The nearest-continuation rule in the words of the specification:
    after the waypoint [prev], the next line starts at whichever of its
    endpoints is nearer, its start point only when strictly nearer. *)
Fixpoint greedy_continue (prev : point) (lines : list scan_line) : list point :=
  match lines with
  | [] => []
  | l :: rest =>
    if Rltb (calculate_distance prev (start_point l)) (calculate_distance prev (end_point l))
    then start_point l :: end_point l :: greedy_continue (end_point l) rest
    else end_point l :: start_point l :: greedy_continue (start_point l) rest
  end.

Definition lawnmower_path (lines : list scan_line) : list point :=
  match lines with
  | [] => []
  | l :: rest => start_point l :: end_point l :: greedy_continue (end_point l) rest
  end.

(** Every line in its default orientation. *)
Definition default_path (lines : list scan_line) : list point :=
  flat_map (fun l => [start_point l; end_point l]) lines.

Definition two_rows : list scan_line :=
  [line_between 0 (0, 0) (0, 1); line_between 1 (1, 0) (1, 1)].

(** The order that [list.sort(key=...)] establishes. *)
Definition key_le {A : Type} (key : A -> R) (x y : A) : Prop := key x <= key y.

(** The number of times the body of the [while] loop runs for one
    direction when the spacing is positive: offsets [0, s, 2s, ...] up to
    [max_extend]. *)
Definition sweep_iterations (s max_extend : R) : nat :=
  if Rltb max_extend 0 then O else S (Z.to_nat (Int_part (max_extend / s))).

(** Three coincident vertices. *)
Definition collapsed_triangle : polygon := [(0, 0); (0, 0); (0, 0)].

(** The waypoints of a list of visits: each visited line gives its two
    endpoints, in the recorded orientation. *)
Definition visit_waypoints (visits : list (scan_line * bool)) : list point :=
  flat_map (fun v => oriented (fst v) (snd v)) visits.

(** Length and bearing of the side that starts at vertex [i]. *)
Definition side_length (poly : polygon) (i : nat) : R :=
  calculate_distance (fst (side_at poly i)) (snd (side_at poly i)).

Definition side_bearing_at (poly : polygon) (i : nat) : R :=
  side_bearing (fst (side_at poly i)) (snd (side_at poly i)).

(** What holds in [find_longest_side_with_bearing] after the sides
    [0 .. k-1] have been examined, [init] being the state before the loop. *)
Definition longest_so_far (poly : polygon) (init : longest_side)
           (k : nat) (st : longest_side) : Prop :=
  (0 < max_length st /\
   (longest_side_index st < k)%nat /\
   max_length st = side_length poly (longest_side_index st) /\
   best_bearing st = side_bearing_at poly (longest_side_index st) /\
   (forall j, (j < k)%nat -> side_length poly j <= max_length st) /\
   (forall j, (j < longest_side_index st)%nat -> side_length poly j < max_length st))
  \/
  (st = init /\ forall j, (j < k)%nat -> side_length poly j = 0).

(** The retained probes are closed towards the centre line: whenever the
    probe at a signed offset within the sweep range is retained, so is
    every probe between it and offset 0. *)
Definition retention_closed_towards_center (loc : survey_locals) (poly : polygon) : Prop :=
  forall o o' : R,
    Rabs o <= loc_max_extend loc ->
    (2 <= length (probe_hits (loc_center_lat loc) (loc_center_lon loc)
                             (loc_perp_bearing loc) (loc_bearing loc) poly o))%nat ->
    (0 <= o' <= o \/ o <= o' <= 0) ->
    (2 <= length (probe_hits (loc_center_lat loc) (loc_center_lon loc)
                             (loc_perp_bearing loc) (loc_bearing loc) poly o'))%nat.

(** A converter with a given line spacing and no inward buffer. *)
Definition spaced_by (sp : R) : converter :=
  {| spacing := sp; buffer_distance := 0; home_position := None |}.

(** Twice the signed area of the triangle of three points. *)
Definition cross (a b c : point) : R :=
  (fst b - fst a) * (snd c - snd b) - (snd b - snd a) * (fst c - fst b).

(** Every vertex lies on the same side of, or on, the line through each
    side: all to the left of every side, or all to the right. *)
Definition convex_polygon (poly : polygon) : Prop :=
  (forall i j, (i < length poly)%nat -> (j < length poly)%nat ->
               0 <= cross (fst (side_at poly i)) (snd (side_at poly i))
                          (nth j poly origin)) \/
  (forall i j, (i < length poly)%nat -> (j < length poly)%nat ->
               cross (fst (side_at poly i)) (snd (side_at poly i))
                     (nth j poly origin) <= 0).

(** The triangle with a side of [L] degrees along the meridian of
    longitude 0, centred on the equator, and its apex [L / 2] degrees
    to the east. *)
Definition meridian_triangle (L : R) : polygon :=
  [(- (L / 2), 0); (L / 2, 0); (0, L / 2)].

(** The half-length of a probe line in degrees of latitude, for a probe
    that runs along a meridian through a point of the equator. *)
Definition probe_reach : R := degrees (max_extension / earth_radius).

(** The sweep radius [max_extend] for [meridian_triangle L]: half the
    diagonal of its bounding box, in metres. *)
Definition triangle_max_extend (L : R) : R :=
  calculate_distance (- (L / 2), 0) (L / 2, L / 2) / 2.

(** A triangle small enough for the chord through the centre of its
    bounding box to be shorter than the 1e-8 deduplication tolerance. *)
Definition tiny_triangle : polygon := meridian_triangle 1.2e-8.

(** Distance in the (lat, lon) plane between a vertex and a corner of the
    bounding box, as computed in the loop of [find_polygon_corners]. *)
Definition corner_distance (corner p : point) : R :=
  sqrt ((fst p - fst corner) ^ 2 + (snd p - snd corner) ^ 2).

(** [p] is the first vertex of [poly] at the smallest distance from
    [corner]. *)
Definition first_nearest_vertex (poly : polygon) (corner p : point) : Prop :=
  exists i, (i < length poly)%nat /\ nth i poly origin = p /\
            (forall j, (j < length poly)%nat ->
                       corner_distance corner p <= corner_distance corner (nth j poly origin)) /\
            (forall j, (j < i)%nat ->
                       corner_distance corner p < corner_distance corner (nth j poly origin)).

(** Two points that the deduplication of [line_polygon_intersections]
    takes for the same point. *)
Definition near_duplicate (p q : point) : Prop :=
  Rabs (fst p - fst q) < 1e-8 /\ Rabs (snd p - snd q) < 1e-8.

(** A point of the closed side that starts at some vertex of [poly]. *)
Definition on_side (poly : polygon) (q : point) : Prop :=
  exists i u, (i < length poly)%nat /\ 0 <= u <= 1 /\
              q = line_point (fst (side_at poly i)) (snd (side_at poly i)) u.

(** A back-and-forth path over [lines] in the given order: the first
    line from its start or from its end, every later line from the
    endpoint nearer to the previous waypoint. *)
Definition boustrophedon (lines : list scan_line) (from_end : bool) : list point :=
  match lines with
  | [] => []
  | l :: rest => oriented l from_end ++ greedy_continue (last (oriented l from_end) origin) rest
  end.

(** ** Loops that take fuel *)

(** [while guard(st): st = body(st)], one unit of fuel per test of the
    guard. *)
Fixpoint while_loop {St : Type} (guard : St -> bool) (body : St -> St) (fuel : nat)
         (st : St) : outcome St :=
  match fuel with
  | O => OutOfFuel
  | S fuel' => if guard st then while_loop guard body fuel' (body st) else Ok st
  end.

(** * The sweep of [kml_to_wayp_v7.py]

    [KMLToWaypointV7] shares [calculate_distance],
    [find_longest_side_with_bearing], [point_at_bearing_and_distance],
    [line_polygon_intersections], [line_intersection],
    [create_buffer_polygon] and [get_polygon_bounds] with the class above,
    line for line; what differs is modelled here. *)

Module V7.

(** The running minimum of [get_side_closest_to_home]; [None] stands
    for the initial [float('inf')]. *)
Definition closest_step (home : point) (poly : polygon) (st : option R * nat) (i : nat)
  : option R * nat :=
  let '(min_distance, closest_side) := st in
  let '(p1, p2) := side_at poly i in
  let midpoint := ((fst p1 + fst p2) / 2, (snd p1 + snd p2) / 2) in
  let distance := calculate_distance home midpoint in
  match min_distance with
  | None => (Some distance, i)
  | Some best => if Rltb distance best then (Some distance, i) else st
  end.

Definition get_side_closest_to_home (self : converter) (poly : polygon) : nat :=
  match home_position self with
  | None => 0%nat
  | Some home =>
    if (length poly <? 3)%nat then 0%nat
    else snd (fold_left (closest_step home poly) (seq 0 (length poly)) (None, 0%nat))
  end.

Definition generate_line_through_point_parallel_to_bearing
           (point_lat point_lon bearing : R) (poly : polygon) (go_forward : bool)
  : list point :=
  let '(end1, end2) := probe_ends point_lat point_lon bearing in
  let intersections := line_polygon_intersections end1 end2 poly in
  if (2 <=? length intersections)%nat then
    let intersections := py_sort (fun p => calculate_distance end1 p) intersections in
    let start_point := nth 0 intersections origin in
    let end_point := last intersections origin in
    if go_forward then [start_point; end_point] else [end_point; start_point]
  else [].

Definition optimize_pattern_end_near_home
           (self : converter) (waypoints : list point) (poly : polygon) : list point :=
  match home_position self with
  | None => waypoints
  | Some _ =>
    if (length waypoints <? 2)%nat then waypoints
    else
      let closest_side := get_side_closest_to_home self poly in
      if (closest_side <? length poly)%nat then
        let '(side_start, side_end) := side_at poly closest_side in
        let side_midpoint := ((fst side_start + fst side_end) / 2,
                              (snd side_start + snd side_end) / 2) in
        let first_to_side := calculate_distance (nth 0 waypoints origin) side_midpoint in
        let last_to_side := calculate_distance (last waypoints origin) side_midpoint in
        if Rltb last_to_side first_to_side then waypoints else rev waypoints
      else waypoints
  end.

(** The state of the two nested loops: [offset_distance], [waypoints]
    and [line_count]. *)
Definition sweep_state : Type := R * list point * nat.

Section Sweep.

Variables (center_lat center_lon perp_bearing bearing : R).
Variable buffered_polygon : polygon.
Variables (spacing_meters max_extend : R).

Definition sweep_body (direction : R) (st : sweep_state) : sweep_state :=
  let '(offset_distance, waypoints, line_count) := st in
  if Reqb offset_distance 0 && Reqb direction (-1) then
    (offset_distance + spacing_meters, waypoints, line_count)
  else
    let '(offset_lat, offset_lon) :=
      point_at_bearing_and_distance center_lat center_lon perp_bearing
                                    (offset_distance * direction) in
    let line_waypoints :=
      generate_line_through_point_parallel_to_bearing
        offset_lat offset_lon bearing buffered_polygon (line_count mod 2 =? 0)%nat in
    match line_waypoints with
    | [] => (offset_distance + spacing_meters, waypoints, line_count)
    | _ :: _ => (offset_distance + spacing_meters, waypoints ++ line_waypoints,
                 S line_count)
    end.

Definition sweep_guard (st : sweep_state) : bool :=
  Rleb (fst (fst st)) max_extend.

(** [for direction in [-1, 1]]: [offset_distance] restarts at [0],
    [waypoints] and [line_count] carry over. *)
Definition sweep (fuel : nat) : outcome (list point * nat) :=
  fold_left (fun acc direction =>
               '(waypoints, line_count) <- acc ;;
               st <- while_loop sweep_guard (sweep_body direction) fuel
                                (0, waypoints, line_count) ;;
               Ok (snd (fst st), snd st))
            [-1; 1] (Ok ([], 0%nat)).

End Sweep.

Definition generate_parallel_lines_to_longest_side
           (self : converter) (fuel : nat) (poly : polygon) : outcome (list point) :=
  if (length poly <? 3)%nat then Ok []
  else
    let buffered_polygon := create_buffer_polygon self poly in
    side <- find_longest_side_with_bearing buffered_polygon ;;
    let bearing := best_bearing side in
    let perp_bearing := fmod (bearing + 90) 360 in
    b <- get_polygon_bounds buffered_polygon ;;
    let center_lat := (min_lat b + max_lat b) / 2 in
    let center_lon := (min_lon b + max_lon b) / 2 in
    let spacing_meters := spacing self * 111000 in
    let diagonal_distance :=
      calculate_distance (min_lat b, min_lon b) (max_lat b, max_lon b) in
    let max_extend := diagonal_distance / 2 in
    '(waypoints, line_count) <- sweep center_lat center_lon perp_bearing bearing
                                      buffered_polygon spacing_meters max_extend fuel ;;
    Ok (match home_position self with
        | Some _ => optimize_pattern_end_near_home self waypoints buffered_polygon
        | None => waypoints
        end).

End V7.

(** The midpoint of the side that starts at vertex [i], as computed in
    [get_side_closest_to_home] and [optimize_pattern_end_near_home]. *)
Definition side_midpoint (poly : polygon) (i : nat) : point :=
  ((fst (fst (side_at poly i)) + fst (snd (side_at poly i))) / 2,
   (snd (fst (side_at poly i)) + snd (snd (side_at poly i))) / 2).

(** * The lawnmower of [vv3.py]

    [KMLToWaypointV3] sweeps the buffered polygon with lines of constant
    latitude.  Its [create_buffer_polygon] and [get_polygon_bounds] are
    those of the classes above, line for line. *)

(** [calculate_optimal_spacing], the same in the three classes; it reads
    [self.altitude] and [self.camera_settings['sidelap_percent']].
    [max(a, b)] returns [b] only when [b > a]. *)
Definition calculate_optimal_spacing (altitude : Z) (sidelap_percent : R) : R :=
  let sensor_width := 23.5 in
  let focal_length := 24 in
  let ground_width := (sensor_width * IZR altitude) / focal_length in
  let sidelap_factor := (100 - sidelap_percent) / 100 in
  let optimal_spacing := ground_width * sidelap_factor in
  let optimal_spacing_degrees := optimal_spacing / 111000 in
  if Rltb optimal_spacing_degrees 0.00001 then 0.00001 else optimal_spacing_degrees.

Module V3.

(** The entries of [camera_settings] that the geometry reads;
    [auto_spacing] is [camera_settings.get('auto_spacing', False)]. *)
Record camera : Type := {
  sidelap_percent : R;
  auto_spacing : bool
}.

Record converter : Type := {
  altitude : Z;
  spacing : R;
  buffer_distance : R;
  camera_settings : camera
}.

Definition tolerance : R := 1e-10.

(** The body of the first loop of [find_polygon_intersections]. *)
Definition crossing_step (lat : R) (poly : polygon) (intersections : list R) (i : nat)
  : list R :=
  let '((p1_lat, p1_lon), (p2_lat, p2_lon)) := side_at poly i in
  if Rltb (Rabs (p1_lat - p2_lat)) tolerance then
    if Rltb (Rabs (p1_lat - lat)) tolerance then intersections ++ [p1_lon; p2_lon]
    else intersections
  else
    if (Rleb p1_lat lat && Rltb lat p2_lat) || (Rleb p2_lat lat && Rltb lat p1_lat) then
      let lon_intersect := p1_lon + (lat - p1_lat) * (p2_lon - p1_lon) / (p2_lat - p1_lat) in
      intersections ++ [lon_intersect]
    else intersections.

(** [list(set(l))] in the order of first occurrence; [sorted] then makes
    the order of enumeration immaterial. *)
Definition py_set (l : list R) : list R :=
  fold_left (fun seen x => if existsb (Reqb x) seen then seen else seen ++ [x]) l [].

Definition py_sorted (l : list R) : list R := py_sort (fun x => x) l.

(** The pairing loop: [i] advances by two while a partner exists, and by
    one past a last unpaired element. *)
Fixpoint pair_up (intersections : list R) : list R :=
  match intersections with
  | a :: b :: rest => a :: b :: pair_up rest
  | _ => []
  end.

Definition find_polygon_intersections (lat : R) (poly : polygon) : list R :=
  let intersections := fold_left (crossing_step lat poly) (seq 0 (length poly)) [] in
  let intersections := py_sorted (py_set intersections) in
  pair_up intersections.

(** [range(0, stop, 2)] *)
Definition range_by_two (stop : nat) : list nat :=
  map (fun k => (2 * k)%nat) (seq 0 ((stop + 1) / 2)).

(** The state of the [while] loop of [generate_square_wave_lawnmower]:
    [current_lat], [going_east], [waypoints] and [line_count]. *)
Record wave_state : Type := {
  current_lat : R;
  going_east : bool;
  waypoints : list point;
  line_count : nat
}.

Section Wave.

Variable buffered_polygon : polygon.
Variable spacing_deg : R.
Variable top_lat : R.

(** The body of [for i in range(0, len(intersections) - 1, 2)]. *)
Definition segment_step (lat : R) (east : bool) (intersections : list R)
           (st : list point * nat) (i : nat) : list point * nat :=
  let '(wps, count) := st in
  let left_lon := nth i intersections 0 in
  let right_lon := nth (i + 1) intersections 0 in
  if Rltb (spacing_deg / 10) (Rabs (right_lon - left_lon)) then
    (if east then wps ++ [(lat, left_lon); (lat, right_lon)]
     else wps ++ [(lat, right_lon); (lat, left_lon)],
     S count)
  else st.

Definition wave_body (st : wave_state) : wave_state :=
  let intersections := find_polygon_intersections (current_lat st) buffered_polygon in
  let '(wps, count) :=
    if (2 <=? length intersections)%nat then
      fold_left (segment_step (current_lat st) (going_east st) intersections)
                (range_by_two (length intersections - 1))
                (waypoints st, line_count st)
    else (waypoints st, line_count st) in
  {| current_lat := current_lat st + spacing_deg;
     going_east := negb (going_east st);
     waypoints := wps;
     line_count := count |}.

Definition wave_guard (st : wave_state) : bool :=
  Rleb (current_lat st) (top_lat - spacing_deg / 2).

End Wave.

(** Returns the object, whose [spacing] the call may have replaced, and
    the waypoints. *)
Definition generate_square_wave_lawnmower (self : converter) (fuel : nat) (poly : polygon)
  : outcome (converter * list point) :=
  if (length poly <? 3)%nat then Ok (self, [])
  else
    let buffered_polygon :=
      create_buffer_polygon (buffer_by (buffer_distance self)) poly in
    b <- get_polygon_bounds buffered_polygon ;;
    let self :=
      if auto_spacing (camera_settings self) then
        {| altitude := altitude self;
           spacing := calculate_optimal_spacing (altitude self)
                                                (sidelap_percent (camera_settings self));
           buffer_distance := buffer_distance self;
           camera_settings := camera_settings self |}
      else self in
    st <- while_loop (wave_guard (spacing self) (max_lat b))
                     (wave_body buffered_polygon (spacing self)) fuel
                     {| current_lat := min_lat b + spacing self / 2;
                        going_east := true; waypoints := []; line_count := 0 |} ;;
    Ok (self, waypoints st).

(** What a call of [point_in_polygon] can raise. *)
Inductive ray_exn : Type := RayIndexError | UnboundLocalError.

(** The state of the loop of [point_in_polygon]: [inside], the local
    [xinters], which is unbound until its first assignment, and the
    vertex [(p1lat, p1lon)]. *)
Record ray_state : Type := {
  inside : bool;
  xinters : option R;
  p1 : point
}.

(** One pass of the loop body for the vertex [(p2lat, p2lon)]; reading
    [xinters] while it is unbound raises. *)
Definition ray_step (pt : point) (st : ray_state) (p2 : point) : ray_exn + ray_state :=
  let '(lat, lon) := pt in
  let '(p1lat, p1lon) := p1 st in
  let '(p2lat, p2lon) := p2 in
  let next (inside : bool) (xinters : option R) : ray_exn + ray_state :=
    inr {| inside := inside; xinters := xinters; p1 := (p2lat, p2lon) |} in
  if Rltb (if Rltb p2lon p1lon then p2lon else p1lon) lon then
    if Rleb lon (if Rltb p1lon p2lon then p2lon else p1lon) then
      if Rleb lat (if Rltb p1lat p2lat then p2lat else p1lat) then
        let xinters :=
          if Reqb p1lon p2lon then xinters st
          else Some ((lon - p1lon) * (p2lat - p1lat) / (p2lon - p1lon) + p1lat) in
        if Reqb p1lat p2lat then next (negb (inside st)) xinters
        else
          match xinters with
          | None => inl UnboundLocalError
          | Some x => if Rleb lat x then next (negb (inside st)) xinters
                      else next (inside st) xinters
          end
      else next (inside st) (xinters st)
    else next (inside st) (xinters st)
  else next (inside st) (xinters st).

Definition point_in_polygon (pt : point) (poly : polygon) : ray_exn + bool :=
  let n := length poly in
  match poly with
  | [] => inl RayIndexError
  | p0 :: _ =>
    match fold_left (fun acc i =>
                       match acc with
                       | inl e => inl e
                       | inr st => ray_step pt st (nth (i mod n) poly origin)
                       end)
                    (seq 1 n)
                    (inr {| inside := false; xinters := None; p1 := p0 |}) with
    | inl e => inl e
    | inr st => inr (inside st)
    end
  end.

End V3.

(** The longitudes that side [i] adds to the intersections of the
    horizontal line at [lat]. *)
Definition side_crossings (lat : R) (poly : polygon) (i : nat) : list R :=
  V3.crossing_step lat poly [] i.

(** One flown segment of a row of the lawnmower: its latitude, its two
    longitudes and the direction of the row. *)
Record segment : Type := {
  seg_lat : R;
  seg_left : R;
  seg_right : R;
  seg_east : bool
}.

Definition segment_waypoints (g : segment) : list point :=
  if seg_east g then [(seg_lat g, seg_left g); (seg_lat g, seg_right g)]
  else [(seg_lat g, seg_right g); (seg_lat g, seg_left g)].

(** A segment flown in one of the rows [0 .. K-1] of a sweep of the
    bounding box [b] with spacing [s]; row [k] lies at latitude
    [min_lat b + s / 2 + k * s] and is flown eastwards when [k] is even. *)
Definition row_segment (b : bounds) (s : R) (K : nat) (g : segment) : Prop :=
  exists k, (k < K)%nat /\
            seg_lat g = min_lat b + s / 2 + INR k * s /\
            seg_east g = Nat.even k /\
            seg_lat g <= max_lat b - s / 2 /\
            min_lon b <= seg_left g /\
            seg_left g + s / 10 < seg_right g /\
            seg_right g <= max_lon b.

Definition rows_upto (b : bounds) (s : R) (K : nat) (wps : list point) : Prop :=
  exists rows, wps = flat_map segment_waypoints rows /\
               Forall (row_segment b s K) rows /\
               StronglySorted (fun g g' => seg_lat g <= seg_lat g') rows.

(** ** Constructions used in the statements on retained lines *)

(** The intersections of the probe line at a signed offset with the
    sides of the polygon, in side order, before deduplication. *)
Definition probe_raw (center_lat center_lon perp_bearing bearing : R)
           (buffered_polygon : polygon) (signed_offset : R) : list point :=
  let '(offset_lat, offset_lon) :=
    point_at_bearing_and_distance center_lat center_lon perp_bearing signed_offset in
  let '(end1, end2) := probe_ends offset_lat offset_lon bearing in
  edge_hits end1 end2 buffered_polygon.

(** Entry and exit points in the words of the specification: [a] and [b]
    are intersection points of the line, and every intersection point
    lies on the segment from [a] to [b]. *)
Definition entry_exit (a b : point) (hits : list point) : Prop :=
  In a hits /\ In b hits /\
  forall q, In q hits -> exists t, 0 <= t <= 1 /\ q = line_point a b t.

(** A polygon with two arms to the east of a spine that runs along the
    meridian of longitude 0: the meridian of longitude 1.5 leaves it
    between the arms. *)
Definition notched_polygon : polygon :=
  [(-4, 0); (4, 0); (4, 1); (3, 1); (3, 3); (2, 3); (2, 1); (-1, 1); (-1, 3); (-4, 3)].

(** What [line_intersection] returns for a probe line along the meridian
    of longitude [lam] and the side from [p3] to [p4], [c] being the
    latitude of the first end of the probe minus that of the second. *)
Definition meridian_crossing (c lam : R) (p3 p4 : point) : option point :=
  if Rltb (Rabs (c * (snd p3 - snd p4))) 1e-10 then None
  else
    let u := (lam - snd p3) / (snd p4 - snd p3) in
    if Rleb 0 u && Rleb u 1 then Some (fst p3 + u * (fst p4 - fst p3), lam) else None.

(** No side fails the parallel test of [line_intersection] against a
    probe line along a meridian unless it lies on a meridian itself. *)
Definition sides_pass_parallel_test (poly : polygon) : Prop :=
  forall i, (i < length poly)%nat ->
            snd (fst (side_at poly i)) = snd (snd (side_at poly i)) \/
            1e-10 <= 2 * probe_reach * Rabs (snd (fst (side_at poly i)) -
                                             snd (snd (side_at poly i))).

(** [q] lies on the inner side of, or on, the line through every side of
    [poly]; [s] is [1] when the inner side is the left of every side and
    [-1] when it is the right. *)
Definition on_inner_side (s : R) (poly : polygon) (q : point) : Prop :=
  forall i, (i < length poly)%nat ->
            0 <= s * cross (fst (side_at poly i)) (snd (side_at poly i)) q.

(** * Properties *)

(** ** Comparisons *)

Lemma Rltb_true (x y : R) : Rltb x y = true <-> x < y.
Proof. unfold Rltb; destruct (Rlt_dec x y); split; intros; congruence || lra. Qed.

Lemma Rltb_false (x y : R) : Rltb x y = false <-> y <= x.
Proof. unfold Rltb; destruct (Rlt_dec x y); split; intros; congruence || lra. Qed.

Lemma Rleb_true (x y : R) : Rleb x y = true <-> x <= y.
Proof. unfold Rleb; destruct (Rle_dec x y); split; intros; congruence || lra. Qed.

Lemma Rleb_false (x y : R) : Rleb x y = false <-> y < x.
Proof. unfold Rleb; destruct (Rle_dec x y); split; intros; congruence || lra. Qed.

Lemma Reqb_true (x y : R) : Reqb x y = true <-> x = y.
Proof. unfold Reqb; destruct (Req_dec_T x y); split; intros; congruence. Qed.

Lemma Reqb_false (x y : R) : Reqb x y = false <-> x <> y.
Proof. unfold Reqb; destruct (Req_dec_T x y); split; intros; congruence. Qed.

(** Case analysis on the first float comparison of the goal. *)
Ltac cmp_cases :=
  match goal with
  | |- context [Rltb ?x ?y] =>
    let H := fresh "Hcmp" in
    destruct (Rltb x y) eqn:H;
    [apply Rltb_true in H | apply Rltb_false in H]
  | |- context [Rleb ?x ?y] =>
    let H := fresh "Hcmp" in
    destruct (Rleb x y) eqn:H;
    [apply Rleb_true in H | apply Rleb_false in H]
  | |- context [Reqb ?x ?y] =>
    let H := fresh "Hcmp" in
    destruct (Reqb x y) eqn:H;
    [apply Reqb_true in H | apply Reqb_false in H]
  end.

(** ** Segment intersection *)

Lemma line_intersection_some (p1 p2 p3 p4 q : point) :
  line_intersection p1 p2 p3 p4 = Some q ->
  1e-10 <= Rabs (intersection_denom p1 p2 p3 p4) /\
  0 <= intersection_u p1 p2 p3 p4 <= 1 /\
  q = (fst p1 + intersection_t p1 p2 p3 p4 * (fst p2 - fst p1),
       snd p1 + intersection_t p1 p2 p3 p4 * (snd p2 - snd p1)).
Proof.
  unfold line_intersection.
  repeat cmp_cases; simpl; intros H; try discriminate.
  injection H as <-. repeat split; assumption.
Qed.


(** Decide the float comparisons of the goal whose operands are known. *)
Ltac decide_cmp :=
  repeat match goal with
  | |- context [Rltb ?x ?y] =>
    first [ rewrite (proj2 (Rltb_true x y)) by lra
          | rewrite (proj2 (Rltb_false x y)) by lra ]
  | |- context [Rleb ?x ?y] =>
    first [ rewrite (proj2 (Rleb_true x y)) by lra
          | rewrite (proj2 (Rleb_false x y)) by lra ]
  | |- context [Reqb ?x ?y] =>
    first [ rewrite (proj2 (Reqb_true x y)) by lra
          | rewrite (proj2 (Reqb_false x y)) by lra ]
  end.

(** ** Lists built by the loops *)

Lemma edge_hits_acc (ls le : point) (poly : polygon) (l : list nat) (acc : list point) :
  fold_left (fun intersections i =>
               let '(edge_start, edge_end) := side_at poly i in
               match line_intersection ls le edge_start edge_end with
               | Some intersection => intersections ++ [intersection]
               | None => intersections
               end) l acc =
  acc ++ flat_map (side_hit ls le poly) l.
Proof.
  revert acc; induction l as [|i l IH]; intros acc; cbn [fold_left flat_map].
  - now rewrite app_nil_r.
  - rewrite IH. unfold side_hit at 2.
    destruct (side_at poly i) as [a b]; cbn [fst snd].
    destruct (line_intersection ls le a b); simpl; [|reflexivity].
    now rewrite <- app_assoc.
Qed.

Lemma edge_hits_flat_map (ls le : point) (poly : polygon) :
  edge_hits ls le poly = flat_map (side_hit ls le poly) (seq 0 (length poly)).
Proof. unfold edge_hits. now rewrite edge_hits_acc. Qed.

Lemma side_at_in (poly : polygon) (i : nat) :
  (i < length poly)%nat ->
  In (fst (side_at poly i)) poly /\ In (snd (side_at poly i)) poly.
Proof.
  intros Hi. unfold side_at; simpl. split; apply nth_In; [exact Hi|].
  apply Nat.mod_upper_bound. lia.
Qed.

Lemma edge_hits_in (ls le : point) (poly : polygon) (q : point) :
  In q (edge_hits ls le poly) ->
  exists i, (i < length poly)%nat /\
            line_intersection ls le (fst (side_at poly i)) (snd (side_at poly i)) = Some q.
Proof.
  rewrite edge_hits_flat_map, in_flat_map.
  intros (i & Hi & Hq). exists i. apply in_seq in Hi. split; [lia|].
  unfold side_hit in Hq.
  destruct (line_intersection ls le _ _) as [p|]; simpl in Hq; [|contradiction].
  destruct Hq as [-> | []]. reflexivity.
Qed.

Lemma remove_duplicates_step_incl (l acc : list point) (q : point) :
  In q (fold_left (fun u pt => if is_duplicate pt u then u else u ++ [pt]) l acc) ->
  In q acc \/ In q l.
Proof.
  revert acc; induction l as [|x l IH]; intros acc; simpl; [tauto|].
  intros H. apply IH in H. destruct H as [H | H]; [|tauto].
  destruct (is_duplicate x acc); [tauto|].
  apply in_app_or in H. simpl in H. tauto.
Qed.

Lemma remove_duplicates_incl (l : list point) (q : point) :
  In q (remove_duplicates l) -> In q l.
Proof.
  intros H. apply remove_duplicates_step_incl in H. simpl in H. tauto.
Qed.

(** ** Bounding box *)

Lemma fold_min_le (l : list R) (x : R) :
  fold_left (fun cur y => if Rltb y cur then y else cur) l x <= x /\
  forall y, In y l -> fold_left (fun cur y => if Rltb y cur then y else cur) l x <= y.
Proof.
  revert x; induction l as [|a l IH]; intros x; simpl.
  - split; [lra | tauto].
  - destruct (IH (if Rltb a x then a else x)) as [H1 H2].
    cmp_cases; (split; [lra | intros y [<- | Hy]; [lra | now apply H2]]).
Qed.

Lemma fold_max_ge (l : list R) (x : R) :
  x <= fold_left (fun cur y => if Rltb cur y then y else cur) l x /\
  forall y, In y l -> y <= fold_left (fun cur y => if Rltb cur y then y else cur) l x.
Proof.
  revert x; induction l as [|a l IH]; intros x; simpl.
  - split; [lra | tauto].
  - destruct (IH (if Rltb x a then a else x)) as [H1 H2].
    cmp_cases; (split; [lra | intros y [<- | Hy]; [lra | now apply H2]]).
Qed.

Lemma py_min_le (l : list R) (m : R) :
  py_min l = Ok m -> forall y, In y l -> m <= y.
Proof.
  destruct l as [|x l]; simpl; [discriminate|].
  intros H; injection H as <-. destruct (fold_min_le l x) as [H1 H2].
  intros y [<- | Hy]; [exact H1 | now apply H2].
Qed.

Lemma py_max_ge (l : list R) (m : R) :
  py_max l = Ok m -> forall y, In y l -> y <= m.
Proof.
  destruct l as [|x l]; simpl; [discriminate|].
  intros H; injection H as <-. destruct (fold_max_ge l x) as [H1 H2].
  intros y [<- | Hy]; [exact H1 | now apply H2].
Qed.

Lemma bounds_contain_vertices (poly : polygon) (b : bounds) (p : point) :
  get_polygon_bounds poly = Ok b -> In p poly ->
  min_lat b <= fst p <= max_lat b /\ min_lon b <= snd p <= max_lon b.
Proof.
  unfold get_polygon_bounds. intros H Hp.
  destruct (py_min (map fst poly)) as [a| |] eqn:Ha; simpl in H; try discriminate.
  destruct (py_max (map fst poly)) as [a'| |] eqn:Ha'; simpl in H; try discriminate.
  destruct (py_min (map snd poly)) as [c| |] eqn:Hc; simpl in H; try discriminate.
  destruct (py_max (map snd poly)) as [c'| |] eqn:Hc'; simpl in H; try discriminate.
  injection H as <-. simpl.
  pose proof (py_min_le _ _ Ha (fst p) (in_map fst _ _ Hp)).
  pose proof (py_max_ge _ _ Ha' (fst p) (in_map fst _ _ Hp)).
  pose proof (py_min_le _ _ Hc (snd p) (in_map snd _ _ Hp)).
  pose proof (py_max_ge _ _ Hc' (snd p) (in_map snd _ _ Hp)).
  lra.
Qed.

Lemma between_convex (lo hi a b u : R) :
  lo <= a <= hi -> lo <= b <= hi -> 0 <= u <= 1 -> lo <= a + u * (b - a) <= hi.
Proof.
  intros Ha Hb Hu.
  assert (0 <= u * (b - lo)) by (apply Rmult_le_pos; lra).
  assert (0 <= (1 - u) * (a - lo)) by (apply Rmult_le_pos; lra).
  assert (0 <= u * (hi - b)) by (apply Rmult_le_pos; lra).
  assert (0 <= (1 - u) * (hi - a)) by (apply Rmult_le_pos; lra).
  split; lra.
Qed.

(** A returned point is also the point of parameter [u] on the side. *)
Lemma line_intersection_on_side (p1 p2 p3 p4 q : point) :
  line_intersection p1 p2 p3 p4 = Some q ->
  q = line_point p3 p4 (intersection_u p1 p2 p3 p4).
Proof.
  intros H. apply line_intersection_some in H. destruct H as (Hd & _ & ->).
  assert (Hne : intersection_denom p1 p2 p3 p4 <> 0).
  { intro H0. rewrite H0, Rabs_R0 in Hd. lra. }
  unfold line_point, intersection_t, intersection_u.
  destruct p1 as [x1 y1], p2 as [x2 y2], p3 as [x3 y3], p4 as [x4 y4].
  unfold intersection_denom in *. simpl. f_equal; field; exact Hne.
Qed.

Lemma clip_points_inside_bounds (ls le : point) (poly : polygon) (b : bounds) (q : point) :
  get_polygon_bounds poly = Ok b ->
  In q (line_polygon_intersections ls le poly) ->
  ~ outside_bounds b q /\ exists t, q = line_point ls le t.
Proof.
  intros Hb Hq. apply remove_duplicates_incl, edge_hits_in in Hq.
  destruct Hq as (i & Hi & Hq).
  destruct (side_at_in poly i Hi) as [H3 H4].
  pose proof (bounds_contain_vertices _ _ _ Hb H3) as B3.
  pose proof (bounds_contain_vertices _ _ _ Hb H4) as B4.
  pose proof (line_intersection_some _ _ _ _ _ Hq) as (_ & Hu & Ht).
  pose proof (line_intersection_on_side _ _ _ _ _ Hq) as Hs.
  split; [| eexists; exact Ht].
  rewrite Hs. unfold outside_bounds, line_point; cbn [fst snd].
  set (u := intersection_u _ _ _ _) in *.
  pose proof (between_convex _ _ _ _ u (proj1 B3) (proj1 B4) Hu).
  pose proof (between_convex _ _ _ _ u (proj2 B3) (proj2 B4) Hu).
  intros [H1 | [H1 | [H1 | H1]]]; lra.
Qed.

(** C3 (amended): clipping returns no point when every point of the
    infinite line through the two probe endpoints is outside the bounding
    box of the polygon. *)
Theorem clip_empty_when_line_misses_bounds
        (ls le : point) (poly : polygon) (b : bounds) :
  get_polygon_bounds poly = Ok b ->
  (forall t, outside_bounds b (line_point ls le t)) ->
  line_polygon_intersections ls le poly = [].
Proof.
  intros Hb Hout.
  destruct (line_polygon_intersections ls le poly) as [|q l] eqn:E; [reflexivity|].
  exfalso.
  destruct (clip_points_inside_bounds ls le poly b q Hb) as (Hin & t & ->).
  - rewrite E. now left.
  - apply Hin, Hout.
Qed.

Lemma unit_square_bounds : get_polygon_bounds unit_square = Ok unit_bounds.
Proof.
  unfold get_polygon_bounds, unit_square, py_min, py_max; simpl.
  decide_cmp. reflexivity.
Qed.

Lemma line_intersection_hit (p1 p2 p3 p4 : point) :
  1e-10 <= Rabs (intersection_denom p1 p2 p3 p4) ->
  0 <= intersection_u p1 p2 p3 p4 <= 1 ->
  line_intersection p1 p2 p3 p4 =
  Some (line_point p1 p2 (intersection_t p1 p2 p3 p4)).
Proof.
  intros Hd Hu. unfold line_intersection.
  rewrite (proj2 (Rltb_false _ _) Hd).
  rewrite (proj2 (Rleb_true _ _) (proj1 Hu)), (proj2 (Rleb_true _ _) (proj2 Hu)).
  reflexivity.
Qed.

Lemma remove_duplicates_nonempty (l : list point) :
  l <> [] -> remove_duplicates l <> [].
Proof.
  destruct l as [|x l]; [congruence|]. intros _.
  unfold remove_duplicates; simpl.
  assert (G : forall l acc, acc <> [] ->
            fold_left (fun u pt => if is_duplicate pt u then u else u ++ [pt]) l acc <> []).
  { clear. induction l as [|y l IH]; intros acc Hacc; simpl; [exact Hacc|].
    apply IH. destruct (is_duplicate y acc); [exact Hacc|].
    destruct acc; simpl; congruence. }
  apply G. discriminate.
Qed.

(** C3 (as stated) fails: both endpoints of the probe are outside the
    bounding box of the unit square, yet the line through them crosses
    the square and clipping returns its crossings. *)
Lemma clip_outside_bounds_counterexample :
  get_polygon_bounds unit_square = Ok unit_bounds /\
  outside_bounds unit_bounds (2, 1 / 2) /\
  outside_bounds unit_bounds (3, 1 / 2) /\
  line_intersection (2, 1 / 2) (3, 1 / 2) (0, 0) (0, 1) = Some (0, 1 / 2) /\
  line_polygon_intersections (2, 1 / 2) (3, 1 / 2) unit_square <> [].
Proof.
  assert (Hhit : line_intersection (2, 1 / 2) (3, 1 / 2) (0, 0) (0, 1) = Some (0, 1 / 2)).
  { assert (Hden : intersection_denom (2, 1 / 2) (3, 1 / 2) (0, 0) (0, 1) = 1)
      by (unfold intersection_denom; lra).
    rewrite line_intersection_hit.
    - unfold line_point, intersection_t. rewrite Hden. simpl. do 2 f_equal; lra.
    - rewrite Hden, Rabs_R1. lra.
    - unfold intersection_u. rewrite Hden. simpl. lra. }
  split; [exact unit_square_bounds|].
  split; [right; left; simpl; lra|].
  split; [right; left; simpl; lra|].
  split; [exact Hhit|].
  apply remove_duplicates_nonempty.
  rewrite edge_hits_flat_map. unfold unit_square at 2. simpl.
  unfold side_hit at 1. unfold side_at. simpl. rewrite Hhit. discriminate.
Qed.

Lemma clip_empty_when_line_misses_bounds_witness :
  get_polygon_bounds unit_square = Ok unit_bounds /\
  (forall t, outside_bounds unit_bounds (line_point (0, 2) (1, 2) t)) /\
  line_polygon_intersections (0, 2) (1, 2) unit_square = [].
Proof.
  assert (H : forall t, outside_bounds unit_bounds (line_point (0, 2) (1, 2) t)).
  { intros t. right; right; right. simpl. lra. }
  split; [exact unit_square_bounds|]. split; [exact H|].
  exact (clip_empty_when_line_misses_bounds (0, 2) (1, 2) unit_square unit_bounds
           unit_square_bounds H).
Defined.

(** ** Inward buffer *)

Lemma fold_left_snoc_map {A B : Type} (f : A -> B) (l : list A) (acc : list B) :
  fold_left (fun acc x => acc ++ [f x]) l acc = acc ++ map f l.
Proof.
  revert acc; induction l as [|x l IH]; intros acc; simpl.
  - now rewrite app_nil_r.
  - now rewrite IH, <- app_assoc.
Qed.

Lemma create_buffer_polygon_map (self : converter) (poly : polygon) :
  (3 <= length poly)%nat ->
  create_buffer_polygon self poly = map (buffer_vertex self (centroid poly)) poly.
Proof.
  intros Hlen. unfold create_buffer_polygon.
  destruct (Nat.ltb_spec (length poly) 3) as [H | _]; [lia|].
  now rewrite fold_left_snoc_map.
Qed.

Lemma buffer_vertex_far (self : converter) (c v : point) :
  0 < planar_distance v c ->
  buffer_vertex self c v = line_point v c (buffer_distance self / planar_distance v c).
Proof.
  intros Hr. unfold buffer_vertex, planar_distance in *. destruct v as [lat lon].
  cbn [fst snd] in *. rewrite (proj2 (Rltb_true _ _) Hr).
  unfold line_point; cbn [fst snd]. f_equal; field; lra.
Qed.

Lemma buffer_vertex_at_center (self : converter) (c v : point) :
  planar_distance v c <= 0 -> buffer_vertex self c v = v.
Proof.
  intros Hr. unfold buffer_vertex, planar_distance in *. destruct v as [lat lon].
  cbn [fst snd] in *. now rewrite (proj2 (Rltb_false _ _) Hr).
Qed.

Lemma planar_distance_scaled (v c : point) (k : R) :
  planar_distance (line_point v c k) c = Rabs (1 - k) * planar_distance v c.
Proof.
  unfold planar_distance, line_point; cbn [fst snd].
  rewrite <- sqrt_Rsqr_abs, <- sqrt_mult.
  - f_equal. unfold Rsqr. ring.
  - apply Rle_0_sqr.
  - apply Rplus_le_le_0_compat; apply pow2_ge_0.
Qed.

(** C1 (amended): every vertex other than the centroid is translated by
    exactly the buffer distance along the unit vector towards the
    arithmetic-mean centroid, and ends at distance [|r - d|] from it; it
    moves strictly towards and not past the centroid when [0 < d <= r];
    a vertex at the centroid stays where it is. *)
Theorem create_buffer_polygon_vertex (self : converter) (poly : polygon) (i : nat) :
  (3 <= length poly)%nat ->
  0 <= buffer_distance self ->
  (i < length poly)%nat ->
  let d := buffer_distance self in
  let c := centroid poly in
  let v := nth i poly origin in
  let v' := nth i (create_buffer_polygon self poly) origin in
  let r := planar_distance v c in
  length (create_buffer_polygon self poly) = length poly /\
  (r = 0 -> v' = v) /\
  (0 < r -> v' = line_point v c (d / r) /\ planar_distance v' c = Rabs (r - d)) /\
  (0 < d <= r ->
   planar_distance v' c = r - d /\ planar_distance v' c < r /\
   exists k, 0 < k <= 1 /\ v' = line_point v c k).
Proof.
  intros Hlen Hd Hi d c v v' r.
  assert (Hv' : v' = buffer_vertex self c v).
  { unfold v'. rewrite create_buffer_polygon_map by exact Hlen.
    rewrite (nth_indep _ origin (buffer_vertex self c origin))
      by (rewrite length_map; exact Hi).
    now rewrite map_nth. }
  assert (Hfar : 0 < r -> v' = line_point v c (d / r) /\
                          planar_distance v' c = Rabs (r - d)).
  { intros Hr. rewrite Hv'.
    rewrite (buffer_vertex_far self c v Hr). fold d r. split; [reflexivity|].
    rewrite planar_distance_scaled. fold r.
    rewrite <- (Rabs_right r) at 2 by lra.
    rewrite <- Rabs_mult. f_equal. field. lra. }
  split; [|split; [|split]].
  - rewrite create_buffer_polygon_map by exact Hlen. apply length_map.
  - intros Hr. rewrite Hv'. apply buffer_vertex_at_center. fold r. lra.
  - exact Hfar.
  - intros [Hd0 Hdr]. destruct Hfar as [Hline Hdist]; [lra|].
    assert (Habs : Rabs (r - d) = r - d) by (apply Rabs_right; lra).
    repeat split.
    + lra.
    + lra.
    + exists (d / r). split; [|exact Hline].
      split.
      * apply Rdiv_lt_0_compat; lra.
      * apply Rmult_le_reg_r with r; [lra|].
        replace (d / r * r) with d by (field; lra). lra.
Qed.

Lemma meridian_triple_centroid : centroid meridian_triple = (0, 3).
Proof. unfold centroid, py_sum; simpl. f_equal; lra. Qed.

Lemma sqrt_9 : sqrt (0 ^ 2 + 3 ^ 2) = 3.
Proof.
  replace (0 ^ 2 + 3 ^ 2) with (Rsqr 3) by (unfold Rsqr; ring).
  apply sqrt_Rsqr. lra.
Qed.

(** C1 (as stated) fails: with buffer distance 5 the vertex (0, 0), which
    is within 5 of the centroid (0, 3), is moved, and it lands at (0, 5),
    beyond the centroid and outside the segment that joins them. *)
Lemma create_buffer_polygon_counterexample :
  (3 <= length meridian_triple)%nat /\
  0 <= buffer_distance (buffer_by 5) /\
  centroid meridian_triple = (0, 3) /\
  planar_distance (0, 0) (0, 3) <= buffer_distance (buffer_by 5) /\
  nth 0 (create_buffer_polygon (buffer_by 5) meridian_triple) origin = (0, 5) /\
  (0, 5) <> nth 0 meridian_triple origin /\
  ~ (exists k, 0 <= k <= 1 /\ (0, 5) = line_point (0, 0) (0, 3) k).
Proof.
  assert (Hr : planar_distance (0, 0) (0, 3) = 3).
  { unfold planar_distance; cbn [fst snd].
    replace (0 - 0) with 0 by ring. replace (3 - 0) with 3 by ring. exact sqrt_9. }
  split; [simpl; lia|]. split; [simpl; lra|].
  split; [exact meridian_triple_centroid|].
  split; [rewrite Hr; simpl; lra|].
  split; [|split].
  - rewrite create_buffer_polygon_map by (simpl; lia).
    rewrite meridian_triple_centroid. unfold meridian_triple. cbn [map nth].
    rewrite buffer_vertex_far by (rewrite Hr; lra).
    rewrite Hr. unfold line_point; simpl. f_equal; lra.
  - simpl. intros H. injection H as H. lra.
  - intros (k & Hk & H). unfold line_point in H; simpl in H.
    injection H as _ H. lra.
Qed.

Lemma create_buffer_polygon_vertex_witness :
  (3 <= length meridian_triple)%nat /\
  0 <= buffer_distance (buffer_by 1) /\
  (0 < length meridian_triple)%nat /\
  length (create_buffer_polygon (buffer_by 1) meridian_triple) = length meridian_triple.
Proof.
  assert (H1 : (3 <= length meridian_triple)%nat) by (simpl; lia).
  assert (H2 : 0 <= buffer_distance (buffer_by 1)) by (simpl; lra).
  assert (H3 : (0 < length meridian_triple)%nat) by (simpl; lia).
  split; [exact H1|]. split; [exact H2|]. split; [exact H3|].
  exact (proj1 (create_buffer_polygon_vertex (buffer_by 1) meridian_triple 0 H1 H2 H3)).
Defined.


(** ** Ordering of the scan lines *)

Lemma emit_line_oriented (all_lines : list scan_line) (sfe : bool)
      (waypoints : list point) (it : nat * nat) :
  exists from_end,
    emit_line all_lines sfe waypoints it =
    waypoints ++ oriented (nth (snd it) all_lines blank_line) from_end.
Proof.
  destruct it as [i idx]. unfold emit_line; cbn [snd].
  destruct (i =? 0)%nat.
  - destruct sfe; [exists true | exists false]; reflexivity.
  - cmp_cases; [exists false | exists true]; reflexivity.
Qed.

Lemma emit_line_length (all_lines : list scan_line) (sfe : bool)
      (waypoints : list point) (it : nat * nat) :
  length (emit_line all_lines sfe waypoints it) = (length waypoints + 2)%nat.
Proof.
  destruct (emit_line_oriented all_lines sfe waypoints it) as [b ->].
  rewrite length_app. destruct b; reflexivity.
Qed.

Lemma fold_emit_length (all_lines : list scan_line) (sfe : bool)
      (its : list (nat * nat)) (waypoints : list point) :
  length (fold_left (emit_line all_lines sfe) its waypoints) =
  (length waypoints + 2 * length its)%nat.
Proof.
  revert waypoints; induction its as [|it its IH]; intros waypoints;
    cbn [fold_left length]; [lia|].
  rewrite IH, emit_line_length. lia.
Qed.

Lemma build_waypoints_length (all_lines : list scan_line) (order : list nat) (sfe : bool) :
  length (build_waypoints all_lines order sfe) = (2 * length order)%nat.
Proof.
  unfold build_waypoints. rewrite fold_emit_length, length_combine, length_seq.
  simpl. lia.
Qed.

Lemma choose_order_length (self : converter) (all_lines : list scan_line) (crn : corners) :
  length (fst (choose_order self all_lines crn)) = length all_lines.
Proof.
  unfold choose_order.
  destruct (home_position self), (top_right crn), (top_left crn); cbn [fst];
    try apply length_seq.
  destruct (startswith_first _); cbn [fst];
    [apply length_seq | rewrite length_rev; apply length_seq].
Qed.

Lemma built_waypoints_length (self : converter) (all_lines : list scan_line) (crn : corners) :
  length (built_waypoints self all_lines crn) = (2 * length all_lines)%nat.
Proof.
  unfold built_waypoints. now rewrite build_waypoints_length, choose_order_length.
Qed.

Lemma optimize_unfold (self : converter) (all_lines : list scan_line) (crn : corners)
      (bearing : R) :
  all_lines <> [] ->
  optimize_line_ordering_for_corners self all_lines crn bearing =
  reverse_for_home self (built_waypoints self all_lines crn).
Proof.
  intros Hne. unfold optimize_line_ordering_for_corners, built_waypoints.
  destruct all_lines as [|l rest]; [congruence|].
  now destruct (choose_order self (l :: rest) crn).
Qed.

(** C4: once the waypoint sequence is built, a supplied home point makes
    the orderer return the sequence reversed exactly when the distance
    from the last waypoint to home is below 0.8 times the distance from
    the first waypoint to home; otherwise, and whenever no home point is
    supplied, the sequence is returned as built. *)
Theorem reversal_rule (self : converter) (all_lines : list scan_line) (crn : corners)
        (bearing : R) :
  all_lines <> [] ->
  let w := built_waypoints self all_lines crn in
  let result := optimize_line_ordering_for_corners self all_lines crn bearing in
  match home_position self with
  | Some home =>
    (calculate_distance (last w origin) home
     < 0.8 * calculate_distance (nth 0 w origin) home -> result = rev w) /\
    (~ calculate_distance (last w origin) home
       < 0.8 * calculate_distance (nth 0 w origin) home -> result = w)
  | None => result = w
  end.
Proof.
  intros Hne w result. unfold result. rewrite optimize_unfold by exact Hne. fold w.
  unfold reverse_for_home.
  destruct (home_position self) as [home|]; [|reflexivity].
  assert (Hlen : (0 <? length w)%nat = true).
  { apply Nat.ltb_lt. unfold w. rewrite built_waypoints_length.
    destruct all_lines; [congruence | simpl; lia]. }
  rewrite Hlen.
  split; intros H; cmp_cases; try reflexivity; lra.
Qed.

Lemma reversal_rule_witness :
  let lines := [line_between 0 (0, 0) (0, 1)] in
  let self := with_home (Some (0, 2)) in
  let w := built_waypoints self lines no_corners in
  lines <> [] /\
  (calculate_distance (last w origin) (0, 2)
   < 0.8 * calculate_distance (nth 0 w origin) (0, 2) ->
   optimize_line_ordering_for_corners self lines no_corners 0 = rev w) /\
  (~ calculate_distance (last w origin) (0, 2)
     < 0.8 * calculate_distance (nth 0 w origin) (0, 2) ->
   optimize_line_ordering_for_corners self lines no_corners 0 = w).
Proof.
  intros lines self w.
  assert (H : lines <> []) by discriminate.
  split; [exact H|].
  exact (reversal_rule self lines no_corners 0 H).
Defined.

(** ** Great-circle distance *)

Lemma radians_minus (x y : R) : radians (x - y) = radians x - radians y.
Proof. unfold radians. field. Qed.

Lemma sin_half_sq (x : R) : (sin (x / 2)) ^ 2 = (1 - cos x) / 2.
Proof.
  replace x with (2 * (x / 2)) at 2 by field.
  rewrite cos_2a_sin. simpl. field.
Qed.

(** The haversine term is [(1 - cos theta) / 2] for the central angle
    [theta]; it is a convex combination of two such terms. *)
Lemma haversine_a_mix (p q : point) :
  haversine_a p q =
  (1 - ((1 - (sin (radians (snd q - snd p) / 2)) ^ 2)
        * cos (radians (fst q) - radians (fst p))
        + (sin (radians (snd q - snd p) / 2)) ^ 2
          * - cos (radians (fst q) + radians (fst p)))) / 2.
Proof.
  destruct p as [lat1 lon1], q as [lat2 lon2]. unfold haversine_a; cbn [fst snd].
  rewrite (sin_half_sq (radians (lat2 - lat1))), radians_minus.
  rewrite cos_minus, cos_plus. field.
Qed.

Lemma sin_sq_range (x : R) : 0 <= (sin x) ^ 2 <= 1.
Proof.
  pose proof (sin2_cos2 x) as H. unfold Rsqr in H.
  pose proof (Rle_0_sqr (sin x)) as H1. pose proof (Rle_0_sqr (cos x)) as H2.
  unfold Rsqr in H1, H2. simpl. lra.
Qed.

Lemma haversine_a_range (p q : point) : 0 <= haversine_a p q <= 1.
Proof.
  rewrite haversine_a_mix.
  set (s := (sin _) ^ 2).
  assert (Hs : 0 <= s <= 1) by apply sin_sq_range.
  set (c1 := cos (radians (fst q) - radians (fst p))).
  set (c2 := cos (radians (fst q) + radians (fst p))).
  assert (H1 : -1 <= c1 <= 1) by apply COS_bound.
  assert (H2 : -1 <= c2 <= 1) by apply COS_bound.
  assert (0 <= (1 - s) * (1 - c1)) by (apply Rmult_le_pos; lra).
  assert (0 <= (1 - s) * (1 + c1)) by (apply Rmult_le_pos; lra).
  assert (0 <= s * (1 - c2)) by (apply Rmult_le_pos; lra).
  assert (0 <= s * (1 + c2)) by (apply Rmult_le_pos; lra).
  split; lra.
Qed.

Lemma atan2_first_quadrant (y x : R) : 0 <= y -> 0 <= x -> 0 <= atan2 y x <= PI / 2.
Proof.
  intros Hy Hx. pose proof PI_RGT_0 as Hpi. unfold atan2.
  repeat cmp_cases; try lra.
  pose proof (atan_bound (y / x)) as Hb.
  split; [|lra].
  destruct (Req_dec_T y 0) as [-> | Hne].
  - unfold Rdiv. rewrite Rmult_0_l, atan_0. lra.
  - rewrite <- atan_0. left. apply atan_increasing.
    apply Rdiv_lt_0_compat; lra.
Qed.

Lemma calculate_distance_nonneg (p q : point) : 0 <= calculate_distance p q.
Proof.
  unfold calculate_distance, earth_radius.
  pose proof (atan2_first_quadrant (sqrt (haversine_a p q)) (sqrt (1 - haversine_a p q))
                (sqrt_pos _) (sqrt_pos _)).
  nra.
Qed.

(** The argument of [math.asin] in [point_at_bearing_and_distance] is
    always within [[-1, 1]], as the argument of [math.sqrt] in
    [calculate_distance] is always within [[0, 1]] ([haversine_a_range]):
    neither call can raise a domain error. *)
Lemma destination_latitude_domain (lat1 d bearing_rad : R) :
  -1 <= sin lat1 * cos d + cos lat1 * sin d * cos bearing_rad <= 1.
Proof.
  pose proof (COS_bound bearing_rad) as Hc.
  pose proof (SIN_bound (lat1 + d)) as Hp. rewrite sin_plus in Hp.
  pose proof (SIN_bound (lat1 - d)) as Hm. rewrite sin_minus in Hm.
  set (c := cos bearing_rad) in *.
  set (u := sin lat1 * cos d) in *. set (v := cos lat1 * sin d) in *.
  assert (0 <= (1 + c) * (1 - (u + v))) by (apply Rmult_le_pos; lra).
  assert (0 <= (1 - c) * (1 - (u - v))) by (apply Rmult_le_pos; lra).
  assert (0 <= (1 + c) * (1 + (u + v))) by (apply Rmult_le_pos; lra).
  assert (0 <= (1 - c) * (1 + (u - v))) by (apply Rmult_le_pos; lra).
  split; lra.
Qed.

(** The central angle grows with the haversine term. *)
Lemma haversine_angle_mono (a b : R) :
  0 <= a -> a <= b -> b <= 1 ->
  atan2 (sqrt a) (sqrt (1 - a)) <= atan2 (sqrt b) (sqrt (1 - b)).
Proof.
  intros Ha Hab Hb.
  destruct (Req_dec_T b 1) as [-> | Hb1].
  - replace (1 - 1) with 0 by ring. rewrite sqrt_0, sqrt_1.
    transitivity (PI / 2).
    + apply atan2_first_quadrant; apply sqrt_pos.
    + unfold atan2. decide_cmp. lra.
  - assert (Hxa : 0 < sqrt (1 - a)) by (apply sqrt_lt_R0; lra).
    assert (Hxb : 0 < sqrt (1 - b)) by (apply sqrt_lt_R0; lra).
    unfold atan2.
    rewrite (proj2 (Rltb_true _ _) Hxa), (proj2 (Rltb_true _ _) Hxb).
    assert (Hs : sqrt a <= sqrt b) by (apply sqrt_le_1; lra).
    assert (Hc : sqrt (1 - b) <= sqrt (1 - a)) by (apply sqrt_le_1; lra).
    assert (Hq : sqrt a / sqrt (1 - a) <= sqrt b / sqrt (1 - b)).
    { pose proof (sqrt_pos a).
      apply Rmult_le_reg_r with (sqrt (1 - a) * sqrt (1 - b)); [nra|].
      replace (sqrt a / sqrt (1 - a) * (sqrt (1 - a) * sqrt (1 - b)))
        with (sqrt a * sqrt (1 - b)) by (field; lra).
      replace (sqrt b / sqrt (1 - b) * (sqrt (1 - a) * sqrt (1 - b)))
        with (sqrt b * sqrt (1 - a)) by (field; lra).
      nra. }
    destruct Hq as [Hq | Hq]; [left; now apply atan_increasing | rewrite Hq; lra].
Qed.

Lemma calculate_distance_mono (p q p' q' : point) :
  haversine_a p q <= haversine_a p' q' ->
  calculate_distance p q <= calculate_distance p' q'.
Proof.
  intros H. unfold calculate_distance, earth_radius.
  pose proof (haversine_angle_mono _ _ (proj1 (haversine_a_range p q)) H
                (proj2 (haversine_a_range p' q'))).
  lra.
Qed.

(** ** The stable sort *)

Section Sorting.

Context {A : Type} (key : A -> R).

Lemma insert_by_perm (x : A) (l : list A) : Permutation (x :: l) (insert_by key x l).
Proof.
  induction l as [|y l IH]; simpl; [reflexivity|].
  cmp_cases; [reflexivity|].
  rewrite perm_swap. now apply perm_skip.
Qed.

Lemma insert_by_sorted (x : A) (l : list A) :
  StronglySorted (key_le key) l -> StronglySorted (key_le key) (insert_by key x l).
Proof.
  induction l as [|y l IH]; intros Hs; simpl.
  - constructor; constructor.
  - inversion Hs as [|? ? Hl Hy]; subst. cmp_cases.
    + constructor; [exact Hs|].
      constructor; [unfold key_le; lra|].
      eapply Forall_impl; [|exact Hy]. unfold key_le. intros; lra.
    + constructor; [now apply IH|].
      eapply Permutation_Forall; [apply insert_by_perm|].
      constructor; [unfold key_le; lra | exact Hy].
Qed.

(** Stability: among the elements of one key the new one comes last. *)
Lemma insert_by_stable (x : A) (l : list A) (o : R) :
  StronglySorted (key_le key) l ->
  filter (fun y => Reqb (key y) o) (insert_by key x l) =
  filter (fun y => Reqb (key y) o) l ++ (if Reqb (key x) o then [x] else []).
Proof.
  induction l as [|y l IH]; intros Hs; cbn [insert_by].
  - cbn [filter app]. now destruct (Reqb (key x) o).
  - inversion Hs as [|? ? Hl Hy]; subst. cmp_cases.
    + change (filter (fun y0 => Reqb (key y0) o) (x :: y :: l))
        with (if Reqb (key x) o
              then x :: filter (fun y0 => Reqb (key y0) o) (y :: l)
              else filter (fun y0 => Reqb (key y0) o) (y :: l)).
      destruct (Reqb (key x) o) eqn:Hx; [|now rewrite app_nil_r].
      apply Reqb_true in Hx.
      assert (Hnone : filter (fun y0 => Reqb (key y0) o) (y :: l) = []).
      { cbn [filter]. rewrite (proj2 (Reqb_false _ _)) by lra.
        clear - Hy Hx Hcmp. induction l as [|z l IHl]; [reflexivity|].
        inversion Hy as [|? ? Hz Hl']; subst. cbn [filter].
        unfold key_le in Hz.
        rewrite (proj2 (Reqb_false _ _)) by lra. now apply IHl. }
      rewrite Hnone. reflexivity.
    + cbn [filter]. rewrite IH by exact Hl.
      destruct (Reqb (key y) o); reflexivity.
Qed.

Lemma py_sort_acc (l acc : list A) :
  StronglySorted (key_le key) acc ->
  let r := fold_left (fun sorted x => insert_by key x sorted) l acc in
  Permutation (acc ++ l) r /\ StronglySorted (key_le key) r /\
  forall o, filter (fun y => Reqb (key y) o) r =
            filter (fun y => Reqb (key y) o) acc ++ filter (fun y => Reqb (key y) o) l.
Proof.
  revert acc; induction l as [|x l IH]; intros acc Hacc; cbn [fold_left].
  - rewrite app_nil_r. split; [reflexivity|]. split; [exact Hacc|].
    intros o. cbn [filter]. now rewrite app_nil_r.
  - destruct (IH (insert_by key x acc) (insert_by_sorted x acc Hacc)) as (Hp & Hs & Hf).
    split; [|split].
    + rewrite <- Hp. rewrite <- insert_by_perm.
      symmetry. apply Permutation_middle.
    + exact Hs.
    + intros o. rewrite Hf, insert_by_stable by exact Hacc.
      cbn [filter]. rewrite <- app_assoc. destruct (Reqb (key x) o); reflexivity.
Qed.

Lemma py_sort_perm (l : list A) : Permutation l (py_sort key l).
Proof. apply (py_sort_acc l []). constructor. Qed.

Lemma py_sort_sorted (l : list A) : StronglySorted (key_le key) (py_sort key l).
Proof. apply (py_sort_acc l []). constructor. Qed.

Lemma py_sort_stable (l : list A) (o : R) :
  filter (fun y => Reqb (key y) o) (py_sort key l) = filter (fun y => Reqb (key y) o) l.
Proof. apply (py_sort_acc l []). constructor. Qed.

Lemma py_sort_length (l : list A) : length (py_sort key l) = length l.
Proof. symmetry. apply Permutation_length, py_sort_perm. Qed.

End Sorting.

(** ** Ordering without a home position *)

Lemma last_snoc2 (w : list point) (a b : point) : last (w ++ [a; b]) origin = b.
Proof.
  replace (w ++ [a; b]) with ((w ++ [a]) ++ [b]) by now rewrite <- app_assoc.
  apply last_last.
Qed.

(** The loop over [range(len(all_lines))], resumed at line [k > 0]. *)
Lemma fold_emit_greedy (pre rest : list scan_line) (sfe : bool) (w : list point) :
  pre <> [] ->
  fold_left (emit_line (pre ++ rest) sfe)
            (combine (seq (length pre) (length rest)) (seq (length pre) (length rest))) w =
  w ++ greedy_continue (last w origin) rest.
Proof.
  revert pre w; induction rest as [|l rest IH]; intros pre w Hpre.
  - simpl. now rewrite app_nil_r.
  - cbn [length seq combine fold_left].
    replace (pre ++ l :: rest) with ((pre ++ [l]) ++ rest) by now rewrite <- app_assoc.
    replace (S (length pre)) with (length (pre ++ [l]))
      by (rewrite length_app; simpl; lia).
    rewrite IH by (destruct pre; discriminate).
    unfold emit_line.
    assert (Hk : (length pre =? 0)%nat = false).
    { apply Nat.eqb_neq. destruct pre; [congruence | simpl; lia]. }
    rewrite Hk.
    rewrite <- app_assoc. cbn [app].
    rewrite nth_middle.
    cbn [greedy_continue].
    cmp_cases; rewrite last_snoc2, <- app_assoc; reflexivity.
Qed.

Lemma build_waypoints_default (all_lines : list scan_line) :
  build_waypoints all_lines (seq 0 (length all_lines)) false = lawnmower_path all_lines.
Proof.
  unfold build_waypoints. rewrite length_seq.
  destruct all_lines as [|l rest]; [reflexivity|].
  cbn [length seq combine fold_left].
  assert (Hne : [l] <> []) by discriminate.
  pose proof (fold_emit_greedy [l] rest false
                (emit_line (l :: rest) false [] (0%nat, 0%nat)) Hne) as H.
  cbn [length app] in H. rewrite H.
  unfold emit_line. cbn [Nat.eqb nth app last lawnmower_path]. reflexivity.
Qed.

Lemma choose_order_no_home (self : converter) (all_lines : list scan_line) (crn : corners) :
  home_position self = None ->
  choose_order self all_lines crn = (seq 0 (length all_lines), false).
Proof. intros H. unfold choose_order. now rewrite H. Qed.

Lemma optimize_no_home (self : converter) (all_lines : list scan_line) (crn : corners)
      (bearing : R) :
  home_position self = None ->
  optimize_line_ordering_for_corners self all_lines crn bearing = lawnmower_path all_lines.
Proof.
  intros H. destruct all_lines as [|l rest]; [reflexivity|].
  rewrite optimize_unfold by discriminate.
  unfold reverse_for_home, built_waypoints. rewrite H.
  rewrite choose_order_no_home by exact H. cbn [fst snd].
  apply build_waypoints_default.
Qed.

(** C2 (amended): with no home position the orderer visits the lines in
    stable ascending order of signed offset, emits the first line as
    (start, end), and emits each later line from whichever endpoint is
    nearer to the previous waypoint, (start, end) only when the start
    point is strictly nearer and (end, start) otherwise. *)
Theorem no_home_ordering (self : converter) (lines : list scan_line) (crn : corners)
        (bearing : R) :
  home_position self = None ->
  let sorted := py_sort offset lines in
  Permutation lines sorted /\
  StronglySorted (key_le offset) sorted /\
  (forall o, filter (fun l => Reqb (offset l) o) sorted =
             filter (fun l => Reqb (offset l) o) lines) /\
  optimize_line_ordering_for_corners self sorted crn bearing = lawnmower_path sorted.
Proof.
  intros H sorted. unfold sorted.
  split; [apply py_sort_perm|].
  split; [apply py_sort_sorted|].
  split; [intros o; apply py_sort_stable|].
  now apply optimize_no_home.
Qed.

Lemma no_home_ordering_witness :
  home_position (with_home None) = None /\
  optimize_line_ordering_for_corners (with_home None) (py_sort offset two_rows)
                                     no_corners 0 =
  lawnmower_path (py_sort offset two_rows).
Proof.
  assert (H : home_position (with_home None) = None) by reflexivity.
  split; [exact H|].
  exact (proj2 (proj2 (proj2 (no_home_ordering (with_home None) two_rows no_corners 0 H)))).
Defined.

Lemma two_rows_sorted : py_sort offset two_rows = two_rows.
Proof.
  unfold py_sort, two_rows, line_between. cbn [fold_left insert_by offset].
  decide_cmp. reflexivity.
Qed.

Lemma two_rows_turn :
  calculate_distance (0, 1) (1, 1) <= calculate_distance (0, 1) (1, 0).
Proof.
  apply calculate_distance_mono. unfold haversine_a.
  replace (radians (1 - 1) / 2) with 0 by (unfold radians; field; apply PI_neq0).
  rewrite sin_0.
  assert (Hc0 : cos (radians 0) = 1).
  { replace (radians 0) with 0 by (unfold radians; field; apply PI_neq0). apply cos_0. }
  assert (Hc1 : 0 <= cos (radians 1)).
  { pose proof PI_RGT_0. apply cos_ge_0; unfold radians; lra. }
  rewrite Hc0.
  pose proof (sin_sq_range (radians (0 - 1) / 2)) as [Hs _].
  assert (0 <= cos (radians 1) * sin (radians (0 - 1) / 2) ^ 2)
    by (apply Rmult_le_pos; assumption).
  lra.
Qed.

(** C2 (as stated) fails: for two rows one above the other, visited in
    ascending offset without a home position, the second row is flown
    from its end point back to its start point. *)
Lemma default_orientation_counterexample :
  two_rows <> [] /\
  home_position (with_home None) = None /\
  py_sort offset two_rows = two_rows /\
  optimize_line_ordering_for_corners (with_home None) (py_sort offset two_rows)
                                     no_corners 0 =
  [(0, 0); (0, 1); (1, 1); (1, 0)] /\
  optimize_line_ordering_for_corners (with_home None) (py_sort offset two_rows)
                                     no_corners 0 <>
  default_path (py_sort offset two_rows).
Proof.
  assert (Hpath : optimize_line_ordering_for_corners
                    (with_home None) (py_sort offset two_rows) no_corners 0 =
                  [(0, 0); (0, 1); (1, 1); (1, 0)]).
  { rewrite optimize_no_home by reflexivity. rewrite two_rows_sorted.
    unfold two_rows, line_between.
    cbn [lawnmower_path greedy_continue start_point end_point].
    rewrite (proj2 (Rltb_false _ _) two_rows_turn). reflexivity. }
  split; [discriminate|]. split; [reflexivity|].
  split; [exact two_rows_sorted|]. split; [exact Hpath|].
  rewrite Hpath, two_rows_sorted. unfold default_path, two_rows, line_between.
  cbn [flat_map app start_point end_point].
  intros H. injection H as H. lra.
Qed.

(** ** The sweep loop *)

Section SweepFacts.

Variables (center_lat center_lon perp_bearing bearing : R).
Variable buffered_polygon : polygon.
Variables (s max_extend : R).

Local Abbreviation body := (sweep_body center_lat center_lon perp_bearing bearing
                             buffered_polygon s).
Local Abbreviation guard := (sweep_guard max_extend).
Local Abbreviation while := (sweep_while center_lat center_lon perp_bearing bearing
                               buffered_polygon s max_extend).
Local Abbreviation line_at := (scan_line_at center_lat center_lon perp_bearing bearing
                                  buffered_polygon).
Local Abbreviation swept := (swept_lines center_lat center_lon perp_bearing bearing
                               buffered_polygon s).

Lemma sweep_body_eq (direction o : R) (lines : list scan_line) :
  body direction (o, lines) =
  (o + s, lines ++ (if Reqb o 0 && Reqb direction (-1) then []
                    else line_at (o * direction))).
Proof.
  unfold sweep_body, scan_line_at.
  destruct (Reqb o 0 && Reqb direction (-1)); [now rewrite app_nil_r|].
  destruct (point_at_bearing_and_distance _ _ _ _) as [lat lon].
  destruct (2 <=? length _)%nat; [reflexivity | now rewrite app_nil_r].
Qed.

Lemma iter_sweep_body (direction : R) (lines : list scan_line) (n : nat) :
  Nat.iter n (body direction) (0, lines) = (INR n * s, lines ++ swept direction n).
Proof.
  induction n as [|n IH].
  - simpl. rewrite app_nil_r. f_equal. ring.
  - rewrite Nat.iter_succ, IH, sweep_body_eq.
    unfold swept_lines. rewrite seq_S, flat_map_app. cbn [flat_map Nat.add].
    rewrite app_nil_r, <- app_assoc. f_equal.
    rewrite S_INR. ring.
Qed.

Lemma sweep_while_iter (direction : R) (n : nat) :
  forall (fuel : nat) (st : R * list scan_line),
    (forall k, (k < n)%nat -> guard (Nat.iter k (body direction) st) = true) ->
    guard (Nat.iter n (body direction) st) = false ->
    (n < fuel)%nat ->
    while fuel direction st = Ok (Nat.iter n (body direction) st).
Proof.
  induction n as [|n IH]; intros fuel st Hlt Hn Hfuel.
  - destruct fuel; [lia|]. simpl in *. now rewrite Hn.
  - destruct fuel; [lia|]. cbn [sweep_while].
    pose proof (Hlt 0%nat ltac:(lia)) as H0. cbn [Nat.iter nat_rect] in H0. rewrite H0.
    rewrite Nat.iter_succ_r in Hn |- *. apply IH.
    + intros k Hk. rewrite <- Nat.iter_succ_r. apply Hlt. lia.
    + exact Hn.
    + lia.
Qed.

Lemma sweep_while_starved (direction : R) :
  forall (fuel : nat) (st : R * list scan_line),
    (forall k, (k < fuel)%nat -> guard (Nat.iter k (body direction) st) = true) ->
    while fuel direction st = OutOfFuel.
Proof.
  induction fuel as [|fuel IH]; intros st Hlt; [reflexivity|].
  cbn [sweep_while].
  pose proof (Hlt 0%nat ltac:(lia)) as H0. cbn [Nat.iter nat_rect] in H0. rewrite H0.
  apply IH. intros k Hk. rewrite <- Nat.iter_succ_r. apply Hlt. lia.
Qed.

Lemma guard_iter (direction : R) (lines : list scan_line) (k : nat) :
  guard (Nat.iter k (body direction) (0, lines)) = Rleb (INR k * s) max_extend.
Proof. now rewrite iter_sweep_body. Qed.

End SweepFacts.

Lemma Int_part_nonneg (q : R) : 0 <= q -> (0 <= Int_part q)%Z.
Proof.
  intros Hq. destruct (base_Int_part q) as [_ H].
  assert (Hz : -1 < IZR (Int_part q)) by lra.
  apply lt_IZR in Hz. lia.
Qed.

Lemma sweep_iterations_spec (s max_extend : R) :
  0 < s ->
  let n := sweep_iterations s max_extend in
  (forall k, (k < n)%nat -> INR k * s <= max_extend) /\
  max_extend < INR n * s /\
  (0 <= max_extend -> INR n <= max_extend / s + 1).
Proof.
  intros Hs. unfold sweep_iterations. cmp_cases; cbv zeta.
  - split; [intros k Hk; lia|]. split; [simpl; lra | lra].
  - assert (Hq : 0 <= max_extend / s) by (apply Rmult_le_pos; [lra | left; now apply Rinv_0_lt_compat]).
    pose proof (Int_part_nonneg _ Hq) as Hz.
    destruct (base_Int_part (max_extend / s)) as [Hlo Hhi].
    assert (Hn : INR (Z.to_nat (Int_part (max_extend / s))) = IZR (Int_part (max_extend / s))).
    { rewrite INR_IZR_INZ, Z2Nat.id by exact Hz. reflexivity. }
    assert (Hm : max_extend = max_extend / s * s) by (field; lra).
    split; [|split].
    + intros k Hk.
      assert (Hk' : INR k <= INR (Z.to_nat (Int_part (max_extend / s))))
        by (apply le_INR; lia).
      rewrite Hn in Hk'. rewrite Hm. apply Rmult_le_compat_r; lra.
    + rewrite S_INR, Hn. rewrite Hm at 1. apply Rmult_lt_compat_r; lra.
    + intros _. rewrite S_INR, Hn. lra.
Qed.

(** ** The pipeline up to the sweep *)

Lemma sweep_runs (clat clon perp bearing : R) (poly : polygon) (s max_extend : R)
      (fuel : nat) :
  0 < s ->
  (sweep_iterations s max_extend < fuel)%nat ->
  sweep clat clon perp bearing poly s max_extend fuel =
  Ok (swept_lines clat clon perp bearing poly s (-1) (sweep_iterations s max_extend) ++
      swept_lines clat clon perp bearing poly s 1 (sweep_iterations s max_extend)).
Proof.
  intros Hs Hfuel.
  destruct (sweep_iterations_spec s max_extend Hs) as (Hlt & Hn & _).
  set (n := sweep_iterations s max_extend) in *.
  assert (Hrun : forall direction lines,
             sweep_while clat clon perp bearing poly s max_extend fuel direction (0, lines) =
             Ok (INR n * s, lines ++ swept_lines clat clon perp bearing poly s direction n)).
  { intros direction lines. rewrite <- iter_sweep_body.
    apply sweep_while_iter.
    - intros k Hk. rewrite guard_iter. apply Rleb_true. now apply Hlt.
    - rewrite guard_iter. apply Rleb_false. exact Hn.
    - exact Hfuel. }
  unfold sweep. cbn [fold_left bind]. rewrite Hrun. cbn [bind snd].
  rewrite Hrun. cbn [bind snd app]. reflexivity.
Qed.

Lemma create_buffer_polygon_length (self : converter) (poly : polygon) :
  length (create_buffer_polygon self poly) = length poly.
Proof.
  destruct (Nat.ltb_spec (length poly) 3) as [H | H].
  - unfold create_buffer_polygon. apply Nat.ltb_lt in H. now rewrite H.
  - rewrite create_buffer_polygon_map by exact H. apply length_map.
Qed.

Lemma get_polygon_bounds_ok (poly : polygon) :
  poly <> [] -> exists b, get_polygon_bounds poly = Ok b.
Proof.
  destruct poly as [|p poly]; [congruence|]. intros _.
  unfold get_polygon_bounds. cbn [map py_min py_max bind]. eexists; reflexivity.
Qed.

Lemma find_polygon_corners_ok (poly : polygon) :
  exists crn, find_polygon_corners poly = Ok crn.
Proof.
  unfold find_polygon_corners.
  destruct (length poly <? 3)%nat eqn:Hlen; [eexists; reflexivity|].
  destruct (get_polygon_bounds_ok poly) as [b Hb].
  { apply Nat.ltb_ge in Hlen. destruct poly; [simpl in Hlen; lia | discriminate]. }
  rewrite Hb. cbn [bind].
  destruct (fold_left _ poly _) as [[[tr tl] bl] br]. eexists; reflexivity.
Qed.

Lemma find_longest_side_ok (poly : polygon) :
  poly <> [] -> exists side, find_longest_side_with_bearing poly = Ok side.
Proof.
  destruct poly as [|p poly]; [congruence|]. intros _.
  unfold find_longest_side_with_bearing.
  destruct (length (p :: poly) <? 3)%nat; eexists; reflexivity.
Qed.

Lemma prepare_sweep_ok (self : converter) (poly : polygon) :
  poly <> [] ->
  exists loc, prepare_sweep self poly = Ok loc /\
              loc_spacing_meters loc = spacing self * 111000 /\
              0 <= loc_max_extend loc.
Proof.
  intros Hne. unfold prepare_sweep.
  destruct (find_longest_side_ok poly Hne) as [side ->].
  destruct (find_polygon_corners_ok poly) as [crn ->].
  destruct (get_polygon_bounds_ok poly Hne) as [b ->].
  cbn [bind]. eexists. split; [reflexivity|]. cbn. split; [reflexivity|].
  pose proof (calculate_distance_nonneg (min_lat b, min_lon b) (max_lat b, max_lon b)).
  lra.
Qed.

Lemma buffered_nonempty (self : converter) (poly : polygon) :
  (3 <= length poly)%nat -> create_buffer_polygon self poly <> [].
Proof.
  intros H E. pose proof (create_buffer_polygon_length self poly) as L.
  rewrite E in L. simpl in L. lia.
Qed.

(** C10: for a polygon with at least 3 vertices and positive spacing the
    [while] loop of each direction runs its body a number [n] of times
    with [n <= max_extend / spacing_meters + 1], so both directions take
    at most [2 * (max_extend / spacing_meters) + 2] iterations, and the
    pipeline returns; the spacing is never validated, and with spacing 0
    the offset stays at 0 and the loop never exits. *)
Theorem sweep_termination (self : converter) (poly : polygon) :
  (3 <= length poly)%nat ->
  let buffered := create_buffer_polygon self poly in
  exists loc,
    prepare_sweep self buffered = Ok loc /\
    let body := sweep_body (loc_center_lat loc) (loc_center_lon loc)
                           (loc_perp_bearing loc) (loc_bearing loc) buffered
                           (loc_spacing_meters loc) in
    let run := sweep_while (loc_center_lat loc) (loc_center_lon loc)
                           (loc_perp_bearing loc) (loc_bearing loc) buffered
                           (loc_spacing_meters loc) (loc_max_extend loc) in
    let guard := sweep_guard (loc_max_extend loc) in
    (0 < spacing self ->
     exists n,
       (forall direction lines,
           (forall k, (k < n)%nat ->
                      guard (Nat.iter k (body direction) (0, lines)) = true) /\
           guard (Nat.iter n (body direction) (0, lines)) = false /\
           forall fuel, (n < fuel)%nat ->
                        run fuel direction (0, lines) =
                        Ok (Nat.iter n (body direction) (0, lines))) /\
       INR n + INR n <= 2 * (loc_max_extend loc / loc_spacing_meters loc) + 2 /\
       forall fuel, (n < fuel)%nat ->
                    exists w, generate_parallel_lines_to_longest_side self fuel poly = Ok w) /\
    (spacing self = 0 ->
     (forall direction lines k,
         fst (Nat.iter k (body direction) (0, lines)) = 0 /\
         guard (Nat.iter k (body direction) (0, lines)) = true) /\
     forall fuel, generate_parallel_lines_to_longest_side self fuel poly = OutOfFuel).
Proof.
  intros Hlen buffered.
  destruct (prepare_sweep_ok self buffered (buffered_nonempty self poly Hlen))
    as (loc & Hloc & Hs & HM).
  exists loc. split; [exact Hloc|]. cbv zeta.
  assert (Hgen : forall fuel,
             generate_parallel_lines_to_longest_side self fuel poly =
             (all_lines <- collect_lines loc fuel buffered ;;
              Ok (optimize_line_ordering_for_corners self all_lines (loc_corners loc)
                                                     (loc_bearing loc)))).
  { intros fuel. unfold generate_parallel_lines_to_longest_side.
    destruct (Nat.ltb_spec (length poly) 3) as [H | _]; [lia|].
    fold buffered. rewrite Hloc. reflexivity. }
  split.
  - intros Hpos.
    assert (Hsm : 0 < loc_spacing_meters loc) by (rewrite Hs; lra).
    destruct (sweep_iterations_spec _ (loc_max_extend loc) Hsm) as (Hlt & Hn & Hb).
    exists (sweep_iterations (loc_spacing_meters loc) (loc_max_extend loc)).
    set (n := sweep_iterations _ _) in *.
    assert (Hg : forall direction lines,
               (forall k, (k < n)%nat ->
                  sweep_guard (loc_max_extend loc)
                    (Nat.iter k (sweep_body (loc_center_lat loc) (loc_center_lon loc)
                                   (loc_perp_bearing loc) (loc_bearing loc) buffered
                                   (loc_spacing_meters loc) direction) (0, lines)) = true) /\
               sweep_guard (loc_max_extend loc)
                    (Nat.iter n (sweep_body (loc_center_lat loc) (loc_center_lon loc)
                                   (loc_perp_bearing loc) (loc_bearing loc) buffered
                                   (loc_spacing_meters loc) direction) (0, lines)) = false).
    { intros direction lines. split.
      - intros k Hk. rewrite guard_iter. apply Rleb_true. now apply Hlt.
      - rewrite guard_iter. apply Rleb_false. exact Hn. }
    split; [|split].
    + intros direction lines. destruct (Hg direction lines) as [G1 G2].
      split; [exact G1|]. split; [exact G2|].
      intros fuel Hfuel. now apply sweep_while_iter.
    + specialize (Hb HM). lra.
    + intros fuel Hfuel. rewrite Hgen. unfold collect_lines.
      rewrite sweep_runs by assumption. cbn [bind]. eexists; reflexivity.
  - intros H0.
    assert (Hsm : loc_spacing_meters loc = 0) by (rewrite Hs, H0; ring).
    assert (Hstay : forall direction lines k,
               fst (Nat.iter k (sweep_body (loc_center_lat loc) (loc_center_lon loc)
                                   (loc_perp_bearing loc) (loc_bearing loc) buffered
                                   (loc_spacing_meters loc) direction) (0, lines)) = 0 /\
               sweep_guard (loc_max_extend loc)
                    (Nat.iter k (sweep_body (loc_center_lat loc) (loc_center_lon loc)
                                   (loc_perp_bearing loc) (loc_bearing loc) buffered
                                   (loc_spacing_meters loc) direction) (0, lines)) = true).
    { intros direction lines k. rewrite guard_iter, iter_sweep_body. cbn [fst].
      rewrite Hsm, Rmult_0_r. split; [reflexivity | now apply Rleb_true]. }
    split; [exact Hstay|].
    intros fuel. rewrite Hgen. unfold collect_lines, sweep. cbn [fold_left bind].
    rewrite sweep_while_starved; [reflexivity|].
    intros k _. apply Hstay.
Qed.

Lemma sweep_termination_witness :
  (3 <= length unit_square)%nat /\
  0 < spacing (buffer_by 0) /\
  exists n, forall fuel,
      (n < fuel)%nat ->
      exists w, generate_parallel_lines_to_longest_side (buffer_by 0) fuel unit_square = Ok w.
Proof.
  assert (H : (3 <= length unit_square)%nat) by (simpl; lia).
  assert (Hs : 0 < spacing (buffer_by 0)) by (simpl; lra).
  split; [exact H|]. split; [exact Hs|].
  destruct (sweep_termination (buffer_by 0) unit_square H) as (loc & _ & Hpos & _).
  destruct (Hpos Hs) as (n & _ & _ & Hrun).
  exists n. exact Hrun.
Defined.

(** ** Retention of a probe line *)

Section ProbeFacts.

Variables (center_lat center_lon perp_bearing bearing : R).
Variable buffered_polygon : polygon.

Local Abbreviation hits := (probe_hits center_lat center_lon perp_bearing bearing
                                       buffered_polygon).
Local Abbreviation line_at := (scan_line_at center_lat center_lon perp_bearing bearing
                                            buffered_polygon).

Lemma scan_line_at_dropped (o : R) :
  (length (hits o) < 2)%nat -> line_at o = [].
Proof.
  unfold probe_hits, scan_line_at, get_line_intersections_only.
  destruct (point_at_bearing_and_distance _ _ _ _) as [lat lon].
  destruct (probe_ends lat lon bearing) as [end1 end2].
  intros H. apply Nat.leb_gt in H. rewrite H. reflexivity.
Qed.

Lemma scan_line_at_kept (o : R) :
  (2 <= length (hits o))%nat ->
  exists l, line_at o = [l] /\ offset l = o /\
            Permutation (hits o) (intersections l) /\
            start_point l = nth 0 (intersections l) origin /\
            end_point l = last (intersections l) origin.
Proof.
  unfold probe_hits, scan_line_at, get_line_intersections_only.
  destruct (point_at_bearing_and_distance _ _ _ _) as [lat lon].
  destruct (probe_ends lat lon bearing) as [end1 end2].
  intros H. pose proof H as H'. apply Nat.leb_le in H'. rewrite H'.
  rewrite py_sort_length, H'.
  eexists. split; [reflexivity|]. cbn [offset intersections start_point end_point].
  split; [reflexivity|]. split; [|split; reflexivity].
  etransitivity; apply py_sort_perm.
Qed.

Lemma scan_line_at_length (o : R) :
  length (line_at o) = if (2 <=? length (hits o))%nat then 1%nat else 0%nat.
Proof.
  destruct (Nat.leb_spec 2 (length (hits o))) as [H | H].
  - destruct (scan_line_at_kept o H) as (l & -> & _). reflexivity.
  - now rewrite scan_line_at_dropped.
Qed.

End ProbeFacts.

Section SweptLines.

Variables (center_lat center_lon perp_bearing bearing : R).
Variable buffered_polygon : polygon.

Local Abbreviation hits := (probe_hits center_lat center_lon perp_bearing bearing
                                       buffered_polygon).
Local Abbreviation swept := (swept_lines center_lat center_lon perp_bearing bearing
                                         buffered_polygon).

Lemma swept_lines_all_dropped (s direction : R) (n : nat) :
  (forall k, (k < n)%nat -> ~ (INR k * s = 0 /\ direction = -1) ->
             (length (hits (INR k * s * direction)) < 2)%nat) ->
  swept s direction n = [].
Proof.
  intros H. unfold swept_lines.
  assert (G : forall l, (forall k, In k l -> (k < n)%nat) ->
              flat_map (fun k => if Reqb (INR k * s) 0 && Reqb direction (-1) then []
                                 else scan_line_at center_lat center_lon perp_bearing
                                                   bearing buffered_polygon
                                                   (INR k * s * direction)) l = []).
  { induction l as [|k l IH]; intros Hl; [reflexivity|].
    cbn [flat_map]. rewrite IH by (intros j Hj; apply Hl; now right).
    rewrite app_nil_r.
    destruct (Reqb (INR k * s) 0 && Reqb direction (-1)) eqn:Hskip; [reflexivity|].
    apply scan_line_at_dropped, H; [apply Hl; now left|].
    intros [E1 E2]. apply Reqb_true in E1. apply Reqb_true in E2.
    rewrite E1, E2 in Hskip. discriminate. }
  apply G. intros k Hk. apply in_seq in Hk. lia.
Qed.

Lemma swept_lines_one_kept (s direction : R) (n k : nat) :
  (k < n)%nat -> INR k * s <> 0 ->
  (2 <= length (hits (INR k * s * direction)))%nat ->
  (1 <= length (swept s direction n))%nat.
Proof.
  intros Hk Hne Hkept. unfold swept_lines.
  assert (Hin : In k (seq 0 n)) by (apply in_seq; lia).
  apply in_split in Hin. destruct Hin as (l1 & l2 & ->).
  rewrite flat_map_app, length_app. cbn [flat_map]. rewrite length_app.
  rewrite (proj2 (Reqb_false _ _) Hne). cbn [andb].
  rewrite scan_line_at_length. apply Nat.leb_le in Hkept. rewrite Hkept. simpl. lia.
Qed.

End SweptLines.

Lemma generate_unfold (self : converter) (poly : polygon) (loc : survey_locals)
      (fuel : nat) :
  (3 <= length poly)%nat ->
  prepare_sweep self (create_buffer_polygon self poly) = Ok loc ->
  generate_parallel_lines_to_longest_side self fuel poly =
  (all_lines <- collect_lines loc fuel (create_buffer_polygon self poly) ;;
   Ok (optimize_line_ordering_for_corners self all_lines (loc_corners loc)
                                          (loc_bearing loc))).
Proof.
  intros Hlen Hloc. unfold generate_parallel_lines_to_longest_side.
  destruct (Nat.ltb_spec (length poly) 3) as [H | _]; [lia|].
  now rewrite Hloc.
Qed.

Lemma run_without_hits (self : converter) (poly : polygon) (loc : survey_locals)
      (fuel : nat) :
  (3 <= length poly)%nat ->
  0 < loc_spacing_meters loc ->
  prepare_sweep self (create_buffer_polygon self poly) = Ok loc ->
  (forall (k : nat) (direction : R),
      direction = -1 \/ direction = 1 ->
      INR k * loc_spacing_meters loc <= loc_max_extend loc ->
      (length (probe_hits (loc_center_lat loc) (loc_center_lon loc)
                          (loc_perp_bearing loc) (loc_bearing loc)
                          (create_buffer_polygon self poly)
                          (INR k * loc_spacing_meters loc * direction)) < 2)%nat) ->
  (sweep_iterations (loc_spacing_meters loc) (loc_max_extend loc) < fuel)%nat ->
  generate_parallel_lines_to_longest_side self fuel poly = Ok [].
Proof.
  intros Hlen Hs Hloc Hnone Hfuel.
  destruct (sweep_iterations_spec _ (loc_max_extend loc) Hs) as (Hlt & _ & _).
  rewrite (generate_unfold self poly loc fuel Hlen Hloc). unfold collect_lines.
  rewrite sweep_runs by assumption.
  rewrite !swept_lines_all_dropped; [reflexivity | |].
  - intros k Hk _. apply Hnone; [now right | now apply Hlt].
  - intros k Hk _. apply Hnone; [now left | now apply Hlt].
Qed.

Lemma collapsed_side (ls le : point) (i : nat) :
  side_hit ls le collapsed_triangle i = [].
Proof.
  assert (Hside : side_at collapsed_triangle i = ((0, 0), (0, 0))).
  { unfold side_at, collapsed_triangle. cbn [length].
    assert (Hn : forall j, nth j [(0, 0); (0, 0); (0, 0)] origin = (0, 0)).
    { intros [|[|[|[|j]]]]; reflexivity. }
    now rewrite !Hn. }
  unfold side_hit. rewrite Hside. cbn [fst snd].
  unfold line_intersection.
  replace (intersection_denom ls le (0, 0) (0, 0)) with 0
    by (destruct ls, le; unfold intersection_denom; ring).
  rewrite Rabs_R0. decide_cmp. reflexivity.
Qed.

Lemma collapsed_never_hit (clat clon perp bearing o : R) :
  (length (probe_hits clat clon perp bearing collapsed_triangle o) < 2)%nat.
Proof.
  unfold probe_hits.
  destruct (point_at_bearing_and_distance _ _ _ _) as [lat lon].
  destruct (probe_ends lat lon bearing) as [end1 end2].
  unfold line_polygon_intersections. rewrite edge_hits_flat_map.
  cbn [collapsed_triangle length seq flat_map].
  rewrite !collapsed_side. simpl. lia.
Qed.

Lemma collapsed_buffered : create_buffer_polygon (buffer_by 0) collapsed_triangle = collapsed_triangle.
Proof.
  rewrite create_buffer_polygon_map by (simpl; lia).
  assert (Hc : centroid collapsed_triangle = (0, 0)).
  { unfold centroid, py_sum; simpl. f_equal; lra. }
  rewrite Hc. unfold collapsed_triangle. cbn [map].
  rewrite buffer_vertex_at_center; [reflexivity|].
  unfold planar_distance; cbn [fst snd].
  replace ((0 - 0) ^ 2 + (0 - 0) ^ 2) with 0 by ring. rewrite sqrt_0. lra.
Qed.

(** ** Two waypoints per retained line *)

Lemma fold_emit_visits (all_lines : list scan_line) (sfe : bool)
      (its : list (nat * nat)) (w : list point) :
  exists visits,
    map fst visits = map (fun it => nth (snd it) all_lines blank_line) its /\
    fold_left (emit_line all_lines sfe) its w = w ++ visit_waypoints visits.
Proof.
  revert w; induction its as [|it its IH]; intros w.
  - exists []. split; [reflexivity|]. simpl. now rewrite app_nil_r.
  - cbn [fold_left].
    destruct (emit_line_oriented all_lines sfe w it) as [f ->].
    destruct (IH (w ++ oriented (nth (snd it) all_lines blank_line) f))
      as (visits & Hmap & ->).
    exists ((nth (snd it) all_lines blank_line, f) :: visits).
    split; [cbn [map fst]; now rewrite Hmap|].
    unfold visit_waypoints. cbn [flat_map fst snd]. now rewrite app_assoc.
Qed.

Lemma map_snd_combine_seq (order : list nat) (k : nat) :
  map snd (combine (seq k (length order)) order) = order.
Proof.
  revert k; induction order as [|i order IH]; intros k; [reflexivity|].
  cbn [length seq combine map snd]. now rewrite IH.
Qed.

Lemma map_nth_seq (l : list scan_line) :
  map (fun i => nth i l blank_line) (seq 0 (length l)) = l.
Proof.
  induction l as [|x l IH]; [reflexivity|].
  cbn [length seq map nth]. f_equal.
  rewrite <- seq_shift, map_map. exact IH.
Qed.

Lemma choose_order_perm (self : converter) (all_lines : list scan_line) (crn : corners) :
  Permutation (map (fun i => nth i all_lines blank_line)
                   (fst (choose_order self all_lines crn)))
              all_lines.
Proof.
  unfold choose_order.
  destruct (home_position self), (top_right crn), (top_left crn); cbn [fst];
    try (rewrite map_nth_seq; reflexivity).
  destruct (startswith_first _); cbn [fst].
  - rewrite map_nth_seq; reflexivity.
  - rewrite map_rev, map_nth_seq. symmetry. apply Permutation_rev.
Qed.

Lemma rev_visit_waypoints (visits : list (scan_line * bool)) :
  rev (visit_waypoints visits) =
  visit_waypoints (rev (map (fun v => (fst v, negb (snd v))) visits)).
Proof.
  unfold visit_waypoints.
  induction visits as [|[l f] visits IH]; [reflexivity|].
  cbn [flat_map map rev fst snd]. rewrite rev_app_distr, IH, flat_map_app.
  cbn [flat_map fst snd]. rewrite app_nil_r. now destruct f.
Qed.

Lemma visit_waypoints_length (visits : list (scan_line * bool)) :
  length (visit_waypoints visits) = (2 * length visits)%nat.
Proof.
  unfold visit_waypoints. induction visits as [|[l f] visits IH]; [reflexivity|].
  cbn [flat_map length fst snd]. rewrite length_app, IH. destruct f; simpl; lia.
Qed.

Lemma optimize_visits (self : converter) (all_lines : list scan_line) (crn : corners)
      (bearing : R) :
  exists visits,
    Permutation (map fst visits) all_lines /\
    optimize_line_ordering_for_corners self all_lines crn bearing =
    visit_waypoints visits.
Proof.
  destruct all_lines as [|l0 rest] eqn:E; [exists []; split; reflexivity|].
  rewrite <- E. rewrite optimize_unfold by (rewrite E; discriminate).
  unfold built_waypoints, build_waypoints.
  destruct (fold_emit_visits all_lines (snd (choose_order self all_lines crn))
              (combine (seq 0 (length (fst (choose_order self all_lines crn))))
                       (fst (choose_order self all_lines crn))) [])
    as (visits & Hmap & ->).
  cbn [app].
  assert (Hperm : Permutation (map fst visits) all_lines).
  { rewrite Hmap, <- (map_map snd (fun i => nth i all_lines blank_line)).
    rewrite map_snd_combine_seq. apply choose_order_perm. }
  unfold reverse_for_home.
  destruct (home_position self) as [home|]; [|now exists visits].
  destruct (0 <? length (visit_waypoints visits))%nat; [|now exists visits].
  cmp_cases; [|now exists visits].
  exists (rev (map (fun v => (fst v, negb (snd v))) visits)).
  split; [|apply rev_visit_waypoints].
  rewrite map_rev, map_map. cbn [fst].
  rewrite <- Permutation_rev. exact Hperm.
Qed.

Lemma sweep_while_ok (clat clon perp bearing : R) (poly : polygon) (s max_extend : R)
      (direction : R) (fuel : nat) :
  forall st st',
    sweep_while clat clon perp bearing poly s max_extend fuel direction st = Ok st' ->
    exists n, st' = Nat.iter n (sweep_body clat clon perp bearing poly s direction) st.
Proof.
  induction fuel as [|fuel IH]; intros st st' H; [discriminate|].
  cbn [sweep_while] in H. destruct (sweep_guard max_extend st).
  - destruct (IH _ _ H) as [n ->]. exists (S n). now rewrite Nat.iter_succ_r.
  - injection H as <-. now exists 0%nat.
Qed.

Lemma sweep_ok (clat clon perp bearing : R) (poly : polygon) (s max_extend : R)
      (fuel : nat) (all_lines : list scan_line) :
  sweep clat clon perp bearing poly s max_extend fuel = Ok all_lines ->
  exists n1 n2,
    all_lines = swept_lines clat clon perp bearing poly s (-1) n1 ++
                swept_lines clat clon perp bearing poly s 1 n2.
Proof.
  unfold sweep. cbn [fold_left bind].
  destruct (sweep_while _ _ _ _ _ _ _ fuel (-1) (0, [])) as [st1| |] eqn:E1;
    cbn [bind]; try discriminate.
  destruct (sweep_while _ _ _ _ _ _ _ fuel 1 (0, snd st1)) as [st2| |] eqn:E2;
    cbn [bind]; try discriminate.
  intros H; injection H as <-.
  apply sweep_while_ok in E1. destruct E1 as [n1 ->].
  apply sweep_while_ok in E2. destruct E2 as [n2 ->].
  rewrite iter_sweep_body in *. cbn [snd app] in *.
  rewrite iter_sweep_body. cbn [snd]. now exists n1, n2.
Qed.

(** ** Degenerate sides and the float modulo *)

Lemma fmod_eval (x m : R) (z : Z) :
  0 < m -> IZR z * m <= x < (IZR z + 1) * m -> fmod x m = x - m * IZR z.
Proof.
  intros Hm [Hlo Hhi]. unfold fmod.
  rewrite <- (Int_part_spec (x / m) z); [reflexivity|].
  split.
  - apply Rmult_lt_reg_r with m; [exact Hm|].
    replace ((x / m - 1) * m) with (x - m) by (field; lra). lra.
  - apply Rmult_le_reg_r with m; [exact Hm|].
    replace (x / m * m) with x by (field; lra). exact Hlo.
Qed.

Lemma atan2_zero_first (y x : R) : 0 <= y -> 0 <= x -> atan2 y x = 0 -> y = 0.
Proof.
  intros Hy Hx H. destruct (Req_dec_T y 0) as [E | Hne]; [exact E|]. exfalso.
  pose proof PI_RGT_0 as Hpi. unfold atan2 in H.
  destruct (Rltb 0 x) eqn:Hc.
  - apply Rltb_true in Hc.
    assert (0 < atan (y / x)); [|lra].
    rewrite <- atan_0. apply atan_increasing. apply Rdiv_lt_0_compat; lra.
  - apply Rltb_false in Hc.
    rewrite (proj2 (Rltb_false x 0)) in H by lra.
    rewrite (proj2 (Rltb_true 0 y)) in H by lra. lra.
Qed.

Lemma calculate_distance_zero (p q : point) :
  calculate_distance p q = 0 -> haversine_a p q = 0.
Proof.
  unfold calculate_distance, earth_radius. intros H.
  destruct (haversine_a_range p q) as [Ha _].
  apply sqrt_eq_0; [exact Ha|].
  apply atan2_zero_first with (x := sqrt (1 - haversine_a p q));
    try apply sqrt_pos. lra.
Qed.

Lemma cos_one_sin_zero (x : R) : cos x = 1 -> sin x = 0.
Proof.
  intros H. pose proof (sin2_cos2 x) as E. rewrite H in E. unfold Rsqr in E.
  apply Rsqr_0_uniq. unfold Rsqr. lra.
Qed.

Lemma cos_minus_one_sin_zero (x : R) : cos x = -1 -> sin x = 0.
Proof.
  intros H. pose proof (sin2_cos2 x) as E. rewrite H in E. unfold Rsqr in E.
  apply Rsqr_0_uniq. unfold Rsqr. lra.
Qed.

(** A side of length zero has both arguments of [atan2] equal to zero. *)
Lemma zero_length_bearing_args (f1 f2 h : R) :
  (1 - (sin h) ^ 2) * (1 - cos (f2 - f1)) + (sin h) ^ 2 * (1 + cos (f2 + f1)) = 0 ->
  sin (2 * h) * cos f2 = 0 /\
  cos f1 * sin f2 - sin f1 * cos f2 * cos (2 * h) = 0.
Proof.
  intros H.
  pose proof (sin_sq_range h) as Hs.
  pose proof (COS_bound (f2 - f1)) as Hc1.
  pose proof (COS_bound (f2 + f1)) as Hc2.
  set (s := (sin h) ^ 2) in *.
  assert (T1 : 0 <= (1 - s) * (1 - cos (f2 - f1))) by (apply Rmult_le_pos; lra).
  assert (T2 : 0 <= s * (1 + cos (f2 + f1))) by (apply Rmult_le_pos; lra).
  assert (E1 : (1 - s) * (1 - cos (f2 - f1)) = 0) by lra.
  assert (E2 : s * (1 + cos (f2 + f1)) = 0) by lra.
  assert (Hsin2 : sin (2 * h) = 2 * sin h * cos h) by apply sin_2a.
  assert (Hcos2 : cos (2 * h) = 1 - 2 * s).
  { rewrite cos_2a_sin. unfold s. simpl. ring. }
  pose proof (sin2_cos2 h) as Hh. unfold Rsqr in Hh.
  pose proof (sin2_cos2 f1) as Hf1. unfold Rsqr in Hf1.
  pose proof (sin2_cos2 f2) as Hf2. unfold Rsqr in Hf2.
  destruct (Req_dec_T s 0) as [S0 | S0].
  - (* the longitudes agree *)
    assert (Hsh : sin h = 0).
    { apply Rsqr_0_uniq. unfold Rsqr. unfold s in S0. simpl in S0. lra. }
    assert (Hc : cos (f2 - f1) = 1) by (rewrite S0 in E1; lra).
    apply cos_one_sin_zero in Hc. rewrite sin_minus in Hc.
    rewrite Hsin2, Hcos2, Hsh, S0. split; lra.
  - assert (Hc : cos (f2 + f1) = -1).
    { apply Rmult_integral in E2. destruct E2 as [E2 | E2]; [contradiction | lra]. }
    pose proof (cos_minus_one_sin_zero _ Hc) as Hsum. rewrite sin_plus in Hsum.
    destruct (Req_dec_T s 1) as [S1 | S1].
    + assert (Hch : cos h = 0).
      { apply Rsqr_0_uniq. unfold Rsqr. unfold s in S1. simpl in S1. lra. }
      rewrite Hsin2, Hcos2, Hch, S1. split; lra.
    + assert (Hd : cos (f2 - f1) = 1).
      { apply Rmult_integral in E1. destruct E1 as [E1 | E1]; lra. }
      pose proof (cos_one_sin_zero _ Hd) as Hdiff. rewrite sin_minus in Hdiff.
      rewrite cos_minus in Hd. rewrite cos_plus in Hc.
      assert (Hss : sin f2 * sin f1 = 1) by lra.
      assert (Hp1 : sin f2 * cos f1 = 0) by lra.
      assert (Hp2 : cos f2 * sin f1 = 0) by lra.
      assert (Hcf2 : cos f2 = 0).
      { apply Rmult_integral in Hp2. destruct Hp2 as [E | E]; [exact E|].
        rewrite E in Hss. lra. }
      assert (Hcf1 : cos f1 = 0).
      { apply Rmult_integral in Hp1. destruct Hp1 as [E | E]; [|exact E].
        rewrite E in Hss. lra. }
      rewrite Hcf1, Hcf2. split; ring.
Qed.

Lemma zero_length_bearing (p q : point) :
  calculate_distance p q = 0 -> side_bearing p q = 0.
Proof.
  intros H. apply calculate_distance_zero in H.
  rewrite haversine_a_mix in H.
  assert (Hmix : (1 - (sin (radians (snd q - snd p) / 2)) ^ 2)
                 * (1 - cos (radians (fst q) - radians (fst p)))
                 + (sin (radians (snd q - snd p) / 2)) ^ 2
                   * (1 + cos (radians (fst q) + radians (fst p))) = 0) by lra.
  apply zero_length_bearing_args in Hmix.
  replace (2 * (radians (snd q - snd p) / 2))
    with (radians (snd q) - radians (snd p)) in Hmix
    by (rewrite radians_minus; field).
  destruct Hmix as [Hy Hx].
  unfold side_bearing. rewrite Hy, Hx.
  unfold atan2. decide_cmp. unfold degrees.
  replace (0 * 180 / PI + 360) with 360 by (field; apply PI_neq0).
  rewrite (fmod_eval 360 360 1); lra.
Qed.

(** ** The longest side *)

Section LongestSide.

Variable poly : polygon.
Variable init : longest_side.
Hypothesis init_length : max_length init = 0.

Lemma longest_step_keeps (k : nat) (st : longest_side) :
  longest_so_far poly init k st -> longest_so_far poly init (S k) (longest_step poly st k).
Proof.
  unfold longest_so_far. intros Hinv. unfold longest_step.
  pose proof (calculate_distance_nonneg (fst (side_at poly k)) (snd (side_at poly k)))
    as Hk.
  fold (side_length poly k) in Hk.
  destruct (side_at poly k) as [p1 p2] eqn:Hside.
  assert (Hlen : calculate_distance p1 p2 = side_length poly k)
    by (unfold side_length; now rewrite Hside).
  assert (Hbrg : side_bearing p1 p2 = side_bearing_at poly k)
    by (unfold side_bearing_at; now rewrite Hside).
  rewrite Hlen, Hbrg. cmp_cases.
  - left. cbn [max_length longest_side_index best_bearing].
    destruct Hinv as [(Hpos & Hidx & Hmax & _ & Hall & _) | (-> & Hzero)].
    + repeat split; try lra; try lia.
      * intros j Hj. destruct (Nat.eq_dec j k) as [-> | Hne]; [lra|].
        specialize (Hall j ltac:(lia)). lra.
      * intros j Hj. specialize (Hall j Hj). lra.
    + rewrite init_length in Hcmp.
      repeat split; try lra; try lia.
      * intros j Hj. destruct (Nat.eq_dec j k) as [-> | Hne]; [lra|].
        rewrite (Hzero j) by lia. lra.
      * intros j Hj. rewrite (Hzero j Hj). lra.
  - destruct Hinv as [(Hpos & Hidx & Hmax & Hb & Hall & Hfirst) | (-> & Hzero)].
    + left. repeat split; try assumption; try lia.
      intros j Hj. destruct (Nat.eq_dec j k) as [-> | Hne]; [lra|].
      apply Hall. lia.
    + right. split; [reflexivity|].
      rewrite init_length in Hcmp.
      intros j Hj. destruct (Nat.eq_dec j k) as [-> | Hne]; [lra|].
      apply Hzero. lia.
Qed.

Lemma longest_fold_keeps (k : nat) :
  longest_so_far poly init k (fold_left (longest_step poly) (seq 0 k) init).
Proof.
  induction k as [|k IH].
  - right. split; [reflexivity|]. intros j Hj. lia.
  - rewrite seq_S, fold_left_app. cbn [fold_left Nat.add].
    now apply longest_step_keeps.
Qed.

End LongestSide.

Lemma longest_side_spec (poly : polygon) :
  (3 <= length poly)%nat ->
  exists side,
    find_longest_side_with_bearing poly = Ok side /\
    (longest_side_index side < length poly)%nat /\
    best_bearing side = side_bearing_at poly (longest_side_index side) /\
    max_length side = side_length poly (longest_side_index side) /\
    (forall j, (j < length poly)%nat ->
               side_length poly j <= side_length poly (longest_side_index side)) /\
    (forall j, (j < longest_side_index side)%nat ->
               side_length poly j < side_length poly (longest_side_index side)).
Proof.
  intros Hlen.
  destruct poly as [|p0 rest]; [simpl in Hlen; lia|].
  set (init := {| longest_side_index := 0; max_length := 0; best_bearing := 0;
                  best_start := p0;
                  best_end := match rest with [] => p0 | q :: _ => q end |}).
  assert (Hfind : find_longest_side_with_bearing (p0 :: rest) =
                  Ok (fold_left (longest_step (p0 :: rest))
                                (seq 0 (length (p0 :: rest))) init)).
  { unfold find_longest_side_with_bearing.
    destruct (Nat.ltb_spec (length (p0 :: rest)) 3) as [H | _]; [lia|]. reflexivity. }
  remember (p0 :: rest) as poly eqn:E.
  pose proof (longest_fold_keeps poly init eq_refl (length poly)) as Hinv.
  remember (fold_left (longest_step poly) (seq 0 (length poly)) init) as side eqn:Hside.
  clear Hside. unfold longest_so_far in Hinv.
  exists side. split; [exact Hfind|].
  { destruct Hinv as [(Hpos & Hidx & Hmax & Hb & Hall & Hfirst) | (Hinit & Hzero)].
    - rewrite <- Hmax. repeat split; assumption.
    - rewrite Hinit. cbn [init longest_side_index best_bearing max_length].
      assert (H0 : side_length poly 0 = 0) by (apply Hzero; lia).
      repeat split.
      + lia.
      + unfold side_bearing_at. symmetry. apply zero_length_bearing. exact H0.
      + now rewrite H0.
      + intros j Hj. rewrite H0, (Hzero j Hj). lra.
      + intros j Hj. lia. }
Qed.



(** ** Counting the retained lines *)

Section Counting.

Variables (center_lat center_lon perp_bearing bearing : R).
Variable buffered_polygon : polygon.
Variable max_extend : R.

Local Abbreviation hits := (probe_hits center_lat center_lon perp_bearing bearing
                                       buffered_polygon).
Local Abbreviation line_at := (scan_line_at center_lat center_lon perp_bearing bearing
                                            buffered_polygon).
Local Abbreviation swept := (swept_lines center_lat center_lon perp_bearing bearing
                                         buffered_polygon).

Lemma flat_map_length_le {A B : Type} (f g : A -> list B) (l : list A) :
  (forall x, In x l -> (length (f x) <= length (g x))%nat) ->
  (length (flat_map f l) <= length (flat_map g l))%nat.
Proof.
  induction l as [|x l IH]; intros H; cbn [flat_map]; [lia|].
  rewrite !length_app.
  pose proof (H x (or_introl eq_refl)).
  assert (length (flat_map f l) <= length (flat_map g l))%nat
    by (apply IH; intros y Hy; apply H; now right).
  lia.
Qed.

Lemma swept_lines_prefix (s direction : R) (n m : nat) :
  (n <= m)%nat -> (length (swept s direction n) <= length (swept s direction m))%nat.
Proof.
  intros Hnm. unfold swept_lines.
  replace m with (n + (m - n))%nat by lia.
  rewrite seq_app, flat_map_app, length_app. lia.
Qed.

Lemma sweep_iterations_antitone (s1 s2 : R) :
  0 < s1 -> s1 <= s2 ->
  (sweep_iterations s2 max_extend <= sweep_iterations s1 max_extend)%nat.
Proof.
  intros H1 H12.
  destruct (sweep_iterations_spec s1 max_extend H1) as (_ & Hn1 & _).
  destruct (sweep_iterations_spec s2 max_extend ltac:(lra)) as (Hlt2 & _ & _).
  destruct (Nat.le_gt_cases (sweep_iterations s2 max_extend)
                            (sweep_iterations s1 max_extend)) as [H | H]; [exact H|].
  exfalso. specialize (Hlt2 _ H).
  pose proof (pos_INR (sweep_iterations s1 max_extend)).
  nra.
Qed.

Hypothesis closed :
  forall o o' : R,
    Rabs o <= max_extend ->
    (2 <= length (hits o))%nat ->
    (0 <= o' <= o \/ o <= o' <= 0) ->
    (2 <= length (hits o'))%nat.

Lemma swept_lines_coarser (s1 s2 direction : R) :
  0 < s1 -> s1 <= s2 -> direction = -1 \/ direction = 1 ->
  (length (swept s2 direction (sweep_iterations s2 max_extend))
   <= length (swept s1 direction (sweep_iterations s1 max_extend)))%nat.
Proof.
  intros H1 H12 Hdir.
  etransitivity;
    [|apply swept_lines_prefix, (sweep_iterations_antitone s1 s2 H1 H12)].
  destruct (sweep_iterations_spec s2 max_extend ltac:(lra)) as (Hlt2 & _ & _).
  unfold swept_lines. apply flat_map_length_le.
  intros k Hk. apply in_seq in Hk.
  assert (Hks : INR k * s2 <= max_extend) by (apply Hlt2; lia).
  pose proof (pos_INR k) as Hk0.
  destruct (Req_dec_T (INR k) 0) as [Hz | Hnz].
  - rewrite Hz, !Rmult_0_l. lia.
  - assert (Hkpos : 0 < INR k) by lra.
    rewrite (proj2 (Reqb_false (INR k * s2) 0)) by nra.
    rewrite (proj2 (Reqb_false (INR k * s1) 0)) by nra.
    cbn [andb]. rewrite !scan_line_at_length.
    destruct (Nat.leb_spec 2 (length (hits (INR k * s2 * direction)))) as [Hk2 | _];
      [|lia].
    assert (Hin : (2 <= length (hits (INR k * s1 * direction)))%nat).
    { apply (closed (INR k * s2 * direction)); [|exact Hk2|].
      - destruct Hdir as [-> | ->].
        + replace (INR k * s2 * -1) with (- (INR k * s2)) by ring.
          rewrite Rabs_Ropp, Rabs_right; nra.
        + rewrite Rmult_1_r, Rabs_right; nra.
      - destruct Hdir as [-> | ->]; [right | left]; nra. }
    apply Nat.leb_le in Hin. rewrite Hin. lia.
Qed.

Lemma sweep_coarser (s1 s2 : R) (fuel : nat) :
  0 < s1 -> s1 <= s2 ->
  (sweep_iterations s1 max_extend < fuel)%nat ->
  exists lines1 lines2,
    sweep center_lat center_lon perp_bearing bearing buffered_polygon s1 max_extend fuel
    = Ok lines1 /\
    sweep center_lat center_lon perp_bearing bearing buffered_polygon s2 max_extend fuel
    = Ok lines2 /\
    (length lines2 <= length lines1)%nat.
Proof.
  intros H1 H12 Hfuel.
  pose proof (sweep_iterations_antitone s1 s2 H1 H12) as Hn.
  rewrite (sweep_runs _ _ _ _ _ s1) by assumption.
  rewrite (sweep_runs _ _ _ _ _ s2) by (try lra; lia).
  eexists; eexists. split; [reflexivity|]. split; [reflexivity|].
  rewrite !length_app.
  pose proof (swept_lines_coarser s1 s2 (-1) H1 H12 (or_introl eq_refl)).
  pose proof (swept_lines_coarser s1 s2 1 H1 H12 (or_intror eq_refl)).
  lia.
Qed.

End Counting.

Lemma buffer_vertex_ext (self1 self2 : converter) (c v : point) :
  buffer_distance self1 = buffer_distance self2 ->
  buffer_vertex self1 c v = buffer_vertex self2 c v.
Proof. intros H. unfold buffer_vertex. now rewrite H. Qed.

Lemma create_buffer_polygon_ext (self1 self2 : converter) (poly : polygon) :
  buffer_distance self1 = buffer_distance self2 ->
  create_buffer_polygon self1 poly = create_buffer_polygon self2 poly.
Proof.
  intros H. unfold create_buffer_polygon.
  destruct (length poly <? 3)%nat; [reflexivity|].
  rewrite !fold_left_snoc_map. f_equal. apply map_ext. intros v.
  now apply buffer_vertex_ext.
Qed.

Lemma prepare_sweep_spacing (self1 self2 : converter) (poly : polygon)
      (loc1 : survey_locals) :
  prepare_sweep self1 poly = Ok loc1 ->
  exists loc2,
    prepare_sweep self2 poly = Ok loc2 /\
    loc_spacing_meters loc1 = spacing self1 * 111000 /\
    loc_spacing_meters loc2 = spacing self2 * 111000 /\
    loc_bearing loc2 = loc_bearing loc1 /\
    loc_perp_bearing loc2 = loc_perp_bearing loc1 /\
    loc_center_lat loc2 = loc_center_lat loc1 /\
    loc_center_lon loc2 = loc_center_lon loc1 /\
    loc_max_extend loc2 = loc_max_extend loc1.
Proof.
  unfold prepare_sweep.
  destruct (find_longest_side_with_bearing poly) as [side| |]; cbn [bind];
    try discriminate.
  destruct (find_polygon_corners poly) as [crn| |]; cbn [bind]; try discriminate.
  destruct (get_polygon_bounds poly) as [b| |]; cbn [bind]; try discriminate.
  intros H; injection H as <-. eexists. split; [reflexivity|].
  cbn. repeat split; reflexivity.
Qed.

(** ** Sides and probes along a meridian *)

Lemma PI_bounds : 3.14 < PI < 3.15.
Proof.
  pose proof (PI_2_3_7_ineq 1) as [Hlo Hhi].
  unfold sum_f_R0, tg_alt, PI_2_3_7_tg, Ratan_seq in Hlo, Hhi.
  simpl in Hlo, Hhi.
  split; lra.
Qed.

Lemma radians_0 : radians 0 = 0.
Proof. unfold radians. field. Qed.

Lemma degrees_0 : degrees 0 = 0.
Proof. unfold degrees. field. apply PI_neq0. Qed.

Lemma degrees_radians (x : R) : degrees (radians x) = x.
Proof. unfold degrees, radians. field. apply PI_neq0. Qed.

Lemma degrees_plus (x y : R) : degrees (x + y) = degrees x + degrees y.
Proof. unfold degrees. field. apply PI_neq0. Qed.

Lemma atan2_sin_cos (x : R) : - (PI / 2) <= x <= PI / 2 -> atan2 (sin x) (cos x) = x.
Proof.
  intros [Hlo Hhi]. pose proof PI_RGT_0 as Hpi. unfold atan2.
  destruct (Req_dec_T x (PI / 2)) as [-> | Hne1].
  - rewrite sin_PI2, cos_PI2. decide_cmp. reflexivity.
  - destruct (Req_dec_T x (- (PI / 2))) as [-> | Hne2].
    + rewrite sin_neg, cos_neg, sin_PI2, cos_PI2. decide_cmp. reflexivity.
    + assert (Hc : 0 < cos x) by (apply cos_gt_0; lra).
      rewrite (proj2 (Rltb_true _ _) Hc).
      change (sin x / cos x) with (tan x). apply atan_tan. lra.
Qed.

Lemma atan2_zero_pos (x : R) : 0 < x -> atan2 0 x = 0.
Proof.
  intros Hx. unfold atan2. rewrite (proj2 (Rltb_true _ _) Hx).
  unfold Rdiv. now rewrite Rmult_0_l, atan_0.
Qed.

Lemma half_angle_atan2 (x : R) :
  0 <= x <= PI / 2 -> atan2 (sqrt ((sin x) ^ 2)) (sqrt (1 - (sin x) ^ 2)) = x.
Proof.
  intros Hx. pose proof PI_RGT_0 as Hpi.
  assert (Hs : 0 <= sin x) by (apply sin_ge_0; lra).
  assert (Hc : 0 <= cos x) by (apply cos_ge_0; lra).
  replace ((sin x) ^ 2) with (Rsqr (sin x)) by (unfold Rsqr; ring).
  replace (1 - Rsqr (sin x)) with (Rsqr (cos x))
    by (pose proof (sin2_cos2 x); lra).
  rewrite !sqrt_Rsqr by assumption.
  apply atan2_sin_cos. lra.
Qed.

(** Two points of the same longitude: the haversine distance is the
    difference of latitude on the sphere. *)
Lemma meridian_distance (lat1 lat2 lon : R) :
  0 <= lat2 - lat1 <= 180 ->
  calculate_distance (lat1, lon) (lat2, lon) = earth_radius * radians (lat2 - lat1).
Proof.
  intros Hd. pose proof PI_RGT_0 as Hpi.
  unfold calculate_distance, haversine_a.
  replace (radians (lon - lon) / 2) with 0 by (unfold radians; field).
  rewrite sin_0.
  replace (sin (radians (lat2 - lat1) / 2) ^ 2 +
           cos (radians lat1) * cos (radians lat2) * 0 ^ 2)
    with (sin (radians (lat2 - lat1) / 2) ^ 2) by ring.
  rewrite half_angle_atan2; [field|].
  unfold radians. split.
  - apply Rmult_le_pos; [|lra]. apply Rmult_le_pos; [|lra].
    apply Rmult_le_pos; lra.
  - apply Rmult_le_reg_r with 2; [lra|].
    replace ((lat2 - lat1) * PI / 180 / 2 * 2) with ((lat2 - lat1) * (PI / 180)) by field.
    replace (PI / 2 * 2) with (180 * (PI / 180)) by field.
    apply Rmult_le_compat_r; lra.
Qed.

(** The bearing from a point to a point due north of it is 0. *)
Lemma northward_bearing (lat1 lat2 lon : R) :
  0 < lat2 - lat1 < 180 -> side_bearing (lat1, lon) (lat2, lon) = 0.
Proof.
  intros Hd. pose proof PI_RGT_0 as Hpi.
  unfold side_bearing; cbn [fst snd].
  replace (radians lon - radians lon) with 0 by ring.
  rewrite sin_0, cos_0, Rmult_0_l.
  replace (cos (radians lat1) * sin (radians lat2) -
           sin (radians lat1) * cos (radians lat2) * 1)
    with (sin (radians lat2 - radians lat1)) by (rewrite sin_minus; ring).
  rewrite <- radians_minus.
  rewrite atan2_zero_pos.
  - rewrite degrees_0. rewrite (fmod_eval (0 + 360) 360 1); lra.
  - apply sin_gt_0; unfold radians.
    + apply Rmult_lt_0_compat; [|lra]. apply Rmult_lt_0_compat; lra.
    + apply Rmult_lt_reg_r with (180 / PI).
      * apply Rdiv_lt_0_compat; lra.
      * replace ((lat2 - lat1) * PI / 180 * (180 / PI)) with (lat2 - lat1)
          by (field; lra).
        replace (PI * (180 / PI)) with 180 by (field; lra). lra.
Qed.

Lemma radians_90 : radians 90 = PI / 2.
Proof. unfold radians. field. Qed.

Lemma radians_180 : radians 180 = PI.
Proof. unfold radians. field. Qed.

(** From a point of the equator, a step along bearing 90 stays on the
    equator and changes the longitude by the angle travelled. *)
Lemma offset_point_east (lon o : R) :
  - (PI / 2) <= o / earth_radius <= PI / 2 ->
  point_at_bearing_and_distance 0 lon 90 o = (0, lon + degrees (o / earth_radius)).
Proof.
  intros Ho. unfold point_at_bearing_and_distance.
  rewrite radians_0, radians_90, sin_0, cos_0, cos_PI2, sin_PI2.
  replace (0 * cos (o / earth_radius) + 1 * sin (o / earth_radius) * 0) with 0 by ring.
  rewrite asin_0, sin_0, degrees_0.
  replace (1 * sin (o / earth_radius) * 1) with (sin (o / earth_radius)) by ring.
  replace (cos (o / earth_radius) - 0 * 0) with (cos (o / earth_radius)) by ring.
  rewrite atan2_sin_cos by exact Ho.
  now rewrite degrees_plus, degrees_radians.
Qed.

Lemma reach_angle : 0 < max_extension / earth_radius < PI / 2.
Proof.
  pose proof PI_bounds. unfold max_extension, earth_radius. split; [lra|].
  apply Rlt_trans with 1; lra.
Qed.

Lemma fmod_small (x m : R) : 0 <= x < m -> fmod x m = x.
Proof.
  intros Hx. rewrite (fmod_eval x m 0); lra.
Qed.

(** From a point of the equator, the probe along bearing 0 runs along
    the meridian, [probe_reach] degrees to either side. *)
Lemma probe_ends_north (lon : R) :
  probe_ends 0 lon 0 = ((probe_reach, lon), (- probe_reach, lon)).
Proof.
  pose proof reach_angle as He. pose proof PI_RGT_0 as Hpi.
  assert (Hc : 0 < cos (max_extension / earth_radius)) by (apply cos_gt_0; lra).
  unfold probe_ends, point_at_bearing_and_distance.
  rewrite (fmod_small (0 + 180) 360) by lra.
  replace (0 + 180) with 180 by ring.
  rewrite radians_0, radians_180, sin_0, cos_0, cos_PI, sin_PI.
  set (e := max_extension / earth_radius) in *.
  replace (0 * cos e + 1 * sin e * 1) with (sin e) by ring.
  replace (0 * cos e + 1 * sin e * -1) with (- sin e) by ring.
  rewrite asin_opp, asin_sin by lra.
  replace (0 * sin e * 1) with 0 by ring.
  replace (cos e - 0 * sin e) with (cos e) by ring.
  replace (cos e - 0 * sin (- e)) with (cos e) by ring.
  rewrite atan2_zero_pos by exact Hc.
  rewrite Rplus_0_r, degrees_radians. unfold probe_reach. fold e.
  f_equal. f_equal. unfold degrees. field. lra.
Qed.

Lemma probe_reach_bounds : 0.0141 < probe_reach < 0.018.
Proof.
  pose proof PI_bounds as Hpi. unfold probe_reach, degrees, max_extension, earth_radius.
  split.
  - apply Rmult_lt_reg_r with PI; [lra|].
    replace (2000 / 6371000 * 180 / PI * PI) with (2000 / 6371000 * 180) by (field; lra).
    lra.
  - apply Rmult_lt_reg_r with PI; [lra|].
    replace (2000 / 6371000 * 180 / PI * PI) with (2000 / 6371000 * 180) by (field; lra).
    lra.
Qed.

Lemma line_intersection_parallel (p1 p2 p3 p4 : point) :
  Rabs (intersection_denom p1 p2 p3 p4) < 1e-10 -> line_intersection p1 p2 p3 p4 = None.
Proof.
  intros H. unfold line_intersection. now rewrite (proj2 (Rltb_true _ _) H).
Qed.

Lemma line_intersection_miss (p1 p2 p3 p4 : point) :
  ~ (0 <= intersection_u p1 p2 p3 p4 <= 1) -> line_intersection p1 p2 p3 p4 = None.
Proof.
  intros H.
  destruct (line_intersection p1 p2 p3 p4) as [q|] eqn:E; [|reflexivity].
  apply line_intersection_some in E. tauto.
Qed.

Section MeridianTriangle.

Variable L : R.
Hypothesis L_pos : 0 < L.
Hypothesis L_wide : 1e-10 <= probe_reach * L.

Local Abbreviation T := (meridian_triangle L).

(** The probe along the meridian of longitude [lam] against the slanted
    sides of the triangle. *)
Lemma slanted_side_1 (lam : R) :
  line_intersection (probe_reach, lam) (- probe_reach, lam) (L / 2, 0) (0, L / 2) =
  if Rleb 0 lam && Rleb lam (L / 2) then Some (L / 2 - lam, lam) else None.
Proof.
  pose proof probe_reach_bounds as HE.
  assert (Hden : intersection_denom (probe_reach, lam) (- probe_reach, lam)
                                    (L / 2, 0) (0, L / 2) = - (probe_reach * L))
    by (unfold intersection_denom; field).
  assert (Hu : intersection_u (probe_reach, lam) (- probe_reach, lam)
                              (L / 2, 0) (0, L / 2) = 2 * lam / L).
  { unfold intersection_u. rewrite Hden. field. lra. }
  assert (Hu01 : 0 <= 2 * lam / L <= 1 <-> 0 <= lam <= L / 2).
  { split; intros [H0 H1]; split.
    - apply Rmult_le_reg_r with (2 / L); [apply Rdiv_lt_0_compat; lra|].
      replace (lam * (2 / L)) with (2 * lam / L) by (field; lra). lra.
    - apply Rmult_le_reg_r with (2 / L); [apply Rdiv_lt_0_compat; lra|].
      replace (lam * (2 / L)) with (2 * lam / L) by (field; lra).
      replace (L / 2 * (2 / L)) with 1 by (field; lra). lra.
    - apply Rmult_le_pos; [lra|]. left. apply Rinv_0_lt_compat. lra.
    - apply Rmult_le_reg_r with L; [lra|].
      replace (2 * lam / L * L) with (2 * lam) by (field; lra). lra. }
  destruct (Rleb 0 lam && Rleb lam (L / 2)) eqn:Hin.
  - apply andb_true_iff in Hin. destruct Hin as [H0 H1].
    apply Rleb_true in H0. apply Rleb_true in H1.
    rewrite line_intersection_hit.
    + unfold line_point, intersection_t. rewrite Hden. cbn [fst snd].
      f_equal. f_equal; field; lra.
    + rewrite Hden, Rabs_Ropp, Rabs_right; [exact L_wide|]. nra.
    + rewrite Hu. apply Hu01. lra.
  - apply line_intersection_miss. rewrite Hu, Hu01. intros [H0 H1].
    apply Rleb_true in H0. apply Rleb_true in H1. rewrite H0, H1 in Hin. discriminate.
Qed.

Lemma slanted_side_2 (lam : R) :
  line_intersection (probe_reach, lam) (- probe_reach, lam) (0, L / 2) (- (L / 2), 0) =
  if Rleb 0 lam && Rleb lam (L / 2) then Some (lam - L / 2, lam) else None.
Proof.
  pose proof probe_reach_bounds as HE.
  assert (Hden : intersection_denom (probe_reach, lam) (- probe_reach, lam)
                                    (0, L / 2) (- (L / 2), 0) = probe_reach * L)
    by (unfold intersection_denom; field).
  assert (Hu : intersection_u (probe_reach, lam) (- probe_reach, lam)
                              (0, L / 2) (- (L / 2), 0) = 1 - 2 * lam / L).
  { unfold intersection_u. rewrite Hden. field. lra. }
  assert (Hu01 : 0 <= 1 - 2 * lam / L <= 1 <-> 0 <= lam <= L / 2).
  { assert (Hq : 2 * lam / L * L = 2 * lam) by (field; lra).
    assert (Hinv : 0 < / L) by (apply Rinv_0_lt_compat; lra).
    split; intros [H0 H1]; split.
    - assert (0 <= 2 * lam / L) by lra. nra.
    - assert (2 * lam / L <= 1) by lra. nra.
    - assert (2 * lam / L <= 1); [|lra].
      apply Rmult_le_reg_r with L; [lra|]. rewrite Hq. lra.
    - assert (0 <= 2 * lam / L); [|lra].
      apply Rmult_le_pos; [lra | lra]. }
  destruct (Rleb 0 lam && Rleb lam (L / 2)) eqn:Hin.
  - apply andb_true_iff in Hin. destruct Hin as [H0 H1].
    apply Rleb_true in H0. apply Rleb_true in H1.
    rewrite line_intersection_hit.
    + unfold line_point, intersection_t. rewrite Hden. cbn [fst snd].
      f_equal. f_equal; field; lra.
    + rewrite Hden, Rabs_right; [exact L_wide|]. nra.
    + rewrite Hu. apply Hu01. lra.
  - apply line_intersection_miss. rewrite Hu, Hu01. intros [H0 H1].
    apply Rleb_true in H0. apply Rleb_true in H1. rewrite H0, H1 in Hin. discriminate.
Qed.

Lemma meridian_side (lam : R) :
  line_intersection (probe_reach, lam) (- probe_reach, lam) (- (L / 2), 0) (L / 2, 0) = None.
Proof.
  apply line_intersection_parallel.
  replace (intersection_denom _ _ _ _) with 0 by (unfold intersection_denom; ring).
  rewrite Rabs_R0. lra.
Qed.

Lemma triangle_edge_hits (lam : R) :
  edge_hits (probe_reach, lam) (- probe_reach, lam) T =
  if Rleb 0 lam && Rleb lam (L / 2) then [(L / 2 - lam, lam); (lam - L / 2, lam)] else [].
Proof.
  rewrite edge_hits_flat_map. unfold meridian_triangle.
  cbn [length seq flat_map]. unfold side_hit, side_at.
  cbn [length Nat.add Nat.modulo Nat.divmod nth fst snd Nat.sub].
  rewrite meridian_side, slanted_side_1, slanted_side_2.
  destruct (Rleb 0 lam && Rleb lam (L / 2)); reflexivity.
Qed.

(** The deduplicated crossings: two while the chord is at least 1e-8
    degrees long, one when it is shorter, none off the triangle. *)
Lemma triangle_clip (lam : R) :
  line_polygon_intersections (probe_reach, lam) (- probe_reach, lam) T =
  if Rleb 0 lam && Rleb lam (L / 2) then
    if Rltb (L - 2 * lam) 1e-8 then [(L / 2 - lam, lam)]
    else [(L / 2 - lam, lam); (lam - L / 2, lam)]
  else [].
Proof.
  unfold line_polygon_intersections. rewrite triangle_edge_hits.
  destruct (Rleb 0 lam && Rleb lam (L / 2)) eqn:Hin; [|reflexivity].
  apply andb_true_iff in Hin. destruct Hin as [H0 H1].
  apply Rleb_true in H0. apply Rleb_true in H1.
  unfold remove_duplicates. cbn [fold_left is_duplicate existsb app fst snd].
  replace (lam - lam) with 0 by ring. rewrite Rabs_R0.
  replace (lam - L / 2 - (L / 2 - lam)) with (- (L - 2 * lam)) by field.
  rewrite Rabs_Ropp, Rabs_right by lra.
  rewrite (proj2 (Rltb_true 0 1e-8)) by lra.
  rewrite andb_true_r, orb_false_r.
  destruct (Rltb (L - 2 * lam) 1e-8); reflexivity.
Qed.

End MeridianTriangle.

Lemma create_buffer_polygon_zero (self : converter) (poly : polygon) :
  buffer_distance self = 0 -> create_buffer_polygon self poly = poly.
Proof.
  intros H0. unfold create_buffer_polygon.
  destruct (length poly <? 3)%nat; [reflexivity|].
  rewrite fold_left_snoc_map. cbn [app].
  transitivity (map (fun p : point => p) poly); [|apply map_id].
  apply map_ext. intros [lat lon].
  unfold buffer_vertex. rewrite H0.
  destruct (Rltb 0 _); [f_equal; ring | reflexivity].
Qed.

Lemma half_extent_bound (p q : point) :
  calculate_distance p q / 2 <= earth_radius * (PI / 2).
Proof.
  unfold calculate_distance.
  pose proof (atan2_first_quadrant (sqrt (haversine_a p q)) (sqrt (1 - haversine_a p q))
                (sqrt_pos _) (sqrt_pos _)) as [_ H].
  unfold earth_radius. lra.
Qed.

Section MeridianTriangleSweep.

Variable L : R.
Hypothesis L_pos : 0 < L.
Hypothesis L_small : L <= 90.

Local Abbreviation T := (meridian_triangle L).

Lemma triangle_side_0 : side_length T 0 = earth_radius * radians L.
Proof.
  unfold side_length, side_at, meridian_triangle.
  cbn [length Nat.add Nat.modulo Nat.divmod nth fst snd Nat.sub].
  rewrite meridian_distance by lra. f_equal. f_equal. field.
Qed.

Lemma slanted_haversine (lat1 lon1 lat2 lon2 : R) :
  Rabs (lat2 - lat1) = L / 2 -> Rabs (lon2 - lon1) = L / 2 ->
  (lat1 = 0 /\ Rabs lat2 = L / 2 \/ lat2 = 0 /\ Rabs lat1 = L / 2) ->
  haversine_a (lat1, lon1) (lat2, lon2) <= haversine_a (- (L / 2), 0) (L / 2, 0).
Proof.
  intros Hlat Hlon Hzero.
  set (x := radians L / 4).
  assert (Hsq : forall d, Rabs d = L / 2 -> (sin (radians d / 2)) ^ 2 = (sin x) ^ 2).
  { intros d Hd. unfold Rabs in Hd. destruct (Rcase_abs d).
    - replace d with (- (L / 2)) by lra.
      replace (radians (- (L / 2)) / 2) with (- x) by (unfold x, radians; field).
      rewrite sin_neg. ring.
    - replace d with (L / 2) by lra.
      replace (radians (L / 2) / 2) with x by (unfold x, radians; field).
      reflexivity. }
  assert (Hcs : forall d, Rabs d = L / 2 -> cos (radians d) = cos (2 * x)).
  { intros d Hd. unfold Rabs in Hd. destruct (Rcase_abs d).
    - replace d with (- (L / 2)) by lra.
      replace (radians (- (L / 2))) with (- (2 * x)) by (unfold x, radians; field).
      apply cos_neg.
    - replace d with (L / 2) by lra.
      replace (radians (L / 2)) with (2 * x) by (unfold x, radians; field).
      reflexivity. }
  unfold haversine_a.
  rewrite (Hsq _ Hlat), (Hsq _ Hlon).
  replace (radians (L / 2 - - (L / 2)) / 2) with (2 * x) by (unfold x, radians; field).
  replace (radians (0 - 0) / 2) with 0 by (unfold radians; field).
  rewrite sin_0, sin_2a.
  assert (Hprod : cos (radians lat1) * cos (radians lat2) = cos (2 * x)).
  { destruct Hzero as [[-> H] | [-> H]]; rewrite radians_0, cos_0, (Hcs _ H); ring. }
  rewrite Hprod, cos_2a.
  pose proof (sin2_cos2 x) as Hx. unfold Rsqr in Hx.
  pose proof (Rle_0_sqr (sin x * cos x)) as Hp. unfold Rsqr in Hp.
  pose proof (Rle_0_sqr (sin x * sin x)) as Hq. unfold Rsqr in Hq.
  simpl. nra.
Qed.

Lemma triangle_side_1 : side_length T 1 <= side_length T 0.
Proof.
  unfold side_length, side_at, meridian_triangle.
  cbn [length Nat.add Nat.modulo Nat.divmod nth fst snd Nat.sub].
  apply calculate_distance_mono. apply slanted_haversine.
  - replace (0 - L / 2) with (- (L / 2)) by ring. rewrite Rabs_Ropp, Rabs_right; lra.
  - replace (L / 2 - 0) with (L / 2) by ring. rewrite Rabs_right; lra.
  - right. split; [reflexivity|]. rewrite Rabs_right; lra.
Qed.

Lemma triangle_side_2 : side_length T 2 <= side_length T 0.
Proof.
  unfold side_length, side_at, meridian_triangle.
  cbn [length Nat.add Nat.modulo Nat.divmod nth fst snd Nat.sub].
  apply calculate_distance_mono. apply slanted_haversine.
  - replace (- (L / 2) - 0) with (- (L / 2)) by ring. rewrite Rabs_Ropp, Rabs_right; lra.
  - replace (0 - L / 2) with (- (L / 2)) by ring. rewrite Rabs_Ropp, Rabs_right; lra.
  - left. split; [reflexivity|]. rewrite Rabs_Ropp, Rabs_right; lra.
Qed.

Lemma triangle_bounds :
  get_polygon_bounds T =
  Ok {| min_lat := - (L / 2); max_lat := L / 2; min_lon := 0; max_lon := L / 2 |}.
Proof.
  unfold get_polygon_bounds, meridian_triangle, py_min, py_max.
  cbn [map fst snd fold_left bind]. decide_cmp. reflexivity.
Qed.

Lemma triangle_bearing :
  exists side, find_longest_side_with_bearing T = Ok side /\ best_bearing side = 0.
Proof.
  pose proof PI_RGT_0 as Hpi.
  destruct (longest_side_spec T ltac:(simpl; lia)) as (side & Hfind & Hidx & Hb & _ & _ & Hfirst).
  exists side. split; [exact Hfind|].
  assert (Hpos : 0 < side_length T 0).
  { rewrite triangle_side_0. unfold earth_radius, radians.
    apply Rmult_lt_0_compat; [lra|]. apply Rmult_lt_0_compat; [|lra].
    apply Rmult_lt_0_compat; lra. }
  assert (H0 : longest_side_index side = 0%nat).
  { destruct (longest_side_index side) as [|[|[|k]]] eqn:E; [reflexivity| | |].
    - specialize (Hfirst 0%nat ltac:(lia)). pose proof triangle_side_1. lra.
    - specialize (Hfirst 0%nat ltac:(lia)). pose proof triangle_side_2. lra.
    - simpl in Hidx. lia. }
  rewrite Hb, H0. unfold side_bearing_at, side_at, meridian_triangle.
  cbn [length Nat.add Nat.modulo Nat.divmod nth fst snd Nat.sub].
  apply northward_bearing. lra.
Qed.

(** The locals of the sweep over the triangle. *)
Lemma triangle_locals (self : converter) :
  exists loc,
    prepare_sweep self T = Ok loc /\
    loc_bearing loc = 0 /\
    loc_perp_bearing loc = 90 /\
    loc_center_lat loc = 0 /\
    loc_center_lon loc = L / 4 /\
    loc_spacing_meters loc = spacing self * 111000 /\
    loc_max_extend loc = calculate_distance (- (L / 2), 0) (L / 2, L / 2) / 2.
Proof.
  destruct triangle_bearing as (side & Hfind & Hb).
  destruct (find_polygon_corners_ok T) as [crn Hcrn].
  unfold prepare_sweep. rewrite Hfind, Hcrn, triangle_bounds. cbn [bind].
  eexists. split; [reflexivity|].
  cbn [loc_bearing loc_perp_bearing loc_center_lat loc_center_lon loc_spacing_meters
       loc_max_extend min_lat max_lat min_lon max_lon].
  rewrite Hb.
  split; [reflexivity|].
  split; [rewrite fmod_small; lra|].
  split; [field|]. split; [field|]. split; reflexivity.
Qed.

Lemma triangle_extent :
  earth_radius * radians L / 2
  <= calculate_distance (- (L / 2), 0) (L / 2, L / 2) / 2.
Proof.
  assert (H : calculate_distance (- (L / 2), 0) (L / 2, 0)
              <= calculate_distance (- (L / 2), 0) (L / 2, L / 2)).
  { pose proof PI_RGT_0 as Hpi.
    apply calculate_distance_mono. unfold haversine_a.
    replace (radians (0 - 0) / 2) with 0 by (unfold radians; field).
    rewrite sin_0.
    assert (Hc : 0 <= cos (radians (- (L / 2))) * cos (radians (L / 2))).
    { unfold radians.
      replace (- (L / 2) * PI / 180) with (- (L / 2 * PI / 180)) by field.
      rewrite cos_neg. apply Rle_0_sqr. }
    pose proof (sin_sq_range (radians (L / 2 - 0) / 2)) as [Hs _].
    assert (0 <= cos (radians (- (L / 2))) * cos (radians (L / 2))
                 * sin (radians (L / 2 - 0) / 2) ^ 2)
      by (apply Rmult_le_pos; assumption).
    lra. }
  rewrite meridian_distance in H by lra.
  replace (L / 2 - - (L / 2)) with L in H by field. lra.
Qed.

End MeridianTriangleSweep.

Lemma degrees_per_meter :
  exists kappa,
    (forall o, degrees (o / earth_radius) = o * kappa) /\ 8.96e-6 < kappa < 9.0e-6.
Proof.
  pose proof PI_bounds as Hpi.
  exists (180 / (earth_radius * PI)). unfold earth_radius. split.
  - intros o. unfold degrees. field. lra.
  - split.
    + apply Rmult_lt_reg_r with (6371000 * PI); [lra|].
      replace (180 / (6371000 * PI) * (6371000 * PI)) with 180 by (field; lra). lra.
    + apply Rmult_lt_reg_r with (6371000 * PI); [lra|].
      replace (180 / (6371000 * PI) * (6371000 * PI)) with 180 by (field; lra). lra.
Qed.

Section MeridianTriangleProbes.

Variable L : R.
Hypothesis L_pos : 0 < L.
Hypothesis L_wide : 1e-10 <= probe_reach * L.

Local Abbreviation T := (meridian_triangle L).

Lemma triangle_probe_hits (o : R) :
  - (PI / 2) <= o / earth_radius <= PI / 2 ->
  probe_hits 0 (L / 4) 90 0 T o =
  let lam := L / 4 + degrees (o / earth_radius) in
  if Rleb 0 lam && Rleb lam (L / 2) then
    if Rltb (L - 2 * lam) 1e-8 then [(L / 2 - lam, lam)]
    else [(L / 2 - lam, lam); (lam - L / 2, lam)]
  else [].
Proof.
  intros Ho. unfold probe_hits.
  rewrite offset_point_east by exact Ho.
  rewrite probe_ends_north.
  now rewrite triangle_clip.
Qed.

Lemma triangle_probe_kept (o : R) :
  - (PI / 2) <= o / earth_radius <= PI / 2 ->
  0 <= L / 4 + degrees (o / earth_radius) ->
  1e-8 <= L - 2 * (L / 4 + degrees (o / earth_radius)) ->
  length (probe_hits 0 (L / 4) 90 0 T o) = 2%nat.
Proof.
  intros Ho H0 H1. rewrite triangle_probe_hits by exact Ho. cbv zeta.
  rewrite (proj2 (Rleb_true _ _) H0).
  rewrite (proj2 (Rleb_true _ (L / 2))) by lra.
  rewrite (proj2 (Rltb_false _ _) H1). reflexivity.
Qed.

Lemma triangle_probe_dropped (o : R) :
  - (PI / 2) <= o / earth_radius <= PI / 2 ->
  L / 4 + degrees (o / earth_radius) < 0 \/
  L - 2 * (L / 4 + degrees (o / earth_radius)) < 1e-8 ->
  (length (probe_hits 0 (L / 4) 90 0 T o) < 2)%nat.
Proof.
  intros Ho H. rewrite triangle_probe_hits by exact Ho. cbv zeta.
  destruct (Rleb 0 _ && Rleb _ (L / 2)) eqn:Hin; [|simpl; lia].
  apply andb_true_iff in Hin. destruct Hin as [H0 H1]. apply Rleb_true in H0.
  destruct H as [H | H]; [lra|].
  rewrite (proj2 (Rltb_true _ _) H). simpl; lia.
Qed.

(** Offsets within the sweep range stay within a quarter turn. *)
Lemma sweep_range_angle (p q : point) (o : R) :
  Rabs o <= calculate_distance p q / 2 ->
  - (PI / 2) <= o / earth_radius <= PI / 2.
Proof.
  intros Ho. pose proof (half_extent_bound p q) as HM.
  unfold earth_radius in *.
  assert (Hb : - (6371000 * (PI / 2)) <= o <= 6371000 * (PI / 2)).
  { unfold Rabs in Ho. destruct (Rcase_abs o); lra. }
  split.
  - apply Rmult_le_reg_r with 6371000; [lra|].
    replace (o / 6371000 * 6371000) with o by field. lra.
  - apply Rmult_le_reg_r with 6371000; [lra|].
    replace (o / 6371000 * 6371000) with o by field. lra.
Qed.

End MeridianTriangleProbes.

Lemma optimize_length (self : converter) (all_lines : list scan_line) (crn : corners)
      (bearing : R) :
  length (optimize_line_ordering_for_corners self all_lines crn bearing) =
  (2 * length all_lines)%nat.
Proof.
  destruct (optimize_visits self all_lines crn bearing) as (visits & Hperm & ->).
  rewrite visit_waypoints_length.
  now rewrite <- (Permutation_length Hperm), length_map.
Qed.

Lemma meridian_triangle_convex (L : R) : convex_polygon (meridian_triangle L).
Proof.
  left. intros i j Hi Hj. unfold meridian_triangle in *. cbn [length] in *.
  destruct i as [|[|[|i]]]; try lia; destruct j as [|[|[|j]]]; try lia;
    unfold side_at; cbn [length Nat.add Nat.modulo Nat.divmod nth fst snd Nat.sub];
    unfold cross; cbn [fst snd]; nra.
Qed.

Section MeridianTriangleRun.

Variable L : R.
Hypothesis L_pos : 0 < L.
Hypothesis L_small : L <= 90.
Variable sp : R.
Hypothesis sp_pos : 0 < sp.

Local Abbreviation T := (meridian_triangle L).
Local Abbreviation M := (triangle_max_extend L).
Local Abbreviation n := (sweep_iterations (sp * 111000) (triangle_max_extend L)).

(** The whole sweep over the triangle, for a converter with no buffer. *)
Lemma triangle_collect (fuel : nat) :
  (n < fuel)%nat ->
  exists loc,
    prepare_sweep (spaced_by sp) (create_buffer_polygon (spaced_by sp) T) = Ok loc /\
    collect_lines loc fuel (create_buffer_polygon (spaced_by sp) T) =
    Ok (py_sort offset
                (swept_lines 0 (L / 4) 90 0 T (sp * 111000) (-1) n ++
                 swept_lines 0 (L / 4) 90 0 T (sp * 111000) 1 n)) /\
    generate_parallel_lines_to_longest_side (spaced_by sp) fuel T =
    Ok (optimize_line_ordering_for_corners
          (spaced_by sp)
          (py_sort offset
                   (swept_lines 0 (L / 4) 90 0 T (sp * 111000) (-1) n ++
                    swept_lines 0 (L / 4) 90 0 T (sp * 111000) 1 n))
          (loc_corners loc) (loc_bearing loc)).
Proof.
  intros Hfuel.
  rewrite create_buffer_polygon_zero by reflexivity.
  destruct (triangle_locals L L_pos L_small (spaced_by sp))
    as (loc & Hloc & Hb & Hp & Hclat & Hclon & Hs & HM).
  cbn [spacing spaced_by] in Hs. fold (triangle_max_extend L) in HM.
  exists loc. split; [exact Hloc|].
  assert (Hcol : collect_lines loc fuel T =
                 Ok (py_sort offset
                             (swept_lines 0 (L / 4) 90 0 T (sp * 111000) (-1) n ++
                              swept_lines 0 (L / 4) 90 0 T (sp * 111000) 1 n))).
  { unfold collect_lines. rewrite Hb, Hp, Hclat, Hclon, Hs, HM.
    rewrite sweep_runs by (try lra; exact Hfuel). reflexivity. }
  split; [exact Hcol|].
  rewrite (generate_unfold (spaced_by sp) T loc fuel) by
      (try (simpl; lia); rewrite create_buffer_polygon_zero by reflexivity; exact Hloc).
  rewrite create_buffer_polygon_zero by reflexivity.
  rewrite Hcol. reflexivity.
Qed.

Lemma triangle_probed_in_range (k : nat) (direction : R) :
  (k < n)%nat -> direction = -1 \/ direction = 1 ->
  - (PI / 2) <= INR k * (sp * 111000) * direction / earth_radius <= PI / 2.
Proof.
  intros Hk Hdir.
  destruct (sweep_iterations_spec (sp * 111000) M ltac:(lra)) as (Hlt & _ & _).
  specialize (Hlt k Hk). pose proof (pos_INR k) as Hk0.
  apply (sweep_range_angle (- (L / 2), 0) (L / 2, L / 2)).
  fold (triangle_max_extend L).
  destruct Hdir as [-> | ->].
  - replace (INR k * (sp * 111000) * -1) with (- (INR k * (sp * 111000))) by ring.
    rewrite Rabs_Ropp, Rabs_right; [exact Hlt | nra].
  - rewrite Rmult_1_r, Rabs_right; [exact Hlt | nra].
Qed.

End MeridianTriangleRun.

Lemma tiny_wide : 1e-10 <= probe_reach * 1.2e-8.
Proof. pose proof probe_reach_bounds. lra. Qed.

Lemma tiny_fine_sweep (fuel : nat) :
  (sweep_iterations (0.17e-8 * 111000) (triangle_max_extend 1.2e-8) < fuel)%nat ->
  exists loc,
    prepare_sweep (spaced_by 0.17e-8)
                  (create_buffer_polygon (spaced_by 0.17e-8) tiny_triangle) = Ok loc /\
    collect_lines loc fuel (create_buffer_polygon (spaced_by 0.17e-8) tiny_triangle) = Ok [] /\
    generate_parallel_lines_to_longest_side (spaced_by 0.17e-8) fuel tiny_triangle = Ok [].
Proof.
  intros Hfuel.
  assert (HL : 0 < 1.2e-8) by lra. assert (HL' : 1.2e-8 <= 90) by lra.
  assert (Hsp : 0 < 0.17e-8) by lra.
  destruct (triangle_collect 1.2e-8 HL HL' 0.17e-8 Hsp fuel Hfuel)
    as (loc & Hloc & Hcol & Hgen).
  destruct degrees_per_meter as (kappa & Hdeg & Hk).
  assert (Hneg : swept_lines 0 (1.2e-8 / 4) 90 0 (meridian_triangle 1.2e-8)
                             (0.17e-8 * 111000) (-1)
                             (sweep_iterations (0.17e-8 * 111000)
                                               (triangle_max_extend 1.2e-8)) = []).
  { apply swept_lines_all_dropped. intros k Hklt Hskip.
    apply (triangle_probe_dropped 1.2e-8 HL tiny_wide).
    - apply (triangle_probed_in_range 1.2e-8 0.17e-8 Hsp); [exact Hklt | now left].
    - rewrite Hdeg.
      destruct k as [|[|k]].
      + exfalso. apply Hskip. split; [simpl; ring | reflexivity].
      + right. simpl INR. nra.
      + left. rewrite !S_INR. pose proof (pos_INR k). nra. }
  assert (Hposd : swept_lines 0 (1.2e-8 / 4) 90 0 (meridian_triangle 1.2e-8)
                              (0.17e-8 * 111000) 1
                              (sweep_iterations (0.17e-8 * 111000)
                                                (triangle_max_extend 1.2e-8)) = []).
  { apply swept_lines_all_dropped. intros k Hklt Hskip.
    apply (triangle_probe_dropped 1.2e-8 HL tiny_wide).
    - apply (triangle_probed_in_range 1.2e-8 0.17e-8 Hsp); [exact Hklt | now right].
    - rewrite Hdeg. right. pose proof (pos_INR k). nra. }
  exists loc. unfold tiny_triangle. split; [exact Hloc|].
  rewrite Hcol, Hgen, Hneg, Hposd. split; reflexivity.
Qed.

Lemma tiny_coarse_sweep (fuel : nat) :
  (sweep_iterations (0.25e-8 * 111000) (triangle_max_extend 1.2e-8) < fuel)%nat ->
  exists loc lines w,
    prepare_sweep (spaced_by 0.25e-8)
                  (create_buffer_polygon (spaced_by 0.25e-8) tiny_triangle) = Ok loc /\
    collect_lines loc fuel (create_buffer_polygon (spaced_by 0.25e-8) tiny_triangle)
    = Ok lines /\
    (1 <= length lines)%nat /\
    generate_parallel_lines_to_longest_side (spaced_by 0.25e-8) fuel tiny_triangle = Ok w /\
    (2 <= length w)%nat.
Proof.
  intros Hfuel.
  assert (HL : 0 < 1.2e-8) by lra. assert (HL' : 1.2e-8 <= 90) by lra.
  assert (Hsp : 0 < 0.25e-8) by lra.
  destruct (triangle_collect 1.2e-8 HL HL' 0.25e-8 Hsp fuel Hfuel)
    as (loc & Hloc & Hcol & Hgen).
  destruct degrees_per_meter as (kappa & Hdeg & Hk).
  pose proof PI_bounds as Hpi.
  set (n := sweep_iterations (0.25e-8 * 111000) (triangle_max_extend 1.2e-8)) in *.
  assert (Hn : (1 < n)%nat).
  { destruct (sweep_iterations_spec (0.25e-8 * 111000) (triangle_max_extend 1.2e-8)
                                    ltac:(lra)) as (_ & Hgt & _).
    fold n in Hgt.
    pose proof (triangle_extent 1.2e-8 HL HL') as Hext.
    fold (triangle_max_extend 1.2e-8) in Hext.
    unfold earth_radius, radians in Hext.
    destruct n as [|[|m]]; [simpl in Hgt; nra | simpl in Hgt; nra | lia]. }
  assert (Hkept : (1 <= length (swept_lines 0 (1.2e-8 / 4) 90 0 (meridian_triangle 1.2e-8)
                                            (0.25e-8 * 111000) (-1) n))%nat).
  { apply (swept_lines_one_kept _ _ _ _ _ _ _ n 1%nat Hn); [simpl; lra|].
    rewrite (triangle_probe_kept 1.2e-8 HL tiny_wide); [lia| | |].
    - apply (triangle_probed_in_range 1.2e-8 0.25e-8 Hsp); [exact Hn | now left].
    - rewrite Hdeg. simpl INR. nra.
    - rewrite Hdeg. simpl INR. nra. }
  eexists loc, _, _. unfold tiny_triangle.
  split; [exact Hloc|]. split; [exact Hcol|].
  assert (Hlen : (1 <= length (py_sort offset
             (swept_lines 0 (1.2e-8 / 4) 90 0 (meridian_triangle 1.2e-8)
                          (0.25e-8 * 111000) (-1) n ++
              swept_lines 0 (1.2e-8 / 4) 90 0 (meridian_triangle 1.2e-8)
                          (0.25e-8 * 111000) 1 n)))%nat).
  { rewrite py_sort_length, length_app. lia. }
  split; [exact Hlen|]. split; [exact Hgen|].
  rewrite optimize_length. lia.
Qed.


(** For a triangle whose central chord is above the tolerance the
    retained probes are an interval of offsets that contains 0. *)
Lemma triangle_retention_closed (L : R) (loc : survey_locals) :
  2e-8 <= L -> L <= 90 -> 1e-10 <= probe_reach * L ->
  loc_bearing loc = 0 -> loc_perp_bearing loc = 90 ->
  loc_center_lat loc = 0 -> loc_center_lon loc = L / 4 ->
  loc_max_extend loc = triangle_max_extend L ->
  retention_closed_towards_center loc (meridian_triangle L).
Proof.
  intros HL HL' Hwide Hb Hp Hclat Hclon HM o o' Ho Hkept Hbetween.
  rewrite Hb, Hp, Hclat, Hclon in *. rewrite HM in Ho.
  assert (HL0 : 0 < L) by lra.
  destruct degrees_per_meter as (kappa & Hdeg & Hk).
  assert (Hang : - (PI / 2) <= o / earth_radius <= PI / 2)
    by (apply (sweep_range_angle _ _ o Ho)).
  assert (Hang' : - (PI / 2) <= o' / earth_radius <= PI / 2).
  { apply (sweep_range_angle (- (L / 2), 0) (L / 2, L / 2)).
    fold (triangle_max_extend L). eapply Rle_trans; [|exact Ho].
    unfold Rabs. destruct (Rcase_abs o'), (Rcase_abs o); lra. }
  assert (Hin : 0 <= L / 4 + degrees (o / earth_radius) /\
                1e-8 <= L - 2 * (L / 4 + degrees (o / earth_radius))).
  { destruct (Rlt_dec (L / 4 + degrees (o / earth_radius)) 0) as [H | H].
    - pose proof (triangle_probe_dropped L HL0 Hwide o Hang (or_introl H)). lia.
    - destruct (Rlt_dec (L - 2 * (L / 4 + degrees (o / earth_radius))) 1e-8) as [H' | H'].
      + pose proof (triangle_probe_dropped L HL0 Hwide o Hang (or_intror H')). lia.
      + lra. }
  rewrite Hdeg in Hin.
  rewrite (triangle_probe_kept L HL0 Hwide o' Hang'); [lia | |]; rewrite Hdeg;
    destruct Hbetween as [Hb' | Hb']; nra.
Qed.

(** * Further properties of the geometry core *)

(** ** GeoMath *)

Lemma haversine_a_sym (p q : point) : haversine_a p q = haversine_a q p.
Proof.
  destruct p as [lat1 lon1], q as [lat2 lon2]. unfold haversine_a.
  replace (radians (lat1 - lat2) / 2) with (- (radians (lat2 - lat1) / 2))
    by (unfold radians; field).
  replace (radians (lon1 - lon2) / 2) with (- (radians (lon2 - lon1) / 2))
    by (unfold radians; field).
  rewrite !sin_neg. ring.
Qed.

Lemma haversine_a_refl (p : point) : haversine_a p p = 0.
Proof.
  destruct p as [lat lon]. unfold haversine_a.
  replace (radians (lat - lat) / 2) with 0 by (unfold radians; field).
  replace (radians (lon - lon) / 2) with 0 by (unfold radians; field).
  rewrite sin_0. ring.
Qed.

(** X1: the haversine distance is symmetric, is zero from a point to
    itself, and lies between 0 and half the circumference of the sphere
    of radius 6371000 m. *)
Theorem calculate_distance_facts (p q : point) :
  calculate_distance p q = calculate_distance q p /\
  calculate_distance p p = 0 /\
  0 <= calculate_distance p q <= earth_radius * PI.
Proof.
  split; [|split].
  - unfold calculate_distance. now rewrite haversine_a_sym.
  - unfold calculate_distance. rewrite haversine_a_refl.
    replace (1 - 0) with 1 by ring. rewrite sqrt_0, sqrt_1.
    rewrite atan2_zero_pos by lra. ring.
  - split; [apply calculate_distance_nonneg|].
    pose proof (half_extent_bound p q). unfold earth_radius in *. lra.
Qed.

Lemma fmod_range (x m : R) : 0 < m -> 0 <= fmod x m < m.
Proof.
  intros Hm. unfold fmod.
  destruct (base_Int_part (x / m)) as [Hlo Hhi].
  assert (Hx : x = x / m * m) by (field; lra).
  split.
  - assert (m * IZR (Int_part (x / m)) <= m * (x / m))
      by (apply Rmult_le_compat_l; lra).
    rewrite Hx at 1. lra.
  - assert (m * (x / m - 1) < m * IZR (Int_part (x / m)))
      by (apply Rmult_lt_compat_l; lra).
    rewrite Hx at 1. lra.
Qed.

(** X2: the bearing computed for a side of the polygon is always in
    [[0, 360)], and so are the scan bearing returned by
    [find_longest_side_with_bearing] and the perpendicular bearing of the
    sweep, whatever the polygon. *)
Theorem bearings_normalised :
  (forall p1 p2, 0 <= side_bearing p1 p2 < 360) /\
  (forall poly side, find_longest_side_with_bearing poly = Ok side ->
                     0 <= best_bearing side < 360) /\
  (forall self poly loc, prepare_sweep self poly = Ok loc ->
                         0 <= loc_bearing loc < 360 /\
                         0 <= loc_perp_bearing loc < 360).
Proof.
  assert (H1 : forall p1 p2, 0 <= side_bearing p1 p2 < 360).
  { intros p1 p2. unfold side_bearing. apply fmod_range. lra. }
  assert (Hstep : forall poly l st, 0 <= best_bearing st < 360 ->
             0 <= best_bearing (fold_left (longest_step poly) l st) < 360).
  { intros poly l. induction l as [|i l IH]; intros st Hst; [exact Hst|].
    cbn [fold_left]. apply IH. unfold longest_step.
    destruct (side_at poly i) as [a b]. cmp_cases; [apply H1 | exact Hst]. }
  assert (H2 : forall poly side, find_longest_side_with_bearing poly = Ok side ->
                                 0 <= best_bearing side < 360).
  { intros poly side. unfold find_longest_side_with_bearing.
    destruct poly as [|p0 rest]; [discriminate|].
    destruct (length (p0 :: rest) <? 3)%nat; intros H; injection H as <-.
    - cbn [best_bearing]. split; lra.
    - apply (Hstep (p0 :: rest) (seq 0 (length (p0 :: rest)))).
      cbn [best_bearing]. split; lra. }
  split; [exact H1|]. split; [exact H2|].
  intros self poly loc. unfold prepare_sweep.
  destruct (find_longest_side_with_bearing poly) as [side| |] eqn:E; cbn [bind];
    try discriminate.
  destruct (find_polygon_corners poly) as [crn| |]; cbn [bind]; try discriminate.
  destruct (get_polygon_bounds poly) as [b| |]; cbn [bind]; try discriminate.
  intros H; injection H as <-. cbn [loc_bearing loc_perp_bearing].
  split; [now apply (H2 poly) | apply fmod_range; lra].
Qed.

Lemma radians_pos_lt_PI (d : R) : 0 < d < 180 -> 0 < radians d < PI.
Proof.
  intros Hd. pose proof PI_RGT_0 as Hpi. unfold radians. split.
  - apply Rmult_lt_0_compat; [|lra]. apply Rmult_lt_0_compat; lra.
  - apply Rmult_lt_reg_r with (180 / PI); [apply Rdiv_lt_0_compat; lra|].
    replace (d * PI / 180 * (180 / PI)) with d by (field; lra).
    replace (PI * (180 / PI)) with 180 by (field; lra). lra.
Qed.

Lemma atan2_zero_neg (x : R) : x < 0 -> atan2 0 x = PI.
Proof.
  intros Hx. unfold atan2.
  rewrite (proj2 (Rltb_false 0 x)) by lra.
  rewrite (proj2 (Rltb_true x 0)) by lra.
  rewrite (proj2 (Rleb_true 0 0)) by lra.
  unfold Rdiv. rewrite Rmult_0_l, atan_0. ring.
Qed.

(** X3: bearings are measured clockwise from north: a side to a point
    due north has bearing 0, due south 180, and along the equator due
    east 90 and due west 270. *)
Theorem cardinal_bearings (lat1 lat2 lon1 lon2 : R) :
  (0 < lat2 - lat1 < 180 ->
   side_bearing (lat1, lon1) (lat2, lon1) = 0 /\
   side_bearing (lat2, lon1) (lat1, lon1) = 180) /\
  (0 < lon2 - lon1 < 180 ->
   side_bearing (0, lon1) (0, lon2) = 90 /\
   side_bearing (0, lon2) (0, lon1) = 270).
Proof.
  pose proof PI_RGT_0 as Hpi. split.
  - intros Hd. split; [now apply northward_bearing|].
    pose proof (radians_pos_lt_PI _ Hd) as Hr. rewrite radians_minus in Hr.
    unfold side_bearing; cbn [fst snd].
    replace (radians lon1 - radians lon1) with 0 by ring.
    rewrite sin_0, cos_0, Rmult_0_l.
    replace (cos (radians lat2) * sin (radians lat1) -
             sin (radians lat2) * cos (radians lat1) * 1)
      with (- sin (radians lat2 - radians lat1)) by (rewrite sin_minus; ring).
    rewrite atan2_zero_neg.
    + unfold degrees. replace (PI * 180 / PI) with 180 by (field; lra).
      rewrite (fmod_eval (180 + 360) 360 1); lra.
    + assert (0 < sin (radians lat2 - radians lat1)) by (apply sin_gt_0; lra). lra.
  - intros Hd.
    pose proof (radians_pos_lt_PI _ Hd) as Hr. rewrite radians_minus in Hr.
    assert (Hs : 0 < sin (radians lon2 - radians lon1)) by (apply sin_gt_0; lra).
    unfold side_bearing; cbn [fst snd].
    rewrite radians_0, sin_0, cos_0.
    replace (radians lon1 - radians lon2) with (- (radians lon2 - radians lon1)) by ring.
    rewrite sin_neg, cos_neg.
    replace (1 * 0 - 0 * 1 * cos (radians lon2 - radians lon1)) with 0 by ring.
    rewrite !Rmult_1_r. unfold atan2. decide_cmp. unfold degrees. split.
    + replace (PI / 2 * 180 / PI) with 90 by (field; lra).
      rewrite fmod_eval with (z := 1%Z); lra.
    + replace (- (PI / 2) * 180 / PI) with (-90) by (field; lra).
      rewrite fmod_eval with (z := 0%Z); lra.
Qed.

Lemma cardinal_bearings_witness :
  0 < 1 - 0 < 180 /\
  side_bearing (0, 5) (1, 5) = 0 /\ side_bearing (1, 5) (0, 5) = 180 /\
  side_bearing (0, 0) (0, 1) = 90 /\ side_bearing (0, 1) (0, 0) = 270.
Proof.
  assert (H : 0 < 1 - 0 < 180) by lra.
  split; [exact H|].
  destruct (cardinal_bearings 0 1 5 1) as [Hn _].
  destruct (cardinal_bearings 0 1 0 1) as [_ He].
  destruct (Hn H) as [H1 H2]. destruct (He H) as [H3 H4].
  repeat split; assumption.
Defined.

(** ** Destination point *)

Lemma radians_degrees (x : R) : radians (degrees x) = x.
Proof. unfold degrees, radians. field. apply PI_neq0. Qed.

Lemma radians_quarter (lat : R) : -90 <= lat <= 90 -> - (PI / 2) <= radians lat <= PI / 2.
Proof.
  intros H. pose proof PI_RGT_0 as Hpi. unfold radians. split.
  - apply Rmult_le_reg_r with (180 / PI); [apply Rdiv_lt_0_compat; lra|].
    replace (lat * PI / 180 * (180 / PI)) with lat by (field; lra).
    replace (- (PI / 2) * (180 / PI)) with (-90) by (field; lra). lra.
  - apply Rmult_le_reg_r with (180 / PI); [apply Rdiv_lt_0_compat; lra|].
    replace (lat * PI / 180 * (180 / PI)) with lat by (field; lra).
    replace (PI / 2 * (180 / PI)) with 90 by (field; lra). lra.
Qed.

Lemma cos_atan2 (y x : R) : cos (atan2 y x) * sqrt (x * x + y * y) = x.
Proof.
  assert (Hroot : forall t, 0 < sqrt (1 + Rsqr t)).
  { intros t. apply sqrt_lt_R0. pose proof (Rle_0_sqr t). lra. }
  assert (Hnorm : x <> 0 -> sqrt (x * x + y * y) = Rabs x * sqrt (1 + Rsqr (y / x))).
  { intros Hx. rewrite <- sqrt_Rsqr_abs, <- sqrt_mult.
    - f_equal. unfold Rsqr. field. exact Hx.
    - apply Rle_0_sqr.
    - pose proof (Rle_0_sqr (y / x)). lra. }
  unfold atan2. repeat cmp_cases.
  - rewrite cos_atan, Hnorm by lra.
    rewrite Rabs_right by lra. field. apply Rgt_not_eq, Hroot.
  - rewrite Hnorm by lra. rewrite Rabs_left by lra.
    rewrite neg_cos, cos_atan. field. apply Rgt_not_eq, Hroot.
  - rewrite Hnorm by lra. rewrite Rabs_left by lra.
    unfold Rminus. rewrite <- (cos_period _ 1). simpl INR.
    replace (atan (y / x) + - PI + 2 * 1 * PI) with (atan (y / x) + PI) by ring.
    rewrite neg_cos, cos_atan. field. apply Rgt_not_eq, Hroot.
  - rewrite cos_PI2. lra.
  - rewrite cos_neg, cos_PI2. lra.
  - assert (Hx : x = 0) by lra. assert (Hy : y = 0) by lra. subst.
    replace (0 * 0 + 0 * 0) with 0 by ring. rewrite sqrt_0. ring.
Qed.

Lemma cos_quarter (x : R) : - (PI / 2) <= x <= PI / 2 -> 0 <= cos x.
Proof. intros H. apply cos_ge_0; lra. Qed.

(** The great-circle identity behind the destination formula: with
    [s] the sine of the destination latitude, the two arguments of
    [atan2] have norm [cos f1 * sqrt (1 - s^2)]. *)
Lemma destination_norm (f1 dl br : R) :
  let s := sin f1 * cos dl + cos f1 * sin dl * cos br in
  let x := cos dl - sin f1 * s in
  let y := sin br * sin dl * cos f1 in
  x * x + y * y = Rsqr (cos f1) * (1 - Rsqr s).
Proof.
  intros s x y. unfold x, y, s, Rsqr.
  pose proof (sin2_cos2 f1) as H1. pose proof (sin2_cos2 dl) as H2.
  pose proof (sin2_cos2 br) as H3. unfold Rsqr in H1, H2, H3.
  set (a := sin f1) in *. set (b := cos f1) in *.
  set (c := sin dl) in *. set (e := cos dl) in *.
  set (g := sin br) in *. set (h := cos br) in *.
  assert (E0 : e - a * (a * e + b * c * h) = b * (b * e - a * c * h)).
  { replace e with (e * (a * a + b * b)) at 1 by (rewrite H1; ring). ring. }
  assert (E1 : (a * a + b * b) * (e * e + c * c * (h * h)) = e * e + c * c * (h * h))
    by (rewrite H1; ring).
  assert (E2 : c * c * (g * g + h * h) = c * c) by (rewrite H3; ring).
  assert (E3 : (b * e - a * c * h) * (b * e - a * c * h) + g * g * (c * c) =
               1 - (a * e + b * c * h) * (a * e + b * c * h)) by nra.
  rewrite E0, <- E3. ring.
Qed.

Lemma destination_haversine (lat lon bearing d : R) :
  -90 <= lat <= 90 ->
  haversine_a (lat, lon) (point_at_bearing_and_distance lat lon bearing d) =
  (sin (d / earth_radius / 2)) ^ 2.
Proof.
  intros Hlat. pose proof PI_RGT_0 as Hpi.
  rewrite haversine_a_mix. unfold point_at_bearing_and_distance. cbn [fst snd].
  set (f1 := radians lat). set (dl := d / earth_radius). set (br := radians bearing).
  set (s := sin f1 * cos dl + cos f1 * sin dl * cos br).
  assert (Hs : -1 <= s <= 1) by apply destination_latitude_domain.
  rewrite sin_asin by exact Hs.
  set (x := cos dl - sin f1 * s). set (y := sin br * sin dl * cos f1).
  rewrite radians_degrees.
  replace (radians (degrees (radians lon + atan2 y x) - lon)) with (atan2 y x).
  2:{ rewrite degrees_plus, degrees_radians. unfold radians, degrees. field. lra. }
  rewrite !sin_half_sq.
  rewrite cos_minus, cos_plus, sin_asin by exact Hs.
  assert (Hc1 : 0 <= cos f1) by (apply cos_quarter, radians_quarter, Hlat).
  assert (Hc2 : 0 <= cos (asin s)).
  { rewrite cos_asin by exact Hs. apply sqrt_pos. }
  pose proof (cos_atan2 y x) as Hx.
  pose proof (destination_norm f1 dl br) as Hn. cbv zeta in Hn.
  fold s in Hn. fold x y in Hn. rewrite Hn in Hx.
  replace (Rsqr (cos f1) * (1 - Rsqr s)) with (Rsqr (cos f1 * cos (asin s))) in Hx.
  2:{ rewrite Rsqr_mult, cos_asin by exact Hs. rewrite Rsqr_sqrt; [reflexivity|].
      unfold Rsqr. nra. }
  rewrite sqrt_Rsqr in Hx by (apply Rmult_le_pos; assumption).
  unfold x in Hx at 2.
  set (k := cos (atan2 y x)) in *. set (c2 := cos (asin s)) in *.
  set (c1 := cos f1) in *. set (s1 := sin f1) in *. set (e := cos dl) in *.
  replace ((1 - (1 - k) / 2) * (c2 * c1 + s * s1) + (1 - k) / 2 * - (c2 * c1 - s * s1))
    with (k * (c1 * c2) + s1 * s) by field.
  rewrite Hx. field.
Qed.

(** X4: flying [d] metres from a point on any bearing with
    [point_at_bearing_and_distance] ends at a point whose haversine
    distance from the start is [|d|], for a start latitude within
    [-90, 90] and [|d|] at most half the circumference. *)
Theorem destination_distance_round_trip (lat lon bearing d : R) :
  -90 <= lat <= 90 ->
  Rabs d <= earth_radius * PI ->
  calculate_distance (lat, lon) (point_at_bearing_and_distance lat lon bearing d) = Rabs d.
Proof.
  intros Hlat Hd. pose proof PI_RGT_0 as Hpi.
  unfold calculate_distance. rewrite destination_haversine by exact Hlat.
  assert (Heven : (sin (d / earth_radius / 2)) ^ 2 = (sin (Rabs d / earth_radius / 2)) ^ 2).
  { unfold Rabs. destruct (Rcase_abs d); [|reflexivity].
    replace (- d / earth_radius / 2) with (- (d / earth_radius / 2))
      by (unfold earth_radius; field).
    rewrite sin_neg. ring. }
  rewrite Heven. rewrite half_angle_atan2.
  - unfold earth_radius. field.
  - pose proof (Rabs_pos d) as Hp. unfold earth_radius in *. split.
    + apply Rmult_le_pos; [apply Rmult_le_pos; [exact Hp|]|]; lra.
    + apply Rmult_le_reg_r with (2 * 6371000); [lra|].
      replace (Rabs d / 6371000 / 2 * (2 * 6371000)) with (Rabs d) by field.
      lra.
Qed.

Lemma destination_distance_round_trip_witness :
  calculate_distance (10, 76) (point_at_bearing_and_distance 10 76 45 (-250)) = Rabs (-250).
Proof.
  apply destination_distance_round_trip.
  - lra.
  - pose proof PI_bounds as Hpi. unfold earth_radius.
    rewrite Rabs_left by lra. lra.
Defined.

(** X5: the latitude returned by [point_at_bearing_and_distance] is
    always within [-90, 90], and a zero distance returns the start point
    itself whatever the bearing, for a start latitude within [-90, 90]. *)
Theorem destination_latitude_and_zero (lat lon bearing d : R) :
  -90 <= fst (point_at_bearing_and_distance lat lon bearing d) <= 90 /\
  (-90 <= lat <= 90 -> point_at_bearing_and_distance lat lon bearing 0 = (lat, lon)).
Proof.
  pose proof PI_RGT_0 as Hpi. split.
  - unfold point_at_bearing_and_distance. cbn [fst].
    set (s := sin _ * cos _ + _).
    pose proof (asin_bound s) as Hb. unfold degrees. split.
    + apply Rmult_le_reg_r with (PI / 180); [lra|].
      replace (asin s * 180 / PI * (PI / 180)) with (asin s) by (field; lra). lra.
    + apply Rmult_le_reg_r with (PI / 180); [lra|].
      replace (asin s * 180 / PI * (PI / 180)) with (asin s) by (field; lra). lra.
  - intros Hlat. unfold point_at_bearing_and_distance.
    replace (0 / earth_radius) with 0 by (unfold earth_radius; field).
    rewrite sin_0, cos_0.
    replace (sin (radians lat) * 1 + cos (radians lat) * 0 * cos (radians bearing))
      with (sin (radians lat)) by ring.
    rewrite asin_sin by (apply radians_quarter, Hlat).
    replace (sin (radians bearing) * 0 * cos (radians lat)) with 0 by ring.
    assert (Hc : 0 <= 1 - sin (radians lat) * sin (radians lat)).
    { pose proof (sin2_cos2 (radians lat)) as H. unfold Rsqr in H.
      pose proof (Rle_0_sqr (cos (radians lat))) as H'. unfold Rsqr in H'. lra. }
    replace (atan2 0 (1 - sin (radians lat) * sin (radians lat))) with 0.
    2:{ destruct Hc as [Hc | Hc]; [now rewrite atan2_zero_pos|].
        rewrite <- Hc. unfold atan2. decide_cmp. reflexivity. }
    rewrite Rplus_0_r, !degrees_radians. reflexivity.
Qed.

Lemma destination_latitude_and_zero_witness :
  point_at_bearing_and_distance 10 76 45 0 = (10, 76).
Proof. apply (proj2 (destination_latitude_and_zero 10 76 45 0)). lra. Defined.

(** ** Bounding box and corners *)

Lemma fold_min_in (l : list R) (x : R) :
  In (fold_left (fun cur y => if Rltb y cur then y else cur) l x) (x :: l).
Proof.
  revert x. induction l as [|y l IH]; intros x; [now left|].
  cbn [fold_left]. destruct (IH (if Rltb y x then y else x)) as [H | H].
  - destruct (Rltb y x); rewrite <- H; [right; now left | now left].
  - right. now right.
Qed.

Lemma fold_max_in (l : list R) (x : R) :
  In (fold_left (fun cur y => if Rltb cur y then y else cur) l x) (x :: l).
Proof.
  revert x. induction l as [|y l IH]; intros x; [now left|].
  cbn [fold_left]. destruct (IH (if Rltb x y then y else x)) as [H | H].
  - destruct (Rltb x y); rewrite <- H; [right; now left | now left].
  - right. now right.
Qed.

Lemma py_min_in (l : list R) (m : R) : py_min l = Ok m -> In m l.
Proof.
  destruct l as [|x l]; [discriminate|]. intros H. injection H as <-. apply fold_min_in.
Qed.

Lemma py_max_in (l : list R) (m : R) : py_max l = Ok m -> In m l.
Proof.
  destruct l as [|x l]; [discriminate|]. intros H. injection H as <-. apply fold_max_in.
Qed.

Lemma get_polygon_bounds_inv (poly : polygon) (b : bounds) :
  get_polygon_bounds poly = Ok b ->
  py_min (map fst poly) = Ok (min_lat b) /\ py_max (map fst poly) = Ok (max_lat b) /\
  py_min (map snd poly) = Ok (min_lon b) /\ py_max (map snd poly) = Ok (max_lon b).
Proof.
  unfold get_polygon_bounds. destruct poly as [|p poly]; [discriminate|].
  cbn. intros H. injection H as <-. cbn. repeat split; reflexivity.
Qed.

(** X6: [get_polygon_bounds] raises [ValueError] on an empty polygon;
    on any other polygon it returns the tight bounding box: every vertex
    lies within the four bounds, and each bound is the latitude or the
    longitude of some vertex. *)
Theorem get_polygon_bounds_tight (poly : polygon) :
  match poly with
  | [] => get_polygon_bounds poly = Raise ValueError
  | _ :: _ =>
    exists b, get_polygon_bounds poly = Ok b /\
      (forall p, In p poly ->
                 min_lat b <= fst p <= max_lat b /\ min_lon b <= snd p <= max_lon b) /\
      In (min_lat b) (map fst poly) /\ In (max_lat b) (map fst poly) /\
      In (min_lon b) (map snd poly) /\ In (max_lon b) (map snd poly)
  end.
Proof.
  destruct poly as [|p0 rest]; [reflexivity|].
  destruct (get_polygon_bounds_ok (p0 :: rest)) as [b Hb]; [discriminate|].
  exists b. split; [exact Hb|]. split.
  - intros p Hp. exact (bounds_contain_vertices _ _ _ Hb Hp).
  - destruct (get_polygon_bounds_inv _ _ Hb) as (H1 & H2 & H3 & H4).
    repeat split; [eapply py_min_in | eapply py_max_in | eapply py_min_in | eapply py_max_in];
      eassumption.
Qed.

(** The running minimum kept in one slot of [find_polygon_corners]. *)
Lemma update_slot_fold (key : point -> R) (l pre : list point) (s : corner_slot) :
  (pre = [] /\ s = empty_slot \/
   exists i, (i < length pre)%nat /\
             s = {| slot_dist := Some (key (nth i pre origin));
                    slot_point := Some (nth i pre origin) |} /\
             (forall j, (j < length pre)%nat -> key (nth i pre origin) <= key (nth j pre origin)) /\
             (forall j, (j < i)%nat -> key (nth i pre origin) < key (nth j pre origin))) ->
  pre ++ l <> [] ->
  exists i, (i < length (pre ++ l))%nat /\
            slot_point (fold_left (fun st p => update_slot st (key p) p) l s) =
            Some (nth i (pre ++ l) origin) /\
            (forall j, (j < length (pre ++ l))%nat ->
                       key (nth i (pre ++ l) origin) <= key (nth j (pre ++ l) origin)) /\
            (forall j, (j < i)%nat ->
                       key (nth i (pre ++ l) origin) < key (nth j (pre ++ l) origin)).
Proof.
  revert pre s. induction l as [|p l IH]; intros pre s Hinv Hne.
  - rewrite app_nil_r in *. destruct Hinv as [[-> _] | (i & Hi & -> & Hle & Hlt)];
      [congruence|].
    exists i. cbn. auto.
  - replace (pre ++ p :: l) with ((pre ++ [p]) ++ l) in * by now rewrite <- app_assoc.
    cbn [fold_left]. apply IH; [|exact Hne]. right.
    assert (Hlast : nth (length pre) (pre ++ [p]) origin = p).
    { rewrite app_nth2, Nat.sub_diag by lia. reflexivity. }
    assert (Hold : forall j, (j < length pre)%nat -> nth j (pre ++ [p]) origin = nth j pre origin).
    { intros j Hj. now rewrite app_nth1. }
    rewrite length_app. cbn [length].
    destruct Hinv as [[-> ->] | (i & Hi & -> & Hle & Hlt)].
    + exists 0%nat. cbn. repeat split; try lia.
      intros j Hj. assert (j = 0%nat) as -> by lia. cbn. lra.
    + unfold update_slot. cbn [slot_dist]. cmp_cases.
      * exists (length pre). rewrite Hlast. repeat split; try lia.
        -- intros j Hj. destruct (Nat.eq_dec j (length pre)) as [-> | Hne'].
           ++ rewrite Hlast. lra.
           ++ rewrite Hold by lia. specialize (Hle j ltac:(lia)). lra.
        -- intros j Hj. rewrite Hold by lia. specialize (Hle j ltac:(lia)). lra.
      * exists i. rewrite (Hold i Hi). repeat split; try lia.
        -- intros j Hj. destruct (Nat.eq_dec j (length pre)) as [-> | Hne'].
           ++ rewrite Hlast. lra.
           ++ rewrite Hold by lia. apply Hle. lia.
        -- intros j Hj. rewrite Hold by lia. now apply Hlt.
Qed.

Lemma corner_slots_split
      (f : corner_slot * corner_slot * corner_slot * corner_slot -> point ->
           corner_slot * corner_slot * corner_slot * corner_slot)
      (k1 k2 k3 k4 : point -> R) :
  (forall a b c d p,
      f (a, b, c, d) p = (update_slot a (k1 p) p, update_slot b (k2 p) p,
                          update_slot c (k3 p) p, update_slot d (k4 p) p)) ->
  forall (poly : list point) (a b c d : corner_slot),
    fold_left f poly (a, b, c, d) =
    (fold_left (fun st p => update_slot st (k1 p) p) poly a,
     fold_left (fun st p => update_slot st (k2 p) p) poly b,
     fold_left (fun st p => update_slot st (k3 p) p) poly c,
     fold_left (fun st p => update_slot st (k4 p) p) poly d).
Proof.
  intros Hf poly. induction poly as [|p poly IH]; intros a b c d; [reflexivity|].
  cbn [fold_left]. rewrite Hf. apply IH.
Qed.

Lemma nearest_slot (corner : point) (poly : polygon) :
  poly <> [] ->
  exists p,
    slot_point (fold_left (fun st p => update_slot st (corner_distance corner p) p)
                          poly empty_slot) = Some p /\
    first_nearest_vertex poly corner p.
Proof.
  intros Hne.
  destruct (update_slot_fold (corner_distance corner) poly [] empty_slot) as
      (i & Hi & Hp & Hle & Hlt); [left; split; reflexivity | exact Hne |].
  cbn [app] in *. exists (nth i poly origin). split; [exact Hp|].
  exists i. auto.
Qed.

(** X7: on a polygon with fewer than three vertices
    [find_polygon_corners] returns the empty dictionary; otherwise each
    of the four entries is a vertex of the polygon, namely the first
    vertex at the smallest planar distance from the matching corner of
    the bounding box. *)
Theorem find_polygon_corners_nearest (poly : polygon) :
  if (length poly <? 3)%nat then find_polygon_corners poly = Ok no_corners
  else
    exists b tr tl bl br,
      get_polygon_bounds poly = Ok b /\
      find_polygon_corners poly =
      Ok {| top_right := Some tr; top_left := Some tl;
            bottom_left := Some bl; bottom_right := Some br |} /\
      first_nearest_vertex poly (max_lat b, max_lon b) tr /\
      first_nearest_vertex poly (max_lat b, min_lon b) tl /\
      first_nearest_vertex poly (min_lat b, min_lon b) bl /\
      first_nearest_vertex poly (min_lat b, max_lon b) br.
Proof.
  unfold find_polygon_corners.
  destruct (length poly <? 3)%nat eqn:Hlen; [reflexivity|].
  apply Nat.ltb_ge in Hlen.
  assert (Hne : poly <> []) by (intros ->; cbn in Hlen; lia).
  destruct (get_polygon_bounds_ok poly Hne) as [b Hb]. rewrite Hb. cbn [bind].
  destruct (nearest_slot (max_lat b, max_lon b) poly Hne) as (tr & Htr & Ntr).
  destruct (nearest_slot (max_lat b, min_lon b) poly Hne) as (tl & Htl & Ntl).
  destruct (nearest_slot (min_lat b, min_lon b) poly Hne) as (bl & Hbl & Nbl).
  destruct (nearest_slot (min_lat b, max_lon b) poly Hne) as (br & Hbr & Nbr).
  exists b, tr, tl, bl, br. split; [reflexivity|]. split; [|auto].
  match goal with
  | |- context [fold_left ?f poly ?init] =>
    rewrite (corner_slots_split f
               (corner_distance (max_lat b, max_lon b))
               (corner_distance (max_lat b, min_lon b))
               (corner_distance (min_lat b, min_lon b))
               (corner_distance (min_lat b, max_lon b)))
  end.
  - rewrite Htr, Htl, Hbl, Hbr. reflexivity.
  - intros a b' c d [lat lon]. reflexivity.
Qed.

(** ** Clipping a probe line *)

Lemma is_duplicate_false (pt : point) (l : list point) :
  is_duplicate pt l = false <-> Forall (fun existing => ~ near_duplicate pt existing) l.
Proof.
  unfold is_duplicate. induction l as [|e l IH]; cbn [existsb].
  - split; [constructor | reflexivity].
  - rewrite orb_false_iff, IH. split.
    + intros [He Hl]. constructor; [|exact Hl]. intros [H1 H2].
      apply andb_false_iff in He. destruct He as [He | He]; apply Rltb_false in He; lra.
    + intros H. inversion H as [|? ? He Hl]; subst. split; [|exact Hl].
      unfold near_duplicate in He.
      destruct (Rltb (Rabs (fst pt - fst e)) 1e-8) eqn:E1; [|reflexivity].
      destruct (Rltb (Rabs (snd pt - snd e)) 1e-8) eqn:E2; [|reflexivity].
      apply Rltb_true in E1, E2. tauto.
Qed.

Lemma is_duplicate_true (pt : point) (l : list point) :
  is_duplicate pt l = true -> exists existing, In existing l /\ near_duplicate pt existing.
Proof.
  unfold is_duplicate. intros H. apply existsb_exists in H as (e & He & Hn).
  exists e. split; [exact He|]. apply andb_true_iff in Hn as [H1 H2].
  apply Rltb_true in H1, H2. split; assumption.
Qed.

Lemma near_duplicate_refl (p : point) : near_duplicate p p.
Proof. unfold near_duplicate. rewrite !Rminus_diag, Rabs_R0. lra. Qed.

Lemma near_duplicate_sym (p q : point) : near_duplicate p q -> near_duplicate q p.
Proof. unfold near_duplicate. rewrite (Rabs_minus_sym (fst p)), (Rabs_minus_sym (snd p)). tauto. Qed.

Lemma ForallOrdPairs_snoc {A : Type} (R : A -> A -> Prop) (l : list A) (x : A) :
  ForallOrdPairs R l -> Forall (fun e => R e x) l -> ForallOrdPairs R (l ++ [x]).
Proof.
  induction 1 as [|a l Ha Hl IH]; intros Hx; cbn.
  - constructor; constructor.
  - inversion Hx; subst. constructor.
    + apply Forall_app. split; [exact Ha | constructor; [assumption | constructor]].
    + apply IH. assumption.
Qed.

(** What the deduplication loop keeps, for any list it has reached. *)
Lemma remove_duplicates_fold (l acc : list point) :
  let kept := fold_left (fun unique_intersections pt =>
                           if is_duplicate pt unique_intersections
                           then unique_intersections
                           else unique_intersections ++ [pt]) l acc in
  (ForallOrdPairs (fun existing pt => ~ near_duplicate pt existing) acc ->
   ForallOrdPairs (fun existing pt => ~ near_duplicate pt existing) kept) /\
  (forall q, In q acc \/ In q l -> exists r, In r kept /\ near_duplicate q r) /\
  (length kept <= length acc + length l)%nat /\
  (exists rest, kept = acc ++ rest).
Proof.
  revert acc. induction l as [|pt l IH]; intros acc; cbn [fold_left].
  - cbv zeta. repeat split.
    + auto.
    + intros q [Hq | []]. exists q. split; [exact Hq | apply near_duplicate_refl].
    + cbn. lia.
    + exists []. now rewrite app_nil_r.
  - destruct (is_duplicate pt acc) eqn:Hd.
    + specialize (IH acc). cbv zeta in IH |- *. destruct IH as (I1 & I2 & I3 & I4).
      repeat split; [exact I1 | | cbn [length]; lia | exact I4].
      intros q [Hq | [<- | Hq]]; [apply I2; now left | | apply I2; now right].
      apply is_duplicate_true in Hd as (e & He & Hn).
      destruct I4 as [rest ->]. exists e. split; [apply in_or_app; now left | exact Hn].
    + specialize (IH (acc ++ [pt])). cbv zeta in IH |- *.
      destruct IH as (I1 & I2 & I3 & I4).
      repeat split.
      * intros Hacc. apply I1. apply ForallOrdPairs_snoc; [exact Hacc|].
        apply is_duplicate_false in Hd. exact Hd.
      * intros q [Hq | [<- | Hq]]; apply I2.
        -- left. apply in_or_app. now left.
        -- left. apply in_or_app. right. now left.
        -- now right.
      * rewrite length_app in I3. cbn [length] in *. lia.
      * destruct I4 as [rest ->]. exists ([pt] ++ rest). now rewrite app_assoc.
Qed.

Lemma remove_duplicates_distinct (l : list point) :
  ForallOrdPairs (fun existing pt => ~ near_duplicate pt existing) (remove_duplicates l).
Proof.
  unfold remove_duplicates. apply (proj1 (remove_duplicates_fold l [])). constructor.
Qed.

Lemma edge_hits_length (ls le : point) (poly : polygon) :
  (length (edge_hits ls le poly) <= length poly)%nat.
Proof.
  rewrite edge_hits_flat_map.
  assert (H : forall l, (length (flat_map (side_hit ls le poly) l) <= length l)%nat).
  { induction l as [|i l IH]; cbn; [lia|].
    rewrite length_app. unfold side_hit at 1.
    destruct (line_intersection _ _ _ _); cbn; lia. }
  specialize (H (seq 0 (length poly))). now rewrite length_seq in H.
Qed.

Lemma clip_point_on_side (ls le : point) (poly : polygon) (q : point) :
  In q (line_polygon_intersections ls le poly) ->
  on_side poly q /\ exists t, q = line_point ls le t.
Proof.
  intros Hq. apply remove_duplicates_incl, edge_hits_in in Hq as (i & Hi & Hq).
  split.
  - exists i, (intersection_u ls le (fst (side_at poly i)) (snd (side_at poly i))).
    split; [exact Hi|]. split.
    + apply line_intersection_some in Hq. tauto.
    + apply line_intersection_on_side. exact Hq.
  - apply line_intersection_some in Hq as (_ & _ & ->). eexists. reflexivity.
Qed.

(** X8: the points returned by [line_polygon_intersections] are pairwise
    further apart than the 1e-8 tolerance in at least one coordinate; each
    lies on a closed side of the polygon and on the infinite line through
    the two given points; every raw intersection with a side is within
    the tolerance of a returned point; and there are at most as many
    points as the polygon has sides. *)
Theorem clip_points_distinct_on_sides (ls le : point) (poly : polygon) :
  let hits := line_polygon_intersections ls le poly in
  ForallOrdPairs (fun existing pt => ~ near_duplicate pt existing) hits /\
  (forall q, In q hits -> on_side poly q /\ exists t, q = line_point ls le t) /\
  (forall i q, (i < length poly)%nat ->
               line_intersection ls le (fst (side_at poly i)) (snd (side_at poly i)) = Some q ->
               exists r, In r hits /\ near_duplicate q r) /\
  (length hits <= length poly)%nat.
Proof.
  cbv zeta. split; [apply remove_duplicates_distinct|].
  split; [intros q; apply clip_point_on_side|].
  pose proof (remove_duplicates_fold (edge_hits ls le poly) []) as (_ & H2 & H3 & _).
  split.
  - intros i q Hi Hq. apply H2. right.
    rewrite edge_hits_flat_map. apply in_flat_map. exists i. split.
    + apply in_seq. lia.
    + unfold side_hit. rewrite Hq. now left.
  - unfold line_polygon_intersections, remove_duplicates.
    cbn [length] in H3. pose proof (edge_hits_length ls le poly). lia.
Qed.

(** ** Scan lines *)

Lemma sorted_head_min {A : Type} (key : A -> R) (l : list A) (d q : A) :
  StronglySorted (key_le key) l -> In q l -> key (nth 0 l d) <= key q.
Proof.
  intros Hs Hq. destruct l as [|a l]; [destruct Hq|]. cbn [nth].
  destruct Hq as [<- | Hq]; [lra|].
  apply StronglySorted_inv in Hs as [_ Hall].
  rewrite Forall_forall in Hall. apply (Hall q Hq).
Qed.

Lemma sorted_last_max {A : Type} (key : A -> R) (l : list A) (d q : A) :
  StronglySorted (key_le key) l -> In q l -> key q <= key (last l d).
Proof.
  induction l as [|a l IH]; intros Hs Hq; [destruct Hq|].
  apply StronglySorted_inv in Hs as [Hs Hall].
  destruct l as [|b l].
  - destruct Hq as [<- | []]. cbn. lra.
  - change (last (a :: b :: l) d) with (last (b :: l) d).
    destruct Hq as [<- | Hq]; [|now apply IH].
    rewrite Forall_forall in Hall. apply Hall.
    destruct (exists_last (l := b :: l)) as (l' & x & E); [discriminate|].
    rewrite E, last_last. apply in_or_app. right. now left.
Qed.

Lemma ForallOrdPairs_perm {A : Type} (R : A -> A -> Prop) (l l' : list A) :
  (forall x y, R x y -> R y x) ->
  Permutation l l' -> ForallOrdPairs R l -> ForallOrdPairs R l'.
Proof.
  intros Hsym Hp. induction Hp as [|x l l' Hp IH|x y l|l l' l'' _ IH1 _ IH2]; intros H.
  - exact H.
  - inversion H; subst. constructor; [|now apply IH].
    eapply Permutation_Forall; eassumption.
  - inversion H as [|? ? Hy Hrest]; subst. inversion Hrest as [|? ? Hx Hl]; subst.
    inversion Hy; subst. constructor; [|constructor; assumption].
    constructor; [apply Hsym; assumption | assumption].
  - auto.
Qed.

Lemma distinct_ends {A : Type} (R : A -> A -> Prop) (l : list A) (d : A) :
  ForallOrdPairs R l -> (2 <= length l)%nat -> R (nth 0 l d) (last l d).
Proof.
  intros H Hlen. destruct l as [|a [|b l]]; cbn in Hlen; try lia.
  inversion H as [|? ? Ha _]; subst. cbn [nth].
  change (last (a :: b :: l) d) with (last (b :: l) d).
  rewrite Forall_forall in Ha. apply Ha.
  destruct (exists_last (l := b :: l)) as (l' & x & E); [discriminate|].
  rewrite E, last_last. apply in_or_app. right. now left.
Qed.

Lemma scan_line_at_facts (clat clon perp bearing : R) (poly : polygon) (o : R)
      (l : scan_line) :
  In l (scan_line_at clat clon perp bearing poly o) ->
  let c := point_at_bearing_and_distance clat clon perp o in
  offset l = o /\
  (2 <= length (intersections l))%nat /\
  start_point l = nth 0 (intersections l) origin /\
  end_point l = last (intersections l) origin /\
  ~ near_duplicate (start_point l) (end_point l) /\
  forall q, In q (intersections l) ->
            on_side poly q /\
            calculate_distance c (start_point l) <= calculate_distance c q
            <= calculate_distance c (end_point l).
Proof.
  unfold scan_line_at, get_line_intersections_only.
  destruct (point_at_bearing_and_distance clat clon perp o) as [lat lon].
  destruct (probe_ends lat lon bearing) as [end1 end2].
  set (hits := line_polygon_intersections end1 end2 poly).
  destruct (2 <=? length hits)%nat eqn:Hlen; [|intros []].
  rewrite py_sort_length, Hlen.
  set (inner := py_sort (fun p => calculate_distance end1 p) hits).
  set (key := fun p => calculate_distance (lat, lon) p).
  intros [<- | []]. cbv zeta. cbn [offset intersections start_point end_point].
  assert (Hperm : Permutation hits (py_sort key inner)).
  { etransitivity; apply py_sort_perm. }
  apply Nat.leb_le in Hlen.
  split; [reflexivity|]. split.
  { rewrite py_sort_length. unfold inner. rewrite py_sort_length. exact Hlen. }
  split; [reflexivity|]. split; [reflexivity|]. split.
  - intros Hdup. apply near_duplicate_sym in Hdup. revert Hdup.
    apply (distinct_ends (fun existing pt => ~ near_duplicate pt existing)).
    + apply ForallOrdPairs_perm with hits; [|exact Hperm|apply remove_duplicates_distinct].
      intros x y Hxy Hyx. apply Hxy, near_duplicate_sym, Hyx.
    + rewrite py_sort_length. unfold inner. rewrite py_sort_length. exact Hlen.
  - intros q Hq. split.
    + apply (clip_point_on_side end1 end2).
      apply Permutation_in with (py_sort key inner); [symmetry; exact Hperm | exact Hq].
    + split.
      * apply (sorted_head_min key); [apply py_sort_sorted | exact Hq].
      * apply (sorted_last_max key); [apply py_sort_sorted | exact Hq].
Qed.

Lemma in_swept_lines (clat clon perp bearing : R) (poly : polygon) (s direction : R)
      (n : nat) (l : scan_line) :
  In l (swept_lines clat clon perp bearing poly s direction n) ->
  exists k, (k < n)%nat /\ ~ (INR k * s = 0 /\ direction = -1) /\
            In l (scan_line_at clat clon perp bearing poly (INR k * s * direction)).
Proof.
  unfold swept_lines. intros H. apply in_flat_map in H as (k & Hk & Hl).
  apply in_seq in Hk. exists k. split; [lia|].
  destruct (Reqb (INR k * s) 0 && Reqb direction (-1)) eqn:E; [destruct Hl|].
  split; [|exact Hl]. intros [H1 H2].
  apply andb_false_iff in E as [E | E]; apply Reqb_false in E; contradiction.
Qed.

(** X9: with a positive spacing and enough fuel the two sweeps return,
    and every scan line they keep has at least two intersection points,
    all on sides of the polygon; its start point is the first and its end
    point the last of them, which are the intersection nearest to and
    the one farthest from the offset point of the line; the two are never
    within the 1e-8 tolerance of each other. *)
Theorem scan_line_endpoints (clat clon perp bearing : R) (poly : polygon)
        (s max_extend : R) (fuel : nat) :
  0 < s ->
  (sweep_iterations s max_extend < fuel)%nat ->
  exists all_lines,
    sweep clat clon perp bearing poly s max_extend fuel = Ok all_lines /\
    forall l, In l all_lines ->
      let c := point_at_bearing_and_distance clat clon perp (offset l) in
      (2 <= length (intersections l))%nat /\
      start_point l = nth 0 (intersections l) origin /\
      end_point l = last (intersections l) origin /\
      ~ near_duplicate (start_point l) (end_point l) /\
      forall q, In q (intersections l) ->
                on_side poly q /\
                calculate_distance c (start_point l) <= calculate_distance c q
                <= calculate_distance c (end_point l).
Proof.
  intros Hs Hfuel. eexists. split; [apply sweep_runs; assumption|].
  intros l Hl. apply in_app_or in Hl.
  assert (Hk : exists o, In l (scan_line_at clat clon perp bearing poly o)).
  { destruct Hl as [Hl | Hl]; apply in_swept_lines in Hl as (k & _ & _ & Hl);
      eexists; exact Hl. }
  destruct Hk as [o Ho]. pose proof (scan_line_at_facts _ _ _ _ _ _ _ Ho) as Hf.
  cbv zeta in Hf. destruct Hf as (Hoff & Hf). rewrite Hoff. exact Hf.
Qed.
Lemma scan_line_endpoints_witness :
  exists all_lines,
    sweep 0 0 90 0 unit_square 1 0 (S (sweep_iterations 1 0)) = Ok all_lines.
Proof.
  destruct (scan_line_endpoints 0 0 90 0 unit_square 1 0 (S (sweep_iterations 1 0)))
    as (all_lines & H & _); [lra | lia |].
  exists all_lines. exact H.
Defined.

Lemma swept_lines_succ (clat clon perp bearing : R) (poly : polygon) (s direction : R)
      (n : nat) :
  swept_lines clat clon perp bearing poly s direction (S n) =
  swept_lines clat clon perp bearing poly s direction n ++
  (if Reqb (INR n * s) 0 && Reqb direction (-1) then []
   else scan_line_at clat clon perp bearing poly (INR n * s * direction)).
Proof.
  unfold swept_lines. rewrite seq_S, flat_map_app. cbn [flat_map Nat.add].
  now rewrite app_nil_r.
Qed.

Lemma swept_offsets_nodup (clat clon perp bearing : R) (poly : polygon) (s direction : R)
      (n : nat) :
  0 < s -> direction = -1 \/ direction = 1 ->
  NoDup (map offset (swept_lines clat clon perp bearing poly s direction n)).
Proof.
  intros Hs Hdir. induction n as [|n IH]; [constructor|].
  rewrite swept_lines_succ, map_app. apply NoDup_app; [exact IH | |].
  - destruct (Reqb (INR n * s) 0 && Reqb direction (-1)); [constructor|].
    pose proof (scan_line_at_length clat clon perp bearing poly (INR n * s * direction)) as L.
    destruct (scan_line_at clat clon perp bearing poly (INR n * s * direction)) as [|a [|b l]].
    + constructor.
    + constructor; [intros [] | constructor].
    + destruct (2 <=? _)%nat; discriminate.
  - intros o Ho Ho'. apply in_map_iff in Ho as (l & <- & Hl).
    apply in_swept_lines in Hl as (k & Hk & _ & Hl).
    apply scan_line_at_facts in Hl. cbv zeta in Hl. destruct Hl as (Hoff & _).
    destruct (Reqb (INR n * s) 0 && Reqb direction (-1)); [destruct Ho'|].
    apply in_map_iff in Ho' as (l' & E & Hl').
    apply scan_line_at_facts in Hl'. cbv zeta in Hl'. destruct Hl' as (Hoff' & _).
    rewrite Hoff, Hoff' in E.
    assert (Hlt : INR k < INR n) by (apply lt_INR; exact Hk).
    destruct Hdir as [-> | ->]; nra.
Qed.

Lemma sorted_distinct_strict {A : Type} (key : A -> R) (l : list A) :
  StronglySorted (key_le key) l -> NoDup (map key l) ->
  StronglySorted (fun a b => key a < key b) l.
Proof.
  induction 1 as [|a l Hs IH Hall]; intros Hnd; [constructor|].
  cbn [map] in Hnd. apply NoDup_cons_iff in Hnd as [Hnot Hnd].
  constructor; [now apply IH|].
  rewrite Forall_forall in *. intros b Hb.
  destruct (Hall b Hb) as [Hlt | Heq]; [exact Hlt|].
  exfalso. apply Hnot. rewrite Heq. now apply in_map.
Qed.

(** X10: with a positive spacing and enough fuel [collect_lines] returns
    its lines in strictly increasing order of offset, so no two share an
    offset; every offset is a whole multiple [k] of the spacing in metres,
    taken with sign, that does not exceed [max_extend] in magnitude, and
    the centre line ([k = 0]) is only ever produced by the positive
    direction. *)
Theorem scan_line_offsets (loc : survey_locals) (poly : polygon) (fuel : nat) :
  0 < loc_spacing_meters loc ->
  (sweep_iterations (loc_spacing_meters loc) (loc_max_extend loc) < fuel)%nat ->
  exists all_lines,
    collect_lines loc fuel poly = Ok all_lines /\
    StronglySorted (fun a b => offset a < offset b) all_lines /\
    forall l, In l all_lines ->
      exists (k : nat) (direction : R),
        (direction = -1 /\ k <> 0%nat \/ direction = 1) /\
        offset l = INR k * loc_spacing_meters loc * direction /\
        INR k * loc_spacing_meters loc <= loc_max_extend loc.
Proof.
  intros Hs Hfuel. unfold collect_lines.
  rewrite sweep_runs by assumption. cbn [bind].
  set (n := sweep_iterations _ _).
  set (neg := swept_lines _ _ _ _ _ _ (-1) n).
  set (pos := swept_lines _ _ _ _ _ _ 1 n).
  eexists. split; [reflexivity|]. split.
  - apply sorted_distinct_strict; [apply py_sort_sorted|].
    apply Permutation_NoDup with (map offset (neg ++ pos)).
    + apply Permutation_map, py_sort_perm.
    + rewrite map_app. apply NoDup_app.
      * apply swept_offsets_nodup; [exact Hs | now left].
      * apply swept_offsets_nodup; [exact Hs | now right].
      * intros o Ho Ho'.
        apply in_map_iff in Ho as (l & <- & Hl).
        apply in_swept_lines in Hl as (k & _ & Hk & Hl).
        apply scan_line_at_facts in Hl. cbv zeta in Hl. destruct Hl as (Hoff & _).
        apply in_map_iff in Ho' as (l' & E & Hl').
        apply in_swept_lines in Hl' as (k' & _ & _ & Hl').
        apply scan_line_at_facts in Hl'. cbv zeta in Hl'. destruct Hl' as (Hoff' & _).
        rewrite Hoff, Hoff' in E.
        pose proof (pos_INR k) as Pk. pose proof (pos_INR k') as Pk'.
        assert (0 <= INR k * loc_spacing_meters loc) by nra.
        assert (0 <= INR k' * loc_spacing_meters loc) by nra.
        apply Hk. split; [lra | reflexivity].
  - intros l Hl.
    apply Permutation_in with (l' := neg ++ pos) in Hl; [|symmetry; apply py_sort_perm].
    destruct (sweep_iterations_spec _ (loc_max_extend loc) Hs) as (Hle & _).
    apply in_app_or in Hl as [Hl | Hl];
      apply in_swept_lines in Hl as (k & Hk & Hz & Hl);
      apply scan_line_at_facts in Hl; cbv zeta in Hl; destruct Hl as (Hoff & _).
    + exists k, (-1). split; [left; split; [reflexivity|]|].
      * intros ->. apply Hz. cbn. split; [ring | reflexivity].
      * split; [exact Hoff | apply Hle; exact Hk].
    + exists k, 1. split; [now right|]. split; [exact Hoff | apply Hle; exact Hk].
Qed.

Lemma scan_line_offsets_witness :
  exists all_lines,
    collect_lines {| loc_bearing := 0; loc_corners := no_corners; loc_perp_bearing := 90;
                     loc_bounds := unit_bounds; loc_center_lat := 0.5;
                     loc_center_lon := 0.5; loc_spacing_meters := 1;
                     loc_max_extend := 0 |}
                  (S (sweep_iterations 1 0)) unit_square = Ok all_lines /\
    StronglySorted (fun a b => offset a < offset b) all_lines.
Proof.
  destruct (scan_line_offsets
              {| loc_bearing := 0; loc_corners := no_corners; loc_perp_bearing := 90;
                 loc_bounds := unit_bounds; loc_center_lat := 0.5;
                 loc_center_lon := 0.5; loc_spacing_meters := 1;
                 loc_max_extend := 0 |}
              unit_square (S (sweep_iterations 1 0)))
    as (all_lines & H & Hsorted & _); [cbn; lra | cbn; lia |].
  exists all_lines. split; assumption.
Defined.
Lemma line_endpoints_on_side (clat clon perp bearing : R) (poly : polygon) (o : R)
      (l : scan_line) :
  In l (scan_line_at clat clon perp bearing poly o) ->
  on_side poly (start_point l) /\ on_side poly (end_point l).
Proof.
  intros Hl. apply scan_line_at_facts in Hl. cbv zeta in Hl.
  destruct Hl as (_ & Hlen & Hs & He & _ & Hq).
  split; apply Hq.
  - rewrite Hs. apply nth_In. lia.
  - rewrite He. destruct (intersections l) as [|a r]; [cbn in Hlen; lia|].
    destruct (exists_last (l := a :: r)) as (l' & x & E); [discriminate|].
    rewrite E, last_last. apply in_or_app. right. now left.
Qed.

Lemma in_visit_waypoints (visits : list (scan_line * bool)) (w : point) :
  In w (visit_waypoints visits) ->
  exists l, In l (map fst visits) /\ (w = start_point l \/ w = end_point l).
Proof.
  unfold visit_waypoints. intros H. apply in_flat_map in H as ([l b] & Hv & Hw).
  exists l. split; [apply in_map_iff; exists (l, b); auto|].
  unfold oriented in Hw. cbn [fst snd] in Hw.
  destruct b; cbn in Hw; intuition auto.
Qed.

(** X11: for a polygon with at least three vertices and a positive
    spacing the pipeline returns once it has enough fuel, and every
    waypoint of the returned path lies on the boundary of the buffered
    polygon, on the closed side between two consecutive buffered
    vertices. *)
Theorem waypoints_on_buffered_boundary (self : converter) (poly : polygon) :
  (3 <= length poly)%nat ->
  0 < spacing self ->
  exists n, forall fuel, (n < fuel)%nat ->
    exists waypoints,
      generate_parallel_lines_to_longest_side self fuel poly = Ok waypoints /\
      forall w, In w waypoints -> on_side (create_buffer_polygon self poly) w.
Proof.
  intros Hlen Hsp.
  destruct (prepare_sweep_ok self (create_buffer_polygon self poly)
                             (buffered_nonempty self poly Hlen)) as (loc & Hloc & Hs & _).
  exists (sweep_iterations (loc_spacing_meters loc) (loc_max_extend loc)).
  intros fuel Hfuel.
  assert (Hpos : 0 < loc_spacing_meters loc) by (rewrite Hs; lra).
  rewrite (generate_unfold self poly loc fuel Hlen Hloc).
  unfold collect_lines. rewrite sweep_runs by assumption. cbn [bind].
  eexists. split; [reflexivity|].
  intros w Hw.
  destruct (optimize_visits self
              (py_sort offset
                 (swept_lines (loc_center_lat loc) (loc_center_lon loc)
                              (loc_perp_bearing loc) (loc_bearing loc)
                              (create_buffer_polygon self poly) (loc_spacing_meters loc) (-1)
                              (sweep_iterations (loc_spacing_meters loc) (loc_max_extend loc)) ++
                  swept_lines (loc_center_lat loc) (loc_center_lon loc)
                              (loc_perp_bearing loc) (loc_bearing loc)
                              (create_buffer_polygon self poly) (loc_spacing_meters loc) 1
                              (sweep_iterations (loc_spacing_meters loc) (loc_max_extend loc))))
              (loc_corners loc) (loc_bearing loc)) as (visits & Hperm & Heq).
  rewrite Heq in Hw. apply in_visit_waypoints in Hw as (l & Hl & Hends).
  eapply Permutation_in in Hl; [|exact Hperm].
  eapply Permutation_in in Hl; [|symmetry; apply py_sort_perm].
  assert (Hboth : on_side (create_buffer_polygon self poly) (start_point l) /\
                  on_side (create_buffer_polygon self poly) (end_point l)).
  { apply in_app_or in Hl as [Hl | Hl];
      apply in_swept_lines in Hl as (k & _ & _ & Hl);
      eapply line_endpoints_on_side; exact Hl. }
  destruct Hends as [-> | ->]; tauto.
Qed.

Lemma waypoints_on_buffered_boundary_witness :
  exists n, forall fuel, (n < fuel)%nat ->
    exists waypoints,
      generate_parallel_lines_to_longest_side (buffer_by 0) fuel unit_square = Ok waypoints.
Proof.
  destruct (waypoints_on_buffered_boundary (buffer_by 0) unit_square) as [n Hn];
    [cbn; lia | cbn; lra |].
  exists n. intros fuel Hfuel. destruct (Hn fuel Hfuel) as (w & Hw & _).
  exists w. exact Hw.
Defined.

(** ** The orderer with a home position *)

Lemma py_min_by_spec {A : Type} (key : A -> R) (rest : list A) (x : A) :
  In (py_min_by key x rest) (x :: rest) /\
  forall y, In y (x :: rest) -> key (py_min_by key x rest) <= key y.
Proof.
  unfold py_min_by. revert x. induction rest as [|a rest IH]; intros x.
  - cbn. split; [now left|]. intros y [<- | []]. lra.
  - cbn [fold_left]. destruct (IH (if Rltb (key a) (key x) then a else x)) as [Hin Hle].
    split.
    + destruct Hin as [Hin | Hin]; [|right; now right].
      rewrite <- Hin. destruct (Rltb (key a) (key x)); [right; now left | now left].
    + intros y Hy.
      assert (Hcur : key (if Rltb (key a) (key x) then a else x) <= key x /\
                     key (if Rltb (key a) (key x) then a else x) <= key a).
      { cmp_cases; lra. }
      pose proof (Hle _ (or_introl eq_refl)) as H0.
      destruct Hy as [<- | [<- | Hy]]; [lra | lra | apply Hle; now right].
Qed.

Lemma fold_emit_later (all_lines : list scan_line) (sfe : bool) (idxs : list nat) :
  forall (k : nat) (w : list point),
    fold_left (emit_line all_lines sfe) (combine (seq (S k) (length idxs)) idxs) w =
    w ++ greedy_continue (last w origin) (map (fun i => nth i all_lines blank_line) idxs).
Proof.
  induction idxs as [|i idxs IH]; intros k w; cbn [length seq combine fold_left map].
  - cbn. now rewrite app_nil_r.
  - rewrite IH. unfold emit_line. cbn [Nat.eqb greedy_continue].
    destruct (Rltb _ _); rewrite last_snoc2, <- app_assoc; reflexivity.
Qed.

Lemma build_waypoints_boustrophedon (all_lines : list scan_line) (order : list nat)
      (sfe : bool) :
  build_waypoints all_lines order sfe =
  boustrophedon (map (fun i => nth i all_lines blank_line) order) sfe.
Proof.
  unfold build_waypoints. destruct order as [|i0 idxs]; [reflexivity|].
  cbn [length seq combine fold_left map boustrophedon].
  rewrite fold_emit_later. unfold emit_line, oriented. cbn [Nat.eqb app].
  destruct sfe; reflexivity.
Qed.

Lemma boustrophedon_first (lines : list scan_line) (from_end : bool) :
  lines <> [] ->
  nth 0 (boustrophedon lines from_end) origin =
  if from_end then end_point (nth 0 lines blank_line)
  else start_point (nth 0 lines blank_line).
Proof. destruct lines as [|l r]; [congruence|]. intros _. now destruct from_end. Qed.

Lemma nth_0_rev (l : list scan_line) : nth 0 (rev l) blank_line = last l blank_line.
Proof.
  destruct l as [|a l] using rev_ind; [reflexivity|].
  now rewrite rev_app_distr, last_last.
Qed.

(** X12: with a home position and both top corners known, the orderer
    walks the lines back and forth either in ascending or in descending
    order of offset, each later line entered at the endpoint nearer to the
    previous waypoint, and the walk starts at whichever of the four
    endpoints of the first and last lines is nearest to the top-right
    corner; the result is that walk after the final check against the
    home position. *)
Theorem home_ordering (self : converter) (all_lines : list scan_line) (crn : corners)
        (bearing : R) (home tr tl : point) :
  all_lines <> [] ->
  home_position self = Some home ->
  top_right crn = Some tr ->
  top_left crn = Some tl ->
  let first_line := nth 0 all_lines blank_line in
  let last_line := last all_lines blank_line in
  let candidates := [start_point first_line; end_point first_line;
                     start_point last_line; end_point last_line] in
  exists lines from_end,
    (lines = all_lines \/ lines = rev all_lines) /\
    optimize_line_ordering_for_corners self all_lines crn bearing =
    reverse_for_home self (boustrophedon lines from_end) /\
    In (nth 0 (boustrophedon lines from_end) origin) candidates /\
    forall c, In c candidates ->
              calculate_distance (nth 0 (boustrophedon lines from_end) origin) tr
              <= calculate_distance c tr.
Proof.
  intros Hne Hhome Htr Htl first_line last_line candidates.
  rewrite (optimize_unfold self all_lines crn bearing Hne).
  unfold built_waypoints. rewrite build_waypoints_boustrophedon.
  unfold choose_order. rewrite Hhome, Htr, Htl.
  fold first_line last_line.
  set (key := fun x : point * pattern_end => calculate_distance (fst x) tr).
  set (rest := [(end_point first_line, first_end); (start_point last_line, last_start);
                (end_point last_line, last_end)]).
  destruct (py_min_by_spec key rest (start_point first_line, first_start)) as [Hin Hle].
  set (m := py_min_by key (start_point first_line, first_start) rest) in *.
  assert (Hmin : forall c, In c candidates -> calculate_distance (fst m) tr <= calculate_distance c tr).
  { intros c Hc. unfold candidates in Hc. cbn [In] in Hc.
    destruct Hc as [<- | [<- | [<- | [<- | []]]]].
    - apply (Hle (start_point first_line, first_start)). now left.
    - apply (Hle (end_point first_line, first_end)). right. now left.
    - apply (Hle (start_point last_line, last_start)). right. right. now left.
    - apply (Hle (end_point last_line, last_end)). right. right. right. now left. }
  assert (Hrev : rev all_lines <> []).
  { intros E. apply (f_equal (@length _)) in E. rewrite length_rev in E.
    destruct all_lines; [congruence | discriminate]. }
  unfold rest in Hin. cbn [In] in Hin.
  destruct Hin as [E | [E | [E | [E | []]]]]; rewrite <- E in *; cbn [fst snd startswith_first] in *.
  - exists all_lines, false. split; [now left|]. cbn [fst snd].
    rewrite map_nth_seq, boustrophedon_first by exact Hne.
    split; [reflexivity|]. split; [now left | exact Hmin].
  - exists all_lines, true. split; [now left|]. cbn [fst snd].
    rewrite map_nth_seq, boustrophedon_first by exact Hne.
    split; [reflexivity|]. split; [right; now left | exact Hmin].
  - exists (rev all_lines), false. split; [now right|]. cbn [fst snd].
    rewrite map_rev, map_nth_seq, boustrophedon_first, nth_0_rev by exact Hrev.
    split; [reflexivity|]. split; [right; right; now left | exact Hmin].
  - exists (rev all_lines), true. split; [now right|]. cbn [fst snd].
    rewrite map_rev, map_nth_seq, boustrophedon_first, nth_0_rev by exact Hrev.
    split; [reflexivity|]. split; [right; right; right; now left | exact Hmin].
Qed.

Lemma home_ordering_witness :
  exists lines from_end,
    (lines = two_rows \/ lines = rev two_rows) /\
    optimize_line_ordering_for_corners
      (with_home (Some (0, 0))) two_rows
      {| top_right := Some (1, 1); top_left := Some (1, 0);
         bottom_left := None; bottom_right := None |} 0 =
    reverse_for_home (with_home (Some (0, 0))) (boustrophedon lines from_end).
Proof.
  destruct (home_ordering (with_home (Some (0, 0))) two_rows
              {| top_right := Some (1, 1); top_left := Some (1, 0);
                 bottom_left := None; bottom_right := None |} 0 (0, 0) (1, 1) (1, 0))
    as (lines & from_end & Hl & Heq & _); try reflexivity; [discriminate|].
  exists lines, from_end. split; assumption.
Defined.

Lemma nth_0_rev_point (w : list point) : nth 0 (rev w) origin = last w origin.
Proof.
  destruct w as [|a w] using rev_ind; [reflexivity|].
  now rewrite rev_app_distr, last_last.
Qed.

Lemma last_rev_point (w : list point) : last (rev w) origin = nth 0 w origin.
Proof.
  destruct w as [|a w]; [reflexivity|]. cbn [rev nth]. apply last_last.
Qed.

(** X13: when a home position is set, the path that the orderer returns
    never ends nearer to home than 0.8 times the distance from its first
    waypoint to home: the final check reverses the path exactly when its
    end is that much nearer to home than its start, and the reversed path
    then starts at that nearer point. *)
Theorem path_end_not_nearer_home (self : converter) (all_lines : list scan_line)
        (crn : corners) (bearing : R) (home : point) :
  home_position self = Some home ->
  let waypoints := optimize_line_ordering_for_corners self all_lines crn bearing in
  calculate_distance (nth 0 waypoints origin) home * 0.8
  <= calculate_distance (last waypoints origin) home.
Proof.
  intros Hhome waypoints. unfold waypoints.
  assert (Hany : forall w,
             calculate_distance (nth 0 (reverse_for_home self w) origin) home * 0.8
             <= calculate_distance (last (reverse_for_home self w) origin) home).
  { intros w. unfold reverse_for_home. rewrite Hhome.
    pose proof (calculate_distance_nonneg (nth 0 w origin) home) as H0.
    pose proof (calculate_distance_nonneg (last w origin) home) as H1.
    destruct w as [|a w]; [cbn in *; lra|].
    cbn [length Nat.ltb Nat.leb]. cmp_cases; [|lra].
    rewrite nth_0_rev_point, last_rev_point. lra. }
  destruct all_lines as [|l rest].
  - cbn. pose proof (calculate_distance_nonneg origin home). lra.
  - rewrite optimize_unfold by discriminate. apply Hany.
Qed.

Lemma path_end_not_nearer_home_witness :
  calculate_distance
    (nth 0 (optimize_line_ordering_for_corners (with_home (Some (0, 0))) two_rows
                                               no_corners 0) origin) (0, 0) * 0.8
  <= calculate_distance
       (last (optimize_line_ordering_for_corners (with_home (Some (0, 0))) two_rows
                                                 no_corners 0) origin) (0, 0).
Proof.
  apply (path_end_not_nearer_home (with_home (Some (0, 0))) two_rows no_corners 0 (0, 0)).
  reflexivity.
Defined.

(** * Properties of [kml_to_wayp_v7.py] *)

(** ** Generic facts about loops with fuel *)

Lemma while_loop_iter {St : Type} (guard : St -> bool) (body : St -> St) (n : nat) :
  forall (fuel : nat) (st : St),
    (forall k, (k < n)%nat -> guard (Nat.iter k body st) = true) ->
    guard (Nat.iter n body st) = false ->
    (n < fuel)%nat ->
    while_loop guard body fuel st = Ok (Nat.iter n body st).
Proof.
  induction n as [|n IH]; intros fuel st Htrue Hfalse Hfuel.
  - destruct fuel as [|fuel]; [lia|]. cbn in *. now rewrite Hfalse.
  - destruct fuel as [|fuel]; [lia|]. cbn [while_loop].
    pose proof (Htrue 0%nat ltac:(lia)) as H0. cbn [Nat.iter nat_rect] in H0. rewrite H0.
    rewrite Nat.iter_succ_r in *. apply IH; [|exact Hfalse|lia].
    intros k Hk. specialize (Htrue (S k) ltac:(lia)).
    now rewrite Nat.iter_succ_r in Htrue.
Qed.

Lemma iter_invariant {St : Type} (P : St -> Prop) (body : St -> St) (n : nat) (st : St) :
  (forall st, P st -> P (body st)) -> P st -> P (Nat.iter n body st).
Proof. intros Hstep H0. induction n as [|n IH]; [exact H0|]. cbn. now apply Hstep. Qed.

(** ** The side nearest to home *)

Lemma closest_step_fold (home : point) (poly : polygon) (n : nat) :
  (0 < n)%nat ->
  let key := fun i => calculate_distance home (side_midpoint poly i) in
  exists i, (i < n)%nat /\
            fold_left (V7.closest_step home poly) (seq 0 n) (None, 0%nat) =
            (Some (key i), i) /\
            (forall j, (j < n)%nat -> key i <= key j) /\
            (forall j, (j < i)%nat -> key i < key j).
Proof.
  intros Hn key. induction n as [|n IH]; [lia|].
  destruct n as [|n].
  - exists 0%nat. cbn. repeat split; try lia.
    intros j Hj. assert (j = 0%nat) as -> by lia. lra.
  - destruct IH as (i & Hi & Hfold & Hle & Hlt); [lia|].
    rewrite seq_S, fold_left_app, Hfold. cbn [fold_left Nat.add].
    unfold V7.closest_step. unfold side_at at 1. cbv iota beta.
    change (calculate_distance home _) with (key (S n)).
    cmp_cases.
    + exists (S n). split; [lia|]. split; [reflexivity|]. split.
      * intros j Hj. destruct (Nat.eq_dec j (S n)) as [-> | Hne]; [lra|].
        specialize (Hle j ltac:(lia)). lra.
      * intros j Hj. specialize (Hle j ltac:(lia)). lra.
    + exists i. split; [lia|]. split; [reflexivity|]. split.
      * intros j Hj. destruct (Nat.eq_dec j (S n)) as [-> | Hne]; [lra|].
        apply Hle. lia.
      * exact Hlt.
Qed.

Lemma closest_side_index (self : converter) (poly : polygon) :
  (3 <= length poly)%nat -> (V7.get_side_closest_to_home self poly < length poly)%nat.
Proof.
  intros Hlen. unfold V7.get_side_closest_to_home.
  destruct (home_position self) as [home|]; [|lia].
  destruct (Nat.ltb_spec (length poly) 3) as [H | _]; [lia|].
  destruct (closest_step_fold home poly (length poly)) as (i & Hi & Hfold & _); [lia|].
  rewrite Hfold. exact Hi.
Qed.

(** X14: [get_side_closest_to_home] returns 0 when no home position is
    set or the polygon has fewer than three vertices; otherwise it
    returns the index of a side of the polygon, the first one, in vertex
    order, whose midpoint is at the smallest haversine distance from
    home. *)
Theorem closest_side_is_first_nearest (self : converter) (poly : polygon) :
  match home_position self with
  | None => V7.get_side_closest_to_home self poly = 0%nat
  | Some home =>
    if (length poly <? 3)%nat then V7.get_side_closest_to_home self poly = 0%nat
    else
      let i := V7.get_side_closest_to_home self poly in
      let key := fun j => calculate_distance home (side_midpoint poly j) in
      (i < length poly)%nat /\
      (forall j, (j < length poly)%nat -> key i <= key j) /\
      (forall j, (j < i)%nat -> key i < key j)
  end.
Proof.
  unfold V7.get_side_closest_to_home.
  destruct (home_position self) as [home|]; [|reflexivity].
  destruct (length poly <? 3)%nat eqn:Hlen; [reflexivity|].
  apply Nat.ltb_ge in Hlen.
  destruct (closest_step_fold home poly (length poly)) as (i & Hi & Hfold & Hle & Hlt);
    [lia|].
  cbv zeta. rewrite Hfold. cbn [snd]. auto.
Qed.

(** X15: [optimize_pattern_end_near_home] returns the waypoints either
    unchanged or reversed, and unchanged when no home position is set or
    there are fewer than two waypoints; with a home position, at least two
    waypoints and a polygon of at least three vertices, the returned path
    ends no farther from the midpoint of the side nearest to home than it
    starts. *)
Theorem pattern_ends_near_home_side (self : converter) (waypoints : list point)
        (poly : polygon) :
  let result := V7.optimize_pattern_end_near_home self waypoints poly in
  let side_mid := side_midpoint poly (V7.get_side_closest_to_home self poly) in
  (result = waypoints \/ result = rev waypoints) /\
  (home_position self = None \/ (length waypoints < 2)%nat -> result = waypoints) /\
  (home_position self <> None -> (2 <= length waypoints)%nat -> (3 <= length poly)%nat ->
   calculate_distance (last result origin) side_mid
   <= calculate_distance (nth 0 result origin) side_mid).
Proof.
  cbv zeta. unfold V7.optimize_pattern_end_near_home.
  destruct (home_position self) as [home|] eqn:Hhome.
  2:{ split; [now left|]. split; [reflexivity|]. intros H. congruence. }
  destruct (Nat.ltb_spec (length waypoints) 2) as [Hw | Hw].
  { split; [now left|]. split; [reflexivity|]. intros _ H. lia. }
  destruct (Nat.ltb_spec (V7.get_side_closest_to_home self poly) (length poly)) as [Hc | Hc].
  2:{ split; [now left|]. split; [intros [H | H]; [discriminate | lia]|].
      intros _ _ Hp. exfalso.
      pose proof (closest_side_index self poly Hp) as Hi. lia. }
  unfold side_at, side_midpoint. cbv iota beta. unfold side_at. cbn [fst snd].
  cmp_cases.
  - split; [now left|]. split; [intros [H | H]; [discriminate | lia]|].
    intros _ _ _. lra.
  - split; [now right|]. split; [intros [H | H]; [discriminate | lia]|].
    intros _ _ _. rewrite nth_0_rev_point, last_rev_point. lra.
Qed.

Lemma pattern_ends_near_home_side_witness :
  calculate_distance
    (last (V7.optimize_pattern_end_near_home (with_home (Some (0, 0)))
                                             [(0, 0); (1, 1)] unit_square) origin)
    (side_midpoint unit_square
                   (V7.get_side_closest_to_home (with_home (Some (0, 0))) unit_square))
  <= calculate_distance
       (nth 0 (V7.optimize_pattern_end_near_home (with_home (Some (0, 0)))
                                                 [(0, 0); (1, 1)] unit_square) origin)
       (side_midpoint unit_square
                      (V7.get_side_closest_to_home (with_home (Some (0, 0))) unit_square)).
Proof.
  apply (proj2 (proj2 (pattern_ends_near_home_side (with_home (Some (0, 0)))
                                                   [(0, 0); (1, 1)] unit_square))).
  - discriminate.
  - cbn. lia.
  - cbn. lia.
Defined.

(** ** The sweep *)

Lemma v7_line_length (clat clon perp bearing : R) (poly : polygon) (o : R)
      (go_forward : bool) :
  length (V7.generate_line_through_point_parallel_to_bearing
            (fst (point_at_bearing_and_distance clat clon perp o))
            (snd (point_at_bearing_and_distance clat clon perp o))
            bearing poly go_forward) =
  (2 * length (scan_line_at clat clon perp bearing poly o))%nat.
Proof.
  unfold V7.generate_line_through_point_parallel_to_bearing, scan_line_at,
    get_line_intersections_only.
  destruct (point_at_bearing_and_distance clat clon perp o) as [lat lon]. cbn [fst snd].
  destruct (probe_ends lat lon bearing) as [end1 end2].
  destruct (2 <=? length (line_polygon_intersections end1 end2 poly))%nat eqn:E.
  - rewrite py_sort_length, E. now destruct go_forward.
  - reflexivity.
Qed.

Lemma v7_line_on_side (lat lon bearing : R) (poly : polygon) (go_forward : bool)
      (p : point) :
  In p (V7.generate_line_through_point_parallel_to_bearing lat lon bearing poly go_forward) ->
  on_side poly p.
Proof.
  unfold V7.generate_line_through_point_parallel_to_bearing.
  destruct (probe_ends lat lon bearing) as [end1 end2].
  set (hits := line_polygon_intersections end1 end2 poly).
  destruct (2 <=? length hits)%nat eqn:E; [|intros []].
  apply Nat.leb_le in E.
  set (sorted := py_sort (fun q => calculate_distance end1 q) hits).
  assert (Hlen : (2 <= length sorted)%nat) by (unfold sorted; now rewrite py_sort_length).
  assert (Hin : forall q, In q sorted -> on_side poly q).
  { intros q Hq. apply (clip_point_on_side end1 end2).
    eapply Permutation_in; [symmetry; apply py_sort_perm | exact Hq]. }
  assert (Hfirst : In (nth 0 sorted origin) sorted) by (apply nth_In; lia).
  assert (Hlast : In (last sorted origin) sorted).
  { destruct sorted as [|a r]; [cbn in Hlen; lia|].
    destruct (exists_last (l := a :: r)) as (l' & x & ->); [discriminate|].
    rewrite last_last. apply in_or_app. right. now left. }
  intros Hp. destruct go_forward; cbn in Hp;
    destruct Hp as [<- | [<- | []]]; auto.
Qed.

Section V7Sweep.

Variables (center_lat center_lon perp_bearing bearing : R).
Variable buffered_polygon : polygon.
Variables (s max_extend : R).

Local Abbreviation body7 := (V7.sweep_body center_lat center_lon perp_bearing bearing
                                             buffered_polygon s).
Local Abbreviation swept := (swept_lines center_lat center_lon perp_bearing bearing
                                         buffered_polygon s).

Lemma v7_iter_sweep_body (direction : R) (w : list point) (c : nat) (n : nat) :
  exists w' c',
    Nat.iter n (body7 direction) (0, w, c) = (INR n * s, w ++ w', c') /\
    length w' = (2 * length (swept direction n))%nat /\
    forall p, In p w' -> on_side buffered_polygon p.
Proof.
  induction n as [|n IH].
  - exists [], c. cbn. rewrite app_nil_r. repeat split; [f_equal; f_equal; ring | intros p []].
  - destruct IH as (w' & c' & Hiter & Hlen & Hon).
    rewrite Nat.iter_succ, Hiter, swept_lines_succ, length_app.
    unfold V7.sweep_body.
    destruct (Reqb (INR n * s) 0 && Reqb direction (-1)).
    + exists w', c'. rewrite S_INR. split; [f_equal; f_equal; ring|].
      split; [cbn [length]; lia | exact Hon].
    + pose proof (v7_line_length center_lat center_lon perp_bearing bearing
                                 buffered_polygon (INR n * s * direction)
                                 (c' mod 2 =? 0)%nat) as Hl.
      pose proof (v7_line_on_side
                    (fst (point_at_bearing_and_distance center_lat center_lon perp_bearing
                                                        (INR n * s * direction)))
                    (snd (point_at_bearing_and_distance center_lat center_lon perp_bearing
                                                        (INR n * s * direction)))
                    bearing buffered_polygon (c' mod 2 =? 0)%nat) as Hs.
      destruct (point_at_bearing_and_distance center_lat center_lon perp_bearing
                                              (INR n * s * direction)) as [lat lon].
      cbn [fst snd] in Hl, Hs.
      destruct (V7.generate_line_through_point_parallel_to_bearing
                  lat lon bearing buffered_polygon (c' mod 2 =? 0)%nat) as [|a r] eqn:E.
      * exists w', c'. rewrite S_INR. split; [f_equal; f_equal; ring|].
        cbn [length] in Hl. split; [lia | exact Hon].
      * exists (w' ++ a :: r), (S c'). rewrite S_INR, <- app_assoc.
        split; [f_equal; f_equal; ring|].
        rewrite length_app. split; [lia|].
        intros p Hp. apply in_app_or in Hp as [Hp | Hp]; [now apply Hon | now apply Hs].
Qed.

Lemma v7_sweep_runs (fuel : nat) :
  0 < s ->
  (sweep_iterations s max_extend < fuel)%nat ->
  exists w c,
    V7.sweep center_lat center_lon perp_bearing bearing buffered_polygon s max_extend fuel
    = Ok (w, c) /\
    length w = (2 * length (swept (-1) (sweep_iterations s max_extend) ++
                            swept 1 (sweep_iterations s max_extend)))%nat /\
    forall p, In p w -> on_side buffered_polygon p.
Proof.
  intros Hs Hfuel.
  destruct (sweep_iterations_spec s max_extend Hs) as (Hlt & Hn & _).
  set (n := sweep_iterations s max_extend) in *.
  assert (Hrun : forall direction w c,
             while_loop (V7.sweep_guard max_extend) (body7 direction) fuel (0, w, c) =
             Ok (Nat.iter n (body7 direction) (0, w, c))).
  { intros direction w c. apply while_loop_iter; [| |exact Hfuel].
    - intros k Hk. destruct (v7_iter_sweep_body direction w c k) as (w' & c' & -> & _).
      unfold V7.sweep_guard. cbn [fst]. apply Rleb_true. now apply Hlt.
    - destruct (v7_iter_sweep_body direction w c n) as (w' & c' & -> & _).
      unfold V7.sweep_guard. cbn [fst]. apply Rleb_false. exact Hn. }
  unfold V7.sweep. cbn [fold_left bind]. rewrite Hrun.
  destruct (v7_iter_sweep_body (-1) [] 0%nat n) as (w1 & c1 & -> & Hl1 & Ho1).
  cbn [bind fst snd app]. rewrite Hrun.
  destruct (v7_iter_sweep_body 1 w1 c1 n) as (w2 & c2 & -> & Hl2 & Ho2).
  cbn [bind fst snd]. exists (w1 ++ w2), c2. split; [reflexivity|].
  rewrite !length_app. split; [lia|].
  intros p Hp. apply in_app_or in Hp as [Hp | Hp]; auto.
Qed.

End V7Sweep.

Lemma v7_optimize_same_or_rev (self : converter) (waypoints : list point) (poly : polygon) :
  V7.optimize_pattern_end_near_home self waypoints poly = waypoints \/
  V7.optimize_pattern_end_near_home self waypoints poly = rev waypoints.
Proof.
  unfold V7.optimize_pattern_end_near_home.
  destruct (home_position self); [|now left].
  destruct (length waypoints <? 2)%nat; [now left|].
  destruct (_ <? length poly)%nat; [|now left].
  destruct (side_at poly _) as [a b]. destruct (Rltb _ _); [now left | now right].
Qed.

(** X16: for a polygon with at least three vertices and a positive
    spacing, the v7 pipeline returns once it has enough fuel, as the v8
    pipeline does; the two paths have the same number of waypoints, two
    for each probe line with at least two deduplicated intersections, and
    every v7 waypoint lies on a closed side of the buffered polygon. *)
Theorem v7_path_matches_v8_count (self : converter) (poly : polygon) :
  (3 <= length poly)%nat ->
  0 < spacing self ->
  exists n, forall fuel, (n < fuel)%nat ->
    exists waypoints7 waypoints8,
      V7.generate_parallel_lines_to_longest_side self fuel poly = Ok waypoints7 /\
      generate_parallel_lines_to_longest_side self fuel poly = Ok waypoints8 /\
      length waypoints7 = length waypoints8 /\
      forall p, In p waypoints7 -> on_side (create_buffer_polygon self poly) p.
Proof.
  intros Hlen Hsp.
  pose proof (buffered_nonempty self poly Hlen) as Hne.
  destruct (prepare_sweep_ok self (create_buffer_polygon self poly) Hne)
    as (loc & Hloc & Hs & _).
  exists (sweep_iterations (loc_spacing_meters loc) (loc_max_extend loc)).
  intros fuel Hfuel.
  assert (Hpos : 0 < loc_spacing_meters loc) by (rewrite Hs; lra).
  rewrite (generate_unfold self poly loc fuel Hlen Hloc).
  unfold collect_lines. rewrite sweep_runs by assumption. cbn [bind].
  unfold V7.generate_parallel_lines_to_longest_side.
  destruct (Nat.ltb_spec (length poly) 3) as [H | _]; [lia|].
  unfold prepare_sweep in Hloc.
  destruct (find_longest_side_with_bearing (create_buffer_polygon self poly))
    as [side| |]; try discriminate.
  cbn [bind] in Hloc |- *.
  destruct (find_polygon_corners (create_buffer_polygon self poly))
    as [crn| |]; try discriminate.
  cbn [bind] in Hloc.
  destruct (get_polygon_bounds (create_buffer_polygon self poly))
    as [b| |]; try discriminate.
  cbn [bind] in Hloc |- *. injection Hloc as <-.
  cbn [loc_bearing loc_corners loc_perp_bearing loc_bounds loc_center_lat loc_center_lon
       loc_spacing_meters loc_max_extend] in *.
  destruct (v7_sweep_runs ((min_lat b + max_lat b) / 2) ((min_lon b + max_lon b) / 2)
                          (fmod (best_bearing side + 90) 360) (best_bearing side)
                          (create_buffer_polygon self poly) (spacing self * 111000)
                          (calculate_distance (min_lat b, min_lon b) (max_lat b, max_lon b) / 2)
                          fuel Hpos Hfuel) as (w & c & Hrun & Hwlen & Hon).
  rewrite Hrun. cbn [bind].
  eexists. eexists. split; [reflexivity|]. split; [reflexivity|].
  rewrite optimize_length, py_sort_length, <- Hwlen.
  destruct (home_position self) as [home|] eqn:Hhome; [|split; [reflexivity | exact Hon]].
  destruct (v7_optimize_same_or_rev self w (create_buffer_polygon self poly)) as [-> | ->].
  - split; [reflexivity | exact Hon].
  - split; [apply length_rev|]. intros p Hp. apply Hon. now apply in_rev.
Qed.

Lemma v7_path_matches_v8_count_witness :
  exists n, forall fuel, (n < fuel)%nat ->
    exists waypoints7 waypoints8,
      V7.generate_parallel_lines_to_longest_side (buffer_by 0) fuel unit_square
      = Ok waypoints7 /\
      generate_parallel_lines_to_longest_side (buffer_by 0) fuel unit_square
      = Ok waypoints8 /\
      length waypoints7 = length waypoints8.
Proof.
  destruct (v7_path_matches_v8_count (buffer_by 0) unit_square) as [n Hn];
    [cbn; lia | cbn; lra |].
  exists n. intros fuel Hfuel. destruct (Hn fuel Hfuel) as (w7 & w8 & H7 & H8 & Hl & _).
  exists w7, w8. repeat split; assumption.
Defined.

(** * Properties of [vv3.py] *)

(** ** Line spacing from the camera settings *)

Lemma optimal_spacing_positive (altitude : Z) (sidelap : R) :
  0.00001 <= calculate_optimal_spacing altitude sidelap.
Proof. unfold calculate_optimal_spacing. cbv zeta. cmp_cases; lra. Qed.

(** X17: [calculate_optimal_spacing] never returns less than 0.00001
    degrees, so its result is always a positive spacing; it returns the
    floor itself for an altitude of 0 or less with a sidelap of at most
    100, and for a sidelap of 100 or more with an altitude of 0 or more;
    it never decreases when the altitude grows (sidelap at most 100) and
    never increases when the sidelap grows (altitude at least 0). *)
Theorem optimal_spacing_floor_and_monotone (altitude : Z) (sidelap : R) :
  0.00001 <= calculate_optimal_spacing altitude sidelap /\
  ((altitude <= 0)%Z /\ sidelap <= 100 \/ (0 <= altitude)%Z /\ 100 <= sidelap ->
   calculate_optimal_spacing altitude sidelap = 0.00001) /\
  (forall altitude', sidelap <= 100 -> (altitude <= altitude')%Z ->
     calculate_optimal_spacing altitude sidelap
     <= calculate_optimal_spacing altitude' sidelap) /\
  (forall sidelap', (0 <= altitude)%Z -> sidelap <= sidelap' ->
     calculate_optimal_spacing altitude sidelap'
     <= calculate_optimal_spacing altitude sidelap).
Proof.
  assert (Hform : forall a sl,
             23.5 * IZR a / 24 * ((100 - sl) / 100) / 111000 =
             IZR a * (100 - sl) * (23.5 / 24 / 100 / 111000)) by (intros; field).
  unfold calculate_optimal_spacing. cbv zeta. split; [cmp_cases; lra|]. split; [|split].
  - intros H. rewrite Hform. cmp_cases; [reflexivity|]. exfalso.
    destruct H as [[Ha Hs] | [Ha Hs]]; apply IZR_le in Ha; nra.
  - intros a' Hs Ha. apply IZR_le in Ha. rewrite !Hform.
    assert (IZR altitude * (100 - sidelap) <= IZR a' * (100 - sidelap)) by nra.
    repeat cmp_cases; lra.
  - intros s' Ha Hs. apply IZR_le in Ha. rewrite !Hform.
    assert (IZR altitude * (100 - s') <= IZR altitude * (100 - sidelap)) by nra.
    repeat cmp_cases; lra.
Qed.

Lemma optimal_spacing_floor_and_monotone_witness :
  calculate_optimal_spacing 0 60 = 0.00001 /\
  calculate_optimal_spacing 10 60 <= calculate_optimal_spacing 50 60.
Proof.
  pose proof (optimal_spacing_floor_and_monotone 0 60) as (_ & H0 & _).
  pose proof (optimal_spacing_floor_and_monotone 10 60) as (_ & _ & H1 & _).
  split.
  - apply H0. left. split; [lia | lra].
  - apply H1; [lra | lia].
Defined.

(** ** Crossings of a line of constant latitude *)

Lemma crossing_step_app (lat : R) (poly : polygon) (acc : list R) (i : nat) :
  V3.crossing_step lat poly acc i = acc ++ side_crossings lat poly i.
Proof.
  unfold side_crossings, V3.crossing_step.
  destruct (side_at poly i) as [[p1_lat p1_lon] [p2_lat p2_lon]].
  repeat match goal with
         | |- context [if ?c then _ else _] => destruct c
         end; cbn [app]; now rewrite ?app_nil_r.
Qed.

Lemma crossing_fold (lat : R) (poly : polygon) (l : list nat) (acc : list R) :
  fold_left (V3.crossing_step lat poly) l acc =
  acc ++ flat_map (side_crossings lat poly) l.
Proof.
  revert acc. induction l as [|i l IH]; intros acc; cbn [fold_left flat_map].
  - now rewrite app_nil_r.
  - now rewrite IH, crossing_step_app, <- app_assoc.
Qed.

Lemma side_crossings_bounds (lat : R) (poly : polygon) (b : bounds) (i : nat) (x : R) :
  get_polygon_bounds poly = Ok b -> (i < length poly)%nat ->
  In x (side_crossings lat poly i) ->
  min_lon b <= x <= max_lon b /\
  (lat <= min_lat b - V3.tolerance \/ max_lat b + V3.tolerance <= lat -> False).
Proof.
  intros Hb Hi. destruct (side_at_in poly i Hi) as [H1 H2].
  pose proof (bounds_contain_vertices _ _ _ Hb H1) as B1.
  pose proof (bounds_contain_vertices _ _ _ Hb H2) as B2.
  unfold side_crossings, V3.crossing_step, V3.tolerance in *.
  destruct (side_at poly i) as [[p1_lat p1_lon] [p2_lat p2_lon]]. cbn [fst snd] in *.
  cmp_cases.
  - cmp_cases; [|intros []].
    assert (Hlat : min_lat b - 1e-10 < lat < max_lat b + 1e-10).
    { revert Hcmp0. unfold Rabs. destruct (Rcase_abs _); lra. }
    intros [<- | [<- | []]]; (split; [lra|intros [H | H]; lra]).
  - destruct ((Rleb p1_lat lat && Rltb lat p2_lat) || (Rleb p2_lat lat && Rltb lat p1_lat))
             eqn:E; [|intros []].
    intros [<- | []].
    assert (Hne : p2_lat - p1_lat <> 0).
    { intros E0. rewrite Rabs_minus_sym, E0, Rabs_R0 in Hcmp. lra. }
    replace (p1_lon + (lat - p1_lat) * (p2_lon - p1_lon) / (p2_lat - p1_lat))
      with (p1_lon + (lat - p1_lat) / (p2_lat - p1_lat) * (p2_lon - p1_lon))
      by (field; exact Hne).
    apply orb_true_iff in E as [E | E]; apply andb_true_iff in E as [E1 E2];
      apply Rleb_true in E1; apply Rltb_true in E2.
    + split; [|intros [H | H]; lra].
      apply between_convex; [lra | lra |].
      split.
      * apply Rmult_le_pos; [lra|]. left. apply Rinv_0_lt_compat. lra.
      * apply Rmult_le_reg_r with (p2_lat - p1_lat); [lra|].
        unfold Rdiv. rewrite Rmult_assoc, Rinv_l by exact Hne. lra.
    + split; [|intros [H | H]; lra].
      apply between_convex; [lra | lra |].
      replace ((lat - p1_lat) / (p2_lat - p1_lat)) with ((p1_lat - lat) / (p1_lat - p2_lat))
        by (field; split; lra).
      split.
      * apply Rmult_le_pos; [lra|]. left. apply Rinv_0_lt_compat. lra.
      * apply Rmult_le_reg_r with (p1_lat - p2_lat); [lra|].
        unfold Rdiv. rewrite Rmult_assoc, Rinv_l by lra. lra.
Qed.

Lemma py_set_fold (l seen : list R) :
  NoDup seen ->
  let result := fold_left (fun seen x => if existsb (Reqb x) seen then seen else seen ++ [x])
                          l seen in
  NoDup result /\ forall x, In x result <-> In x seen \/ In x l.
Proof.
  revert seen. induction l as [|a l IH]; intros seen Hnd; cbn [fold_left].
  - cbv zeta. split; [exact Hnd|]. intros x. cbn. tauto.
  - destruct (existsb (Reqb a) seen) eqn:E.
    + destruct (IH seen Hnd) as [H1 H2]. cbv zeta in *. split; [exact H1|].
      intros x. rewrite H2. cbn [In].
      apply existsb_exists in E as (y & Hy & Heq). apply Reqb_true in Heq. subst y.
      split; [tauto|]. intros [H | [<- | H]]; auto.
    + assert (Hnot : ~ In a seen).
      { intros Hin. assert (existsb (Reqb a) seen = true); [|congruence].
        apply existsb_exists. exists a. split; [exact Hin | now apply Reqb_true]. }
      destruct (IH (seen ++ [a])) as [H1 H2].
      { apply NoDup_app; [exact Hnd | constructor; [intros [] | constructor] |].
        intros x Hx [<- | []]. contradiction. }
      cbv zeta in *. split; [exact H1|]. intros x. rewrite H2, in_app_iff. cbn. tauto.
Qed.

Lemma py_set_spec (l : list R) :
  NoDup (V3.py_set l) /\ forall x, In x (V3.py_set l) <-> In x l.
Proof.
  destruct (py_set_fold l [] (NoDup_nil R)) as [H1 H2]. split; [exact H1|].
  intros x. unfold V3.py_set. rewrite H2. cbn. tauto.
Qed.

Lemma py_sorted_spec (l : list R) :
  NoDup l ->
  StronglySorted Rlt (V3.py_sorted l) /\ forall x, In x (V3.py_sorted l) <-> In x l.
Proof.
  intros Hnd. unfold V3.py_sorted. split.
  - apply (sorted_distinct_strict (fun x : R => x)); [apply py_sort_sorted|].
    rewrite map_id. eapply Permutation_NoDup; [apply py_sort_perm | exact Hnd].
  - intros x. split; apply Permutation_in; [symmetry|]; apply py_sort_perm.
Qed.

Lemma pair_up_spec (l : list R) :
  exists rest, l = V3.pair_up l ++ rest /\ (length rest <= 1)%nat /\
               Nat.even (length (V3.pair_up l)) = true.
Proof.
  assert (H : forall n l, (length l <= n)%nat ->
              exists rest, l = V3.pair_up l ++ rest /\ (length rest <= 1)%nat /\
                           Nat.even (length (V3.pair_up l)) = true).
  { induction n as [|n IH]; intros [|a [|b r]] Hl; cbn in Hl; try lia;
      try (exists []; cbn; auto; fail); try (exists [a]; cbn; auto; fail).
    destruct (IH r ltac:(lia)) as (rest & E & Hr & Hev).
    exists rest. cbn [V3.pair_up app length]. rewrite <- E. auto. }
  apply (H (length l)). lia.
Qed.

Lemma StronglySorted_app_l {A : Type} (R : A -> A -> Prop) (l r : list A) :
  StronglySorted R (l ++ r) -> StronglySorted R l.
Proof.
  induction l as [|a l IH]; intros H; [constructor|].
  cbn in H. apply StronglySorted_inv in H as [Hs Hall]. constructor; [now apply IH|].
  apply Forall_app in Hall. tauto.
Qed.

Lemma crossings_in_raw (lat : R) (poly : polygon) (x : R) :
  In x (V3.find_polygon_intersections lat poly) ->
  exists i, (i < length poly)%nat /\ In x (side_crossings lat poly i).
Proof.
  unfold V3.find_polygon_intersections.
  set (raw := fold_left (V3.crossing_step lat poly) (seq 0 (length poly)) []).
  destruct (py_set_spec raw) as [Hnd Hset].
  destruct (py_sorted_spec (V3.py_set raw) Hnd) as [_ Hin].
  destruct (pair_up_spec (V3.py_sorted (V3.py_set raw))) as (rest & E & _ & _).
  intros Hx. assert (Hr : In x raw).
  { apply Hset, Hin. rewrite E. apply in_or_app. now left. }
  unfold raw in Hr. rewrite crossing_fold in Hr. cbn [app] in Hr.
  apply in_flat_map in Hr as (i & Hi & Hr). apply in_seq in Hi.
  exists i. split; [lia | exact Hr].
Qed.

Lemma crossings_sorted (lat : R) (poly : polygon) :
  StronglySorted Rlt (V3.find_polygon_intersections lat poly) /\
  Nat.even (length (V3.find_polygon_intersections lat poly)) = true.
Proof.
  unfold V3.find_polygon_intersections.
  set (raw := fold_left (V3.crossing_step lat poly) (seq 0 (length poly)) []).
  destruct (py_set_spec raw) as [Hnd _].
  destruct (py_sorted_spec (V3.py_set raw) Hnd) as [Hsorted _].
  destruct (pair_up_spec (V3.py_sorted (V3.py_set raw))) as (rest & E & _ & Hev).
  split; [|exact Hev].
  rewrite E in Hsorted. eapply StronglySorted_app_l. exact Hsorted.
Qed.

(** X18: the list returned by [find_polygon_intersections] has an even
    number of entries in strictly increasing order; each is a longitude
    within the bounding box of the polygon; and the list is empty when the
    latitude lies 1e-10 or more outside the latitude range of the polygon
    (and for an empty polygon). *)
Theorem find_polygon_intersections_pairs (lat : R) (poly : polygon) :
  let crossings := V3.find_polygon_intersections lat poly in
  Nat.even (length crossings) = true /\
  StronglySorted Rlt crossings /\
  match get_polygon_bounds poly with
  | Ok b =>
    (forall x, In x crossings -> min_lon b <= x <= max_lon b) /\
    (lat <= min_lat b - 1e-10 \/ max_lat b + 1e-10 <= lat -> crossings = [])
  | _ => crossings = []
  end.
Proof.
  cbv zeta. destruct (crossings_sorted lat poly) as [Hsorted Hev].
  split; [exact Hev|]. split; [exact Hsorted|].
  pose proof (crossings_in_raw lat poly) as Hraw.
  destruct (get_polygon_bounds poly) as [b| |] eqn:Hb.
  - split.
    + intros x Hx. apply Hraw in Hx as (i & Hi & Hx).
      apply (side_crossings_bounds lat poly b i x Hb Hi Hx).
    + intros Hout.
      destruct (V3.find_polygon_intersections lat poly) as [|x r]; [reflexivity|].
      exfalso. destruct (Hraw x) as (i & Hi & Hx); [now left|].
      apply (side_crossings_bounds lat poly b i x Hb Hi Hx). exact Hout.
  - destruct poly as [|p poly]; [reflexivity|]. exfalso.
    destruct (get_polygon_bounds_ok (p :: poly)) as [b' Hb']; [discriminate|]. congruence.
  - destruct poly as [|p poly]; [reflexivity|]. exfalso.
    destruct (get_polygon_bounds_ok (p :: poly)) as [b' Hb']; [discriminate|]. congruence.
Qed.

(** ** The lawnmower loop *)

Lemma while_loop_invariant {St : Type} (P : St -> Prop) (guard : St -> bool)
      (body : St -> St) (fuel : nat) :
  (forall st, P st -> guard st = true -> P (body st)) ->
  forall st st', P st -> while_loop guard body fuel st = Ok st' -> P st'.
Proof.
  intros Hstep. induction fuel as [|fuel IH]; intros st st' HP Hrun; [discriminate|].
  cbn [while_loop] in Hrun. destruct (guard st) eqn:G.
  - apply (IH (body st)); [now apply Hstep | exact Hrun].
  - injection Hrun as <-. exact HP.
Qed.

Lemma while_loop_starved {St : Type} (guard : St -> bool) (body : St -> St) (fuel : nat) :
  forall st, (forall k, (k < fuel)%nat -> guard (Nat.iter k body st) = true) ->
             while_loop guard body fuel st = OutOfFuel.
Proof.
  induction fuel as [|fuel IH]; intros st H; [reflexivity|].
  cbn [while_loop]. pose proof (H 0%nat ltac:(lia)) as H0. cbn in H0. rewrite H0.
  apply IH. intros k Hk. specialize (H (S k) ltac:(lia)).
  now rewrite Nat.iter_succ_r in H.
Qed.

Lemma range_by_two_in (stop i : nat) :
  In i (V3.range_by_two stop) -> (i < stop)%nat.
Proof.
  unfold V3.range_by_two. intros H. apply in_map_iff in H as (k & <- & Hk).
  apply in_seq in Hk. pose proof (Nat.Div0.mul_div_le (stop + 1) 2). lia.
Qed.

Lemma sorted_nth_lt (l : list R) (i j : nat) :
  StronglySorted Rlt l -> (i < j < length l)%nat -> nth i l 0 < nth j l 0.
Proof.
  intros Hs. revert i j. induction Hs as [|a l Hs IH Hall]; intros i j Hij.
  - cbn in Hij. lia.
  - destruct j as [|j]; [lia|]. cbn [length] in Hij. destruct i as [|i].
    + cbn [nth]. rewrite Forall_forall in Hall. apply Hall, nth_In. lia.
    + cbn [nth]. apply IH. lia.
Qed.

Lemma StronglySorted_snoc {A : Type} (R : A -> A -> Prop) (l : list A) (a : A) :
  StronglySorted R l -> Forall (fun x => R x a) l -> StronglySorted R (l ++ [a]).
Proof.
  induction 1 as [|b l Hs IH Hall]; intros Ha; cbn.
  - constructor; constructor.
  - inversion Ha; subst. constructor; [now apply IH|].
    apply Forall_app. split; [exact Hall | constructor; [assumption | constructor]].
Qed.

Lemma wave_iter (poly : polygon) (s : R) (st : V3.wave_state) (k : nat) :
  V3.current_lat (Nat.iter k (V3.wave_body poly s) st) = V3.current_lat st + INR k * s /\
  V3.going_east (Nat.iter k (V3.wave_body poly s) st) =
  (if Nat.even k then V3.going_east st else negb (V3.going_east st)).
Proof.
  induction k as [|k [IH1 IH2]].
  - cbn. split; [ring | reflexivity].
  - rewrite Nat.iter_succ. unfold V3.wave_body at 1 3.
    destruct (if (2 <=? _)%nat then _ else _) as [wps count].
    cbn [V3.current_lat V3.going_east]. rewrite IH1, IH2, S_INR. split; [ring|].
    rewrite Nat.even_succ, <- Nat.negb_even.
    destruct (Nat.even k), (V3.going_east st); reflexivity.
Qed.

Section WaveRows.

Variable poly : polygon.
Variable b : bounds.
Hypothesis poly_bounds : get_polygon_bounds poly = Ok b.
Variable s : R.
Hypothesis s_pos : 0 < s.

Lemma row_segment_le (K K' : nat) (g : segment) :
  (K <= K')%nat -> row_segment b s K g -> row_segment b s K' g.
Proof. intros H (k & Hk & Hrest). exists k. split; [lia | exact Hrest]. Qed.

Lemma segment_fold (K : nat) (east : bool) (idxs : list nat) :
  let lat := min_lat b + s / 2 + INR K * s in
  let ints := V3.find_polygon_intersections lat poly in
  east = Nat.even K ->
  lat <= max_lat b - s / 2 ->
  (forall i, In i idxs -> (i + 1 < length ints)%nat) ->
  forall wps count,
    rows_upto b s (S K) wps ->
    rows_upto b s (S K) (fst (fold_left (V3.segment_step s lat east ints) idxs (wps, count))).
Proof.
  intros lat ints Heast Hlat. induction idxs as [|i idxs IH]; intros Hidx wps count Hrows;
    [exact Hrows|].
  cbn [fold_left]. unfold V3.segment_step at 2.
  destruct (Rltb (s / 10) (Rabs (nth (i + 1) ints 0 - nth i ints 0))) eqn:E.
  2:{ apply IH; [intros j Hj; apply Hidx; now right | exact Hrows]. }
  apply Rltb_true in E.
  assert (Hi : (i + 1 < length ints)%nat) by (apply Hidx; now left).
  destruct (crossings_sorted lat poly) as [Hsorted _]. fold ints in Hsorted.
  assert (Hlt : nth i ints 0 < nth (i + 1) ints 0) by (apply sorted_nth_lt; [exact Hsorted | lia]).
  rewrite Rabs_right in E by lra.
  assert (Hb : forall j, (j < length ints)%nat -> min_lon b <= nth j ints 0 <= max_lon b).
  { intros j Hj. destruct (crossings_in_raw lat poly (nth j ints 0)) as (e & He & Hx);
      [apply nth_In; exact Hj|].
    apply (side_crossings_bounds lat poly b e _ poly_bounds He Hx). }
  set (g := {| seg_lat := lat; seg_left := nth i ints 0; seg_right := nth (i + 1) ints 0;
               seg_east := east |}).
  assert (Hg : row_segment b s (S K) g).
  { exists K. unfold g. cbn [seg_lat seg_left seg_right seg_east]. split; [lia|].
    split; [reflexivity|]. split; [exact Heast|]. split; [exact Hlat|].
    split; [apply Hb; lia|]. split; [lra | apply Hb; lia]. }
  apply IH; [intros j Hj; apply Hidx; now right|].
  destruct Hrows as (rows & -> & Hall & Hs).
  exists (rows ++ [g]). split; [|split].
  - rewrite flat_map_app. cbn [flat_map]. rewrite app_nil_r.
    unfold segment_waypoints, g. cbn [seg_lat seg_left seg_right seg_east].
    destruct east; reflexivity.
  - apply Forall_app. split; [exact Hall | constructor; [exact Hg | constructor]].
  - apply StronglySorted_snoc; [exact Hs|].
    rewrite Forall_forall in *. intros g' Hg'.
    destruct (Hall g' Hg') as (k & Hk & -> & _). unfold g. cbn [seg_lat]. unfold lat.
    assert (INR k <= INR K) by (apply le_INR; lia). nra.
Qed.

Lemma wave_body_rows (K : nat) (st : V3.wave_state) :
  V3.current_lat st = min_lat b + s / 2 + INR K * s ->
  V3.going_east st = Nat.even K ->
  V3.wave_guard s (max_lat b) st = true ->
  rows_upto b s K (V3.waypoints st) ->
  rows_upto b s (S K) (V3.waypoints (V3.wave_body poly s st)).
Proof.
  intros Hlat Heast Hguard Hrows. unfold V3.wave_guard in Hguard. apply Rleb_true in Hguard.
  assert (Hup : rows_upto b s (S K) (V3.waypoints st)).
  { destruct Hrows as (rows & E & Hall & Hs). exists rows. split; [exact E|].
    split; [|exact Hs]. eapply Forall_impl; [|exact Hall].
    intros g. apply row_segment_le. lia. }
  unfold V3.wave_body. rewrite Hlat, Heast.
  destruct (2 <=? length (V3.find_polygon_intersections _ poly))%nat eqn:E.
  - apply Nat.leb_le in E.
    pose proof (segment_fold K (Nat.even K)
                  (V3.range_by_two (length (V3.find_polygon_intersections
                                              (min_lat b + s / 2 + INR K * s) poly) - 1))
                  eq_refl ltac:(rewrite <- Hlat; exact Hguard)) as Hfold.
    cbv zeta in Hfold.
    specialize (Hfold ltac:(intros i Hi; apply range_by_two_in in Hi; lia)
                      (V3.waypoints st) (V3.line_count st) Hup).
    destruct (fold_left _ _ _) as [wps count]. exact Hfold.
  - exact Hup.
Qed.

Lemma wave_run (fuel : nat) (st' : V3.wave_state) :
  while_loop (V3.wave_guard s (max_lat b)) (V3.wave_body poly s) fuel
             {| V3.current_lat := min_lat b + s / 2; V3.going_east := true;
                V3.waypoints := []; V3.line_count := 0 |} = Ok st' ->
  exists K, rows_upto b s K (V3.waypoints st').
Proof.
  intros Hrun.
  destruct (while_loop_invariant
              (fun st => exists K, V3.current_lat st = min_lat b + s / 2 + INR K * s /\
                                   V3.going_east st = Nat.even K /\
                                   rows_upto b s K (V3.waypoints st))
              (V3.wave_guard s (max_lat b)) (V3.wave_body poly s) fuel) with (3 := Hrun)
    as (K & _ & _ & Hrows).
  - intros st (K & Hlat & Heast & Hrows) Hguard. exists (S K).
    split; [|split].
    + destruct (wave_iter poly s st 1) as [H1 _]. cbn [Nat.iter nat_rect] in H1.
      rewrite H1, Hlat. change (INR 1) with 1. rewrite S_INR. ring.
    + destruct (wave_iter poly s st 1) as [_ H2]. cbn [Nat.iter nat_rect] in H2.
      rewrite H2, Heast. change (Nat.even 1) with false. cbv iota.
      now rewrite Nat.even_succ, <- Nat.negb_even.
    + now apply wave_body_rows.
  - exists 0%nat. cbn [V3.current_lat V3.going_east V3.waypoints INR Nat.even].
    split; [ring|]. split; [reflexivity|].
    exists []. split; [reflexivity|]. split; constructor.
  - exists K. exact Hrows.
Qed.

Lemma wave_terminates (fuel : nat) :
  (sweep_iterations s (max_lat b - s / 2 - (min_lat b + s / 2)) < fuel)%nat ->
  exists st',
    while_loop (V3.wave_guard s (max_lat b)) (V3.wave_body poly s) fuel
               {| V3.current_lat := min_lat b + s / 2; V3.going_east := true;
                  V3.waypoints := []; V3.line_count := 0 |} = Ok st'.
Proof.
  intros Hfuel.
  destruct (sweep_iterations_spec s (max_lat b - s / 2 - (min_lat b + s / 2)) s_pos)
    as (Hlt & Hn & _).
  set (n := sweep_iterations s (max_lat b - s / 2 - (min_lat b + s / 2))) in *.
  eexists. apply while_loop_iter with (n := n); [| |exact Hfuel].
  - intros k Hk. unfold V3.wave_guard.
    rewrite (proj1 (wave_iter poly s _ k)). cbn [V3.current_lat].
    apply Rleb_true. specialize (Hlt k Hk). lra.
  - unfold V3.wave_guard.
    rewrite (proj1 (wave_iter poly s _ _)). cbn [V3.current_lat].
    apply Rleb_false. lra.
Qed.

End WaveRows.

Lemma square_wave_unfold (self : V3.converter) (fuel : nat) (poly : polygon) (b : bounds) :
  (3 <= length poly)%nat ->
  get_polygon_bounds (create_buffer_polygon (buffer_by (V3.buffer_distance self)) poly)
  = Ok b ->
  let s := if V3.auto_spacing (V3.camera_settings self)
           then calculate_optimal_spacing (V3.altitude self)
                                          (V3.sidelap_percent (V3.camera_settings self))
           else V3.spacing self in
  exists self',
    V3.spacing self' = s /\
    V3.generate_square_wave_lawnmower self fuel poly =
    (st <- while_loop (V3.wave_guard s (max_lat b))
                      (V3.wave_body
                         (create_buffer_polygon (buffer_by (V3.buffer_distance self)) poly) s)
                      fuel
                      {| V3.current_lat := min_lat b + s / 2; V3.going_east := true;
                         V3.waypoints := []; V3.line_count := 0 |} ;;
     Ok (self', V3.waypoints st)).
Proof.
  intros Hlen Hb s. unfold V3.generate_square_wave_lawnmower.
  destruct (Nat.ltb_spec (length poly) 3) as [H | _]; [lia|].
  rewrite Hb. cbn [bind]. unfold s.
  destruct (V3.auto_spacing (V3.camera_settings self)); eexists;
    (split; [|reflexivity]); reflexivity.
Qed.

(** X19: for a polygon with at least three vertices, with automatic
    spacing or a positive spacing, [generate_square_wave_lawnmower]
    returns once it has enough fuel.  Its waypoints are those of a list of
    segments in order of increasing latitude: a segment of row [k] lies at
    latitude [min_lat + s / 2 + k * s], which is at most
    [max_lat - s / 2]; its two longitudes lie within the bounding box of
    the buffered polygon and more than [s / 10] apart; and it is flown
    from west to east when [k] is even and from east to west when [k] is
    odd. *)
Theorem square_wave_rows (self : V3.converter) (poly : polygon) :
  (3 <= length poly)%nat ->
  V3.auto_spacing (V3.camera_settings self) = true \/ 0 < V3.spacing self ->
  exists n, forall fuel, (n < fuel)%nat ->
    exists self' b rows,
      get_polygon_bounds (create_buffer_polygon (buffer_by (V3.buffer_distance self)) poly)
      = Ok b /\
      V3.generate_square_wave_lawnmower self fuel poly =
      Ok (self', flat_map segment_waypoints rows) /\
      let s := V3.spacing self' in
      0 < s /\
      StronglySorted (fun g g' => seg_lat g <= seg_lat g') rows /\
      forall g, In g rows ->
        exists k : nat,
          seg_lat g = min_lat b + s / 2 + INR k * s /\
          seg_east g = Nat.even k /\
          seg_lat g <= max_lat b - s / 2 /\
          min_lon b <= seg_left g /\
          seg_left g + s / 10 < seg_right g /\
          seg_right g <= max_lon b.
Proof.
  intros Hlen Hsp.
  set (buffered := create_buffer_polygon (buffer_by (V3.buffer_distance self)) poly).
  destruct (get_polygon_bounds_ok buffered) as [b Hb].
  { apply buffered_nonempty. exact Hlen. }
  destruct (square_wave_unfold self 0 poly b Hlen Hb) as (self0 & Hs0 & _).
  cbv zeta in Hs0.
  set (s := V3.spacing self0) in *.
  assert (Hpos : 0 < s).
  { rewrite Hs0. destruct (V3.auto_spacing (V3.camera_settings self)).
    - pose proof (optimal_spacing_positive (V3.altitude self)
                                           (V3.sidelap_percent (V3.camera_settings self))).
      lra.
    - destruct Hsp as [Hsp | Hsp]; [discriminate | exact Hsp]. }
  exists (sweep_iterations s (max_lat b - s / 2 - (min_lat b + s / 2))).
  intros fuel Hfuel.
  destruct (square_wave_unfold self fuel poly b Hlen Hb) as (self' & Hs & Hrun).
  cbv zeta in Hs, Hrun. rewrite <- Hs0 in Hs, Hrun. fold buffered in Hrun.
  destruct (wave_terminates buffered b s Hpos fuel Hfuel) as [st' Hst].
  destruct (wave_run buffered b Hb s Hpos fuel st' Hst) as (K & rows & Hw & Hall & Hsorted).
  rewrite Hst in Hrun. cbn [bind] in Hrun. rewrite Hw in Hrun.
  exists self', b, rows. split; [exact Hb|]. split; [exact Hrun|].
  cbv zeta. rewrite Hs. split; [exact Hpos|]. split; [exact Hsorted|].
  intros g Hg. rewrite Forall_forall in Hall.
  destruct (Hall g Hg) as (k & _ & Hrest). exists k. exact Hrest.
Qed.

Lemma square_wave_rows_witness :
  exists n, forall fuel, (n < fuel)%nat ->
    exists self' rows,
      V3.generate_square_wave_lawnmower
        {| V3.altitude := 10; V3.spacing := 0.00005; V3.buffer_distance := 0;
           V3.camera_settings := {| V3.sidelap_percent := 60; V3.auto_spacing := false |} |}
        fuel unit_square = Ok (self', flat_map segment_waypoints rows).
Proof.
  destruct (square_wave_rows
              {| V3.altitude := 10; V3.spacing := 0.00005; V3.buffer_distance := 0;
                 V3.camera_settings := {| V3.sidelap_percent := 60;
                                          V3.auto_spacing := false |} |}
              unit_square) as [n Hn]; [cbn; lia | right; cbn; lra |].
  exists n. intros fuel Hfuel. destruct (Hn fuel Hfuel) as (self' & b & rows & _ & H & _).
  exists self', rows. exact H.
Defined.

(** X20: the spacing is never validated: with automatic spacing off
    and a spacing of zero or less, [generate_square_wave_lawnmower] never
    leaves its [while] loop on a polygon with at least three vertices,
    whatever the fuel. *)
Theorem square_wave_needs_positive_spacing (self : V3.converter) (poly : polygon)
        (fuel : nat) :
  (3 <= length poly)%nat ->
  V3.auto_spacing (V3.camera_settings self) = false ->
  V3.spacing self <= 0 ->
  V3.generate_square_wave_lawnmower self fuel poly = OutOfFuel.
Proof.
  intros Hlen Hauto Hsp.
  set (buffered := create_buffer_polygon (buffer_by (V3.buffer_distance self)) poly).
  assert (Hne : buffered <> []) by (apply buffered_nonempty; exact Hlen).
  destruct (get_polygon_bounds_ok buffered Hne) as [b Hb].
  destruct (square_wave_unfold self fuel poly b Hlen Hb) as (self' & _ & Hrun).
  cbv zeta in Hrun. rewrite Hauto in Hrun. fold buffered in Hrun. rewrite Hrun.
  rewrite while_loop_starved; [reflexivity|].
  intros k _. unfold V3.wave_guard. rewrite (proj1 (wave_iter _ _ _ k)).
  cbn [V3.current_lat]. apply Rleb_true.
  assert (Hbox : min_lat b <= max_lat b).
  { destruct buffered as [|p r]; [congruence|].
    pose proof (bounds_contain_vertices _ _ p Hb (or_introl eq_refl)). lra. }
  pose proof (pos_INR k). nra.
Qed.

Lemma square_wave_needs_positive_spacing_witness :
  V3.generate_square_wave_lawnmower
    {| V3.altitude := 10; V3.spacing := 0; V3.buffer_distance := 0;
       V3.camera_settings := {| V3.sidelap_percent := 60; V3.auto_spacing := false |} |}
    5 unit_square = OutOfFuel.
Proof.
  apply square_wave_needs_positive_spacing; [cbn; lia | reflexivity | cbn; lra].
Defined.

(** ** Ray casting *)

Lemma ray_step_ok (pt : point) (st : V3.ray_state) (p2 : point) :
  exists st', V3.ray_step pt st p2 = inr st' /\ V3.p1 st' = p2 /\
              (V3.inside st' = V3.inside st \/
               (Rmin (snd (V3.p1 st)) (snd p2) < snd pt <= Rmax (snd (V3.p1 st)) (snd p2) /\
                fst pt <= Rmax (fst (V3.p1 st)) (fst p2))).
Proof.
  unfold V3.ray_step. destruct pt as [lat lon]. destruct (V3.p1 st) as [p1lat p1lon].
  destruct p2 as [p2lat p2lon]. cbn [fst snd].
  assert (Hmin : (if Rltb p2lon p1lon then p2lon else p1lon) = Rmin p1lon p2lon).
  { cmp_cases; [rewrite Rmin_right | rewrite Rmin_left]; lra. }
  assert (Hmaxlon : (if Rltb p1lon p2lon then p2lon else p1lon) = Rmax p1lon p2lon).
  { cmp_cases; [rewrite Rmax_right | rewrite Rmax_left]; lra. }
  assert (Hmaxlat : (if Rltb p1lat p2lat then p2lat else p1lat) = Rmax p1lat p2lat).
  { cmp_cases; [rewrite Rmax_right | rewrite Rmax_left]; lra. }
  rewrite Hmin, Hmaxlon, Hmaxlat.
  destruct (Rltb (Rmin p1lon p2lon) lon) eqn:E1;
    [apply Rltb_true in E1 | eexists; split; [reflexivity | split; [reflexivity | now left]]].
  destruct (Rleb lon (Rmax p1lon p2lon)) eqn:E2;
    [apply Rleb_true in E2 | eexists; split; [reflexivity | split; [reflexivity | now left]]].
  destruct (Rleb lat (Rmax p1lat p2lat)) eqn:E3;
    [apply Rleb_true in E3 | eexists; split; [reflexivity | split; [reflexivity | now left]]].
  destruct (Reqb p1lon p2lon) eqn:E4.
  { exfalso. apply Reqb_true in E4. subst p2lon.
    rewrite Rmin_left in E1 by lra. rewrite Rmax_left in E2 by lra. lra. }
  destruct (Reqb p1lat p2lat);
    [eexists; split; [reflexivity | split; [reflexivity | right; auto]]|].
  destruct (Rleb lat _); eexists; (split; [reflexivity | split; [reflexivity | right; auto]]).
Qed.

Lemma ray_fold (pt : point) (poly : polygon) (b : bounds) (idxs : list nat)
      (st : V3.ray_state) :
  get_polygon_bounds poly = Ok b ->
  In (V3.p1 st) poly ->
  exists st',
    fold_left (fun acc i =>
                 match acc with
                 | inl e => inl e
                 | inr st => V3.ray_step pt st (nth (i mod length poly) poly origin)
                 end) idxs (inr st) = inr st' /\
    (snd pt <= min_lon b \/ max_lon b < snd pt \/ max_lat b < fst pt ->
     V3.inside st' = V3.inside st).
Proof.
  intros Hb. revert st. induction idxs as [|i idxs IH]; intros st Hp1.
  - exists st. split; [reflexivity | reflexivity].
  - cbn [fold_left].
    assert (Hne : poly <> []) by (intros ->; destruct Hp1).
    assert (Hin : In (nth (i mod length poly) poly origin) poly).
    { apply nth_In, Nat.mod_upper_bound. destruct poly; [congruence | discriminate]. }
    destruct (ray_step_ok pt st (nth (i mod length poly) poly origin))
      as (st1 & -> & Hp & Hin1).
    destruct (IH st1) as (st' & Hfold & Hsame); [rewrite Hp; exact Hin|].
    exists st'. split; [exact Hfold|].
    intros Hout. rewrite (Hsame Hout).
    destruct Hin1 as [E | [[H1 H2] H3]]; [exact E | exfalso].
    pose proof (bounds_contain_vertices _ _ _ Hb Hp1) as B1.
    pose proof (bounds_contain_vertices _ _ _ Hb Hin) as B2.
    revert H1 H2 H3. unfold Rmin, Rmax.
    repeat match goal with |- context [Rle_dec ?x ?y] => destruct (Rle_dec x y) end;
      intros; lra.
Qed.

(** X21: [point_in_polygon] raises [IndexError] exactly on the empty
    polygon and never reads [xinters] before it has been assigned, so on
    every other polygon it returns a boolean; the answer is [False] for a
    point whose longitude is at most the smallest or above the largest
    longitude of the polygon, and for a point whose latitude is above the
    largest latitude. *)
Theorem point_in_polygon_safe (pt : point) (poly : polygon) :
  match poly with
  | [] => V3.point_in_polygon pt poly = inl V3.RayIndexError
  | _ :: _ =>
    exists answer b,
      V3.point_in_polygon pt poly = inr answer /\
      get_polygon_bounds poly = Ok b /\
      (snd pt <= min_lon b \/ max_lon b < snd pt \/ max_lat b < fst pt -> answer = false)
  end.
Proof.
  destruct poly as [|p0 rest]; [reflexivity|].
  destruct (get_polygon_bounds_ok (p0 :: rest)) as [b Hb]; [discriminate|].
  destruct (ray_fold pt (p0 :: rest) b (seq 1 (length (p0 :: rest)))
                     {| V3.inside := false; V3.xinters := None; V3.p1 := p0 |} Hb)
    as (st' & Hfold & Hsame); [now left|].
  exists (V3.inside st'), b. split; [|split; [exact Hb | exact Hsame]].
  unfold V3.point_in_polygon. rewrite Hfold. reflexivity.
Qed.


(** * Further properties of the sweep and the buffer *)

Lemma fold_plus_bounds (lo hi : R) (l : list R) (a : R) :
  (forall x, In x l -> lo <= x <= hi) ->
  a + INR (length l) * lo <= fold_left Rplus l a <= a + INR (length l) * hi.
Proof.
  revert a. induction l as [|x l IH]; intros a H.
  - cbn. lra.
  - cbn [fold_left]. change (length (x :: l)) with (S (length l)). rewrite S_INR.
    specialize (IH (a + x) ltac:(intros y Hy; apply H; now right)).
    pose proof (H x (or_introl eq_refl)). lra.
Qed.

Lemma centroid_within_bounds (poly : polygon) (b : bounds) :
  get_polygon_bounds poly = Ok b ->
  min_lat b <= fst (centroid poly) <= max_lat b /\
  min_lon b <= snd (centroid poly) <= max_lon b.
Proof.
  intros Hb.
  assert (Hne : poly <> []) by (intros ->; discriminate).
  assert (Hn : 0 < INR (length poly)).
  { apply lt_0_INR. destruct poly; [congruence | cbn; lia]. }
  assert (Hmean : forall (f : point -> R) lo hi,
             (forall p, In p poly -> lo <= f p <= hi) ->
             lo <= py_sum (map f poly) / INR (length poly) <= hi).
  { intros f lo hi H. unfold py_sum.
    pose proof (fold_plus_bounds lo hi (map f poly) 0) as B.
    rewrite length_map in B.
    specialize (B ltac:(intros x Hx; apply in_map_iff in Hx as (p & <- & Hp); now apply H)).
    split.
    - apply Rmult_le_reg_r with (INR (length poly)); [exact Hn|].
      unfold Rdiv. rewrite Rmult_assoc, Rinv_l by lra. lra.
    - apply Rmult_le_reg_r with (INR (length poly)); [exact Hn|].
      unfold Rdiv. rewrite Rmult_assoc, Rinv_l by lra. lra. }
  unfold centroid. cbn [fst snd]. split; apply Hmean; intros p Hp;
    apply (bounds_contain_vertices _ _ _ Hb Hp).
Qed.

(** X22: the arithmetic-mean centre used by [create_buffer_polygon]
    lies within the bounding box of the polygon, and as long as the
    buffer distance is non-negative and no larger than the distance of
    any vertex from that centre (vertices at the centre aside), every
    vertex of the buffered polygon lies within the bounding box of the
    original polygon. *)
Theorem buffered_polygon_within_bounds (self : converter) (poly : polygon) (b : bounds) :
  (3 <= length poly)%nat ->
  get_polygon_bounds poly = Ok b ->
  0 <= buffer_distance self ->
  (forall v, In v poly ->
             planar_distance v (centroid poly) <= 0 \/
             buffer_distance self <= planar_distance v (centroid poly)) ->
  (min_lat b <= fst (centroid poly) <= max_lat b /\
   min_lon b <= snd (centroid poly) <= max_lon b) /\
  forall v', In v' (create_buffer_polygon self poly) ->
             min_lat b <= fst v' <= max_lat b /\ min_lon b <= snd v' <= max_lon b.
Proof.
  intros Hlen Hb Hd Hfar.
  pose proof (centroid_within_bounds poly b Hb) as Hc. split; [exact Hc|].
  intros v' Hv'. rewrite create_buffer_polygon_map in Hv' by exact Hlen.
  apply in_map_iff in Hv' as (v & <- & Hv).
  pose proof (bounds_contain_vertices _ _ _ Hb Hv) as Bv.
  destruct (Hfar v Hv) as [Hz | Hr].
  - rewrite buffer_vertex_at_center by exact Hz. exact Bv.
  - assert (Hpos : 0 <= planar_distance v (centroid poly)) by apply sqrt_pos.
    destruct (Rle_lt_or_eq_dec _ _ Hpos) as [Hlt | Heq].
    + rewrite buffer_vertex_far by exact Hlt. unfold line_point. cbn [fst snd].
      assert (Ht : 0 <= buffer_distance self / planar_distance v (centroid poly) <= 1).
      { split.
        - apply Rmult_le_pos; [exact Hd|]. left. now apply Rinv_0_lt_compat.
        - apply Rmult_le_reg_r with (planar_distance v (centroid poly)); [exact Hlt|].
          unfold Rdiv. rewrite Rmult_assoc, Rinv_l by lra. lra. }
      split; apply between_convex; tauto.
    + rewrite buffer_vertex_at_center by lra. exact Bv.
Qed.

Lemma buffered_polygon_within_bounds_witness :
  (0 <= fst (centroid unit_square) <= 1 /\ 0 <= snd (centroid unit_square) <= 1) /\
  Forall (fun v' => 0 <= fst v' <= 1 /\ 0 <= snd v' <= 1)
         (create_buffer_polygon (buffer_by 0) unit_square).
Proof.
  destruct (buffered_polygon_within_bounds (buffer_by 0) unit_square unit_bounds)
    as [Hc Hall].
  - cbn. lia.
  - apply unit_square_bounds.
  - cbn. lra.
  - intros v _. right. cbn [buffer_by buffer_distance]. apply sqrt_pos.
  - split; [exact Hc|]. apply Forall_forall. exact Hall.
Defined.

(** X23: neither pipeline validates the spacing: with a spacing of zero
    or less the offset of the sweep never passes [max_extend], so on a
    polygon with at least three vertices neither the v8 nor the v7
    [generate_parallel_lines_to_longest_side] leaves its first [while]
    loop, whatever the fuel. *)
Theorem nonpositive_spacing_never_returns (self : converter) (poly : polygon) (fuel : nat) :
  (3 <= length poly)%nat ->
  spacing self <= 0 ->
  generate_parallel_lines_to_longest_side self fuel poly = OutOfFuel /\
  V7.generate_parallel_lines_to_longest_side self fuel poly = OutOfFuel.
Proof.
  intros Hlen Hsp.
  pose proof (buffered_nonempty self poly Hlen) as Hne.
  destruct (prepare_sweep_ok self (create_buffer_polygon self poly) Hne)
    as (loc & Hloc & Hs & Hext).
  assert (Hguard : forall k, INR k * (spacing self * 111000) <= loc_max_extend loc).
  { intros k. pose proof (pos_INR k). nra. }
  split.
  - rewrite (generate_unfold self poly loc fuel Hlen Hloc).
    unfold collect_lines, sweep. cbn [fold_left bind].
    rewrite sweep_while_starved; [reflexivity|].
    intros k _. rewrite guard_iter. apply Rleb_true. rewrite Hs. apply Hguard.
  - unfold V7.generate_parallel_lines_to_longest_side.
    destruct (Nat.ltb_spec (length poly) 3) as [H | _]; [lia|].
    unfold prepare_sweep in Hloc.
    destruct (find_longest_side_with_bearing (create_buffer_polygon self poly))
      as [side| |]; try discriminate.
    cbn [bind] in Hloc |- *.
    destruct (find_polygon_corners (create_buffer_polygon self poly))
      as [crn| |]; try discriminate.
    cbn [bind] in Hloc.
    destruct (get_polygon_bounds (create_buffer_polygon self poly))
      as [b| |]; try discriminate.
    cbn [bind] in Hloc |- *. injection Hloc as <-.
    cbn [loc_max_extend loc_spacing_meters] in *.
    unfold V7.sweep. cbn [fold_left bind].
    rewrite while_loop_starved; [reflexivity|].
    intros k _.
    destruct (v7_iter_sweep_body ((min_lat b + max_lat b) / 2) ((min_lon b + max_lon b) / 2)
                                 (fmod (best_bearing side + 90) 360) (best_bearing side)
                                 (create_buffer_polygon self poly) (spacing self * 111000)
                                 (-1) [] 0%nat k) as (w' & c' & -> & _).
    unfold V7.sweep_guard. cbn [fst]. apply Rleb_true. apply Hguard.
Qed.

Lemma nonpositive_spacing_never_returns_witness :
  generate_parallel_lines_to_longest_side (spaced_by (-1)) 5 unit_square = OutOfFuel /\
  V7.generate_parallel_lines_to_longest_side (spaced_by (-1)) 5 unit_square = OutOfFuel.
Proof.
  apply nonpositive_spacing_never_returns; [cbn; lia | cbn; lra].
Defined.

(** * Degenerate runs, retained lines and the line count *)

(** ** An upper bound on the haversine distance *)

Lemma sin_sq_add (a b : R) :
  0 <= a -> 0 <= b -> a + b <= PI / 2 ->
  (sin a) ^ 2 + (sin b) ^ 2 <= (sin (a + b)) ^ 2.
Proof.
  intros Ha Hb Hab. pose proof PI_RGT_0 as Hpi.
  assert (Hsa : 0 <= sin a) by (apply sin_ge_0; lra).
  assert (Hsb : 0 <= sin b) by (apply sin_ge_0; lra).
  assert (Hc : 0 <= cos (a + b)) by (apply cos_ge_0; lra).
  assert (Hprod : 0 <= sin a * sin b * cos (a + b))
    by (apply Rmult_le_pos; [apply Rmult_le_pos|]; assumption).
  rewrite cos_plus in Hprod. rewrite sin_plus.
  pose proof (sin2_cos2 a) as E1. pose proof (sin2_cos2 b) as E2.
  unfold Rsqr in E1, E2.
  replace ((sin a * cos b + cos a * sin b) ^ 2)
    with ((sin a) ^ 2 * (cos b * cos b) + (sin b) ^ 2 * (cos a * cos a)
          + 2 * (sin a * sin b * (cos a * cos b))) by ring.
  replace (cos b * cos b) with (1 - sin b * sin b) by lra.
  replace (cos a * cos a) with (1 - sin a * sin a) by lra.
  nra.
Qed.

Lemma sin_sq_abs (x : R) : (sin (Rabs x)) ^ 2 = (sin x) ^ 2.
Proof.
  unfold Rabs. destruct (Rcase_abs x); [|reflexivity].
  rewrite sin_neg. ring.
Qed.

(** The distance between two points is at most the distance along a
    meridian and then along the equator over the same differences of
    latitude and longitude. *)
Lemma distance_taxicab (lat1 lon1 lat2 lon2 : R) :
  Rabs (lat2 - lat1) + Rabs (lon2 - lon1) <= 180 ->
  calculate_distance (lat1, lon1) (lat2, lon2)
  <= earth_radius * radians (Rabs (lat2 - lat1) + Rabs (lon2 - lon1)).
Proof.
  intros Hsum. pose proof PI_RGT_0 as Hpi.
  pose proof (Rabs_pos (lat2 - lat1)) as Hd1. pose proof (Rabs_pos (lon2 - lon1)) as Hd2.
  set (x := radians (Rabs (lat2 - lat1) + Rabs (lon2 - lon1)) / 2).
  assert (Hx : 0 <= x <= PI / 2).
  { unfold x, radians. split; [nra|]. nra. }
  assert (Ha : haversine_a (lat1, lon1) (lat2, lon2) <= (sin x) ^ 2).
  { unfold haversine_a.
    pose proof (sin_sq_range (radians (lon2 - lon1) / 2)) as [Hs0 Hs1].
    pose proof (COS_bound (radians lat1)) as [Hc1 Hc1'].
    pose proof (COS_bound (radians lat2)) as [Hc2 Hc2'].
    assert (Hcc : cos (radians lat1) * cos (radians lat2) <= 1) by nra.
    assert (Hle : cos (radians lat1) * cos (radians lat2) * sin (radians (lon2 - lon1) / 2) ^ 2
                  <= sin (radians (lon2 - lon1) / 2) ^ 2) by nra.
    rewrite <- (sin_sq_abs (radians (lat2 - lat1) / 2)).
    assert (Hs2 := sin_sq_abs (radians (lon2 - lon1) / 2)).
    assert (E1 : Rabs (radians (lat2 - lat1) / 2) = radians (Rabs (lat2 - lat1)) / 2).
    { unfold radians, Rabs. destruct (Rcase_abs (lat2 - lat1));
        destruct (Rcase_abs ((lat2 - lat1) * PI / 180 / 2)); nra. }
    assert (E2 : Rabs (radians (lon2 - lon1) / 2) = radians (Rabs (lon2 - lon1)) / 2).
    { unfold radians, Rabs. destruct (Rcase_abs (lon2 - lon1));
        destruct (Rcase_abs ((lon2 - lon1) * PI / 180 / 2)); nra. }
    rewrite E1. rewrite E2 in Hs2.
    assert (Hadd := sin_sq_add (radians (Rabs (lat2 - lat1)) / 2)
                               (radians (Rabs (lon2 - lon1)) / 2)).
    replace (radians (Rabs (lat2 - lat1)) / 2 + radians (Rabs (lon2 - lon1)) / 2)
      with x in Hadd by (unfold x, radians; field).
    assert (H1 : 0 <= radians (Rabs (lat2 - lat1)) / 2) by (unfold radians; nra).
    assert (H2 : 0 <= radians (Rabs (lon2 - lon1)) / 2) by (unfold radians; nra).
    specialize (Hadd H1 H2 (proj2 Hx)). lra. }
  unfold calculate_distance.
  pose proof (haversine_angle_mono _ _ (proj1 (haversine_a_range (lat1, lon1) (lat2, lon2)))
                                   Ha (proj2 (sin_sq_range x))) as Hm.
  rewrite (half_angle_atan2 x Hx) in Hm.
  unfold earth_radius. fold x.
  replace (radians (Rabs (lat2 - lat1) + Rabs (lon2 - lon1))) with (2 * x)
    by (unfold x; field).
  nra.
Qed.

(** ** Runs that probe the centre line only *)

Lemma sweep_iterations_single (s max_extend : R) :
  0 <= max_extend < s -> sweep_iterations s max_extend = 1%nat.
Proof.
  intros [H0 Hs]. unfold sweep_iterations.
  rewrite (proj2 (Rltb_false max_extend 0)) by lra.
  assert (Hq : 0 <= max_extend / s < 1).
  { split; [apply Rmult_le_pos; [lra | left; apply Rinv_0_lt_compat; lra]|].
    apply (Rmult_lt_reg_r s); [lra|]. unfold Rdiv. rewrite Rmult_assoc, Rinv_l by lra. lra. }
  assert (E : Int_part (max_extend / s) = 0%Z).
  { symmetry. apply Int_part_spec. simpl. lra. }
  rewrite E. reflexivity.
Qed.

Lemma swept_lines_back_single (clat clon perp bearing : R) (poly : polygon) (s : R) :
  swept_lines clat clon perp bearing poly s (-1) 1 = [].
Proof.
  unfold swept_lines. cbn [seq flat_map INR].
  rewrite (proj2 (Reqb_true (0 * s) 0)) by ring.
  rewrite (proj2 (Reqb_true (-1) (-1))) by reflexivity. reflexivity.
Qed.

Lemma swept_lines_forth_single (clat clon perp bearing : R) (poly : polygon) (s : R) :
  swept_lines clat clon perp bearing poly s 1 1 = scan_line_at clat clon perp bearing poly 0.
Proof.
  unfold swept_lines. cbn [seq flat_map INR].
  rewrite (proj2 (Reqb_false 1 (-1))) by lra.
  rewrite andb_false_r, app_nil_r.
  replace (0 * s * 1) with 0 by ring. reflexivity.
Qed.

Lemma swept_lines_centre_kept (clat clon perp bearing : R) (poly : polygon) (s : R)
      (n : nat) :
  (0 < n)%nat ->
  (2 <= length (probe_hits clat clon perp bearing poly 0))%nat ->
  (1 <= length (swept_lines clat clon perp bearing poly s 1 n))%nat.
Proof.
  intros Hn Hkept. destruct n as [|n]; [lia|].
  unfold swept_lines. cbn [seq flat_map INR]. rewrite length_app.
  rewrite (proj2 (Reqb_false 1 (-1))) by lra. rewrite andb_false_r.
  replace (0 * s * 1) with 0 by ring.
  rewrite scan_line_at_length. apply Nat.leb_le in Hkept. rewrite Hkept. simpl. lia.
Qed.

Lemma py_sort_short {A : Type} (key : A -> R) (l : list A) :
  (length l <= 1)%nat -> py_sort key l = l.
Proof.
  destruct l as [|x [|y l]]; simpl; intros H; try reflexivity. lia.
Qed.

(** A run whose spacing in metres exceeds the sweep radius probes the
    centre line and nothing else. *)
Lemma centre_only_run (self : converter) (poly : polygon) (loc : survey_locals)
      (fuel : nat) :
  (3 <= length poly)%nat ->
  prepare_sweep self (create_buffer_polygon self poly) = Ok loc ->
  0 <= loc_max_extend loc < loc_spacing_meters loc ->
  (1 < fuel)%nat ->
  let centre := scan_line_at (loc_center_lat loc) (loc_center_lon loc)
                             (loc_perp_bearing loc) (loc_bearing loc)
                             (create_buffer_polygon self poly) 0 in
  collect_lines loc fuel (create_buffer_polygon self poly) = Ok centre /\
  generate_parallel_lines_to_longest_side self fuel poly =
  Ok (optimize_line_ordering_for_corners self centre (loc_corners loc) (loc_bearing loc)).
Proof.
  intros Hlen Hloc HM Hfuel centre.
  assert (Hcol : collect_lines loc fuel (create_buffer_polygon self poly) = Ok centre).
  { unfold collect_lines.
    rewrite sweep_runs by (rewrite ?sweep_iterations_single by exact HM; lra || lia).
    rewrite sweep_iterations_single by exact HM.
    rewrite swept_lines_back_single, swept_lines_forth_single. cbn [app bind].
    fold centre. rewrite py_sort_short; [reflexivity|].
    unfold centre. rewrite scan_line_at_length.
    destruct (2 <=? _)%nat; lia. }
  split; [exact Hcol|].
  rewrite (generate_unfold self poly loc fuel Hlen Hloc), Hcol. reflexivity.
Qed.

(** A run whose centre line is retained returns at least its two
    endpoints, whatever the positive spacing. *)
Lemma centre_kept_run (self : converter) (poly : polygon) (loc : survey_locals)
      (fuel : nat) :
  (3 <= length poly)%nat ->
  prepare_sweep self (create_buffer_polygon self poly) = Ok loc ->
  0 < loc_spacing_meters loc -> 0 <= loc_max_extend loc ->
  (2 <= length (probe_hits (loc_center_lat loc) (loc_center_lon loc)
                           (loc_perp_bearing loc) (loc_bearing loc)
                           (create_buffer_polygon self poly) 0))%nat ->
  (sweep_iterations (loc_spacing_meters loc) (loc_max_extend loc) < fuel)%nat ->
  exists w, generate_parallel_lines_to_longest_side self fuel poly = Ok w /\
            (2 <= length w)%nat.
Proof.
  intros Hlen Hloc Hs HM Hkept Hfuel.
  rewrite (generate_unfold self poly loc fuel Hlen Hloc).
  unfold collect_lines. rewrite sweep_runs by assumption. cbn [bind].
  eexists. split; [reflexivity|].
  rewrite optimize_length, py_sort_length, length_app.
  assert (Hn : (0 < sweep_iterations (loc_spacing_meters loc) (loc_max_extend loc))%nat).
  { unfold sweep_iterations. rewrite (proj2 (Rltb_false _ 0)) by lra. lia. }
  pose proof (swept_lines_centre_kept (loc_center_lat loc) (loc_center_lon loc)
                (loc_perp_bearing loc) (loc_bearing loc)
                (create_buffer_polygon self poly) (loc_spacing_meters loc) _ Hn Hkept).
  lia.
Qed.

(** C9 (amended): a polygon with fewer than 3 vertices gives the empty
    path at once.  For a polygon with at least 3 vertices and a positive
    spacing the run raises nothing, and: [a] if no probed line has 2 or
    more intersections the path is empty; [b] if the centre line (signed
    offset 0, which every run probes) has 2 or more intersections the
    path has at least 2 waypoints, whatever the spacing; [c] if the
    spacing in metres exceeds the sweep radius [max_extend], the centre
    line is the only line probed and the path has 2 waypoints when that
    line is retained and none otherwise.  The probed lines of a run are
    those at the signed offsets [k * spacing_meters * direction] with
    [k * spacing_meters <= max_extend]. *)
Theorem degenerate_inputs_give_empty_path (self : converter) (poly : polygon) :
  ((length poly < 3)%nat ->
   forall fuel, generate_parallel_lines_to_longest_side self fuel poly = Ok []) /\
  ((3 <= length poly)%nat -> 0 < spacing self ->
   let buffered := create_buffer_polygon self poly in
   exists loc,
     prepare_sweep self buffered = Ok loc /\
     let hits := probe_hits (loc_center_lat loc) (loc_center_lon loc)
                            (loc_perp_bearing loc) (loc_bearing loc) buffered in
     ((forall (k : nat) (direction : R),
          direction = -1 \/ direction = 1 ->
          INR k * loc_spacing_meters loc <= loc_max_extend loc ->
          (length (hits (INR k * loc_spacing_meters loc * direction)%R) < 2)%nat) ->
      exists n, forall fuel,
          (n < fuel)%nat ->
          generate_parallel_lines_to_longest_side self fuel poly = Ok []) /\
     ((2 <= length (hits 0%R))%nat ->
      exists n, forall fuel,
          (n < fuel)%nat ->
          exists w, generate_parallel_lines_to_longest_side self fuel poly = Ok w /\
                    (2 <= length w)%nat) /\
     (loc_max_extend loc < loc_spacing_meters loc ->
      forall fuel,
        (1 < fuel)%nat ->
        collect_lines loc fuel buffered =
        Ok (scan_line_at (loc_center_lat loc) (loc_center_lon loc)
                         (loc_perp_bearing loc) (loc_bearing loc) buffered 0) /\
        exists w, generate_parallel_lines_to_longest_side self fuel poly = Ok w /\
                  length w = if (2 <=? length (hits 0%R))%nat then 2%nat else 0%nat)).
Proof.
  split.
  - intros Hlen fuel. unfold generate_parallel_lines_to_longest_side.
    apply Nat.ltb_lt in Hlen. now rewrite Hlen.
  - intros Hlen Hpos buffered.
    destruct (prepare_sweep_ok self buffered (buffered_nonempty self poly Hlen))
      as (loc & Hloc & Hs & HM).
    assert (Hs' : 0 < loc_spacing_meters loc) by (rewrite Hs; lra).
    exists loc. split; [exact Hloc|]. intros hits. split; [|split].
    + intros Hnone.
      exists (sweep_iterations (loc_spacing_meters loc) (loc_max_extend loc)).
      intros fuel Hfuel.
      apply (run_without_hits self poly loc fuel Hlen); assumption.
    + intros Hkept.
      exists (sweep_iterations (loc_spacing_meters loc) (loc_max_extend loc)).
      intros fuel Hfuel.
      apply (centre_kept_run self poly loc fuel Hlen); assumption.
    + intros Hwide fuel Hfuel.
      destruct (centre_only_run self poly loc fuel Hlen Hloc (conj HM Hwide) Hfuel)
        as [Hcol Hgen].
      split; [exact Hcol|]. eexists. split; [exact Hgen|].
      rewrite optimize_length, scan_line_at_length.
      fold buffered. fold hits. destruct (2 <=? length (hits 0%R))%nat; reflexivity.
Qed.

Lemma degenerate_inputs_give_empty_path_witness :
  (3 <= length collapsed_triangle)%nat /\
  0 < spacing (buffer_by 0) /\
  exists n, forall fuel,
      (n < fuel)%nat ->
      generate_parallel_lines_to_longest_side (buffer_by 0) fuel collapsed_triangle = Ok [].
Proof.
  assert (H : (3 <= length collapsed_triangle)%nat) by (simpl; lia).
  assert (Hs : 0 < spacing (buffer_by 0)) by (simpl; lra).
  split; [exact H|]. split; [exact Hs|].
  destruct (proj2 (degenerate_inputs_give_empty_path (buffer_by 0) collapsed_triangle) H Hs)
    as (loc & _ & Hrun & _).
  apply Hrun. intros k direction _ _. rewrite collapsed_buffered.
  apply collapsed_never_hit.
Defined.

Lemma wide_triangle_reach : 1e-10 <= probe_reach * 2.
Proof. pose proof probe_reach_bounds. lra. Qed.

(** C9 (as stated) fails: for the triangle with vertices (-1, 0), (1, 0)
    and (0, 1) and no buffer, a spacing of 4 degrees is at least the
    extent of the polygon in latitude and in longitude, and in metres it
    is at least the diagonal of the bounding box; yet the run returns the
    two endpoints of the centre line and not the empty path. *)
Lemma spacing_beyond_extent_counterexample :
  (3 <= length (meridian_triangle 2))%nat /\
  0 < spacing (spaced_by 4) /\
  (exists b,
      get_polygon_bounds (create_buffer_polygon (spaced_by 4) (meridian_triangle 2)) = Ok b /\
      max_lat b - min_lat b <= spacing (spaced_by 4) /\
      max_lon b - min_lon b <= spacing (spaced_by 4) /\
      calculate_distance (min_lat b, min_lon b) (max_lat b, max_lon b)
      <= spacing (spaced_by 4) * 111000) /\
  forall fuel,
    (1 < fuel)%nat ->
    exists w, generate_parallel_lines_to_longest_side (spaced_by 4) fuel (meridian_triangle 2)
              = Ok w /\
              length w = 2%nat /\ w <> [].
Proof.
  assert (HL : 0 < 2) by lra. assert (HL' : 2 <= 90) by lra.
  assert (Hlen : (3 <= length (meridian_triangle 2))%nat) by (simpl; lia).
  pose proof PI_bounds as Hpi.
  assert (Hdiag : calculate_distance (- (2 / 2), 0) (2 / 2, 2 / 2) <= 4 * 111000).
  { pose proof (distance_taxicab (- (2 / 2)) 0 (2 / 2) (2 / 2)) as H.
    replace (2 / 2 - - (2 / 2)) with 2 in H by field.
    replace (2 / 2 - 0) with 1 in H by field.
    rewrite !Rabs_right in H by lra.
    unfold earth_radius, radians in H. specialize (H ltac:(lra)). nra. }
  split; [exact Hlen|]. split; [simpl; lra|]. split.
  { rewrite create_buffer_polygon_zero by reflexivity.
    rewrite (triangle_bounds 2 HL). eexists. split; [reflexivity|].
    cbn [max_lat min_lat max_lon min_lon spacing spaced_by].
    split; [lra|]. split; [lra | exact Hdiag]. }
  intros fuel Hfuel.
  destruct (triangle_locals 2 HL HL' (spaced_by 4))
    as (loc & Hloc & Hb & Hp & Hclat & Hclon & Hs & HM).
  cbn [spacing spaced_by] in Hs.
  assert (Hloc' : prepare_sweep (spaced_by 4)
                                (create_buffer_polygon (spaced_by 4) (meridian_triangle 2))
                  = Ok loc)
    by (rewrite create_buffer_polygon_zero by reflexivity; exact Hloc).
  assert (Hext : 0 <= loc_max_extend loc < loc_spacing_meters loc).
  { rewrite HM, Hs. split; [|lra].
    pose proof (triangle_extent 2 HL HL') as H. unfold earth_radius, radians in H. nra. }
  destruct (centre_only_run (spaced_by 4) (meridian_triangle 2) loc fuel Hlen Hloc' Hext Hfuel)
    as [_ Hgen].
  eexists. split; [exact Hgen|].
  assert (Hw : length (optimize_line_ordering_for_corners
                         (spaced_by 4)
                         (scan_line_at (loc_center_lat loc) (loc_center_lon loc)
                                       (loc_perp_bearing loc) (loc_bearing loc)
                                       (create_buffer_polygon (spaced_by 4)
                                                              (meridian_triangle 2)) 0)
                         (loc_corners loc) (loc_bearing loc)) = 2%nat).
  { rewrite optimize_length, scan_line_at_length.
    rewrite create_buffer_polygon_zero by reflexivity.
    rewrite Hb, Hp, Hclat, Hclon.
    assert (H0 : 0 / earth_radius = 0) by (unfold earth_radius; field).
    rewrite (triangle_probe_kept 2 HL wide_triangle_reach 0);
      rewrite ?H0, ?degrees_0; try lra. reflexivity. }
  split; [exact Hw|]. intros E. rewrite E in Hw. discriminate.
Qed.

(** ** Probe lines along a meridian *)

Lemma line_intersection_meridian (a b lam : R) (p3 p4 : point) :
  line_intersection (a, lam) (b, lam) p3 p4 = meridian_crossing (a - b) lam p3 p4.
Proof.
  destruct p3 as [x3 y3], p4 as [x4 y4].
  unfold line_intersection, meridian_crossing, intersection_denom. cbn [fst snd].
  replace ((a - b) * (y3 - y4) - (lam - lam) * (x3 - x4)) with ((a - b) * (y3 - y4)) by ring.
  destruct (Rltb (Rabs ((a - b) * (y3 - y4))) 1e-10) eqn:Hd; [reflexivity|].
  apply Rltb_false in Hd.
  assert (Hne : (a - b) * (y3 - y4) <> 0).
  { intro H0. rewrite H0, Rabs_R0 in Hd. lra. }
  assert (Hab : a - b <> 0) by (intro H0; apply Hne; rewrite H0; ring).
  assert (Hy : y4 - y3 <> 0) by (intro H0; apply Hne; replace (y3 - y4) with (- (y4 - y3)) by ring; rewrite H0; ring).
  assert (Hu : intersection_u (a, lam) (b, lam) (x3, y3) (x4, y4) = (lam - y3) / (y4 - y3)).
  { unfold intersection_u, intersection_denom. field; repeat split; lra. }
  rewrite Hu.
  destruct (Rleb 0 ((lam - y3) / (y4 - y3)) && Rleb ((lam - y3) / (y4 - y3)) 1);
    [|reflexivity].
  unfold intersection_t, intersection_denom. do 2 f_equal; field; repeat split; lra.
Qed.

(** The clip of a probe along a meridian depends on its longitude and
    on the difference of the latitudes of its ends only. *)
Lemma edge_hits_meridian (a b a' b' lam : R) (poly : polygon) :
  a - b = a' - b' ->
  edge_hits (a, lam) (b, lam) poly = edge_hits (a', lam) (b', lam) poly.
Proof.
  intros E. rewrite !edge_hits_flat_map. apply flat_map_ext. intros i.
  unfold side_hit. now rewrite !line_intersection_meridian, E.
Qed.

Lemma in_edge_hits (ls le : point) (poly : polygon) (i : nat) (q : point) :
  (i < length poly)%nat ->
  line_intersection ls le (fst (side_at poly i)) (snd (side_at poly i)) = Some q ->
  In q (edge_hits ls le poly).
Proof.
  intros Hi Hq. rewrite edge_hits_flat_map. apply in_flat_map.
  exists i. split; [apply in_seq; lia|]. unfold side_hit. rewrite Hq. now left.
Qed.

(** ** Deduplication keeps a second point exactly when some point is not
    within the tolerance of the first *)

Lemma remove_duplicates_cons (f : point) (l : list point) :
  exists rest, remove_duplicates (f :: l) = f :: rest.
Proof.
  unfold remove_duplicates. cbn [fold_left is_duplicate existsb app].
  destruct (remove_duplicates_fold l [f]) as (_ & _ & _ & rest & ->).
  exists rest. reflexivity.
Qed.

Lemma remove_duplicates_two (l : list point) :
  (2 <= length (remove_duplicates l))%nat <->
  exists q, In q l /\ ~ near_duplicate q (nth 0 l origin).
Proof.
  destruct l as [|f l].
  - unfold remove_duplicates; simpl. split; [lia | intros (q & [] & _)].
  - cbn [nth]. destruct (remove_duplicates_cons f l) as (rest & E).
    pose proof (remove_duplicates_distinct (f :: l)) as Hd. rewrite E in Hd.
    split.
    + intros Hlen. rewrite E in Hlen. destruct rest as [|r rest]; [simpl in Hlen; lia|].
      exists r. split.
      * apply remove_duplicates_incl. rewrite E. right; now left.
      * inversion Hd as [|? ? Hf _]; subst. now inversion Hf.
    + intros (q & Hq & Hnear).
      destruct (remove_duplicates_fold (f :: l) []) as (_ & Hcov & _ & _).
      destruct (Hcov q (or_intror Hq)) as (r & Hr & Hqr).
      fold (remove_duplicates (f :: l)) in Hr. rewrite E in Hr |- *.
      destruct Hr as [<- | Hr]; [contradiction|].
      destruct rest; [destruct Hr | simpl; lia].
Qed.

Lemma meridian_crossing_parallel (c lam : R) (p3 p4 : point) :
  snd p3 = snd p4 -> meridian_crossing c lam p3 p4 = None.
Proof.
  intros E. unfold meridian_crossing. rewrite E.
  replace (c * (snd p4 - snd p4)) with 0 by ring. rewrite Rabs_R0.
  now rewrite (proj2 (Rltb_true 0 1e-10)) by lra.
Qed.

Lemma meridian_crossing_hit (c lam : R) (p3 p4 : point) :
  1e-10 <= Rabs c * Rabs (snd p3 - snd p4) ->
  snd p3 <= lam <= snd p4 \/ snd p4 <= lam <= snd p3 ->
  meridian_crossing c lam p3 p4 =
  Some (fst p3 + (lam - snd p3) / (snd p4 - snd p3) * (fst p4 - fst p3), lam).
Proof.
  intros Hd Hin. unfold meridian_crossing.
  rewrite Rabs_mult, (proj2 (Rltb_false _ _) Hd).
  assert (Hne : snd p4 - snd p3 <> 0).
  { intro H0. replace (snd p3 - snd p4) with (- (snd p4 - snd p3)) in Hd by ring.
    rewrite H0, Ropp_0, Rabs_R0, Rmult_0_r in Hd. lra. }
  assert (Hu : 0 <= (lam - snd p3) / (snd p4 - snd p3) <= 1).
  { destruct (Rlt_le_dec 0 (snd p4 - snd p3)) as [Hpos | Hneg].
    - split.
      + apply Rmult_le_pos; [lra | left; apply Rinv_0_lt_compat; exact Hpos].
      + apply (Rmult_le_reg_r (snd p4 - snd p3)); [exact Hpos|].
        unfold Rdiv. rewrite Rmult_assoc, Rinv_l by exact Hne. lra.
    - assert (Hpos : 0 < snd p3 - snd p4) by lra.
      replace ((lam - snd p3) / (snd p4 - snd p3))
        with ((snd p3 - lam) / (snd p3 - snd p4)) by (field; lra).
      split.
      + apply Rmult_le_pos; [lra | left; apply Rinv_0_lt_compat; exact Hpos].
      + apply (Rmult_le_reg_r (snd p3 - snd p4)); [exact Hpos|].
        unfold Rdiv. rewrite Rmult_assoc, Rinv_l by lra. lra. }
  rewrite (proj2 (Rleb_true _ _) (proj1 Hu)), (proj2 (Rleb_true _ _) (proj2 Hu)).
  reflexivity.
Qed.

Lemma meridian_crossing_miss (c lam : R) (p3 p4 : point) :
  lam < snd p3 /\ lam < snd p4 \/ snd p3 < lam /\ snd p4 < lam ->
  meridian_crossing c lam p3 p4 = None.
Proof.
  intros Hout.
  destruct (Req_dec_T (snd p3) (snd p4)) as [E | Hne];
    [now apply meridian_crossing_parallel|].
  unfold meridian_crossing. destruct (Rltb _ 1e-10); [reflexivity|].
  assert (Hu : ~ (0 <= (lam - snd p3) / (snd p4 - snd p3) <= 1)).
  { intros [H0 H1].
    destruct (Rlt_le_dec 0 (snd p4 - snd p3)) as [Hpos | Hneg].
    - apply (Rmult_le_compat_r (snd p4 - snd p3)) in H0; [|lra].
      apply (Rmult_le_compat_r (snd p4 - snd p3)) in H1; [|lra].
      unfold Rdiv in H0, H1. rewrite Rmult_assoc, Rinv_l in H0, H1 by lra. lra.
    - assert (Hpos : 0 < snd p3 - snd p4) by lra.
      replace ((lam - snd p3) / (snd p4 - snd p3))
        with ((snd p3 - lam) / (snd p3 - snd p4)) in H0, H1 by (field; lra).
      apply (Rmult_le_compat_r (snd p3 - snd p4)) in H0; [|lra].
      apply (Rmult_le_compat_r (snd p3 - snd p4)) in H1; [|lra].
      unfold Rdiv in H0, H1. rewrite Rmult_assoc, Rinv_l in H0, H1 by lra. lra. }
  destruct (Rleb 0 _) eqn:H0; [|reflexivity].
  destruct (Rleb _ 1) eqn:H1; [|reflexivity].
  apply Rleb_true in H0. apply Rleb_true in H1. exfalso. apply Hu. split; assumption.
Qed.

(** ** The notched polygon *)

Lemma distance_taxicab_le (lat1 lon1 lat2 lon2 d : R) :
  Rabs (lat2 - lat1) + Rabs (lon2 - lon1) <= d -> d <= 180 ->
  calculate_distance (lat1, lon1) (lat2, lon2) <= earth_radius * radians d.
Proof.
  intros Hd H180. pose proof PI_RGT_0 as Hpi.
  pose proof (distance_taxicab lat1 lon1 lat2 lon2 ltac:(lra)) as H.
  unfold earth_radius, radians in *. nra.
Qed.

Lemma meridian_distance_abs (lat1 lat2 lon : R) :
  Rabs (lat2 - lat1) <= 180 ->
  calculate_distance (lat1, lon) (lat2, lon) = earth_radius * radians (Rabs (lat2 - lat1)).
Proof.
  intros H. unfold Rabs in *. destruct (Rcase_abs (lat2 - lat1)).
  - unfold calculate_distance. rewrite haversine_a_sym.
    fold (calculate_distance (lat2, lon) (lat1, lon)).
    rewrite meridian_distance by lra. do 2 f_equal. ring.
  - apply meridian_distance. lra.
Qed.

Ltac abs_le :=
  unfold Rabs; repeat match goal with |- context [Rcase_abs ?x] => destruct (Rcase_abs x) end;
  lra.

Lemma notched_side_0 : side_length notched_polygon 0 = earth_radius * radians 8.
Proof.
  unfold side_length, side_at, notched_polygon.
  cbn [length Nat.add Nat.modulo Nat.divmod nth fst snd Nat.sub].
  rewrite meridian_distance by lra. do 2 f_equal. lra.
Qed.

Lemma notched_other_sides (i : nat) :
  (0 < i < 10)%nat -> side_length notched_polygon i <= earth_radius * radians 3.
Proof.
  intros Hi. unfold side_length, side_at, notched_polygon.
  destruct i as [|[|[|[|[|[|[|[|[|[|i]]]]]]]]]]; try lia;
    cbn [length Nat.add Nat.modulo Nat.divmod nth fst snd Nat.sub];
    (apply distance_taxicab_le; [abs_le | lra]).
Qed.

Lemma notched_bounds :
  get_polygon_bounds notched_polygon =
  Ok {| min_lat := -4; max_lat := 4; min_lon := 0; max_lon := 3 |}.
Proof.
  unfold get_polygon_bounds, notched_polygon, py_min, py_max.
  cbn [map fst snd fold_left bind]. decide_cmp. reflexivity.
Qed.

Lemma notched_bearing :
  exists side, find_longest_side_with_bearing notched_polygon = Ok side /\
               best_bearing side = 0.
Proof.
  pose proof PI_RGT_0 as Hpi.
  destruct (longest_side_spec notched_polygon ltac:(simpl; lia))
    as (side & Hfind & Hidx & Hb & _ & _ & Hfirst).
  exists side. split; [exact Hfind|].
  assert (H0 : longest_side_index side = 0%nat).
  { destruct (longest_side_index side) as [|k] eqn:E; [reflexivity|].
    specialize (Hfirst 0%nat ltac:(lia)). rewrite notched_side_0 in Hfirst.
    pose proof (notched_other_sides (S k) ltac:(simpl in Hidx; lia)) as Hk.
    unfold earth_radius, radians in *. nra. }
  rewrite Hb, H0. unfold side_bearing_at, side_at, notched_polygon.
  cbn [length Nat.add Nat.modulo Nat.divmod nth fst snd Nat.sub].
  apply northward_bearing. lra.
Qed.

(** The locals of the sweep over the notched polygon. *)
Lemma notched_locals (self : converter) :
  exists loc,
    prepare_sweep self notched_polygon = Ok loc /\
    loc_bearing loc = 0 /\
    loc_perp_bearing loc = 90 /\
    loc_center_lat loc = 0 /\
    loc_center_lon loc = 1.5 /\
    loc_spacing_meters loc = spacing self * 111000 /\
    0 <= loc_max_extend loc <= earth_radius * radians 11 / 2.
Proof.
  destruct notched_bearing as (side & Hfind & Hb).
  destruct (find_polygon_corners_ok notched_polygon) as [crn Hcrn].
  unfold prepare_sweep. rewrite Hfind, Hcrn, notched_bounds. cbn [bind].
  eexists. split; [reflexivity|].
  cbn [loc_bearing loc_perp_bearing loc_center_lat loc_center_lon loc_spacing_meters
       loc_max_extend min_lat max_lat min_lon max_lon].
  rewrite Hb.
  split; [reflexivity|].
  split; [rewrite fmod_small; lra|].
  split; [lra|]. split; [lra|]. split; [reflexivity|].
  pose proof (distance_taxicab_le (-4) 0 4 3 11 ltac:(abs_le) ltac:(lra)) as Hup.
  pose proof (half_extent_bound (-4, 0) (4, 3)) as _.
  assert (Hlo : 0 <= calculate_distance (-4, 0) (4, 3)).
  { unfold calculate_distance.
    pose proof (haversine_angle_mono 0 _ (Rle_refl 0)
                  (proj1 (haversine_a_range (-4, 0) (4, 3)))
                  (proj2 (haversine_a_range (-4, 0) (4, 3)))) as H.
    replace (1 - 0) with 1 in H by ring. rewrite sqrt_0, sqrt_1 in H.
    rewrite atan2_zero_pos in H by lra. unfold earth_radius. lra. }
  lra.
Qed.

Lemma remove_duplicates_distinct_id (l : list point) :
  ForallOrdPairs (fun existing pt => ~ near_duplicate pt existing) l ->
  remove_duplicates l = l.
Proof.
  intros Hd. unfold remove_duplicates.
  assert (G : forall l acc,
             ForallOrdPairs (fun existing pt => ~ near_duplicate pt existing) (acc ++ l) ->
             fold_left (fun unique_intersections pt =>
                          if is_duplicate pt unique_intersections
                          then unique_intersections
                          else unique_intersections ++ [pt]) l acc = acc ++ l).
  { clear. induction l as [|x l IH]; intros acc H; cbn [fold_left].
    - now rewrite app_nil_r.
    - assert (Hx : is_duplicate x acc = false).
      { apply is_duplicate_false. apply Forall_forall. intros e He.
        clear IH. induction acc as [|a acc IHa]; [destruct He|].
        cbn [app] in H. inversion H as [|? ? Ha Hrest]; subst.
        destruct He as [<- | He].
        - rewrite Forall_forall in Ha. apply Ha. apply in_or_app. right. now left.
        - now apply IHa. }
      rewrite Hx. rewrite IH; rewrite <- app_assoc; [reflexivity | exact H]. }
  apply (G l []). exact Hd.
Qed.

Lemma notched_centre_raw :
  edge_hits (probe_reach, 1.5) (- probe_reach, 1.5) notched_polygon =
  [(3, 1.5); (2, 1.5); (-1, 1.5); (-4, 1.5)].
Proof.
  pose proof probe_reach_bounds as Hr.
  assert (Hc : Rabs (probe_reach - - probe_reach) = 2 * probe_reach)
    by (rewrite Rabs_right; lra).
  rewrite edge_hits_flat_map. unfold notched_polygon at 2.
  cbn [length seq flat_map]. unfold side_hit, side_at, notched_polygon.
  cbn [length Nat.add Nat.modulo Nat.divmod nth fst snd Nat.sub].
  rewrite !line_intersection_meridian.
  rewrite (meridian_crossing_parallel _ _ (-4, 0) (4, 0)) by reflexivity.
  rewrite (meridian_crossing_miss _ _ (4, 0) (4, 1)) by (cbn [snd]; lra).
  rewrite (meridian_crossing_parallel _ _ (4, 1) (3, 1)) by reflexivity.
  rewrite (meridian_crossing_hit _ _ (3, 1) (3, 3))
    by (cbn [snd]; rewrite ?Hc; try abs_le; rewrite Rabs_left; lra).
  rewrite (meridian_crossing_parallel _ _ (3, 3) (2, 3)) by reflexivity.
  rewrite (meridian_crossing_hit _ _ (2, 3) (2, 1))
    by (cbn [snd]; rewrite ?Hc; try abs_le; rewrite Rabs_right; lra).
  rewrite (meridian_crossing_parallel _ _ (2, 1) (-1, 1)) by reflexivity.
  rewrite (meridian_crossing_hit _ _ (-1, 1) (-1, 3))
    by (cbn [snd]; rewrite ?Hc; try abs_le; rewrite Rabs_left; lra).
  rewrite (meridian_crossing_parallel _ _ (-1, 3) (-4, 3)) by reflexivity.
  rewrite (meridian_crossing_hit _ _ (-4, 3) (-4, 0))
    by (cbn [snd]; rewrite ?Hc; try abs_le; rewrite Rabs_right; lra).
  cbn [app fst snd].
  repeat match goal with
         | |- context [?a + ?u * (?b - ?b)] => replace (a + u * (b - b)) with a by ring
         end.
  reflexivity.
Qed.

Lemma notched_centre_hits :
  probe_hits 0 1.5 90 0 notched_polygon 0 = [(3, 1.5); (2, 1.5); (-1, 1.5); (-4, 1.5)].
Proof.
  pose proof PI_RGT_0 as Hpi.
  assert (H0 : 0 / earth_radius = 0) by (unfold earth_radius; field).
  unfold probe_hits. rewrite offset_point_east by (rewrite H0; lra).
  rewrite H0, degrees_0, Rplus_0_r, probe_ends_north.
  unfold line_polygon_intersections. rewrite notched_centre_raw.
  apply remove_duplicates_distinct_id.
  repeat constructor; intros [H _]; cbn [fst snd] in H; revert H; abs_le.
Qed.

(** ** Retained lines and their two waypoints *)

Lemma probe_hits_raw (clat clon perp bearing : R) (poly : polygon) (o : R) :
  probe_hits clat clon perp bearing poly o =
  remove_duplicates (probe_raw clat clon perp bearing poly o).
Proof.
  unfold probe_hits, probe_raw.
  destruct (point_at_bearing_and_distance clat clon perp o) as [lat lon].
  destruct (probe_ends lat lon bearing) as [end1 end2]. reflexivity.
Qed.

Lemma line_point_ends (a b : point) : line_point a b 0 = a /\ line_point a b 1 = b.
Proof.
  destruct a as [a1 a2], b as [b1 b2]. unfold line_point. cbn [fst snd].
  split; f_equal; ring.
Qed.

Lemma entry_exit_pair (a b : point) (hits l : list point) :
  length hits = 2%nat -> Permutation hits l ->
  a = nth 0 l origin -> b = last l origin -> entry_exit a b hits.
Proof.
  intros Hlen Hperm Ha Hb.
  pose proof (Permutation_length Hperm) as Hl. rewrite Hlen in Hl.
  destruct l as [|x [|y [|z l]]]; try discriminate.
  cbn [nth last] in Ha, Hb. subst a b.
  assert (Hin : forall q, In q hits -> q = x \/ q = y).
  { intros q Hq. apply (Permutation_in _ Hperm) in Hq.
    destruct Hq as [<- | [<- | []]]; tauto. }
  destruct (line_point_ends x y) as [E0 E1].
  repeat split.
  - apply Permutation_in with [x; y]; [now symmetry | now left].
  - apply Permutation_in with [x; y]; [now symmetry | right; now left].
  - intros q Hq. destruct (Hin q Hq) as [-> | ->].
    + exists 0. split; [lra | now symmetry].
    + exists 1. split; [lra | now symmetry].
Qed.

(** C7 (amended): in a run that returns, the lines kept are exactly
    those of the probed offsets whose deduplicated clip has at least 2
    points, one line per such offset.  The deduplicated clip of a probe
    consists of intersection points of the probe with the sides, no two
    of them within 1e-8 degrees of each other in both coordinates, and
    every intersection point is within that tolerance of one of them; it
    has at least 2 points exactly when some intersection point is not
    within the tolerance of the first one.  The two endpoints of a kept
    line are the intersection point nearest to and the one farthest from
    the offset point of the line; they are not within the tolerance of
    each other, and they are the entry and exit points of the line when
    the clip has exactly 2 points.  The path consists of the two
    endpoints of each kept line, each line once, as two consecutive
    waypoints; hence the number of waypoints is twice the number of kept
    lines. *)
Theorem retained_lines_two_waypoints
        (self : converter) (fuel : nat) (poly : polygon) (w : list point) :
  (3 <= length poly)%nat ->
  generate_parallel_lines_to_longest_side self fuel poly = Ok w ->
  let buffered := create_buffer_polygon self poly in
  exists loc all_lines n1 n2 visits,
    let raw := probe_raw (loc_center_lat loc) (loc_center_lon loc)
                         (loc_perp_bearing loc) (loc_bearing loc) buffered in
    let hits := probe_hits (loc_center_lat loc) (loc_center_lon loc)
                           (loc_perp_bearing loc) (loc_bearing loc) buffered in
    let line_at := scan_line_at (loc_center_lat loc) (loc_center_lon loc)
                                (loc_perp_bearing loc) (loc_bearing loc) buffered in
    let swept := swept_lines (loc_center_lat loc) (loc_center_lon loc)
                             (loc_perp_bearing loc) (loc_bearing loc) buffered
                             (loc_spacing_meters loc) in
    let offset_point := point_at_bearing_and_distance
                          (loc_center_lat loc) (loc_center_lon loc)
                          (loc_perp_bearing loc) in
    prepare_sweep self buffered = Ok loc /\
    collect_lines loc fuel buffered = Ok all_lines /\
    Permutation (swept (-1) n1 ++ swept 1 n2) all_lines /\
    (forall o,
        ForallOrdPairs (fun existing pt => ~ near_duplicate pt existing) (hits o) /\
        (forall q, In q (hits o) -> In q (raw o)) /\
        (forall q, In q (raw o) -> exists r, In r (hits o) /\ near_duplicate q r) /\
        ((2 <= length (hits o))%nat <->
         exists q, In q (raw o) /\ ~ near_duplicate q (nth 0 (raw o) origin)) /\
        ((2 <= length (hits o))%nat ->
         exists l, line_at o = [l] /\ offset l = o /\
                   Permutation (hits o) (intersections l) /\
                   start_point l = nth 0 (intersections l) origin /\
                   end_point l = last (intersections l) origin /\
                   In (start_point l) (hits o) /\ In (end_point l) (hits o) /\
                   ~ near_duplicate (start_point l) (end_point l) /\
                   (forall q, In q (hits o) ->
                              calculate_distance (offset_point o) (start_point l)
                              <= calculate_distance (offset_point o) q
                              <= calculate_distance (offset_point o) (end_point l)) /\
                   (length (hits o) = 2%nat ->
                    entry_exit (start_point l) (end_point l) (hits o))) /\
        ((length (hits o) < 2)%nat -> line_at o = [])) /\
    Permutation (map fst visits) all_lines /\
    w = visit_waypoints visits /\
    length w = (2 * length all_lines)%nat.
Proof.
  intros Hlen Hrun buffered.
  destruct (prepare_sweep_ok self buffered (buffered_nonempty self poly Hlen))
    as (loc & Hloc & _ & _).
  rewrite (generate_unfold self poly loc fuel Hlen Hloc) in Hrun.
  fold buffered in Hrun.
  destruct (collect_lines loc fuel buffered) as [all_lines| |] eqn:Hcol;
    cbn [bind] in Hrun; try discriminate.
  injection Hrun as <-.
  unfold collect_lines in Hcol.
  destruct (sweep _ _ _ _ _ _ _ fuel) as [lines| |] eqn:Hsw; cbn [bind] in Hcol;
    try discriminate.
  injection Hcol as <-.
  destruct (sweep_ok _ _ _ _ _ _ _ _ _ Hsw) as (n1 & n2 & Hlines).
  destruct (optimize_visits self (py_sort offset lines) (loc_corners loc) (loc_bearing loc))
    as (visits & Hperm & Hw).
  exists loc, (py_sort offset lines), n1, n2, visits. cbv zeta.
  split; [exact Hloc|].
  split; [unfold collect_lines; now rewrite Hsw|].
  split; [rewrite <- Hlines; apply py_sort_perm|].
  split.
  { intros o. rewrite probe_hits_raw.
    set (raw := probe_raw _ _ _ _ buffered o).
    split; [apply remove_duplicates_distinct|].
    split; [apply remove_duplicates_incl|].
    split.
    { intros q Hq. destruct (remove_duplicates_fold raw []) as (_ & Hcov & _ & _).
      apply Hcov. now right. }
    split; [apply remove_duplicates_two|].
    unfold raw. rewrite <- probe_hits_raw. split.
    - intros H.
      destruct (scan_line_at_kept _ _ _ _ _ o H) as (l & Hl & Ho & Hp & Hs & He).
      assert (Hin : In l (scan_line_at (loc_center_lat loc) (loc_center_lon loc)
                                       (loc_perp_bearing loc) (loc_bearing loc) buffered o))
        by (rewrite Hl; now left).
      destruct (scan_line_at_facts _ _ _ _ _ _ _ Hin) as (_ & Hlen2 & _ & _ & Hnear & Hq).
      assert (Hstart : In (start_point l) (intersections l)).
      { rewrite Hs. apply nth_In. lia. }
      assert (Hend : In (end_point l) (intersections l)).
      { rewrite He. destruct (intersections l) as [|x rest] eqn:E; [simpl in Hlen2; lia|].
        destruct (@exists_last point (x :: rest) ltac:(discriminate)) as (pre & z & Ez).
        rewrite Ez, last_last. apply in_or_app. right. now left. }
      exists l. split; [exact Hl|]. split; [exact Ho|]. split; [exact Hp|].
      split; [exact Hs|]. split; [exact He|].
      split; [apply Permutation_in with (intersections l); [now symmetry | exact Hstart]|].
      split; [apply Permutation_in with (intersections l); [now symmetry | exact Hend]|].
      split; [exact Hnear|]. split.
      + intros q Hqin. apply Hq. apply Permutation_in with (1 := Hp). exact Hqin.
      + intros H2. apply (entry_exit_pair _ _ _ (intersections l)); assumption.
    - apply scan_line_at_dropped. }
  split; [exact Hperm|]. split; [exact Hw|].
  rewrite Hw, visit_waypoints_length.
  now rewrite <- (Permutation_length Hperm), length_map.
Qed.

Lemma retained_lines_two_waypoints_witness :
  exists fuel w,
    (3 <= length tiny_triangle)%nat /\
    generate_parallel_lines_to_longest_side (spaced_by 0.25e-8) fuel tiny_triangle = Ok w /\
    (2 <= length w)%nat /\
    exists all_lines : list scan_line, length w = (2 * length all_lines)%nat.
Proof.
  destruct (tiny_coarse_sweep
              (S (sweep_iterations (0.25e-8 * 111000) (triangle_max_extend 1.2e-8)))
              (Nat.lt_succ_diag_r _))
    as (loc0 & lines0 & w & _ & _ & _ & Hrun & Hw).
  exists (S (sweep_iterations (0.25e-8 * 111000) (triangle_max_extend 1.2e-8))), w.
  assert (H : (3 <= length tiny_triangle)%nat) by (simpl; lia).
  split; [exact H|]. split; [exact Hrun|]. split; [exact Hw|].
  destruct (retained_lines_two_waypoints (spaced_by 0.25e-8) _ tiny_triangle w H Hrun)
    as (loc & all_lines & n1 & n2 & visits & _ & _ & _ & _ & _ & _ & Hlen).
  exists all_lines. exact Hlen.
Defined.

(** C7 (as stated) fails: the centre probe of the notched polygon
    crosses the boundary at latitudes 3, 2, -1 and -4.  The run keeps that
    line and returns the waypoints at latitudes -1 and -4, the
    intersection points nearest to and farthest from the offset point
    (0, 1.5); the entry point at latitude 3 is not a waypoint, and it does
    not lie between the two waypoints. *)
Lemma entry_exit_counterexample :
  (3 <= length notched_polygon)%nat /\
  forall fuel,
    (1 < fuel)%nat ->
    exists loc l,
      let buffered := create_buffer_polygon (spaced_by 6) notched_polygon in
      prepare_sweep (spaced_by 6) buffered = Ok loc /\
      collect_lines loc fuel buffered = Ok [l] /\
      probe_hits (loc_center_lat loc) (loc_center_lon loc)
                 (loc_perp_bearing loc) (loc_bearing loc) buffered (offset l)
      = [(3, 1.5); (2, 1.5); (-1, 1.5); (-4, 1.5)] /\
      Permutation [(3, 1.5); (2, 1.5); (-1, 1.5); (-4, 1.5)] (intersections l) /\
      start_point l = (-1, 1.5) /\
      end_point l = (-4, 1.5) /\
      generate_parallel_lines_to_longest_side (spaced_by 6) fuel notched_polygon
      = Ok [(-1, 1.5); (-4, 1.5)] /\
      ~ entry_exit (start_point l) (end_point l) (intersections l).
Proof.
  assert (Hlen : (3 <= length notched_polygon)%nat) by (simpl; lia).
  split; [exact Hlen|]. intros fuel Hfuel.
  destruct (notched_locals (spaced_by 6))
    as (loc & Hloc & Hb & Hp & Hclat & Hclon & Hs & HM).
  cbn [spacing spaced_by] in Hs.
  assert (Hbuf : create_buffer_polygon (spaced_by 6) notched_polygon = notched_polygon)
    by (apply create_buffer_polygon_zero; reflexivity).
  assert (Hloc' : prepare_sweep (spaced_by 6)
                                (create_buffer_polygon (spaced_by 6) notched_polygon)
                  = Ok loc) by (rewrite Hbuf; exact Hloc).
  assert (Hext : 0 <= loc_max_extend loc < loc_spacing_meters loc).
  { rewrite Hs. pose proof PI_bounds as Hpi. unfold earth_radius, radians in HM. nra. }
  destruct (centre_only_run (spaced_by 6) notched_polygon loc fuel Hlen Hloc' Hext Hfuel)
    as [Hcol Hgen].
  rewrite Hbuf, Hb, Hp, Hclat, Hclon in Hcol, Hgen.
  assert (Hhits : (2 <= length (probe_hits 0 1.5 90 0 notched_polygon 0))%nat)
    by (rewrite notched_centre_hits; simpl; lia).
  destruct (scan_line_at_kept 0 1.5 90 0 notched_polygon 0 Hhits)
    as (l & Hl & Ho & Hperm & Hstart & Hend).
  assert (Hin : In l (scan_line_at 0 1.5 90 0 notched_polygon 0))
    by (rewrite Hl; now left).
  destruct (scan_line_at_facts _ _ _ _ _ _ _ Hin) as (_ & Hlen2 & _ & _ & _ & Hq).
  rewrite notched_centre_hits in Hperm.
  assert (Hc : point_at_bearing_and_distance 0 1.5 90 0 = (0, 1.5)).
  { pose proof PI_RGT_0 as Hpi.
    assert (H0 : 0 / earth_radius = 0) by (unfold earth_radius; field).
    rewrite offset_point_east by (rewrite H0; lra).
    now rewrite H0, degrees_0, Rplus_0_r. }
  rewrite Hc in Hq.
  assert (Hdist : forall lat, Rabs lat <= 180 ->
                              calculate_distance (0, 1.5) (lat, 1.5)
                              = earth_radius * radians (Rabs lat)).
  { intros lat H. rewrite meridian_distance_abs by (rewrite Rminus_0_r; exact H).
    now rewrite Rminus_0_r. }
  assert (Hmem : forall q, In q (intersections l) ->
                           q = (3, 1.5) \/ q = (2, 1.5) \/ q = (-1, 1.5) \/ q = (-4, 1.5)).
  { intros q Hqin. apply Permutation_in with (l' := [(3, 1.5); (2, 1.5); (-1, 1.5); (-4, 1.5)])
      in Hqin; [|now symmetry].
    simpl in Hqin. intuition. }
  assert (Hnear : In (-1, 1.5) (intersections l))
    by (apply Permutation_in with (1 := Hperm); simpl; tauto).
  assert (Hfar : In (-4, 1.5) (intersections l))
    by (apply Permutation_in with (1 := Hperm); simpl; tauto).
  assert (Hsin : In (start_point l) (intersections l))
    by (rewrite Hstart; apply nth_In; lia).
  assert (Hein : In (end_point l) (intersections l)).
  { rewrite Hend. destruct (intersections l) as [|x rest] eqn:E; [simpl in Hlen2; lia|].
    destruct (@exists_last point (x :: rest) ltac:(discriminate)) as (pre & z & Ez).
    rewrite Ez, last_last. apply in_or_app. right. now left. }
  pose proof PI_RGT_0 as Hpi.
  assert (D3 : calculate_distance (0, 1.5) (3, 1.5) = earth_radius * radians 3)
    by (rewrite Hdist by abs_le; do 2 f_equal; abs_le).
  assert (D2 : calculate_distance (0, 1.5) (2, 1.5) = earth_radius * radians 2)
    by (rewrite Hdist by abs_le; do 2 f_equal; abs_le).
  assert (D1 : calculate_distance (0, 1.5) (-1, 1.5) = earth_radius * radians 1)
    by (rewrite Hdist by abs_le; do 2 f_equal; abs_le).
  assert (D4 : calculate_distance (0, 1.5) (-4, 1.5) = earth_radius * radians 4)
    by (rewrite Hdist by abs_le; do 2 f_equal; abs_le).
  assert (Es : start_point l = (-1, 1.5)).
  { destruct (Hq _ Hnear) as (_ & Hle & _). rewrite D1 in Hle.
    destruct (Hmem _ Hsin) as [E | [E | [E | E]]]; rewrite E in Hle |- *;
      rewrite ?D3, ?D2, ?D4 in Hle; try reflexivity;
        exfalso; unfold earth_radius, radians in Hle; nra. }
  assert (Ee : end_point l = (-4, 1.5)).
  { destruct (Hq _ Hfar) as (_ & _ & Hle). rewrite D4 in Hle.
    destruct (Hmem _ Hein) as [E | [E | [E | E]]]; rewrite E in Hle |- *;
      rewrite ?D3, ?D2, ?D1 in Hle; try reflexivity;
        exfalso; unfold earth_radius, radians in Hle; nra. }
  exists loc, l. cbv zeta. rewrite Hbuf, Hb, Hp, Hclat, Hclon, Ho.
  split; [exact Hloc|]. split; [rewrite Hcol; now rewrite Hl|].
  split; [exact notched_centre_hits|]. split; [exact Hperm|].
  split; [exact Es|]. split; [exact Ee|]. split.
  - rewrite Hgen, Hl, optimize_no_home by reflexivity.
    cbn [lawnmower_path greedy_continue]. now rewrite Es, Ee.
  - intros (_ & _ & Hseg).
    assert (Htop : In (3, 1.5) (intersections l))
      by (apply Permutation_in with (1 := Hperm); simpl; tauto).
    destruct (Hseg _ Htop) as (t & Ht & Et).
    rewrite Es, Ee in Et. unfold line_point in Et. cbn [fst snd] in Et.
    injection Et as E1 _. lra.
Qed.

(** ** Convex polygons and probe lines along a meridian *)

Lemma cross_affine (a b p q : point) (t : R) :
  cross a b (line_point p q t) = (1 - t) * cross a b p + t * cross a b q.
Proof. unfold cross, line_point. cbn [fst snd]. ring. Qed.

Lemma convex_orientation (poly : polygon) :
  convex_polygon poly ->
  exists s, (s = 1 \/ s = -1) /\ forall p, In p poly -> on_inner_side s poly p.
Proof.
  intros [H | H].
  - exists 1. split; [now left|]. intros p Hp i Hi.
    destruct (In_nth _ _ origin Hp) as (j & Hj & <-).
    specialize (H i j Hi Hj). lra.
  - exists (-1). split; [now right|]. intros p Hp i Hi.
    destruct (In_nth _ _ origin Hp) as (j & Hj & <-).
    specialize (H i j Hi Hj). lra.
Qed.

Lemma on_inner_side_between (s : R) (poly : polygon) (p q : point) (t : R) :
  on_inner_side s poly p -> on_inner_side s poly q -> 0 <= t <= 1 ->
  on_inner_side s poly (line_point p q t).
Proof.
  intros Hp Hq Ht i Hi. rewrite cross_affine.
  specialize (Hp i Hi). specialize (Hq i Hi).
  assert (0 <= (1 - t) * (s * cross (fst (side_at poly i)) (snd (side_at poly i)) p))
    by (apply Rmult_le_pos; lra).
  assert (0 <= t * (s * cross (fst (side_at poly i)) (snd (side_at poly i)) q))
    by (apply Rmult_le_pos; lra).
  lra.
Qed.

(** Every intersection point of a line with the sides is on the inner
    side of every side. *)
Lemma edge_hit_inner (s : R) (poly : polygon) (ls le q : point) :
  (forall p, In p poly -> on_inner_side s poly p) ->
  In q (edge_hits ls le poly) -> on_inner_side s poly q.
Proof.
  intros Hv Hq. apply edge_hits_in in Hq. destruct Hq as (i & Hi & Hq).
  rewrite (line_intersection_on_side _ _ _ _ _ Hq).
  apply line_intersection_some in Hq. destruct Hq as (_ & Hu & _).
  destruct (side_at_in poly i Hi) as [H3 H4].
  apply on_inner_side_between; [apply Hv, H3 | apply Hv, H4 | exact Hu].
Qed.

Lemma meridian_crossing_some (c lam : R) (p3 p4 h : point) :
  meridian_crossing c lam p3 p4 = Some h ->
  snd p3 <> snd p4 /\
  (snd p3 <= lam <= snd p4 \/ snd p4 <= lam <= snd p3) /\
  h = (fst p3 + (lam - snd p3) / (snd p4 - snd p3) * (fst p4 - fst p3), lam).
Proof.
  intros H.
  assert (Hne : snd p3 <> snd p4).
  { intro E. rewrite meridian_crossing_parallel in H by exact E. discriminate. }
  split; [exact Hne|].
  destruct (Rlt_le_dec lam (Rmin (snd p3) (snd p4))) as [Hlo | Hlo].
  { rewrite meridian_crossing_miss in H; [discriminate|]. left.
    pose proof (Rmin_l (snd p3) (snd p4)). pose proof (Rmin_r (snd p3) (snd p4)). lra. }
  destruct (Rlt_le_dec (Rmax (snd p3) (snd p4)) lam) as [Hhi | Hhi].
  { rewrite meridian_crossing_miss in H; [discriminate|]. right.
    pose proof (Rmax_l (snd p3) (snd p4)). pose proof (Rmax_r (snd p3) (snd p4)). lra. }
  assert (Hin : snd p3 <= lam <= snd p4 \/ snd p4 <= lam <= snd p3).
  { unfold Rmin, Rmax in *. destruct (Rle_dec (snd p3) (snd p4)); [left | right]; lra. }
  split; [exact Hin|].
  unfold meridian_crossing in H.
  destruct (Rltb _ 1e-10); [discriminate|].
  destruct (Rleb 0 _ && Rleb _ 1); [|discriminate].
  now injection H as <-.
Qed.

(** A point of the probe line on the inner side of a side that the
    probe crosses lies, along the probe, on one side of the crossing. *)
Lemma inner_side_of_crossing (s c lam x : R) (poly : polygon) (i : nat) (h : point) :
  on_inner_side s poly (x, lam) -> (i < length poly)%nat ->
  meridian_crossing c lam (fst (side_at poly i)) (snd (side_at poly i)) = Some h ->
  s * (snd (snd (side_at poly i)) - snd (fst (side_at poly i))) * (x - fst h) <= 0.
Proof.
  intros Hin Hi Hh. specialize (Hin i Hi).
  destruct (meridian_crossing_some _ _ _ _ _ Hh) as (Hne & _ & ->).
  destruct (side_at poly i) as [[x3 y3] [x4 y4]]. cbn [fst snd] in *.
  unfold cross in Hin. cbn [fst snd] in Hin.
  replace (s * (y4 - y3) * (x - (x3 + (lam - y3) / (y4 - y3) * (x4 - x3))))
    with (- (s * ((x4 - x3) * (lam - y4) - (y4 - y3) * (x - x4))))
    by (field; lra).
  lra.
Qed.

(** On a cycle of [n] positions, a predicate that holds somewhere and
    fails somewhere holds at some position and fails at the next. *)
Lemma cyclic_crossing (n : nat) (p : nat -> bool) (a b : nat) :
  (a < n)%nat -> (b < n)%nat -> p a = true -> p b = false ->
  exists j, (j < n)%nat /\ p j = true /\ p ((j + 1) mod n) = false.
Proof.
  intros Ha Hb Hpa Hpb.
  assert (Hn : n <> 0%nat) by lia.
  assert (Hwalk : forall k, p ((a + k) mod n) = false ->
                            exists j, (j < n)%nat /\ p j = true /\ p ((j + 1) mod n) = false).
  { induction k as [|k IH]; intros Hk.
    - rewrite Nat.add_0_r, Nat.mod_small in Hk by exact Ha. congruence.
    - destruct (p ((a + k) mod n)) eqn:Hprev; [|now apply IH].
      exists ((a + k) mod n). split; [now apply Nat.mod_upper_bound|].
      split; [exact Hprev|].
      rewrite Nat.Div0.add_mod_idemp_l.
      now replace (a + k + 1)%nat with (a + S k)%nat by lia. }
  apply (Hwalk (b + n - a)%nat).
  replace (a + (b + n - a))%nat with (b + 1 * n)%nat by lia.
  rewrite Nat.Div0.mod_add, Nat.mod_small by exact Hb. exact Hpb.
Qed.

Lemma pos_factor (k x : R) : 0 < k -> k * x <= 0 -> x <= 0.
Proof. intros Hk H. nra. Qed.

Lemma neg_factor (k x : R) : k < 0 -> k * x <= 0 -> 0 <= x.
Proof. intros Hk H. nra. Qed.

(** From [k * x <= 0] and the sign of [k], the sign of [x]. *)
Ltac factor_sign H :=
  first [ apply pos_factor in H; [|lra] | apply neg_factor in H; [|lra] ].

Section ConvexMeridian.

Variable poly : polygon.
Variable c : R.
Variable s : R.

Hypothesis orientation : s = 1 \/ s = -1.
Hypothesis vertices_inner : forall p, In p poly -> on_inner_side s poly p.
Hypothesis sides_clear :
  forall i, (i < length poly)%nat ->
            snd (fst (side_at poly i)) = snd (snd (side_at poly i)) \/
            1e-10 <= Rabs c * Rabs (snd (fst (side_at poly i)) - snd (snd (side_at poly i))).

Local Abbreviation raw := (fun a lam => edge_hits (a, lam) (a - c, lam) poly).

Lemma in_raw_meridian (a lam : R) (q : point) :
  In q (raw a lam) <->
  exists i, (i < length poly)%nat /\
            meridian_crossing c lam (fst (side_at poly i)) (snd (side_at poly i)) = Some q.
Proof.
  split.
  - intros H. apply edge_hits_in in H. destruct H as (i & Hi & H).
    rewrite line_intersection_meridian in H.
    replace (a - (a - c)) with c in H by ring. now exists i.
  - intros (i & Hi & H). apply (in_edge_hits _ _ _ i); [exact Hi|].
    rewrite line_intersection_meridian. now replace (a - (a - c)) with c by ring.
Qed.

Lemma raw_on_meridian (a lam : R) (q : point) : In q (raw a lam) -> snd q = lam.
Proof.
  intros H. apply in_raw_meridian in H. destruct H as (i & _ & H).
  now destruct (meridian_crossing_some _ _ _ _ _ H) as (_ & _ & ->).
Qed.

(** A side from west of the meridian to the meridian or east of it, or
    the other way round, is crossed. *)
Lemma crossed_side (a lam : R) (i : nat) :
  (i < length poly)%nat ->
  snd (fst (side_at poly i)) < lam <= snd (snd (side_at poly i)) \/
  snd (snd (side_at poly i)) < lam <= snd (fst (side_at poly i)) ->
  exists h, In h (raw a lam) /\
            meridian_crossing c lam (fst (side_at poly i)) (snd (side_at poly i)) = Some h.
Proof.
  intros Hi Hlam.
  assert (Hd : 1e-10 <= Rabs c * Rabs (snd (fst (side_at poly i)) -
                                       snd (snd (side_at poly i)))).
  { destruct (sides_clear i Hi) as [E | H]; [lra | exact H]. }
  eexists. split.
  - apply in_raw_meridian. exists i. split; [exact Hi|].
    apply meridian_crossing_hit; [exact Hd | lra].
  - apply meridian_crossing_hit; [exact Hd | lra].
Qed.

(** Two intersection points of a retained probe that are at least the
    tolerance apart. *)
Lemma retained_far_pair (a lam : R) :
  (2 <= length (remove_duplicates (raw a lam)))%nat ->
  exists xa xb, In (xa, lam) (raw a lam) /\ In (xb, lam) (raw a lam) /\ 1e-8 <= xb - xa.
Proof.
  intros H. apply remove_duplicates_two in H. destruct H as (q & Hq & Hnear).
  assert (Hf : In (nth 0 (raw a lam) origin) (raw a lam)).
  { apply nth_In. destruct (raw a lam); [destruct Hq | simpl; lia]. }
  set (f := nth 0 (raw a lam) origin) in *.
  pose proof (raw_on_meridian _ _ _ Hq) as Eq.
  pose proof (raw_on_meridian _ _ _ Hf) as Ef.
  destruct q as [xq yq], f as [xf yf]. cbn [snd] in Eq, Ef. subst yq yf.
  assert (Hfar : 1e-8 <= Rabs (xq - xf)).
  { destruct (Rlt_le_dec (Rabs (xq - xf)) 1e-8) as [Hlt | Hge]; [|exact Hge].
    exfalso. apply Hnear. split; cbn [fst snd]; [exact Hlt|].
    replace (lam - lam) with 0 by ring. rewrite Rabs_R0. lra. }
  unfold Rabs in Hfar. destruct (Rcase_abs (xq - xf)).
  - exists xq, xf. repeat split; try assumption. lra.
  - exists xf, xq. repeat split; try assumption.
Qed.

(** Between two retained probes every probe is retained. *)
Lemma meridian_retention_between (a0 a1 a lam0 lam1 lam : R) :
  lam0 <= lam <= lam1 ->
  (2 <= length (remove_duplicates (raw a0 lam0)))%nat ->
  (2 <= length (remove_duplicates (raw a1 lam1)))%nat ->
  (2 <= length (remove_duplicates (raw a lam)))%nat.
Proof.
  intros Hlam H0 H1.
  destruct (Req_dec_T lam lam0) as [-> | Hne0].
  { rewrite (edge_hits_meridian a (a - c) a0 (a0 - c)) by ring. exact H0. }
  destruct (Req_dec_T lam lam1) as [-> | Hne1].
  { rewrite (edge_hits_meridian a (a - c) a1 (a1 - c)) by ring. exact H1. }
  assert (Hstrict : lam0 < lam < lam1) by lra. clear Hlam Hne0 Hne1.
  destruct (retained_far_pair _ _ H0) as (xa0 & xb0 & Ha0 & Hb0 & Hgap0).
  destruct (retained_far_pair _ _ H1) as (xa1 & xb1 & Ha1 & Hb1 & Hgap1).
  (* the interpolated pair on the meridian [lam] *)
  set (t := (lam - lam0) / (lam1 - lam0)).
  assert (Ht : 0 <= t <= 1).
  { unfold t. split.
    - apply Rmult_le_pos; [lra | left; apply Rinv_0_lt_compat; lra].
    - apply (Rmult_le_reg_r (lam1 - lam0)); [lra|].
      unfold Rdiv. rewrite Rmult_assoc, Rinv_l by lra. lra. }
  assert (Elam : lam0 + t * (lam1 - lam0) = lam) by (unfold t; field; lra).
  assert (HA : on_inner_side s poly (xa0 + t * (xa1 - xa0), lam)).
  { rewrite <- Elam.
    apply (on_inner_side_between s poly (xa0, lam0) (xa1, lam1) t);
      [apply (edge_hit_inner s poly _ _ _ vertices_inner Ha0)
      |apply (edge_hit_inner s poly _ _ _ vertices_inner Ha1) | exact Ht]. }
  assert (HB : on_inner_side s poly (xb0 + t * (xb1 - xb0), lam)).
  { rewrite <- Elam.
    apply (on_inner_side_between s poly (xb0, lam0) (xb1, lam1) t);
      [apply (edge_hit_inner s poly _ _ _ vertices_inner Hb0)
      |apply (edge_hit_inner s poly _ _ _ vertices_inner Hb1) | exact Ht]. }
  assert (Hgap : 1e-8 <= (xb0 + t * (xb1 - xb0)) - (xa0 + t * (xa1 - xa0))).
  { assert (0 <= (1 - t) * (xb0 - xa0 - 1e-8)) by (apply Rmult_le_pos; lra).
    assert (0 <= t * (xb1 - xa1 - 1e-8)) by (apply Rmult_le_pos; lra).
    lra. }
  set (xA := xa0 + t * (xa1 - xa0)) in *. set (xB := xb0 + t * (xb1 - xb0)) in *.
  (* a vertex to the west and a vertex not to the west of the meridian *)
  set (west := fun j => Rltb (snd (nth j poly origin)) lam).
  assert (Hwest : exists j, (j < length poly)%nat /\ west j = true).
  { apply in_raw_meridian in Ha0. destruct Ha0 as (i & Hi & Hh).
    destruct (meridian_crossing_some _ _ _ _ _ Hh) as (_ & Hin & _).
    unfold side_at in Hin. cbn [fst snd] in Hin.
    destruct Hin as [Hin | Hin].
    - exists i. split; [exact Hi|]. apply Rltb_true. lra.
    - exists ((i + 1) mod length poly)%nat.
      split; [apply Nat.mod_upper_bound; lia|]. apply Rltb_true. lra. }
  assert (Heast : exists j, (j < length poly)%nat /\ west j = false).
  { apply in_raw_meridian in Ha1. destruct Ha1 as (i & Hi & Hh).
    destruct (meridian_crossing_some _ _ _ _ _ Hh) as (_ & Hin & _).
    unfold side_at in Hin. cbn [fst snd] in Hin.
    destruct Hin as [Hin | Hin].
    - exists ((i + 1) mod length poly)%nat.
      split; [apply Nat.mod_upper_bound; lia|]. apply Rltb_false. lra.
    - exists i. split; [exact Hi|]. apply Rltb_false. lra. }
  destruct Hwest as (jw & Hjw & Hw). destruct Heast as (je & Hje & He).
  destruct (cyclic_crossing (length poly) west jw je Hjw Hje Hw He)
    as (ju & Hju & Hu1 & Hu2).
  destruct (cyclic_crossing (length poly) (fun j => negb (west j)) je jw Hje Hjw)
    as (jd & Hjd & Hd1 & Hd2); [now rewrite He | now rewrite Hw|].
  apply negb_true_iff in Hd1. apply negb_false_iff in Hd2.
  unfold west in Hu1, Hu2, Hd1, Hd2.
  apply Rltb_true in Hu1. apply Rltb_false in Hu2.
  apply Rltb_false in Hd1. apply Rltb_true in Hd2.
  destruct (crossed_side a lam ju Hju) as (hu & Hhu & Hcu);
    [left; unfold side_at; cbn [fst snd]; lra|].
  destruct (crossed_side a lam jd Hjd) as (hd & Hhd & Hcd);
    [right; unfold side_at; cbn [fst snd]; lra|].
  assert (Hup : 0 < snd (snd (side_at poly ju)) - snd (fst (side_at poly ju)))
    by (unfold side_at; cbn [fst snd]; lra).
  assert (Hdown : snd (snd (side_at poly jd)) - snd (fst (side_at poly jd)) < 0)
    by (unfold side_at; cbn [fst snd]; lra).
  pose proof (raw_on_meridian _ _ _ Hhu) as Eu.
  pose proof (raw_on_meridian _ _ _ Hhd) as Ed.
  (* the two crossings are at least the tolerance apart *)
  pose proof (inner_side_of_crossing s c lam xA poly ju hu HA Hju Hcu) as UA.
  pose proof (inner_side_of_crossing s c lam xB poly ju hu HB Hju Hcu) as UB.
  pose proof (inner_side_of_crossing s c lam xA poly jd hd HA Hjd Hcd) as DA.
  pose proof (inner_side_of_crossing s c lam xB poly jd hd HB Hjd Hcd) as DB.
  assert (Hfar : 1e-8 <= Rabs (fst hu - fst hd)).
  { destruct orientation as [-> | ->];
      factor_sign UA; factor_sign UB; factor_sign DA; factor_sign DB;
      unfold Rabs; destruct (Rcase_abs (fst hu - fst hd)); lra. }
  (* every intersection point is one of the two crossings *)
  assert (Htwo : forall q, In q (raw a lam) -> q = hu \/ q = hd).
  { intros q Hq. pose proof (raw_on_meridian _ _ _ Hq) as Eq.
    pose proof (edge_hit_inner s poly _ _ _ vertices_inner Hq) as Iq.
    pose proof (edge_hit_inner s poly _ _ _ vertices_inner Hhu) as Iu.
    pose proof (edge_hit_inner s poly _ _ _ vertices_inner Hhd) as Id.
    apply in_raw_meridian in Hq. destruct Hq as (i & Hi & Hcq).
    destruct (meridian_crossing_some _ _ _ _ _ Hcq) as (Hne & _ & _).
    destruct q as [xq yq], hu as [xu yu], hd as [xd yd]. cbn [fst snd] in *.
    subst yq yu yd.
    pose proof (inner_side_of_crossing s c lam xq poly ju _ Iq Hju Hcu) as Q1.
    pose proof (inner_side_of_crossing s c lam xq poly jd _ Iq Hjd Hcd) as Q2.
    pose proof (inner_side_of_crossing s c lam xu poly i _ Iu Hi Hcq) as Q3.
    pose proof (inner_side_of_crossing s c lam xd poly i _ Id Hi Hcq) as Q4.
    cbn [fst snd] in Q1, Q2, Q3, Q4.
    destruct (Rlt_le_dec (snd (fst (side_at poly i))) (snd (snd (side_at poly i))))
      as [Hi_up | Hi_down].
    - left. f_equal.
      destruct orientation as [-> | ->]; factor_sign Q1; factor_sign Q3; lra.
    - right. f_equal.
      destruct orientation as [-> | ->]; factor_sign Q2; factor_sign Q4; lra. }
  apply remove_duplicates_two.
  assert (Hf : In (nth 0 (raw a lam) origin) (raw a lam)).
  { apply nth_In. destruct (raw a lam); [destruct Hhu | simpl; lia]. }
  destruct (Htwo _ Hf) as [Ef | Ef].
  - exists hd. split; [exact Hhd|]. rewrite Ef. intros [Hn _].
    rewrite Rabs_minus_sym in Hn. lra.
  - exists hu. split; [exact Hhu|]. rewrite Ef. intros [Hn _]. lra.
Qed.

End ConvexMeridian.

(** ** Probes along a meridian from any latitude *)

Lemma atan2_zero_nonneg (x : R) : 0 <= x -> atan2 0 x = 0.
Proof.
  intros [Hx | <-]; [now apply atan2_zero_pos|].
  unfold atan2. now rewrite !(proj2 (Rltb_false 0 0)) by lra.
Qed.

Lemma radians_plus (x y : R) : radians (x + y) = radians x + radians y.
Proof. unfold radians. field. Qed.

Lemma radians_reach : radians probe_reach = max_extension / earth_radius.
Proof. unfold probe_reach. apply radians_degrees. Qed.

Lemma radians_abs_quarter (lat d : R) :
  0 <= d -> Rabs lat + d <= 90 ->
  - (PI / 2) <= radians lat - radians d /\ radians lat + radians d <= PI / 2 /\
  - (PI / 2) <= radians lat <= PI / 2.
Proof.
  intros Hd H. pose proof PI_RGT_0 as Hpi.
  assert (Hl : -90 + d <= lat <= 90 - d) by (unfold Rabs in H; destruct (Rcase_abs lat); lra).
  unfold radians. repeat split; nra.
Qed.

(** The end of a probe to the north of a point and the end to the south
    lie on the meridian of the point, [probe_reach] degrees away. *)
Lemma destination_north (lat lon : R) :
  Rabs lat + probe_reach <= 90 ->
  point_at_bearing_and_distance lat lon 0 max_extension = (lat + probe_reach, lon).
Proof.
  intros H. pose proof probe_reach_bounds as Hr. pose proof PI_RGT_0 as Hpi.
  destruct (radians_abs_quarter lat probe_reach ltac:(lra) H) as (Hlo & Hhi & Hf).
  rewrite radians_reach in Hlo, Hhi. pose proof reach_angle as He.
  unfold point_at_bearing_and_distance.
  set (e := max_extension / earth_radius) in *. set (f := radians lat) in *.
  rewrite radians_0, sin_0, cos_0.
  replace (sin f * cos e + cos f * sin e * 1) with (sin (f + e)) by (rewrite sin_plus; ring).
  rewrite asin_sin by lra.
  replace (0 * sin e * cos f) with 0 by ring.
  rewrite atan2_zero_nonneg.
  - rewrite Rplus_0_r, degrees_radians, degrees_plus. unfold f.
    rewrite degrees_radians. reflexivity.
  - replace (cos e - sin f * sin (f + e)) with (cos f * cos (f + e)).
    + apply Rmult_le_pos; apply cos_ge_0; lra.
    + rewrite sin_plus, cos_plus. pose proof (sin2_cos2 f) as E. unfold Rsqr in E.
      replace (cos e) with (cos e * (sin f * sin f + cos f * cos f)) at 2
        by (rewrite E; ring).
      ring.
Qed.

Lemma destination_south (lat lon : R) :
  Rabs lat + probe_reach <= 90 ->
  point_at_bearing_and_distance lat lon 180 max_extension = (lat - probe_reach, lon).
Proof.
  intros H. pose proof probe_reach_bounds as Hr. pose proof PI_RGT_0 as Hpi.
  destruct (radians_abs_quarter lat probe_reach ltac:(lra) H) as (Hlo & Hhi & Hf).
  rewrite radians_reach in Hlo, Hhi. pose proof reach_angle as He.
  unfold point_at_bearing_and_distance.
  set (e := max_extension / earth_radius) in *. set (f := radians lat) in *.
  rewrite radians_180, sin_PI, cos_PI.
  replace (sin f * cos e + cos f * sin e * -1) with (sin (f - e)) by (rewrite sin_minus; ring).
  rewrite asin_sin by lra.
  replace (0 * sin e * cos f) with 0 by ring.
  rewrite atan2_zero_nonneg.
  - rewrite Rplus_0_r, degrees_radians.
    replace (f - e) with (f + - e) by ring. rewrite degrees_plus. unfold f.
    rewrite degrees_radians. unfold probe_reach. fold e. f_equal.
    unfold degrees. field. lra.
  - replace (cos e - sin f * sin (f - e)) with (cos f * cos (f - e)).
    + apply Rmult_le_pos; apply cos_ge_0; lra.
    + rewrite sin_minus, cos_minus. pose proof (sin2_cos2 f) as E. unfold Rsqr in E.
      replace (cos e) with (cos e * (sin f * sin f + cos f * cos f)) at 2
        by (rewrite E; ring).
      ring.
Qed.

Lemma fmod_full_turn : fmod 360 360 = 0.
Proof. rewrite (fmod_eval 360 360 1); simpl; lra. Qed.

Lemma probe_ends_northward (lat lon : R) :
  Rabs lat + probe_reach <= 90 ->
  probe_ends lat lon 0 = ((lat + probe_reach, lon), (lat - probe_reach, lon)).
Proof.
  intros H. unfold probe_ends.
  rewrite (fmod_small (0 + 180) 360) by lra. replace (0 + 180) with 180 by ring.
  now rewrite destination_north, destination_south.
Qed.

Lemma probe_ends_southward (lat lon : R) :
  Rabs lat + probe_reach <= 90 ->
  probe_ends lat lon 180 = ((lat - probe_reach, lon), (lat + probe_reach, lon)).
Proof.
  intros H. unfold probe_ends.
  replace (180 + 180) with 360 by ring. rewrite fmod_full_turn.
  now rewrite destination_north, destination_south.
Qed.

(** The shift in longitude, in radians, of the offset point at the angle
    [d] from a centre of latitude [f] radians. *)
Lemma offset_shift_range (f d : R) :
  - (PI / 2) <= d <= PI / 2 ->
  - (PI / 2) <= atan2 (sin d * cos f) (cos d * (cos f * cos f)) <= PI / 2.
Proof.
  intros Hd. pose proof PI_RGT_0 as Hpi. unfold atan2.
  pose proof (atan_bound (sin d * cos f / (cos d * (cos f * cos f)))) as Hb.
  assert (Hx : 0 <= cos d * (cos f * cos f)).
  { apply Rmult_le_pos; [apply cos_ge_0; lra | apply Rle_0_sqr]. }
  rewrite (proj2 (Rltb_false (cos d * (cos f * cos f)) 0)) by exact Hx.
  repeat cmp_cases; lra.
Qed.

Lemma offset_shift_mono (f d1 d2 : R) :
  0 < cos f ->
  - (PI / 2) <= d1 -> d1 <= d2 -> d2 <= PI / 2 ->
  atan2 (sin d1 * cos f) (cos d1 * (cos f * cos f))
  <= atan2 (sin d2 * cos f) (cos d2 * (cos f * cos f)).
Proof.
  intros Hf H1 H12 H2. pose proof PI_RGT_0 as Hpi.
  assert (Hff : 0 < cos f * cos f) by (apply Rmult_lt_0_compat; exact Hf).
  assert (Htop : atan2 (sin (PI / 2) * cos f) (cos (PI / 2) * (cos f * cos f)) = PI / 2).
  { rewrite sin_PI2, cos_PI2. unfold atan2. repeat cmp_cases; lra. }
  assert (Hbot : atan2 (sin (- (PI / 2)) * cos f) (cos (- (PI / 2)) * (cos f * cos f))
                 = - (PI / 2)).
  { rewrite sin_neg, cos_neg, sin_PI2, cos_PI2. unfold atan2. repeat cmp_cases; lra. }
  assert (Hmid : forall d, - (PI / 2) < d < PI / 2 ->
                           atan2 (sin d * cos f) (cos d * (cos f * cos f))
                           = atan (tan d / cos f)).
  { intros d Hd. assert (Hc : 0 < cos d) by (apply cos_gt_0; lra).
    unfold atan2. rewrite (proj2 (Rltb_true 0 (cos d * (cos f * cos f))))
      by (apply Rmult_lt_0_compat; assumption).
    f_equal. unfold tan. field. split; lra. }
  destruct (Req_dec_T d1 d2) as [-> | Hne]; [lra|].
  destruct (Req_dec_T d2 (PI / 2)) as [-> | Hne2].
  { rewrite Htop. apply offset_shift_range. lra. }
  destruct (Req_dec_T d1 (- (PI / 2))) as [-> | Hne1].
  { rewrite Hbot. apply offset_shift_range. lra. }
  rewrite !Hmid by lra. left. apply atan_increasing.
  apply Rmult_lt_compat_r; [apply Rinv_0_lt_compat; exact Hf|].
  apply tan_increasing; lra.
Qed.

Lemma degrees_abs (x : R) : Rabs (degrees x) = degrees (Rabs x).
Proof.
  pose proof PI_RGT_0 as Hpi. unfold degrees.
  replace (x * 180 / PI) with (x * (180 / PI)) by (field; lra).
  rewrite Rabs_mult, (Rabs_right (180 / PI)).
  - field; lra.
  - apply Rle_ge. apply Rmult_le_pos; [lra | left; apply Rinv_0_lt_compat; lra].
Qed.

Lemma radians_abs (x : R) : Rabs (radians x) = radians (Rabs x).
Proof.
  pose proof PI_RGT_0 as Hpi. unfold radians.
  replace (x * PI / 180) with (x * (PI / 180)) by field.
  rewrite Rabs_mult, (Rabs_right (PI / 180)) by lra. field.
Qed.

Lemma degrees_le (x y : R) : x <= y -> degrees x <= degrees y.
Proof.
  intros H. pose proof PI_RGT_0 as Hpi. unfold degrees.
  apply Rmult_le_compat_r; [left; apply Rinv_0_lt_compat; lra | lra].
Qed.

Lemma sin_le_le (x y : R) :
  - (PI / 2) <= x <= PI / 2 -> - (PI / 2) <= y <= PI / 2 -> sin x <= sin y -> x <= y.
Proof. intros Hx Hy H. apply sin_incr_0; lra. Qed.

(** The offset point to the east of the centre: its latitude is no
    farther from the equator than that of the centre. *)
Lemma offset_point_eastward (clat clon o : R) :
  -90 <= clat <= 90 ->
  let f := radians clat in
  let d := o / earth_radius in
  point_at_bearing_and_distance clat clon 90 o =
  (degrees (asin (sin f * cos d)),
   clon + degrees (atan2 (sin d * cos f) (cos d * (cos f * cos f)))) /\
  Rabs (degrees (asin (sin f * cos d))) <= Rabs clat.
Proof.
  intros Hlat f d. pose proof PI_RGT_0 as Hpi.
  pose proof (radians_quarter clat Hlat) as Hf. fold f in Hf.
  assert (Hrange : -1 <= sin f * cos d <= 1).
  { pose proof (destination_latitude_domain f d (PI / 2)) as H.
    rewrite cos_PI2 in H. lra. }
  split.
  - unfold point_at_bearing_and_distance. fold f d.
    rewrite radians_90, sin_PI2, cos_PI2.
    replace (sin f * cos d + cos f * sin d * 0) with (sin f * cos d) by ring.
    rewrite sin_asin by exact Hrange.
    replace (1 * sin d * cos f) with (sin d * cos f) by ring.
    replace (cos d - sin f * (sin f * cos d)) with (cos d * (cos f * cos f)).
    + rewrite degrees_plus. unfold f at 3. now rewrite degrees_radians.
    + pose proof (sin2_cos2 f) as E. unfold Rsqr in E.
      replace (cos d) with (cos d * (sin f * sin f + cos f * cos f)) at 2
        by (rewrite E; ring).
      ring.
  - pose proof (asin_bound (sin f * cos d)) as Hb.
    pose proof (COS_bound d) as [Hc1 Hc2].
    assert (Habs : Rabs (asin (sin f * cos d)) <= Rabs f).
    { unfold Rabs. destruct (Rcase_abs f) as [Hneg | Hpos].
      - assert (Hs : sin f <= 0).
        { rewrite <- (Ropp_involutive f), sin_neg.
          assert (0 <= sin (- f)) by (apply sin_ge_0; lra). lra. }
        assert (Hlo : f <= asin (sin f * cos d)).
        { apply sin_le_le; [lra | lra |]. rewrite sin_asin by exact Hrange. nra. }
        assert (Hhi : asin (sin f * cos d) <= - f).
        { apply sin_le_le; [lra | lra |]. rewrite sin_asin, sin_neg by exact Hrange. nra. }
        destruct (Rcase_abs _); lra.
      - assert (Hs : 0 <= sin f) by (apply sin_ge_0; lra).
        assert (Hlo : - f <= asin (sin f * cos d)).
        { apply sin_le_le; [lra | lra |]. rewrite sin_asin, sin_neg by exact Hrange. nra. }
        assert (Hhi : asin (sin f * cos d) <= f).
        { apply sin_le_le; [lra | lra |]. rewrite sin_asin by exact Hrange. nra. }
        destruct (Rcase_abs _); lra. }
    rewrite degrees_abs. unfold f in Habs. rewrite radians_abs in Habs.
    apply degrees_le in Habs. now rewrite degrees_radians in Habs.
Qed.

Lemma offset_point_westward (clat clon o : R) :
  point_at_bearing_and_distance clat clon 270 o =
  point_at_bearing_and_distance clat clon 90 (- o).
Proof.
  unfold point_at_bearing_and_distance.
  replace (radians 270) with (PI / 2 + PI) by (unfold radians; field).
  rewrite neg_sin, neg_cos, radians_90, sin_PI2, cos_PI2.
  replace (- o / earth_radius) with (- (o / earth_radius)) by (unfold earth_radius; field).
  rewrite sin_neg, cos_neg.
  replace (cos (radians clat) * sin (o / earth_radius) * - 0) with 0 by ring.
  replace (cos (radians clat) * - sin (o / earth_radius) * 0) with 0 by ring.
  replace (- (1) * sin (o / earth_radius) * cos (radians clat))
    with (1 * - sin (o / earth_radius) * cos (radians clat)) by ring.
  reflexivity.
Qed.

Lemma offset_longitude_mono (clat clon o1 o2 : R) :
  Rabs clat < 90 ->
  - (PI / 2) <= o1 / earth_radius -> o1 <= o2 -> o2 / earth_radius <= PI / 2 ->
  snd (point_at_bearing_and_distance clat clon 90 o1)
  <= snd (point_at_bearing_and_distance clat clon 90 o2).
Proof.
  intros Hlat H1 H12 H2. pose proof PI_RGT_0 as Hpi.
  assert (Hl : -90 < clat < 90) by (unfold Rabs in Hlat; destruct (Rcase_abs clat); lra).
  destruct (offset_point_eastward clat clon o1 ltac:(lra)) as [-> _].
  destruct (offset_point_eastward clat clon o2 ltac:(lra)) as [-> _].
  cbn [snd].
  assert (Hf : 0 < cos (radians clat)).
  { apply cos_gt_0; unfold radians; nra. }
  assert (Hd : o1 / earth_radius <= o2 / earth_radius).
  { unfold earth_radius. lra. }
  pose proof (offset_shift_mono (radians clat) _ _ Hf H1 Hd H2) as Hm.
  apply degrees_le in Hm. lra.
Qed.

Lemma offset_latitude_reach (clat clon o : R) :
  Rabs clat + probe_reach <= 90 ->
  Rabs (fst (point_at_bearing_and_distance clat clon 90 o)) + probe_reach <= 90.
Proof.
  intros H. pose proof probe_reach_bounds as Hr.
  assert (Hl : -90 <= clat <= 90) by (unfold Rabs in H; destruct (Rcase_abs clat); lra).
  destruct (offset_point_eastward clat clon o Hl) as [-> Hle]. cbn [fst]. lra.
Qed.

(** With the longest side along a meridian the probes run along
    meridians, through the offset points. *)
Lemma probe_hits_northward (clat clon : R) (poly : polygon) (o : R) :
  Rabs clat + probe_reach <= 90 ->
  probe_hits clat clon 90 0 poly o =
  remove_duplicates
    (edge_hits (fst (point_at_bearing_and_distance clat clon 90 o) + probe_reach,
                snd (point_at_bearing_and_distance clat clon 90 o))
               (fst (point_at_bearing_and_distance clat clon 90 o) + probe_reach
                - 2 * probe_reach,
                snd (point_at_bearing_and_distance clat clon 90 o))
               poly).
Proof.
  intros H. pose proof (offset_latitude_reach clat clon o H) as Hlat.
  unfold probe_hits.
  destruct (point_at_bearing_and_distance clat clon 90 o) as [lat lon].
  cbn [fst snd] in *. rewrite probe_ends_northward by exact Hlat.
  unfold line_polygon_intersections. do 3 f_equal. ring.
Qed.

Lemma probe_hits_southward (clat clon : R) (poly : polygon) (o : R) :
  Rabs clat + probe_reach <= 90 ->
  probe_hits clat clon 270 180 poly o =
  remove_duplicates
    (edge_hits (fst (point_at_bearing_and_distance clat clon 90 (- o)) - probe_reach,
                snd (point_at_bearing_and_distance clat clon 90 (- o)))
               (fst (point_at_bearing_and_distance clat clon 90 (- o)) - probe_reach
                - - (2 * probe_reach),
                snd (point_at_bearing_and_distance clat clon 90 (- o)))
               poly).
Proof.
  intros H. pose proof (offset_latitude_reach clat clon (- o) H) as Hlat.
  unfold probe_hits. rewrite offset_point_westward.
  destruct (point_at_bearing_and_distance clat clon 90 (- o)) as [lat lon].
  cbn [fst snd] in *. rewrite probe_ends_southward by exact Hlat.
  unfold line_polygon_intersections. do 3 f_equal. ring.
Qed.

Lemma prepare_sweep_inv (self : converter) (poly : polygon) (loc : survey_locals) :
  prepare_sweep self poly = Ok loc ->
  loc_perp_bearing loc = fmod (loc_bearing loc + 90) 360 /\
  loc_max_extend loc <= earth_radius * (PI / 2).
Proof.
  unfold prepare_sweep. intros H.
  destruct (find_longest_side_with_bearing poly) as [side| |]; cbn [bind] in H;
    try discriminate.
  destruct (find_polygon_corners poly) as [crn| |]; cbn [bind] in H; try discriminate.
  destruct (get_polygon_bounds poly) as [b| |]; cbn [bind] in H; try discriminate.
  injection H as <-. cbn [loc_perp_bearing loc_bearing loc_max_extend].
  split; [reflexivity | apply half_extent_bound].
Qed.

Lemma quarter_turn_range (o : R) :
  Rabs o <= earth_radius * (PI / 2) -> - (PI / 2) <= o / earth_radius <= PI / 2.
Proof.
  intros Ho. unfold earth_radius in *.
  assert (Hb : - (6371000 * (PI / 2)) <= o <= 6371000 * (PI / 2)).
  { unfold Rabs in Ho. destruct (Rcase_abs o); lra. }
  split.
  - apply Rmult_le_reg_r with 6371000; [lra|].
    replace (o / 6371000 * 6371000) with o by field. lra.
  - apply Rmult_le_reg_r with 6371000; [lra|].
    replace (o / 6371000 * 6371000) with o by field. lra.
Qed.

(** For a convex polygon whose longest side runs along a meridian, the
    retained probes are closed towards the centre line as soon as the
    centre line is retained. *)
Lemma meridian_retention_closed (loc : survey_locals) (poly : polygon) :
  convex_polygon poly ->
  sides_pass_parallel_test poly ->
  loc_bearing loc = 0 /\ loc_perp_bearing loc = 90 \/
  loc_bearing loc = 180 /\ loc_perp_bearing loc = 270 ->
  Rabs (loc_center_lat loc) + probe_reach <= 90 ->
  loc_max_extend loc <= earth_radius * (PI / 2) ->
  (2 <= length (probe_hits (loc_center_lat loc) (loc_center_lon loc)
                           (loc_perp_bearing loc) (loc_bearing loc) poly 0))%nat ->
  retention_closed_towards_center loc poly.
Proof.
  intros Hconvex Hclear Hdir Hlat HM Hcentre o o' Ho Hkept Hbetween.
  pose proof probe_reach_bounds as Hr. pose proof PI_RGT_0 as Hpi.
  destruct (convex_orientation poly Hconvex) as (s & Hs & Hinner).
  assert (Hclat : Rabs (loc_center_lat loc) < 90) by lra.
  assert (Hrange : - (PI / 2) <= o / earth_radius <= PI / 2)
    by (apply quarter_turn_range; lra).
  assert (Hrange' : - (PI / 2) <= o' / earth_radius <= PI / 2).
  { apply quarter_turn_range. unfold Rabs in *.
    destruct (Rcase_abs o); destruct (Rcase_abs o'); lra. }
  assert (Hrange0 : - (PI / 2) <= 0 / earth_radius <= PI / 2).
  { replace (0 / earth_radius) with 0 by (unfold earth_radius; field). lra. }
  assert (Hneg : forall x, - (PI / 2) <= x / earth_radius <= PI / 2 ->
                           - (PI / 2) <= - x / earth_radius <= PI / 2).
  { intros x Hx. replace (- x / earth_radius) with (- (x / earth_radius))
      by (unfold earth_radius; field). lra. }
  destruct Hdir as [[Hb Hp] | [Hb Hp]]; rewrite Hb, Hp in *.
  - assert (Hc : forall i, (i < length poly)%nat ->
               snd (fst (side_at poly i)) = snd (snd (side_at poly i)) \/
               1e-10 <= Rabs (2 * probe_reach) *
                        Rabs (snd (fst (side_at poly i)) - snd (snd (side_at poly i)))).
    { intros i Hi. rewrite (Rabs_right (2 * probe_reach)) by lra. exact (Hclear i Hi). }
    rewrite probe_hits_northward in Hcentre, Hkept |- * by exact Hlat.
    destruct Hbetween as [[H1 H2] | [H1 H2]].
    + apply (meridian_retention_between poly (2 * probe_reach) s Hs Hinner Hc
               _ _ _ _ _ _ (conj (offset_longitude_mono _ _ 0 o' Hclat
                                    (proj1 Hrange0) H1 (proj2 Hrange'))
                                 (offset_longitude_mono _ _ o' o Hclat
                                    (proj1 Hrange') H2 (proj2 Hrange)))
               Hcentre Hkept).
    + apply (meridian_retention_between poly (2 * probe_reach) s Hs Hinner Hc
               _ _ _ _ _ _ (conj (offset_longitude_mono _ _ o o' Hclat
                                    (proj1 Hrange) H1 (proj2 Hrange'))
                                 (offset_longitude_mono _ _ o' 0 Hclat
                                    (proj1 Hrange') H2 (proj2 Hrange0)))
               Hkept Hcentre).
  - assert (Hc : forall i, (i < length poly)%nat ->
               snd (fst (side_at poly i)) = snd (snd (side_at poly i)) \/
               1e-10 <= Rabs (- (2 * probe_reach)) *
                        Rabs (snd (fst (side_at poly i)) - snd (snd (side_at poly i)))).
    { intros i Hi. rewrite Rabs_Ropp, (Rabs_right (2 * probe_reach)) by lra.
      exact (Hclear i Hi). }
    rewrite probe_hits_southward in Hcentre, Hkept |- * by exact Hlat.
    destruct Hbetween as [[H1 H2] | [H1 H2]].
    + apply (meridian_retention_between poly (- (2 * probe_reach)) s Hs Hinner Hc
               _ _ _ _ _ _ (conj (offset_longitude_mono _ _ (- o) (- o') Hclat
                                    (proj1 (Hneg _ Hrange)) ltac:(lra)
                                    (proj2 (Hneg _ Hrange')))
                                 (offset_longitude_mono _ _ (- o') (- 0) Hclat
                                    (proj1 (Hneg _ Hrange')) ltac:(lra)
                                    (proj2 (Hneg _ Hrange0))))
               Hkept Hcentre).
    + apply (meridian_retention_between poly (- (2 * probe_reach)) s Hs Hinner Hc
               _ _ _ _ _ _ (conj (offset_longitude_mono _ _ (- 0) (- o') Hclat
                                    (proj1 (Hneg _ Hrange0)) ltac:(lra)
                                    (proj2 (Hneg _ Hrange')))
                                 (offset_longitude_mono _ _ (- o') (- o) Hclat
                                    (proj1 (Hneg _ Hrange')) ltac:(lra)
                                    (proj2 (Hneg _ Hrange))))
               Hcentre Hkept).
Qed.


Lemma triangle_sides_pass : sides_pass_parallel_test (meridian_triangle 2).
Proof.
  pose proof probe_reach_bounds as Hr.
  intros i Hi. unfold meridian_triangle in *. cbn [length] in Hi.
  destruct i as [|[|[|i]]]; try lia;
    unfold side_at; cbn [length Nat.add Nat.modulo Nat.divmod nth fst snd Nat.sub].
  - left. reflexivity.
  - right. unfold Rabs. destruct (Rcase_abs (0 - 2 / 2)); lra.
  - right. unfold Rabs. destruct (Rcase_abs (2 / 2 - 0)); lra.
Qed.

